(** * The beat / tempo-region engine of [src/lib/annotate.svelte.ts]

    A shallow embedding of the [Annotate] engine: the beat and region data
    model, the tempo estimators, the mutation operations ([addPoint],
    [deletePoint], [tryMovePoint]), the auto-beat projector and the
    save / load pair, followed by the properties of the specification.

    Conventions of the embedding.
    - A JavaScript [number] is an exact rational ([Q]).  [===] on numbers is
      [Qeq]; [<] is [Qlt].  A division by zero, whose JavaScript value is
      [NaN] or an infinity, leaves the model: the operation answers
      [NonFinite].
    - A user beat is a mutable object that is shared between the [userBeats]
      array of a region and the [userBeatsById] map.  Beat objects live in a
      store ([beats]) keyed by their address; the address of a beat object
      is the [id] it was created with, which is never reassigned.
    - A region object is only held by the [regions] array and by locals of
      the running operation; it is kept by value and a local reference to it
      is its position in the array.
    - [opts.save] is recorded in a trace, together with the recompute and
      projection passes of [onRegionsChanged]. *)

From Stdlib Require Import QArith Qround Qminmax Qabs ZArith Lia Lqa String Permutation.
From Stdlib Require Import Ascii DecimalString.
From Stdlib Require Import Floats.
From stdpp Require Import gmap list.

Set Warnings "-inexact-float".

Local Open Scope Q_scope.

(** ** Numbers *)

Definition Qlt_bool (x y : Q) : bool := negb (Qle_bool y x).

(** [Math.round]: the nearest integer, halves going up. *)
Definition Math_round (x : Q) : Z := Qfloor (x + (1 # 2)).

(** [Math.ceil]. *)
Definition Math_ceil (x : Q) : Z := Qceiling x.

(** [Math.sqrt], to twelve decimal places (from below); exact at 0. *)
Definition Math_sqrt (x : Q) : Q :=
  Z.sqrt (Qnum x * 10 ^ 24 / Zpos (Qden x)) # 10 ^ 12.

Definition MAX_TEMPO : Q := 300.
Definition MIN_BEAT_SPACING : Q := 60 / MAX_TEMPO.

(** ** Outcomes of a call *)

Inductive Error : Type :=
| AssertNotNull (message : string)   (* [throw Error(message)] of [assertNotNull] *)
| TypeError                          (* a property read on [undefined] *)
| LoadError (message : string).      (* [throw new Error(...)] while loading *)

Inductive result (A : Type) : Type :=
| Ret (a : A)          (* the call returns *)
| Throw (e : Error)    (* the call throws *)
| Diverge              (* a loop of the call never ends *)
| NonFinite.           (* a number slot would hold NaN, an infinity or
                          undefined: outside the model of numbers *)

Arguments Ret {A} a.
Arguments Throw {A} e.
Arguments Diverge {A}.
Arguments NonFinite {A}.

#[global] Instance result_ret : MRet result := fun A a => Ret a.
#[global] Instance result_bind : MBind result := fun A B k m =>
  match m with
  | Ret a => k a
  | Throw e => Throw e
  | Diverge => Diverge
  | NonFinite => NonFinite
  end.

Definition qdiv (a b : Q) : result Q :=
  if Qeq_bool b 0 then NonFinite else Ret (a / b).

(** ** Data model *)

Module UserBeat.
Record t : Type := mk {
  id : nat;
  regionIndex : nat;
  isTempoChange : bool;
  time : Q;
  localBeatPeriod : option Q
}.
Definition set_regionIndex (b : t) (i : nat) : t :=
  mk (id b) i (isTempoChange b) (time b) (localBeatPeriod b).
Definition set_time (b : t) (x : Q) : t :=
  mk (id b) (regionIndex b) (isTempoChange b) x (localBeatPeriod b).
Definition set_localBeatPeriod (b : t) (p : option Q) : t :=
  mk (id b) (regionIndex b) (isTempoChange b) (time b) p.
End UserBeat.

Module AutoBeat.
Record t : Type := mk {
  id : nat;
  regionIndex : nat;
  time : Q
}.
Definition set_time (b : t) (x : Q) : t := mk (id b) (regionIndex b) x.
End AutoBeat.

Inductive Tempo : Type :=
| tapped (value : option (Q * Q))      (* [{meanPeriod, stddev}] or [null] *)
| fixed (bpm : Q) (phaseOffset : Q).

Module TempoRegion.
Record t : Type := mk {
  id : nat;
  index : nat;
  userBeats : list nat;              (* addresses of beat objects *)
  autoBeats : list AutoBeat.t;
  startTime : Q;
  endTime : Q;
  offbeatsMarked : bool;
  tempo : Tempo
}.
Definition set_index (r : t) (i : nat) : t :=
  mk (id r) i (userBeats r) (autoBeats r) (startTime r) (endTime r)
     (offbeatsMarked r) (tempo r).
Definition set_userBeats (r : t) (l : list nat) : t :=
  mk (id r) (index r) l (autoBeats r) (startTime r) (endTime r)
     (offbeatsMarked r) (tempo r).
Definition set_autoBeats (r : t) (l : list AutoBeat.t) : t :=
  mk (id r) (index r) (userBeats r) l (startTime r) (endTime r)
     (offbeatsMarked r) (tempo r).
Definition set_startTime (r : t) (x : Q) : t :=
  mk (id r) (index r) (userBeats r) (autoBeats r) x (endTime r)
     (offbeatsMarked r) (tempo r).
Definition set_endTime (r : t) (x : Q) : t :=
  mk (id r) (index r) (userBeats r) (autoBeats r) (startTime r) x
     (offbeatsMarked r) (tempo r).
Definition set_tempo (r : t) (x : Tempo) : t :=
  mk (id r) (index r) (userBeats r) (autoBeats r) (startTime r) (endTime r)
     (offbeatsMarked r) x.
End TempoRegion.

Inductive SavedTempo : Type :=
| saved_fixed (bpm : Q)
| saved_tapped.

Module SavedRegion.
Record t : Type := mk {
  offbeatsMarked : bool;
  tempo : SavedTempo;
  markedBeats : list Q;
  inferredBeats : list Q
}.
End SavedRegion.

(** A [SaveObject] is its [tempoRegions] array. *)
Definition SaveObject : Type := list SavedRegion.t.

Inductive Event : Type :=
| EvRecompute (regionId : nat)   (* an estimator ran on this region *)
| EvProject                      (* [drawAutopoints] ran *)
| EvSave (j : SaveObject).       (* [opts.save(j)] was called *)

(** The variables closed over by one [Annotate] instance.  Each counter holds
    the last id it gave out. *)
Module Engine.
Record t : Type := mk {
  regions : list TempoRegion.t;
  beats : gmap nat UserBeat.t;
  userBeatsById : gmap nat (option nat);   (* [None]: the value [undefined] *)
  nextRegionId : nat;
  nextUserBeatId : nat;
  nextAutoBeatId : nat;
  viewport : Q * Q;
  selectedRegionId : option nat;
  trace : list Event
}.
Definition set_regions (s : t) (x : list TempoRegion.t) : t :=
  mk x (beats s) (userBeatsById s) (nextRegionId s) (nextUserBeatId s)
     (nextAutoBeatId s) (viewport s) (selectedRegionId s) (trace s).
Definition set_beats (s : t) (x : gmap nat UserBeat.t) : t :=
  mk (regions s) x (userBeatsById s) (nextRegionId s) (nextUserBeatId s)
     (nextAutoBeatId s) (viewport s) (selectedRegionId s) (trace s).
Definition set_userBeatsById (s : t) (x : gmap nat (option nat)) : t :=
  mk (regions s) (beats s) x (nextRegionId s) (nextUserBeatId s)
     (nextAutoBeatId s) (viewport s) (selectedRegionId s) (trace s).
Definition set_nextRegionId (s : t) (x : nat) : t :=
  mk (regions s) (beats s) (userBeatsById s) x (nextUserBeatId s)
     (nextAutoBeatId s) (viewport s) (selectedRegionId s) (trace s).
Definition set_nextUserBeatId (s : t) (x : nat) : t :=
  mk (regions s) (beats s) (userBeatsById s) (nextRegionId s) x
     (nextAutoBeatId s) (viewport s) (selectedRegionId s) (trace s).
Definition set_nextAutoBeatId (s : t) (x : nat) : t :=
  mk (regions s) (beats s) (userBeatsById s) (nextRegionId s) (nextUserBeatId s)
     x (viewport s) (selectedRegionId s) (trace s).
Definition set_viewport (s : t) (x : Q * Q) : t :=
  mk (regions s) (beats s) (userBeatsById s) (nextRegionId s) (nextUserBeatId s)
     (nextAutoBeatId s) x (selectedRegionId s) (trace s).
Definition set_selectedRegionId (s : t) (x : option nat) : t :=
  mk (regions s) (beats s) (userBeatsById s) (nextRegionId s) (nextUserBeatId s)
     (nextAutoBeatId s) (viewport s) x (trace s).
Definition log (s : t) (e : Event) : t :=
  mk (regions s) (beats s) (userBeatsById s) (nextRegionId s) (nextUserBeatId s)
     (nextAutoBeatId s) (viewport s) (selectedRegionId s) (trace s ++ [e]).
End Engine.

(** ** Arrays *)

(** [arr.findIndex(p)]: the first position where [p] holds, or [-1]. *)
Fixpoint findIndex {A : Type} (p : A -> bool) (l : list A) : Z :=
  match l with
  | [] => (-1)%Z
  | x :: l' => if p x then 0%Z else
                 let i := findIndex p l' in
                 if (i <? 0)%Z then (-1)%Z else (i + 1)%Z
  end.

(** [arr.slice(a, b)] for [0 <= a] and [0 <= b]. *)
Definition slice {A : Type} (a b : nat) (l : list A) : list A :=
  take (b - a) (drop a l).

(** [arr.splice(i, 1)], where a negative [i] counts from the end
    ([-1] is the last position). *)
Definition splice1 {A : Type} (i : Z) (l : list A) : list A :=
  let start := if (i <? 0)%Z then Z.max (Z.of_nat (length l) + i) 0 else i in
  delete (Z.to_nat start) l.

(** [isSortedAscending(arr, key)] *)
Fixpoint sortedFrom (last : Q) (ks : list Q) : bool :=
  match ks with
  | [] => true
  | k :: ks' => if Qlt_bool k last then false else sortedFrom k ks'
  end.

Definition isSortedAscending (ks : list Q) : bool :=
  match ks with
  | [] => true
  | k :: ks' => sortedFrom k ks'
  end.

Section Estimators.

(** [String(x)] for a number, which the comparator-less [Array.prototype.sort]
    orders by. *)
Variable numberToString : Q -> string.

(** [arr.sort()] without comparator: a stable sort by the code units of the
    elements' strings. *)
Fixpoint sortInsert (x : Q) (l : list Q) : list Q :=
  match l with
  | [] => [x]
  | y :: l' =>
      if String.ltb (numberToString x) (numberToString y)
      then x :: y :: l'
      else y :: sortInsert x l'
  end.

Definition jsSort (l : list Q) : list Q :=
  fold_left (fun acc x => sortInsert x acc) l [].

Definition Qsum (l : list Q) : Q := fold_left Qplus l 0.

(** The distances [userBeats[i].time - userBeats[i-1].time], [i >= 1]. *)
Fixpoint distsFrom (prev : Q) (times : list Q) : list Q :=
  match times with
  | [] => []
  | x :: times' => (x - prev) :: distsFrom x times'
  end.

Definition dists (times : list Q) : list Q :=
  match times with
  | [] => []
  | x :: times' => distsFrom x times'
  end.

(** [minDist], with [None] for [Number.POSITIVE_INFINITY]. *)
Definition minDist (ds : list Q) : option Q :=
  fold_left (fun m d => Some (match m with None => d | Some m' => Qmin m' d end))
            ds None.

Definition isCandidate (m : option Q) (d : Q) : bool :=
  match m with
  | None => true
  | Some m' => Qlt_bool d (m' * (12 # 10))
  end.

Definition initialEstimate (ds : list Q) : result Q :=
  let candidates := jsSort (List.filter (isCandidate (minDist ds)) ds) in
  let candidates :=
    if (5 <=? length candidates)%nat then
      let discard :=
        Z.to_nat (Math_ceil (inject_Z (Z.of_nat (length candidates)) * (2 # 10))) in
      slice discard (length candidates - discard) candidates
    else candidates in
  qdiv (Qsum candidates) (inject_Z (Z.of_nat (length candidates))).

Definition periodsOf (est : Q) (d : Q) : result Z :=
  q ← qdiv d est; mret (Math_round q).

Fixpoint countPeriods (est : Q) (ds : list Q) : result Z :=
  match ds with
  | [] => mret 0%Z
  | d :: ds' =>
      p ← periodsOf est d;
      c ← countPeriods est ds';
      mret (p + c)%Z
  end.

Definition meanPeriodOf (est : Q) (ds : list Q) : result Q :=
  count ← countPeriods est ds;
  qdiv (Qsum ds) (inject_Z count).

Fixpoint squaredErrors (est meanBpm : Q) (ds : list Q) : result (list Q) :=
  match ds with
  | [] => mret []
  | d :: ds' =>
      p ← periodsOf est d;
      per ← qdiv d (inject_Z p);
      bpm ← qdiv 60 per;
      rest ← squaredErrors est meanBpm ds';
      mret ((meanBpm - bpm) ^ 2 :: rest)
  end.

Definition varianceOf (est meanBpm : Q) (ds : list Q) : result Q :=
  errs ← squaredErrors est meanBpm ds;
  qdiv (Qsum errs) (inject_Z (Z.of_nat (length errs))).

(** [recomputeTempo], on the times of the region's user beats: the new
    [tempo.value], or [None] when the region has no beat and nothing is
    assigned. *)
Definition recomputeTempo (times : list Q) : result (option (option (Q * Q))) :=
  match times with
  | [] => mret None
  | [_] => mret (Some None)
  | _ =>
      let ds := dists times in
      est ← initialEstimate ds;
      meanPeriod ← meanPeriodOf est ds;
      meanBpm ← qdiv 60 meanPeriod;
      variance ← varianceOf est meanBpm ds;
      mret (Some (Some (meanPeriod, Math_sqrt variance)))
  end.

(** [setTimesBetweenBeats]: the new [localBeatPeriod] of every beat, in the
    order of [userBeats]. *)
Fixpoint periodsBetween (onePeriod prev : Q) (times : list Q) : result (list (option Q)) :=
  match times with
  | [] => mret []
  | x :: times' =>
      let between := x - prev in
      q ← qdiv between onePeriod;
      let nPeriods := Math_round q in
      rest ← periodsBetween onePeriod x times';
      mret ((if (0 <? nPeriods)%Z then Some (between / inject_Z nPeriods) else None) :: rest)
  end.

Definition localBeatPeriods (value : option (Q * Q)) (times : list Q)
  : result (list (option Q)) :=
  match value with
  | None => mret (List.map (fun _ => None) times)
  | Some (onePeriod, _) =>
      match times with
      | [] => mret []
      | x :: times' =>
          rest ← periodsBetween onePeriod x times';
          mret (None :: rest)
      end
  end.

(** [recomputePhaseOffset]: the new [phaseOffset], or [None] when the region
    has no beat and nothing is assigned. *)
Fixpoint phaseErrors (period startTime : Q) (times : list Q) : result (list Q) :=
  match times with
  | [] => mret []
  | x :: times' =>
      let t := x - startTime in
      q ← qdiv t period;
      let nPeriods := Math_round q in
      rest ← phaseErrors period startTime times';
      mret ((inject_Z nPeriods * period - t) :: rest)
  end.

Definition recomputePhaseOffset (bpm startTime : Q) (times : list Q) : result (option Q) :=
  match times with
  | [] => mret None
  | [_] => mret (Some 0)
  | _ :: rest =>
      period ← qdiv 60 bpm;
      errs ← phaseErrors period startTime rest;
      meanError ← qdiv (Qsum errs) (inject_Z (Z.of_nat (length times)) - 1);
      mret (Some (- meanError))
  end.

End Estimators.


(** ** References *)

(** What a variable that is meant to hold a beat object can hold. *)
Inductive ref : Type :=
| null
| undefined
| obj (a : nat).

(** [arr[i]] on an array of beat objects. *)
Definition at_ (l : list nat) (i : nat) : ref :=
  match l !! i with
  | Some a => obj a
  | None => undefined
  end.

(** The beat object at an address.  Every address held by an array or by the
    map was allocated, so the default is never read. *)
Definition beatAt (h : gmap nat UserBeat.t) (a : nat) : UserBeat.t :=
  default (UserBeat.mk a 0 false 0 None) (h !! a).

Definition timeAt (h : gmap nat UserBeat.t) (a : nat) : Q :=
  UserBeat.time (beatAt h a).

(** What a call that returns no value returns. *)
Inductive Returned : Type :=
| returned_null          (* [return null] *)
| returned_undefined.    (* falling off the end *)

Inductive Phase : Type :=
| phase_start
| phase_move
| phase_end.

(** ** Loops over time *)

(** [for (let t = t0; t < upTo; t += step) beats.push(t)], run for at most
    [fuel] rounds. *)
Fixpoint forTimes (fuel : nat) (t upTo step : Q) : option (list Q) :=
  if Qlt_bool t upTo then
    match fuel with
    | O => None
    | S fuel' => cons t <$> forTimes fuel' (t + step) upTo step
    end
  else Some [].

Definition loopBound (t upTo step : Q) : nat :=
  Z.to_nat (Qceiling ((upTo - t) / step)).

(** The loop itself: with a positive step it ends within [loopBound] rounds,
    and with any other step it never ends once entered (see [timesFrom_Ret]
    and [timesFrom_Diverge]). *)
Definition timesFrom (t upTo step : Q) : result (list Q) :=
  if Qlt_bool t upTo then
    if Qlt_bool 0 step then
      match forTimes (loopBound t upTo step) t upTo step with
      | Some l => Ret l
      | None => Diverge
      end
    else Diverge
  else Ret [].

(** ** The engine *)

Section Annotate.

Variable duration : Q.
Variable numberToString : Q -> string.

Definition timesOf (h : gmap nat UserBeat.t) (r : TempoRegion.t) : list Q :=
  List.map (timeAt h) (TempoRegion.userBeats r).

(** [reassignRegionIndices], from position [i] on. *)
Fixpoint reassignFrom (i : nat) (rs : list TempoRegion.t) (h : gmap nat UserBeat.t)
  : list TempoRegion.t * gmap nat UserBeat.t :=
  match rs with
  | [] => ([], h)
  | r :: rs' =>
      let h1 := fold_left (fun h a => alter (fun b => UserBeat.set_regionIndex b i) a h)
                          (TempoRegion.userBeats r) h in
      let '(rs2, h2) := reassignFrom (S i) rs' h1 in
      (TempoRegion.set_index r i :: rs2, h2)
  end.

Definition reassignRegionIndices (s : Engine.t) : Engine.t :=
  let '(rs, h) := reassignFrom 0 (Engine.regions s) (Engine.beats s) in
  Engine.set_beats (Engine.set_regions s rs) h.

(** [computeAutoBeats] *)
Fixpoint tappedAutoBeats (period endTime : Q) (times : list Q) : result (list Q) :=
  match times with
  | [] => mret []
  | x :: times' =>
      let upTo := match times' with
                  | next :: _ => next
                  | [] => endTime
                  end in
      here ← timesFrom (x + period) upTo period;
      rest ← tappedAutoBeats period endTime times';
      mret (here ++ rest)
  end.

Definition computeAutoBeats (h : gmap nat UserBeat.t) (region : TempoRegion.t)
  : result (list Q) :=
  match TempoRegion.tempo region with
  | tapped (Some (meanPeriod, _)) =>
      tappedAutoBeats meanPeriod (TempoRegion.endTime region) (timesOf h region)
  | tapped None => mret []
  | fixed bpm phaseOffset =>
      period ← qdiv 60 bpm;
      timesFrom (TempoRegion.startTime region + phaseOffset)
                (TempoRegion.endTime region) period
  end.

(** [drawAutopoints] *)
Definition drawBuffer : Q := 30.
Definition drawStart (viewport : Q * Q) : Q := Qmax (fst viewport - drawBuffer) 0.
Definition drawEnd (viewport : Q * Q) : Q := Qmin (snd viewport + drawBuffer) duration.

Definition inView (viewport : Q * Q) (r : TempoRegion.t) : bool :=
  Qle_bool (drawStart viewport) (TempoRegion.endTime r)
  && Qlt_bool (TempoRegion.startTime r) (drawEnd viewport).

Definition drawn (viewport : Q * Q) (t : Q) : bool :=
  negb (Qlt_bool t (drawStart viewport) || Qle_bool (drawEnd viewport) t).

(** Placing the times on the auto beats a region already has: the first
    ones are recycled in place, new ones are pushed when they run out, and
    what is left over is cut off. *)
Fixpoint place (regionIndex : nat) (old : list AutoBeat.t) (ts : list Q) (nextId : nat)
  : list AutoBeat.t * nat :=
  match ts with
  | [] => ([], nextId)
  | t :: ts' =>
      match old with
      | b :: old' =>
          let '(l, n) := place regionIndex old' ts' nextId in
          (AutoBeat.set_time b t :: l, n)
      | [] =>
          let '(l, n) := place regionIndex [] ts' (S nextId) in
          (AutoBeat.mk (S nextId) regionIndex t :: l, n)
      end
  end.

Fixpoint projectRegions (viewport : Q * Q) (h : gmap nat UserBeat.t)
         (rs : list TempoRegion.t) (nextId : nat)
  : result (list TempoRegion.t * nat) :=
  match rs with
  | [] => mret ([], nextId)
  | region :: rs' =>
      if inView viewport region then
        autoBeats ← computeAutoBeats h region;
        let '(placed, n) :=
          place (TempoRegion.index region) (TempoRegion.autoBeats region)
                (List.filter (drawn viewport) autoBeats) nextId in
        '(rs2, n2) ← projectRegions viewport h rs' n;
        mret (TempoRegion.set_autoBeats region placed :: rs2, n2)
      else
        '(rs2, n2) ← projectRegions viewport h rs' nextId;
        mret (region :: rs2, n2)
  end.

Definition clearOutOfView (viewport : Q * Q) (r : TempoRegion.t) : TempoRegion.t :=
  if inView viewport r then r else TempoRegion.set_autoBeats r [].

Definition drawAutopoints (s : Engine.t) : result Engine.t :=
  let s := Engine.log s EvProject in
  let cleared := List.map (clearOutOfView (Engine.viewport s)) (Engine.regions s) in
  '(rs, n) ← projectRegions (Engine.viewport s) (Engine.beats s) cleared
                            (Engine.nextAutoBeatId s);
  mret (Engine.set_nextAutoBeatId (Engine.set_regions s rs) n).

(** [saveState] *)
Definition roundTime (t : Q) : Q :=
  inject_Z (Math_round (t * 10 ^ 6)) / 10 ^ 6.

Definition saveRegion (h : gmap nat UserBeat.t) (r : TempoRegion.t) : result SavedRegion.t :=
  inferredBeats ← computeAutoBeats h r;
  mret (SavedRegion.mk
          (TempoRegion.offbeatsMarked r)
          (match TempoRegion.tempo r with
           | fixed bpm _ => saved_fixed bpm
           | tapped _ => saved_tapped
           end)
          (List.map roundTime (timesOf h r))
          inferredBeats).

Fixpoint saveRegions (h : gmap nat UserBeat.t) (rs : list TempoRegion.t) : result SaveObject :=
  match rs with
  | [] => mret []
  | r :: rs' =>
      x ← saveRegion h r;
      rest ← saveRegions h rs';
      mret (x :: rest)
  end.

Definition saveState (s : Engine.t) : result (SaveObject * Engine.t) :=
  j ← saveRegions (Engine.beats s) (Engine.regions s);
  mret (j, Engine.log s (EvSave j)).

(** [onRegionsChanged]: the estimators on one changed region, held at
    position [p] of the array. *)
Definition writeLocalBeatPeriods (h : gmap nat UserBeat.t) (addrs : list nat)
           (ps : list (option Q)) : gmap nat UserBeat.t :=
  fold_left (fun h '(a, p) => alter (fun b => UserBeat.set_localBeatPeriod b p) a h)
            (zip addrs ps) h.

Definition recomputeRegion (s : Engine.t) (p : nat) : result Engine.t :=
  match Engine.regions s !! p with
  | None => mret s
  | Some region =>
      let s := Engine.log s (EvRecompute (TempoRegion.id region)) in
      let times := timesOf (Engine.beats s) region in
      match TempoRegion.tempo region with
      | tapped value =>
          v ← recomputeTempo numberToString times;
          let value := match v with Some v' => v' | None => value end in
          let region := TempoRegion.set_tempo region (tapped value) in
          ps ← localBeatPeriods value times;
          mret (Engine.set_beats
                  (Engine.set_regions s (<[p := region]> (Engine.regions s)))
                  (writeLocalBeatPeriods (Engine.beats s) (TempoRegion.userBeats region) ps))
      | fixed bpm phaseOffset =>
          o ← recomputePhaseOffset bpm (TempoRegion.startTime region) times;
          let phaseOffset := match o with Some o' => o' | None => phaseOffset end in
          mret (Engine.set_regions s
                  (<[p := TempoRegion.set_tempo region (fixed bpm phaseOffset)]>
                     (Engine.regions s)))
      end
  end.

Fixpoint recomputeRegions (s : Engine.t) (changed : list nat) : result Engine.t :=
  match changed with
  | [] => mret s
  | p :: changed' =>
      s1 ← recomputeRegion s p;
      recomputeRegions s1 changed'
  end.

Definition onRegionsChanged (s : Engine.t) (changed : list nat) (doSave : bool)
  : result Engine.t :=
  s1 ← recomputeRegions s changed;
  s2 ← drawAutopoints s1;
  if doSave then
    '(_, s3) ← saveState s2;
    mret s3
  else mret s2.

(** The first region, made by [addPoint] when there is none. *)
Definition ensureRegion (time : Q) (s : Engine.t) : Engine.t :=
  match Engine.regions s with
  | [] =>
      let rid := S (Engine.nextRegionId s) in
      let r := TempoRegion.mk rid 0 [] [] time duration false (tapped None) in
      Engine.set_selectedRegionId
        (Engine.set_nextRegionId (Engine.set_regions s [r]) rid) (Some rid)
  | _ => s
  end.

(** [pointAfter !== null && pointAfter.time - time < MIN_BEAT_SPACING] and
    its mirror image for [pointBefore]. *)
Definition tooClose (h : gmap nat UserBeat.t) (point : ref) (gap : Q -> Q) : result bool :=
  match point with
  | null => mret false
  | undefined => Throw TypeError
  | obj a => mret (Qlt_bool (gap (timeAt h a)) MIN_BEAT_SPACING)
  end.

Definition addPoint (time : Q) (isTempoChange : bool) (s : Engine.t)
  : result (Returned * Engine.t) :=
  let s := ensureRegion time s in
  let regions := Engine.regions s in
  let h := Engine.beats s in
  match regions !! 0%nat with
  | None => Throw TypeError
  | Some region0 =>
  let containingRegionIndex :=
    if Qlt_bool time (TempoRegion.startTime region0) then 0%Z
    else findIndex (fun r => Qle_bool (TempoRegion.startTime r) time
                             && Qlt_bool time (TempoRegion.endTime r)) regions in
  if (containingRegionIndex <? 0)%Z then mret (returned_null, s) else
  let c := Z.to_nat containingRegionIndex in
  match regions !! c with
  | None => Throw TypeError
  | Some containingRegion =>
  let userBeats := TempoRegion.userBeats containingRegion in
  let firstIdxAfter := findIndex (fun p => Qlt_bool time (timeAt h p)) userBeats in
  let insertAt :=
    if (0 <=? firstIdxAfter)%Z then Z.to_nat firstIdxAfter else length userBeats in
  pointAfter ←
    (if (insertAt <? length userBeats)%nat then mret (at_ userBeats insertAt)
     else if (TempoRegion.index containingRegion <? length regions - 1)%nat then
       match regions !! (TempoRegion.index containingRegion + 1)%nat with
       | Some next => mret (at_ (TempoRegion.userBeats next) 0)
       | None => Throw TypeError
       end
     else mret null);
  pointBefore ←
    (if (0 <? insertAt)%nat then mret (at_ userBeats (insertAt - 1))
     else if (0 <? TempoRegion.index containingRegion)%nat then
       match regions !! (TempoRegion.index containingRegion - 1)%nat with
       | Some prev => mret (at_ (TempoRegion.userBeats prev) 0)
       | None => Throw TypeError
       end
     else mret null);
  close ← tooClose h pointAfter (fun t => t - time);
  if close : bool then mret (returned_null, s) else
  if isTempoChange then
    let createNewRegion := negb ((c =? 0)%nat && (insertAt =? 0)%nat) in
    if createNewRegion then
      let newRegionIndex := (TempoRegion.index containingRegion + 1)%nat in
      let bid := S (Engine.nextUserBeatId s) in
      let newBeat := UserBeat.mk bid newRegionIndex true time None in
      let removedFromContaining := drop insertAt userBeats in
      let rid := S (Engine.nextRegionId s) in
      let newRegion :=
        TempoRegion.mk rid newRegionIndex (bid :: removedFromContaining) []
          time (TempoRegion.endTime containingRegion)
          (TempoRegion.offbeatsMarked containingRegion)
          (match TempoRegion.tempo containingRegion with
           | fixed bpm _ => fixed bpm 0
           | tapped _ => tapped None
           end) in
      let containingRegion :=
        TempoRegion.set_endTime
          (TempoRegion.set_userBeats containingRegion (take insertAt userBeats)) time in
      let regions := <[c := containingRegion]> regions in
      let regions := take newRegionIndex regions ++ newRegion :: drop newRegionIndex regions in
      match regions !! newRegionIndex with
      | None => Throw TypeError
      | Some inserted =>
          let s := Engine.set_nextRegionId (Engine.set_nextUserBeatId s bid) rid in
          let s := Engine.set_beats (Engine.set_regions s regions) (<[bid := newBeat]> h) in
          let s := Engine.set_userBeatsById s
                     (<[bid := TempoRegion.userBeats inserted !! 0%nat]>
                        (Engine.userBeatsById s)) in
          let s := reassignRegionIndices s in
          let s := Engine.set_selectedRegionId s (Some rid) in
          s' ← onRegionsChanged s
                 [newRegionIndex; if (newRegionIndex <=? c)%nat then S c else c] true;
          mret (returned_undefined, s')
      end
    else
      let containingRegion := TempoRegion.set_startTime containingRegion time in
      (* the new beat object takes an id and is then dropped: the splice
         below is given no element to insert *)
      let bid := S (Engine.nextUserBeatId s) in
      let s := Engine.set_nextUserBeatId s bid in
      let s := Engine.set_regions s (<[c := containingRegion]> regions) in
      let s := Engine.set_userBeatsById s
                 (<[bid := userBeats !! insertAt]> (Engine.userBeatsById s)) in
      let s := Engine.set_selectedRegionId s (Some (TempoRegion.id containingRegion)) in
      s' ← onRegionsChanged s [c] true;
      mret (returned_undefined, s')
  else
    close ← tooClose h pointBefore (fun t => time - t);
    if close : bool then mret (returned_null, s) else
    let bid := S (Engine.nextUserBeatId s) in
    let newBeat := UserBeat.mk bid c false time (Some 0) in
    let userBeats := take insertAt userBeats ++ bid :: drop insertAt userBeats in
    let containingRegion :=
      TempoRegion.set_startTime
        (TempoRegion.set_userBeats containingRegion userBeats)
        (Qmin time (TempoRegion.startTime containingRegion)) in
    let s := Engine.set_nextUserBeatId s bid in
    let s := Engine.set_beats (Engine.set_regions s (<[c := containingRegion]> regions))
               (<[bid := newBeat]> h) in
    let s := Engine.set_userBeatsById s
               (<[bid := userBeats !! insertAt]> (Engine.userBeatsById s)) in
    let s := Engine.set_selectedRegionId s (Some (TempoRegion.id containingRegion)) in
    s' ← onRegionsChanged s [c] true;
    mret (returned_undefined, s')
  end
  end.

(** [userBeatsById.get(id)] followed by [assertNotNull]. *)
Definition beatById (s : Engine.t) (id : nat) : result nat :=
  match Engine.userBeatsById s !! id with
  | Some (Some a) => mret a
  | _ => Throw (AssertNotNull "beat by id is null")
  end.

Definition deletePoint (id : nat) (s : Engine.t) : result Engine.t :=
  a ← beatById s id;
  let h := Engine.beats s in
  let beat := beatAt h a in
  let regions := Engine.regions s in
  let q := UserBeat.regionIndex beat in
  match regions !! q with
  | None => Throw TypeError
  | Some containingRegion =>
      let userBeats := TempoRegion.userBeats containingRegion in
      if UserBeat.isTempoChange beat then
        match userBeats with
        | [] => Throw TypeError
        | _ =>
            if (0 <? TempoRegion.index containingRegion)%nat then
              let p := (TempoRegion.index containingRegion - 1)%nat in
              match regions !! p with
              | None => Throw TypeError
              | Some previousRegion =>
                  let moved := drop (Nat.max 1 (length userBeats - 1)) userBeats in
                  let previousRegion :=
                    TempoRegion.set_endTime
                      (TempoRegion.set_userBeats previousRegion
                         (TempoRegion.userBeats previousRegion ++ moved))
                      (TempoRegion.endTime containingRegion) in
                  let regions :=
                    delete (TempoRegion.index containingRegion) (<[p := previousRegion]> regions) in
                  let s := reassignRegionIndices (Engine.set_regions s regions) in
                  let s :=
                    if decide (Engine.selectedRegionId s = Some (TempoRegion.id containingRegion))
                    then Engine.set_selectedRegionId s (Some (TempoRegion.id previousRegion))
                    else s in
                  onRegionsChanged s [p] true
              end
            else onRegionsChanged s [] true
        end
      else
        let idxInRegion := findIndex (fun b => (UserBeat.id (beatAt h b) =? id)%nat) userBeats in
        let userBeats := splice1 idxInRegion userBeats in
        match userBeats with
        | first :: _ =>
            let containingRegion :=
              TempoRegion.set_startTime
                (TempoRegion.set_userBeats containingRegion userBeats) (timeAt h first) in
            onRegionsChanged (Engine.set_regions s (<[q := containingRegion]> regions)) [q] true
        | [] =>
            let containingRegion := TempoRegion.set_userBeats containingRegion userBeats in
            let regions :=
              delete (TempoRegion.index containingRegion) (<[q := containingRegion]> regions) in
            let s := Engine.set_regions s regions in
            let s :=
              if decide (Engine.selectedRegionId s = Some (TempoRegion.id containingRegion))
              then Engine.set_selectedRegionId s None
              else s in
            onRegionsChanged (reassignRegionIndices s) [] true
        end
  end.

Definition tryMovePoint (id : nat) (toTime : Q) (what : Phase) (s : Engine.t)
  : result (Q * Engine.t) :=
  a ← beatById s id;
  let h := Engine.beats s in
  let beat := beatAt h a in
  let regions := Engine.regions s in
  let q := UserBeat.regionIndex beat in
  match regions !! q with
  | None => Throw TypeError
  | Some containingRegion =>
      let prevRegion := if (0 <? q)%nat then regions !! (q - 1)%nat else None in
      let userBeats := TempoRegion.userBeats containingRegion in
      let len := Z.of_nat (length userBeats) in
      let beatIdx :=
        findIndex (fun b => (UserBeat.id (beatAt h b) =? UserBeat.id beat)%nat) userBeats in
      let clamped := toTime in
      let clamped :=
        if (0 <? beatIdx)%Z then
          match userBeats !! Z.to_nat (beatIdx - 1) with
          | Some b => Qmax clamped (timeAt h b + MIN_BEAT_SPACING)
          | None => clamped
          end
        else
          match prevRegion with
          | Some prev =>
              match last (TempoRegion.userBeats prev) with
              | Some b => Qmax clamped (timeAt h b + MIN_BEAT_SPACING)
              | None => clamped
              end
          | None => clamped
          end in
      clamped ←
        (if (beatIdx <? len - 1)%Z then
           match userBeats !! Z.to_nat (beatIdx + 1) with
           | Some b => mret (Qmin clamped (timeAt h b - MIN_BEAT_SPACING))
           | None => Throw TypeError
           end
         else if (Z.of_nat (TempoRegion.index containingRegion)
                  <? Z.of_nat (length regions) - 1)%Z then
           match regions !! (TempoRegion.index containingRegion + 1)%nat with
           | Some nextRegion =>
               match TempoRegion.userBeats nextRegion with
               | b :: _ => mret (Qmin clamped (timeAt h b - MIN_BEAT_SPACING))
               | [] => Throw TypeError
               end
           | None => Throw TypeError
           end
         else mret clamped);
      let clamped :=
        if ((Z.of_nat (TempoRegion.index containingRegion) =? Z.of_nat (length regions) - 1)
            && (beatIdx =? len - 1))%Z
        then Qmin clamped duration
        else clamped in
      let h := alter (fun b => UserBeat.set_time b clamped) a h in
      let regions :=
        if (beatIdx =? 0)%Z then
          let regions := <[q := TempoRegion.set_startTime containingRegion clamped]> regions in
          match prevRegion with
          | Some prev => <[(q - 1)%nat := TempoRegion.set_endTime prev clamped]> regions
          | None => regions
          end
        else regions in
      let s := Engine.set_beats (Engine.set_regions s regions) h in
      match what with
      | phase_end =>
          s' ← onRegionsChanged s [q] true;
          mret (clamped, s')
      | _ => mret (clamped, s)
      end
  end.

Definition setViewport (v : Q * Q) (s : Engine.t) : result Engine.t :=
  if Qeq_bool (fst v) (fst (Engine.viewport s))
     && Qeq_bool (snd v) (snd (Engine.viewport s))
  then mret s
  else drawAutopoints (Engine.set_viewport s v).

(** [save] of the returned interface. *)
Definition save (s : Engine.t) : result (SaveObject * Engine.t) := saveState s.

(** ** Construction *)

Definition initial : Engine.t :=
  Engine.mk [] ∅ ∅ 0 0 0 (0, 0) None [].

(** The user beats of one loaded region: their addresses and the store that
    holds them, ids running on from [nextId]. *)
Fixpoint loadBeats (regionIdx beatIdx : nat) (markedBeats : list Q) (nextId : nat)
         (h : gmap nat UserBeat.t) : list nat * nat * gmap nat UserBeat.t :=
  match markedBeats with
  | [] => ([], nextId, h)
  | beat :: rest =>
      let bid := S nextId in
      let b := UserBeat.mk bid regionIdx (beatIdx =? 0)%nat beat None in
      let '(l, n, h') := loadBeats regionIdx (S beatIdx) rest bid (<[bid := b]> h) in
      (bid :: l, n, h')
  end.

(** [arr[0]] read as a time. *)
Definition firstTime (markedBeats : list Q) : result Q :=
  match markedBeats with
  | x :: _ => mret x
  | [] => NonFinite
  end.

Fixpoint loadRegions (regionIdx : nat) (saved : list SavedRegion.t) (s : Engine.t)
  : result (list TempoRegion.t * Engine.t) :=
  match saved with
  | [] => mret ([], s)
  | savedRegion :: rest =>
      let tempo := match SavedRegion.tempo savedRegion with
                   | saved_fixed bpm => fixed bpm 0
                   | saved_tapped => tapped None
                   end in
      startTime ← firstTime (SavedRegion.markedBeats savedRegion);
      endTime ← match rest with
                | next :: _ => firstTime (SavedRegion.markedBeats next)
                | [] => mret duration
                end;
      if Qle_bool endTime startTime then
        Throw (LoadError "invalid region start/end times")
      else if negb (isSortedAscending (SavedRegion.markedBeats savedRegion)) then
        Throw (LoadError "invalid save file: beats not in ascending order")
      else
        let '(userBeats, n, h) :=
          loadBeats regionIdx 0 (SavedRegion.markedBeats savedRegion)
                    (Engine.nextUserBeatId s) (Engine.beats s) in
        let rid := S (Engine.nextRegionId s) in
        let region :=
          TempoRegion.mk rid regionIdx userBeats [] startTime endTime
                         (SavedRegion.offbeatsMarked savedRegion) tempo in
        let s := Engine.set_nextRegionId
                   (Engine.set_nextUserBeatId (Engine.set_beats s h) n) rid in
        '(loaded, s') ← loadRegions (S regionIdx) rest s;
        mret (region :: loaded, s')
  end.

(** [userBeatsById.set(ub.id, ub)] for every beat of every region. *)
Definition registerBeats (h : gmap nat UserBeat.t) (rs : list TempoRegion.t)
           (m : gmap nat (option nat)) : gmap nat (option nat) :=
  fold_left (fun m r => fold_left (fun m ub => <[UserBeat.id (beatAt h ub) := Some ub]> m)
                                  (TempoRegion.userBeats r) m) rs m.

Definition Annotate (loadSaved : option SaveObject) : result Engine.t :=
  match loadSaved with
  | None => mret initial
  | Some saved =>
      '(loadedRegions, s) ← loadRegions 0 saved initial;
      let s := Engine.set_regions s (Engine.regions s ++ loadedRegions) in
      let s := Engine.set_userBeatsById s
                 (registerBeats (Engine.beats s) (Engine.regions s)
                                (Engine.userBeatsById s)) in
      let s := reassignRegionIndices s in
      onRegionsChanged s (seq 0 (length (Engine.regions s))) false
  end.

End Annotate.

(** ** An instance of [String(x)]

    The decimal expansion of a number, cut after 17 fractional digits, which
    is what [String] prints for a number with a short expansion: ["10"],
    ["0.5"], ["-1.175"]. *)

Fixpoint stripZeros (k : nat) (n : Z) : nat * Z :=
  match k with
  | O => (O, n)
  | S k' => if (n mod 10 =? 0)%Z then stripZeros k' (n / 10)%Z else (k, n)
  end.

Fixpoint zeros (k : nat) : string :=
  match k with
  | O => EmptyString
  | S k' => String "0"%char (zeros k')
  end.

Definition decimalString (x : Q) : string :=
  let a := Z.abs (Qnum x) in
  let d := Zpos (Qden x) in
  let '(k, f) := stripZeros 17 ((a mod d) * 10 ^ 17 / d)%Z in
  let digits := NilEmpty.string_of_uint (N.to_uint (Z.to_N f)) in
  ((if (Qnum x <? 0)%Z then "-" else EmptyString)
   ++ NilZero.string_of_uint (N.to_uint (Z.to_N (a / d)))
   ++ (if (k =? 0)%nat then EmptyString
       else "." ++ zeros (k - String.length digits) ++ digits))%string.

(** ** Predicates of the statements *)

(** A region whose projection loop ends: a positive period. *)
Definition steady (r : TempoRegion.t) : bool :=
  match TempoRegion.tempo r with
  | tapped (Some (meanPeriod, _)) => Qlt_bool 0 meanPeriod
  | tapped None => true
  | fixed bpm _ => Qlt_bool 0 bpm
  end.

(** Where [computeAutoBeats] puts a time [x]: for a fixed region from
    [startTime + phaseOffset] up to [endTime]; for a tapped region after a
    user beat and before the next one, or before [endTime] after the last. *)
Definition autoBeatPlace (h : gmap nat UserBeat.t) (r : TempoRegion.t) (x : Q) : Prop :=
  match TempoRegion.tempo r with
  | fixed _ phaseOffset =>
      TempoRegion.startTime r + phaseOffset <= x /\ x < TempoRegion.endTime r
  | tapped _ =>
      exists u upTo, In u (timesOf h r)
                     /\ (upTo = TempoRegion.endTime r \/ In upTo (timesOf h r))
                     /\ u < x /\ x < upTo
  end.

(** What [projectRegions] makes of one region. *)
Definition projected (duration : Q) (vp : Q * Q) (h : gmap nat UserBeat.t)
           (r r' : TempoRegion.t) : Prop :=
  r' = TempoRegion.set_autoBeats r (TempoRegion.autoBeats r') /\
  if inView duration vp r then
    exists l, computeAutoBeats h r = Ret l /\
              List.map AutoBeat.time (TempoRegion.autoBeats r')
              = List.filter (drawn duration vp) l
  else TempoRegion.autoBeats r' = TempoRegion.autoBeats r.

(** What [drawAutopoints] makes of one region. *)
Definition redrawn (duration : Q) (vp : Q * Q) (h : gmap nat UserBeat.t)
           (r r' : TempoRegion.t) : Prop :=
  r' = TempoRegion.set_autoBeats r (TempoRegion.autoBeats r') /\
  if inView duration vp r then
    exists l, computeAutoBeats h r = Ret l /\
              List.map AutoBeat.time (TempoRegion.autoBeats r')
              = List.filter (drawn duration vp) l
  else TempoRegion.autoBeats r' = [].

(** What the estimators, the projector and the save callback leave alone:
    of a tempo its kind and its bpm, of a beat all but [localBeatPeriod], of
    a region all but [tempo] and [autoBeats], of the engine all but the
    auto-beat counter and the trace. *)
Definition sameKind (t t' : Tempo) : Prop :=
  match t, t' with
  | tapped _, tapped _ => True
  | fixed bpm _, fixed bpm' _ => bpm' = bpm
  | _, _ => False
  end.

Definition sameBeat (b b' : UserBeat.t) : Prop :=
  b' = UserBeat.set_localBeatPeriod b (UserBeat.localBeatPeriod b').

Definition sameBeats (h h' : gmap nat UserBeat.t) : Prop :=
  forall a, option_Forall2 sameBeat (h !! a) (h' !! a).

Definition sameRegion (r r' : TempoRegion.t) : Prop :=
  r' = TempoRegion.set_tempo
         (TempoRegion.set_autoBeats r (TempoRegion.autoBeats r')) (TempoRegion.tempo r')
  /\ sameKind (TempoRegion.tempo r) (TempoRegion.tempo r').

Definition sameStructure (s s' : Engine.t) : Prop :=
  Forall2 sameRegion (Engine.regions s) (Engine.regions s')
  /\ sameBeats (Engine.beats s) (Engine.beats s')
  /\ Engine.userBeatsById s' = Engine.userBeatsById s
  /\ Engine.nextRegionId s' = Engine.nextRegionId s
  /\ Engine.nextUserBeatId s' = Engine.nextUserBeatId s
  /\ Engine.viewport s' = Engine.viewport s
  /\ Engine.selectedRegionId s' = Engine.selectedRegionId s.

(** The neighbours of the beat at position [i] of the region at position
    [q]: the beat before it (in its region, or the last one of the region
    before), the beat after it (in its region, or the first one of the
    region after), and whether it is the last beat of the last region. *)
Definition predecessor (s : Engine.t) (q i : nat) : option nat :=
  match Engine.regions s !! q with
  | None => None
  | Some r =>
      if (0 <? i)%nat then TempoRegion.userBeats r !! (i - 1)%nat
      else if (0 <? q)%nat then
        match Engine.regions s !! (q - 1)%nat with
        | Some prev => last (TempoRegion.userBeats prev)
        | None => None
        end
      else None
  end.

Definition successor (s : Engine.t) (q i : nat) : option nat :=
  match Engine.regions s !! q with
  | None => None
  | Some r =>
      if (S i <? length (TempoRegion.userBeats r))%nat then TempoRegion.userBeats r !! S i
      else
        match Engine.regions s !! S q with
        | Some next => head (TempoRegion.userBeats next)
        | None => None
        end
  end.

Definition isFinal (s : Engine.t) (q i : nat) : bool :=
  match Engine.regions s !! q with
  | None => false
  | Some r =>
      (S q =? length (Engine.regions s))%nat
      && (S i =? length (TempoRegion.userBeats r))%nat
  end.

(** The clamp of [tryMovePoint] in terms of the neighbours' times. *)
Definition clampTo (duration toTime : Q) (before after : option Q) (final : bool) : Q :=
  let clamped := match before with
                 | Some p => Qmax toTime (p + MIN_BEAT_SPACING)
                 | None => toTime
                 end in
  let clamped := match after with
                 | Some n => Qmin clamped (n - MIN_BEAT_SPACING)
                 | None => clamped
                 end in
  if final then Qmin clamped duration else clamped.

(** A [SaveObject] that the constructor takes: every region has a beat,
    its beat times ascend strictly, its first beat is before the first beat
    of the next region (the track duration for the last region), and a fixed
    tempo has a positive bpm. *)
Fixpoint strictlyAscending (l : list Q) : bool :=
  match l with
  | [] => true
  | x :: l' =>
      match l' with
      | [] => true
      | y :: _ => Qlt_bool x y && strictlyAscending l'
      end
  end.

Definition loadableRegion (endTime : Q) (r : SavedRegion.t) : bool :=
  match SavedRegion.markedBeats r with
  | [] => false
  | t0 :: _ =>
      Qlt_bool t0 endTime
      && strictlyAscending (SavedRegion.markedBeats r)
      && match SavedRegion.tempo r with
         | saved_fixed bpm => Qlt_bool 0 bpm
         | saved_tapped => true
         end
  end.

Fixpoint loadable (duration : Q) (saved : SaveObject) : bool :=
  match saved with
  | [] => true
  | r :: rest =>
      loadableRegion
        (match rest with
         | next :: _ =>
             match SavedRegion.markedBeats next with
             | t :: _ => t
             | [] => duration
             end
         | [] => duration
         end) r
      && loadable duration rest
  end.

(** The tempo a region is saved with. *)
Definition savedTempo (t : Tempo) : SavedTempo :=
  match t with
  | fixed bpm _ => saved_fixed bpm
  | tapped _ => saved_tapped
  end.

(** A region on which the estimators stay within the numbers: ascending
    beats for a tapped region, a positive bpm for a fixed one. *)
Definition estimable (h : gmap nat UserBeat.t) (r : TempoRegion.t) : Prop :=
  match TempoRegion.tempo r with
  | tapped value =>
      Forall (fun d => 0 < d) (dists (timesOf h r))
      /\ (timesOf h r = [] -> value = None)
  | fixed bpm _ => 0 < bpm
  end.

Definition allEstimable (s : Engine.t) : Prop :=
  forall p r, Engine.regions s !! p = Some r -> estimable (Engine.beats s) r.

(** What a loaded region has of the saved one. *)
Definition loadedFrom (h : gmap nat UserBeat.t) (saved : SavedRegion.t) (r : TempoRegion.t)
  : Prop :=
  timesOf h r = SavedRegion.markedBeats saved
  /\ savedTempo (TempoRegion.tempo r) = SavedRegion.tempo saved
  /\ TempoRegion.offbeatsMarked r = SavedRegion.offbeatsMarked saved
  /\ estimable h r.



Definition Zsum (ks : list Z) : Z := fold_right Z.add 0%Z ks.

(** ** The invariant of the region list *)

(** The user beats held by the regions. *)
Fixpoint heldBeats (rs : list TempoRegion.t) : list nat :=
  match rs with
  | [] => []
  | r :: rs' => TempoRegion.userBeats r ++ heldBeats rs'
  end.

(** An id that names a beat of some region. *)
Definition liveId (s : Engine.t) (id : nat) : Prop := id ∈ heldBeats (Engine.regions s).

(** Every region ends where the next one starts, the last one at [final]. *)
Fixpoint contiguousTo (final : Q) (rs : list TempoRegion.t) : Prop :=
  match rs with
  | [] => True
  | r :: rest =>
      TempoRegion.endTime r == match rest with
                               | r' :: _ => TempoRegion.startTime r'
                               | [] => final
                               end
      /\ contiguousTo final rest
  end.

(** Where a list of regions starts: at its first region, or at [final]. *)
Definition startOf (final : Q) (rs : list TempoRegion.t) : Q :=
  match rs with
  | r :: _ => TempoRegion.startTime r
  | [] => final
  end.

(** A region that starts at its first beat, a tempo-change beat. *)
Definition anchored (h : gmap nat UserBeat.t) (r : TempoRegion.t) : Prop :=
  match TempoRegion.userBeats r with
  | a :: _ => UserBeat.isTempoChange (beatAt h a) = true
              /\ timeAt h a == TempoRegion.startTime r
  | [] => False
  end.

Record Inv (duration : Q) (s : Engine.t) : Prop := {
  inv_index :
    forall p r, Engine.regions s !! p = Some r -> TempoRegion.index r = p;
  inv_regionIndex :
    forall p r a, Engine.regions s !! p = Some r -> a ∈ TempoRegion.userBeats r ->
                  UserBeat.regionIndex (beatAt (Engine.beats s) a) = p;
  inv_alloc :
    forall a, a ∈ heldBeats (Engine.regions s) ->
              exists b, Engine.beats s !! a = Some b /\ UserBeat.id b = a;
  inv_known :
    forall a, a ∈ heldBeats (Engine.regions s) ->
              (a <= Engine.nextUserBeatId s)%nat
              /\ Engine.userBeatsById s !! a = Some (Some a);
  inv_nodup : NoDup (heldBeats (Engine.regions s));
  inv_contiguous : contiguousTo duration (Engine.regions s);
  inv_anchored : Forall (anchored (Engine.beats s)) (tail (Engine.regions s))
}.

(** The part of the invariant that does not speak of indices. *)
Record Pre (duration : Q) (s : Engine.t) : Prop := {
  pre_alloc :
    forall a, a ∈ heldBeats (Engine.regions s) ->
              exists b, Engine.beats s !! a = Some b /\ UserBeat.id b = a;
  pre_known :
    forall a, a ∈ heldBeats (Engine.regions s) ->
              (a <= Engine.nextUserBeatId s)%nat
              /\ Engine.userBeatsById s !! a = Some (Some a);
  pre_nodup : NoDup (heldBeats (Engine.regions s));
  pre_contiguous : contiguousTo duration (Engine.regions s);
  pre_anchored : Forall (anchored (Engine.beats s)) (tail (Engine.regions s))
}.

(** Two engines that differ in derived fields only. *)
Definition coreRegion (r r' : TempoRegion.t) : Prop :=
  TempoRegion.userBeats r' = TempoRegion.userBeats r
  /\ TempoRegion.startTime r' = TempoRegion.startTime r
  /\ TempoRegion.endTime r' = TempoRegion.endTime r.

Definition coreBeat (b b' : UserBeat.t) : Prop :=
  UserBeat.id b' = UserBeat.id b
  /\ UserBeat.isTempoChange b' = UserBeat.isTempoChange b
  /\ UserBeat.time b' = UserBeat.time b.

Definition coreEq (s s' : Engine.t) : Prop :=
  Forall2 coreRegion (Engine.regions s) (Engine.regions s')
  /\ (forall a, option_Forall2 coreBeat (Engine.beats s !! a) (Engine.beats s' !! a))
  /\ Engine.userBeatsById s' = Engine.userBeatsById s
  /\ Engine.nextUserBeatId s' = Engine.nextUserBeatId s.

(** The calls of the claim about the invariant: any [addPoint], and
    [deletePoint] with the id of a beat that some region holds. *)
Inductive reachable (duration : Q) (numberToString : Q -> string) : Engine.t -> Prop :=
| reach_initial : reachable duration numberToString initial
| reach_addPoint (s s' : Engine.t) (time : Q) (isTempoChange : bool) (ret : Returned) :
    reachable duration numberToString s ->
    addPoint duration numberToString time isTempoChange s = Ret (ret, s') ->
    reachable duration numberToString s'
| reach_deletePoint (s s' : Engine.t) (id : nat) :
    reachable duration numberToString s ->
    liveId s id ->
    deletePoint duration numberToString id s = Ret s' ->
    reachable duration numberToString s'.

(** ** Sequences of calls *)

Inductive Call : Type :=
| call_addPoint (time : Q) (isTempoChange : bool)
| call_deletePoint (id : nat).

Definition call (duration : Q) (numberToString : Q -> string) (c : Call) (s : Engine.t)
  : result Engine.t :=
  match c with
  | call_addPoint time isTempoChange =>
      '(_, s') ← addPoint duration numberToString time isTempoChange s;
      mret s'
  | call_deletePoint id => deletePoint duration numberToString id s
  end.

Fixpoint calls (duration : Q) (numberToString : Q -> string) (cs : list Call) (s : Engine.t)
  : result Engine.t :=
  match cs with
  | [] => mret s
  | c :: cs' =>
      s1 ← call duration numberToString c s;
      calls duration numberToString cs' s1
  end.

(** ** The rest of the interface *)

Section Interface.

Variable duration : Q.
Variable numberToString : Q -> string.

(** [regions.find((r) => r.id === id)]: the first region of that id, with
    its position in the array. *)
Definition findRegion (s : Engine.t) (id : nat) : option (nat * TempoRegion.t) :=
  list_find (fun r => TempoRegion.id r = id) (Engine.regions s).

(** [regionById] *)
Definition regionById (id : nat) (s : Engine.t) : result TempoRegion.t :=
  match findRegion s id with
  | Some (_, r) => mret r
  | None => Throw (AssertNotNull "region by id is null")
  end.

Inductive TempoType : Type :=
| type_fixed
| type_tapped.

(** [setRegionType] *)
Definition setRegionType (regionId : nat) (type : TempoType) (s : Engine.t)
  : result Engine.t :=
  match findRegion s regionId with
  | None => Throw (AssertNotNull "region by id is null")
  | Some (p, region) =>
      match type, TempoRegion.tempo region with
      | type_fixed, tapped value =>
          bpm ← match value with
                | Some (meanPeriod, _) =>
                    q ← qdiv 60 meanPeriod;
                    mret (inject_Z (Math_round (q * 100)) / 100)
                | None => mret 60
                end;
          let region := TempoRegion.set_tempo region (fixed bpm 0) in
          onRegionsChanged duration numberToString
            (Engine.set_regions s (<[p := region]> (Engine.regions s))) [p] true
      | type_tapped, fixed _ _ =>
          let region := TempoRegion.set_tempo region (tapped None) in
          onRegionsChanged duration numberToString
            (Engine.set_regions s (<[p := region]> (Engine.regions s))) [p] true
      | _, _ => mret s
      end
  end.

(** [setRegionFixedTempo] *)
Definition setRegionFixedTempo (regionId : nat) (bpm : Q) (s : Engine.t)
  : result Engine.t :=
  match findRegion s regionId with
  | None => Throw (AssertNotNull "region by id is null")
  | Some (p, region) =>
      match TempoRegion.tempo region with
      | fixed _ phaseOffset =>
          let region := TempoRegion.set_tempo region (fixed bpm phaseOffset) in
          onRegionsChanged duration numberToString
            (Engine.set_regions s (<[p := region]> (Engine.regions s))) [p] true
      | tapped _ => mret s
      end
  end.

(** The getter [selectedRegion]. *)
Definition selectedRegion (s : Engine.t) : result (option TempoRegion.t) :=
  match Engine.selectedRegionId s with
  | Some id =>
      match findRegion s id with
      | Some (_, r) => mret (Some r)
      | None => Throw (AssertNotNull "region by id is null")
      end
  | None => mret None
  end.

(** The setter [selectedRegionId]. *)
Definition selectRegion (id : option nat) (s : Engine.t) : Engine.t :=
  match id with
  | Some i =>
      match findRegion s i with
      | None => s
      | Some _ => Engine.set_selectedRegionId s id
      end
  | None => Engine.set_selectedRegionId s id
  end.

(** One call on the returned interface, and a sequence of them. *)
Inductive Request : Type :=
| req_addPoint (time : Q) (isTempoChange : bool)
| req_deletePoint (id : nat)
| req_tryMovePoint (id : nat) (toTime : Q) (what : Phase)
| req_setRegionFixedTempo (regionId : nat) (bpm : Q)
| req_setRegionType (regionId : nat) (type : TempoType)
| req_setViewport (v : Q * Q)
| req_save
| req_selectRegion (id : option nat).

Definition serve (r : Request) (s : Engine.t) : result Engine.t :=
  match r with
  | req_addPoint time isTempoChange =>
      '(_, s') ← addPoint duration numberToString time isTempoChange s; mret s'
  | req_deletePoint id => deletePoint duration numberToString id s
  | req_tryMovePoint id toTime what =>
      '(_, s') ← tryMovePoint duration numberToString id toTime what s; mret s'
  | req_setRegionFixedTempo regionId bpm => setRegionFixedTempo regionId bpm s
  | req_setRegionType regionId type => setRegionType regionId type s
  | req_setViewport v => setViewport duration v s
  | req_save => '(_, s') ← save s; mret s'
  | req_selectRegion id => mret (selectRegion id s)
  end.

Fixpoint serveAll (rs : list Request) (s : Engine.t) : result Engine.t :=
  match rs with
  | [] => mret s
  | r :: rs' => s1 ← serve r s; serveAll rs' s1
  end.

End Interface.

(** ** Predicates of the further statements *)

(** What the constructor checks of a [SaveObject]: every region has a first
    beat, which is before the first beat of the region after it (before
    the track duration for the last region), and no beat of a region is
    earlier than a beat before it. *)
Fixpoint checkedByLoader (duration : Q) (saved : SaveObject) : bool :=
  match saved with
  | [] => true
  | r :: rest =>
      match SavedRegion.markedBeats r with
      | [] => false
      | t0 :: _ =>
          match rest with
          | next :: _ =>
              match SavedRegion.markedBeats next with
              | t1 :: _ => Qlt_bool t0 t1
              | [] => false
              end
          | [] => Qlt_bool t0 duration
          end
          && isSortedAscending (SavedRegion.markedBeats r)
          && checkedByLoader duration rest
      end
  end.

(** The tempo a region is loaded with. *)
Definition loadedTempo (t : SavedTempo) : Tempo :=
  match t with
  | saved_fixed bpm => fixed bpm 0
  | saved_tapped => tapped None
  end.

(** A request that names a beat is admissible when some region holds a
    beat of that id. *)
Definition admissible (s : Engine.t) (r : Request) : Prop :=
  match r with
  | req_deletePoint id => liveId s id
  | req_tryMovePoint id _ _ => liveId s id
  | _ => True
  end.

(** The states of an engine instance: the one that the constructor returns,
    and those that follow by requests that [allowed] lets through and that
    return. *)
Inductive sessionOf (allowed : Engine.t -> Request -> Prop)
          (duration : Q) (numberToString : Q -> string) (loadSaved : option SaveObject)
  : Engine.t -> Prop :=
| session_new (s : Engine.t) :
    Annotate duration numberToString loadSaved = Ret s ->
    sessionOf allowed duration numberToString loadSaved s
| session_serve (s s' : Engine.t) (r : Request) :
    sessionOf allowed duration numberToString loadSaved s ->
    allowed s r ->
    serve duration numberToString r s = Ret s' ->
    sessionOf allowed duration numberToString loadSaved s'.

(** Sessions in which beats are named by the ids of held beats, and
    sessions of any requests. *)
Definition session := sessionOf admissible.


(** A call that does not throw: it returns, or it leaves the model. *)
Definition noThrow {A : Type} (m : result A) : Prop := forall e, m <> Throw e.

(** An edit that has gone through [onRegionsChanged] from [s] to [s']: the
    estimators ran on some regions, then the projector, then [opts.save]
    once, and it was given the object that [save] returns for [s']. *)
Definition editCompleted (s s' : Engine.t) : Prop :=
  exists pre j,
    Engine.trace s' = Engine.trace s ++ pre ++ [EvProject; EvSave j]
    /\ Forall (fun e => exists regionId, e = EvRecompute regionId) pre
    /\ save s' = Ret (j, Engine.log s' (EvSave j)).

(** * The engine over binary64 numbers

    The second embedding of the same source: a JavaScript [number] is an
    IEEE 754 binary64 value, Rocq's primitive [float], whose [+], [-], [*],
    [/] and [sqrt] round to nearest, ties to even, as JavaScript's do, and
    whose [NaN], infinities and signed zeros are the values JavaScript has.
    Nothing leaves this model: a division by zero gives [NaN] or an
    infinity and the call goes on with it.  A loop over time is run with
    fuel, and the call answers [OutOfFuel] when a loop has not ended within
    it: the call returns when some amount of fuel is enough, and never
    returns when no amount is. *)

Module Double.

Local Open Scope float_scope.

(** ** Numbers *)

(** [isNaN(x)] *)
Definition isNaN (x : float) : bool := negb (x =? x).

(** [x] is [-0]. *)
Definition isNegZero (x : float) : bool := (x =? 0) && (1 / x <? 0).

(** [Math.max(a, b)] and [Math.min(a, b)]: [NaN] when an argument is [NaN],
    and [+0] counts as larger than [-0]. *)
Definition Math_max (a b : float) : float :=
  if isNaN a || isNaN b then nan
  else if a <? b then b
  else if b <? a then a
  else if isNegZero a then b else a.

Definition Math_min (a b : float) : float :=
  if isNaN a || isNaN b then nan
  else if a <? b then a
  else if b <? a then b
  else if isNegZero a then a else b.

(** The place of a number in the order of the numbers: the infinities
    outermost, a negative number the lower the larger its exponent and its
    mantissa, the two zeros at one place. *)
Definition rank (x : spec_float) : Z * Z * Z :=
  match x with
  | S754_infinity true => (-2, 0, 0)
  | S754_finite true m e => (-1, - e, - Z.pos m)
  | S754_zero _ => (0, 0, 0)
  | S754_finite false m e => (1, e, Z.pos m)
  | S754_infinity false => (2, 0, 0)
  | S754_nan => (3, 0, 0)
  end%Z.

Definition rankBelow (a b : Z * Z * Z) : Prop :=
  (a.1.1 < b.1.1
   \/ (a.1.1 = b.1.1 /\ (a.1.2 < b.1.2 \/ (a.1.2 = b.1.2 /\ a.2 < b.2))))%Z.

(** The integer [z] as a number, for [|z| < 2^63]. *)
Definition ofZ (z : Z) : float :=
  match z with
  | Z0 => 0
  | Zpos _ => of_uint63 (Uint63.of_Z z)
  | Zneg _ => - of_uint63 (Uint63.of_Z (- z))
  end.

Definition ofNat (n : nat) : float := ofZ (Z.of_nat n).

(** A finite number with a fractional part is [m * 2^e] with [e < 0], and
    then [m < 2^53]: its floor and ceiling are integers below [2^53], which
    are numbers.  Every other number is its own floor and ceiling. *)
Definition signedMantissa (s : bool) (m : positive) : Z :=
  if s then Z.neg m else Z.pos m.

(** [Math.round(x)]: the integer nearest to [x], a half going up;
    [-0] for [-0.5 <= x < 0] (and for [-0]). *)
Definition Math_round (x : float) : float :=
  match Prim2SF x with
  | S754_finite s m e =>
      if (0 <=? e)%Z then x
      else
        let n := ((2 * signedMantissa s m + 2 ^ (- e)) / 2 ^ (- e + 1))%Z in
        if (n =? 0)%Z && s then - 0 else ofZ n
  | _ => x
  end.

(** [Math.ceil(x)]: [-0] for [-1 < x < 0] (and for [-0]). *)
Definition Math_ceil (x : float) : float :=
  match Prim2SF x with
  | S754_finite s m e =>
      if (0 <=? e)%Z then x
      else
        let n := (- ((- signedMantissa s m) / 2 ^ (- e)))%Z in
        if (n =? 0)%Z && s then - 0 else ofZ n
  | _ => x
  end.

(** An array index or length held in a number: the integer it is, 0 for
    what is no positive integer. *)
Definition toIndex (x : float) : nat :=
  match Prim2SF x with
  | S754_finite false m e =>
      if (0 <=? e)%Z then Z.to_nat (Z.pos m * 2 ^ e) else Z.to_nat (Z.pos m / 2 ^ (- e))
  | _ => 0%nat
  end.

(** [Math.pow(x, 2)], taken as the product [x * x]. *)
Definition square (x : float) : float := x * x.

Definition MAX_TEMPO : float := 300.
Definition MIN_BEAT_SPACING : float := 60 / MAX_TEMPO.

(** ** [String(x)] for a number

    ECMAScript's [Number::toString]: the shortest decimal [s * 10^(n - k)],
    [s] of [k] digits, that reads back as [x], the one nearest to [x] when
    there are several; printed plainly for [-5 <= n <= 21] and with an
    exponent otherwise.  A positive finite number is [m * 2^e]; the
    decimals that read back as it are those between the midpoints to its
    two neighbours, the midpoints included when [m] is even. *)

(** [a * 10^p] compared with [b * 2^q], for integers [a] and [b]. *)
Definition compareScaled (a p b q : Z) : comparison :=
  (a * 10 ^ Z.max p 0 * 2 ^ Z.max (- q) 0 ?= b * 2 ^ Z.max q 0 * 10 ^ Z.max (- p) 0)%Z.

(** Whether [s * 10^p] reads back as [m * 2^e]. *)
Definition readsBack (m : positive) (e : Z) (s p : Z) : bool :=
  let lowest := ((Z.pos m =? 2 ^ 52) && (-1074 <? e))%Z in
  let lo := (if lowest then 4 * Z.pos m - 1 else 4 * Z.pos m - 2)%Z in
  let hi := (4 * Z.pos m + 2)%Z in
  let even := Z.even (Z.pos m) in
  match compareScaled s p lo (e - 2), compareScaled s p hi (e - 2) with
  | Gt, Lt => true
  | Eq, Lt | Gt, Eq => even
  | _, _ => false
  end.

(** The [n] with [10^(n-1) <= m * 2^e < 10^n], looked for from [from] on. *)
Fixpoint magnitude (tries : nat) (m : positive) (e : Z) (from : Z) : Z :=
  match tries with
  | O => from
  | S tries' =>
      match compareScaled 1 from (Z.pos m) e with
      | Gt => from
      | _ => magnitude tries' m e (from + 1)%Z
      end
  end.

(** The digits [s] and the exponent [n], trying [k], [k + 1], ... digits. *)
Fixpoint shortest (tries : nat) (m : positive) (e : Z) (n0 : Z) (k : Z) : Z * Z * Z :=
  let p := (n0 - k)%Z in
  let num := (Z.pos m * 2 ^ Z.max e 0 * 10 ^ Z.max (- p) 0)%Z in
  let den := (2 ^ Z.max (- e) 0 * 10 ^ Z.max p 0)%Z in
  let below := (num / den)%Z in
  let above := (below + 1)%Z in
  let pick (s : Z) := if (s =? 10 ^ k)%Z then (10 ^ (k - 1), k, n0 + 1)%Z else (s, k, n0) in
  match tries with
  | O => pick below
  | S tries' =>
      match readsBack m e below p, readsBack m e above p with
      | true, true =>
          match (num - below * den ?= above * den - num)%Z with
          | Lt => pick below
          | Gt => pick above
          | Eq => if Z.even below then pick below else pick above
          end
      | true, false => pick below
      | false, true => pick above
      | false, false => shortest tries' m e n0 (k + 1)%Z
      end
  end.

Definition digitsOf (z : Z) : string := NilZero.string_of_uint (N.to_uint (Z.to_N z)).

Fixpoint zeros (k : nat) : string :=
  match k with
  | O => EmptyString
  | S k' => String "0"%char (zeros k')
  end.

Definition Number_toString (x : float) : string :=
  match Prim2SF x with
  | S754_nan => "NaN"
  | S754_zero _ => "0"
  | S754_infinity s => if s then "-Infinity" else "Infinity"
  | S754_finite sign m e =>
      let estimate := ((Z.log2 (Z.pos m) + e) * 30103 / 100000)%Z in
      let n0 := magnitude 8 m e (estimate - 2)%Z in
      let '(s, k, n) := shortest 17 m e n0 1%Z in
      let digits := digitsOf s in
      let body :=
        if ((k <=? n) && (n <=? 21))%Z then
          digits ++ zeros (Z.to_nat (n - k))
        else if ((0 <? n) && (n <=? 21))%Z then
          substring 0 (Z.to_nat n) digits ++ "."
          ++ substring (Z.to_nat n) (Z.to_nat (k - n)) digits
        else if ((-6 <? n) && (n <=? 0))%Z then
          "0." ++ zeros (Z.to_nat (- n)) ++ digits
        else
          let exponent :=
            (if (0 <=? n - 1)%Z then "+" else "-") ++ digitsOf (Z.abs (n - 1)) in
          if (k =? 1)%Z then digits ++ "e" ++ exponent
          else substring 0 1 digits ++ "." ++ substring 1 (Z.to_nat (k - 1)) digits
               ++ "e" ++ exponent in
      (if sign then "-" ++ body else body)%string
  end%string.

(** ** Outcomes of a call *)

Inductive result (A : Type) : Type :=
| Ret (a : A)          (* the call returns *)
| Throw (e : Error)    (* the call throws *)
| OutOfFuel.           (* a loop of the call has not ended within the fuel *)

Arguments Ret {A} a.
Arguments Throw {A} e.
Arguments OutOfFuel {A}.

#[global] Instance result_ret : MRet result := fun A a => Ret a.
#[global] Instance result_bind : MBind result := fun A B k m =>
  match m with
  | Ret a => k a
  | Throw e => Throw e
  | OutOfFuel => OutOfFuel
  end.

(** ** Data model *)

Module UserBeat.
Record t : Type := mk {
  id : nat;
  regionIndex : nat;
  isTempoChange : bool;
  time : float;
  localBeatPeriod : option float
}.
Definition set_regionIndex (b : t) (i : nat) : t :=
  mk (id b) i (isTempoChange b) (time b) (localBeatPeriod b).
Definition set_time (b : t) (x : float) : t :=
  mk (id b) (regionIndex b) (isTempoChange b) x (localBeatPeriod b).
Definition set_localBeatPeriod (b : t) (p : option float) : t :=
  mk (id b) (regionIndex b) (isTempoChange b) (time b) p.
End UserBeat.

Module AutoBeat.
Record t : Type := mk {
  id : nat;
  regionIndex : nat;
  time : float
}.
Definition set_time (b : t) (x : float) : t := mk (id b) (regionIndex b) x.
End AutoBeat.

Inductive Tempo : Type :=
| tapped (value : option (float * float))   (* [{meanPeriod, stddev}] or [null] *)
| fixed (bpm : float) (phaseOffset : float).

(** The bounds of a region are numbers by their type, but the loader reads
    them from [markedBeats[0]], which is [undefined] for a saved region
    without beats: [None] is that value. *)
Module TempoRegion.
Record t : Type := mk {
  id : nat;
  index : nat;
  userBeats : list nat;              (* addresses of beat objects *)
  autoBeats : list AutoBeat.t;
  startTime : option float;
  endTime : option float;
  offbeatsMarked : bool;
  tempo : Tempo
}.
Definition set_index (r : t) (i : nat) : t :=
  mk (id r) i (userBeats r) (autoBeats r) (startTime r) (endTime r)
     (offbeatsMarked r) (tempo r).
Definition set_userBeats (r : t) (l : list nat) : t :=
  mk (id r) (index r) l (autoBeats r) (startTime r) (endTime r)
     (offbeatsMarked r) (tempo r).
Definition set_autoBeats (r : t) (l : list AutoBeat.t) : t :=
  mk (id r) (index r) (userBeats r) l (startTime r) (endTime r)
     (offbeatsMarked r) (tempo r).
Definition set_startTime (r : t) (x : option float) : t :=
  mk (id r) (index r) (userBeats r) (autoBeats r) x (endTime r)
     (offbeatsMarked r) (tempo r).
Definition set_endTime (r : t) (x : option float) : t :=
  mk (id r) (index r) (userBeats r) (autoBeats r) (startTime r) x
     (offbeatsMarked r) (tempo r).
Definition set_tempo (r : t) (x : Tempo) : t :=
  mk (id r) (index r) (userBeats r) (autoBeats r) (startTime r) (endTime r)
     (offbeatsMarked r) x.
End TempoRegion.

(** [ToNumber] of a bound: [undefined] is [NaN] in every comparison and
    sum. *)
Definition toNumber (x : option float) : float := default nan x.

Inductive SavedTempo : Type :=
| saved_fixed (bpm : float)
| saved_tapped.

Module SavedRegion.
Record t : Type := mk {
  offbeatsMarked : bool;
  tempo : SavedTempo;
  markedBeats : list float;
  inferredBeats : list float
}.
End SavedRegion.

(** A [SaveObject] is its [tempoRegions] array. *)
Definition SaveObject : Type := list SavedRegion.t.

Inductive Event : Type :=
| EvRecompute (regionId : nat)   (* an estimator ran on this region *)
| EvProject                      (* [drawAutopoints] ran *)
| EvSave (j : SaveObject).       (* [opts.save(j)] was called *)

Module Engine.
Record t : Type := mk {
  regions : list TempoRegion.t;
  beats : gmap nat UserBeat.t;
  userBeatsById : gmap nat (option nat);   (* [None]: the value [undefined] *)
  nextRegionId : nat;
  nextUserBeatId : nat;
  nextAutoBeatId : nat;
  viewport : float * float;
  selectedRegionId : option nat;
  trace : list Event
}.
Definition set_regions (s : t) (x : list TempoRegion.t) : t :=
  mk x (beats s) (userBeatsById s) (nextRegionId s) (nextUserBeatId s)
     (nextAutoBeatId s) (viewport s) (selectedRegionId s) (trace s).
Definition set_beats (s : t) (x : gmap nat UserBeat.t) : t :=
  mk (regions s) x (userBeatsById s) (nextRegionId s) (nextUserBeatId s)
     (nextAutoBeatId s) (viewport s) (selectedRegionId s) (trace s).
Definition set_userBeatsById (s : t) (x : gmap nat (option nat)) : t :=
  mk (regions s) (beats s) x (nextRegionId s) (nextUserBeatId s)
     (nextAutoBeatId s) (viewport s) (selectedRegionId s) (trace s).
Definition set_nextRegionId (s : t) (x : nat) : t :=
  mk (regions s) (beats s) (userBeatsById s) x (nextUserBeatId s)
     (nextAutoBeatId s) (viewport s) (selectedRegionId s) (trace s).
Definition set_nextUserBeatId (s : t) (x : nat) : t :=
  mk (regions s) (beats s) (userBeatsById s) (nextRegionId s) x
     (nextAutoBeatId s) (viewport s) (selectedRegionId s) (trace s).
Definition set_nextAutoBeatId (s : t) (x : nat) : t :=
  mk (regions s) (beats s) (userBeatsById s) (nextRegionId s) (nextUserBeatId s)
     x (viewport s) (selectedRegionId s) (trace s).
Definition set_viewport (s : t) (x : float * float) : t :=
  mk (regions s) (beats s) (userBeatsById s) (nextRegionId s) (nextUserBeatId s)
     (nextAutoBeatId s) x (selectedRegionId s) (trace s).
Definition set_selectedRegionId (s : t) (x : option nat) : t :=
  mk (regions s) (beats s) (userBeatsById s) (nextRegionId s) (nextUserBeatId s)
     (nextAutoBeatId s) (viewport s) x (trace s).
Definition log (s : t) (e : Event) : t :=
  mk (regions s) (beats s) (userBeatsById s) (nextRegionId s) (nextUserBeatId s)
     (nextAutoBeatId s) (viewport s) (selectedRegionId s) (trace s ++ [e]).
End Engine.

(** [isSortedAscending(arr, key)] *)
Fixpoint sortedFrom (last : float) (ks : list float) : bool :=
  match ks with
  | [] => true
  | k :: ks' => if k <? last then false else sortedFrom k ks'
  end.

Definition isSortedAscending (ks : list float) : bool :=
  match ks with
  | [] => true
  | k :: ks' => sortedFrom k ks'
  end.

(** ** The estimators *)

Section Estimators.

(** [String(x)], which the comparator-less [Array.prototype.sort] orders
    by; [Number_toString] is the instance. *)
Variable numberToString : float -> string.

Fixpoint sortInsert (x : float) (l : list float) : list float :=
  match l with
  | [] => [x]
  | y :: l' =>
      if String.ltb (numberToString x) (numberToString y)
      then x :: y :: l'
      else y :: sortInsert x l'
  end.

Definition jsSort (l : list float) : list float :=
  fold_left (fun acc x => sortInsert x acc) l [].

(** [let sum = 0; for (const d of l) sum += d] *)
Definition sum (l : list float) : float := fold_left PrimFloat.add l 0.

(** The distances [userBeats[i].time - userBeats[i-1].time], [i >= 1]. *)
Fixpoint distsFrom (prev : float) (times : list float) : list float :=
  match times with
  | [] => []
  | x :: times' => (x - prev) :: distsFrom x times'
  end.

Definition dists (times : list float) : list float :=
  match times with
  | [] => []
  | x :: times' => distsFrom x times'
  end.

Definition minDist (ds : list float) : float := fold_left Math_min ds infinity.

Definition initialEstimate (ds : list float) : float :=
  let limit := minDist ds * 1.2 in
  let candidates := jsSort (List.filter (fun d => d <? limit) ds) in
  let candidates :=
    if (5 <=? length candidates)%nat then
      let discard := Math_ceil (ofNat (length candidates) * 0.2) in
      slice (toIndex discard) (toIndex (ofNat (length candidates) - discard)) candidates
    else candidates in
  sum candidates / ofNat (length candidates).

Definition periodsOf (est d : float) : float := Math_round (d / est).

Definition meanPeriodOf (est : float) (ds : list float) : float :=
  sum ds / sum (List.map (periodsOf est) ds).

Definition varianceOf (est meanBpm : float) (ds : list float) : float :=
  sum (List.map (fun d => square (meanBpm - 60 / (d / periodsOf est d))) ds)
  / ofNat (length ds).

(** [recomputeTempo], on the times of the region's user beats: the new
    [tempo.value], or [None] when the region has no beat and nothing is
    assigned. *)
Definition recomputeTempo (times : list float) : option (option (float * float)) :=
  match times with
  | [] => None
  | [_] => Some None
  | _ =>
      let ds := dists times in
      let est := initialEstimate ds in
      let meanPeriod := meanPeriodOf est ds in
      let meanBpm := 60 / meanPeriod in
      Some (Some (meanPeriod, PrimFloat.sqrt (varianceOf est meanBpm ds)))
  end.

(** [setTimesBetweenBeats]: the new [localBeatPeriod] of every beat, in the
    order of [userBeats]. *)
Fixpoint periodsBetween (onePeriod prev : float) (times : list float) : list (option float) :=
  match times with
  | [] => []
  | x :: times' =>
      let between := x - prev in
      let nPeriods := Math_round (between / onePeriod) in
      (if 0 <? nPeriods then Some (between / nPeriods) else None)
        :: periodsBetween onePeriod x times'
  end.

Definition localBeatPeriods (value : option (float * float)) (times : list float)
  : list (option float) :=
  match value with
  | None => List.map (fun _ => None) times
  | Some (onePeriod, _) =>
      match times with
      | [] => []
      | x :: times' => None :: periodsBetween onePeriod x times'
      end
  end.

(** [recomputePhaseOffset]: the new [phaseOffset], or [None] when the region
    has no beat and nothing is assigned. *)
Definition phaseError (period startTime x : float) : float :=
  let t := x - startTime in
  Math_round (t / period) * period - t.

Definition recomputePhaseOffset (bpm startTime : float) (times : list float) : option float :=
  match times with
  | [] => None
  | [_] => Some 0
  | _ :: rest =>
      let period := 60 / bpm in
      let meanError :=
        sum (List.map (phaseError period startTime) rest) / (ofNat (length times) - 1) in
      Some (- meanError)
  end.

End Estimators.

(** ** References *)

(** The beat object at an address; every address held by an array or by the
    map was allocated, so the default is never read. *)
Definition beatAt (h : gmap nat UserBeat.t) (a : nat) : UserBeat.t :=
  default (UserBeat.mk a 0 false 0 None) (h !! a).

Definition timeAt (h : gmap nat UserBeat.t) (a : nat) : float :=
  UserBeat.time (beatAt h a).

(** ** Loops over time *)

(** [for (let t = t0; t < upTo; t += step) beats.push(t)], run for at most
    [fuel] rounds: [None] when the loop has not ended by then. *)
Fixpoint forTimes (fuel : nat) (t upTo step : float) : option (list float) :=
  if t <? upTo then
    match fuel with
    | O => None
    | S fuel' => cons t <$> forTimes fuel' (t + step) upTo step
    end
  else Some [].

Definition timesFrom (fuel : nat) (t upTo step : float) : result (list float) :=
  match forTimes fuel t upTo step with
  | Some l => Ret l
  | None => OutOfFuel
  end.

(** ** The engine *)

Section Annotate.

Variable duration : float.
Variable numberToString : float -> string.
(** The rounds every loop over time may take. *)
Variable fuel : nat.

Definition timesOf (h : gmap nat UserBeat.t) (r : TempoRegion.t) : list float :=
  List.map (timeAt h) (TempoRegion.userBeats r).

(** [reassignRegionIndices], from position [i] on. *)
Fixpoint reassignFrom (i : nat) (rs : list TempoRegion.t) (h : gmap nat UserBeat.t)
  : list TempoRegion.t * gmap nat UserBeat.t :=
  match rs with
  | [] => ([], h)
  | r :: rs' =>
      let h1 := fold_left (fun h a => alter (fun b => UserBeat.set_regionIndex b i) a h)
                          (TempoRegion.userBeats r) h in
      let '(rs2, h2) := reassignFrom (S i) rs' h1 in
      (TempoRegion.set_index r i :: rs2, h2)
  end.

Definition reassignRegionIndices (s : Engine.t) : Engine.t :=
  let '(rs, h) := reassignFrom 0 (Engine.regions s) (Engine.beats s) in
  Engine.set_beats (Engine.set_regions s rs) h.

(** [computeAutoBeats] *)
Fixpoint tappedAutoBeats (period endTime : float) (times : list float)
  : result (list float) :=
  match times with
  | [] => mret []
  | x :: times' =>
      let upTo := match times' with
                  | next :: _ => next
                  | [] => endTime
                  end in
      here ← timesFrom fuel (x + period) upTo period;
      rest ← tappedAutoBeats period endTime times';
      mret (here ++ rest)
  end.

Definition computeAutoBeats (h : gmap nat UserBeat.t) (region : TempoRegion.t)
  : result (list float) :=
  match TempoRegion.tempo region with
  | tapped (Some (meanPeriod, _)) =>
      tappedAutoBeats meanPeriod (toNumber (TempoRegion.endTime region)) (timesOf h region)
  | tapped None => mret []
  | fixed bpm phaseOffset =>
      let period := 60 / bpm in
      timesFrom fuel (toNumber (TempoRegion.startTime region) + phaseOffset)
                (toNumber (TempoRegion.endTime region)) period
  end.

(** [drawAutopoints] *)
Definition drawBuffer : float := 30.
Definition drawStart (viewport : float * float) : float :=
  Math_max (fst viewport - drawBuffer) 0.
Definition drawEnd (viewport : float * float) : float :=
  Math_min (snd viewport + drawBuffer) duration.

Definition inView (viewport : float * float) (r : TempoRegion.t) : bool :=
  (drawStart viewport <=? toNumber (TempoRegion.endTime r))
  && (toNumber (TempoRegion.startTime r) <? drawEnd viewport).

Definition drawn (viewport : float * float) (t : float) : bool :=
  negb ((t <? drawStart viewport) || (drawEnd viewport <=? t)).

(** Placing the times on the auto beats a region already has: the first
    ones are recycled in place, new ones are pushed when they run out, and
    what is left over is cut off. *)
Fixpoint place (regionIndex : nat) (old : list AutoBeat.t) (ts : list float) (nextId : nat)
  : list AutoBeat.t * nat :=
  match ts with
  | [] => ([], nextId)
  | t :: ts' =>
      match old with
      | b :: old' =>
          let '(l, n) := place regionIndex old' ts' nextId in
          (AutoBeat.set_time b t :: l, n)
      | [] =>
          let '(l, n) := place regionIndex [] ts' (S nextId) in
          (AutoBeat.mk (S nextId) regionIndex t :: l, n)
      end
  end.

Fixpoint projectRegions (viewport : float * float) (h : gmap nat UserBeat.t)
         (rs : list TempoRegion.t) (nextId : nat)
  : result (list TempoRegion.t * nat) :=
  match rs with
  | [] => mret ([], nextId)
  | region :: rs' =>
      if inView viewport region then
        autoBeats ← computeAutoBeats h region;
        let '(placed, n) :=
          place (TempoRegion.index region) (TempoRegion.autoBeats region)
                (List.filter (drawn viewport) autoBeats) nextId in
        '(rs2, n2) ← projectRegions viewport h rs' n;
        mret (TempoRegion.set_autoBeats region placed :: rs2, n2)
      else
        '(rs2, n2) ← projectRegions viewport h rs' nextId;
        mret (region :: rs2, n2)
  end.

Definition clearOutOfView (viewport : float * float) (r : TempoRegion.t) : TempoRegion.t :=
  if inView viewport r then r else TempoRegion.set_autoBeats r [].

Definition drawAutopoints (s : Engine.t) : result Engine.t :=
  let s := Engine.log s EvProject in
  let cleared := List.map (clearOutOfView (Engine.viewport s)) (Engine.regions s) in
  '(rs, n) ← projectRegions (Engine.viewport s) (Engine.beats s) cleared
                            (Engine.nextAutoBeatId s);
  mret (Engine.set_nextAutoBeatId (Engine.set_regions s rs) n).

(** [saveState]; [Math.pow(10, 6)] is the number 1000000. *)
Definition roundTime (t : float) : float :=
  Math_round (t * 1000000) / 1000000.

Definition saveRegion (h : gmap nat UserBeat.t) (r : TempoRegion.t) : result SavedRegion.t :=
  inferredBeats ← computeAutoBeats h r;
  mret (SavedRegion.mk
          (TempoRegion.offbeatsMarked r)
          (match TempoRegion.tempo r with
           | fixed bpm _ => saved_fixed bpm
           | tapped _ => saved_tapped
           end)
          (List.map roundTime (timesOf h r))
          inferredBeats).

Fixpoint saveRegions (h : gmap nat UserBeat.t) (rs : list TempoRegion.t) : result SaveObject :=
  match rs with
  | [] => mret []
  | r :: rs' =>
      x ← saveRegion h r;
      rest ← saveRegions h rs';
      mret (x :: rest)
  end.

Definition saveState (s : Engine.t) : result (SaveObject * Engine.t) :=
  j ← saveRegions (Engine.beats s) (Engine.regions s);
  mret (j, Engine.log s (EvSave j)).

(** [onRegionsChanged]: the estimators on one changed region, held at
    position [p] of the array. *)
Definition writeLocalBeatPeriods (h : gmap nat UserBeat.t) (addrs : list nat)
           (ps : list (option float)) : gmap nat UserBeat.t :=
  fold_left (fun h '(a, p) => alter (fun b => UserBeat.set_localBeatPeriod b p) a h)
            (zip addrs ps) h.

Definition recomputeRegion (s : Engine.t) (p : nat) : Engine.t :=
  match Engine.regions s !! p with
  | None => s
  | Some region =>
      let s := Engine.log s (EvRecompute (TempoRegion.id region)) in
      let times := timesOf (Engine.beats s) region in
      match TempoRegion.tempo region with
      | tapped value =>
          let value := match recomputeTempo numberToString times with
                       | Some v' => v'
                       | None => value
                       end in
          let region := TempoRegion.set_tempo region (tapped value) in
          Engine.set_beats
            (Engine.set_regions s (<[p := region]> (Engine.regions s)))
            (writeLocalBeatPeriods (Engine.beats s) (TempoRegion.userBeats region)
                                   (localBeatPeriods value times))
      | fixed bpm phaseOffset =>
          let phaseOffset :=
            match recomputePhaseOffset bpm (toNumber (TempoRegion.startTime region)) times with
            | Some o' => o'
            | None => phaseOffset
            end in
          Engine.set_regions s
            (<[p := TempoRegion.set_tempo region (fixed bpm phaseOffset)]> (Engine.regions s))
      end
  end.

Definition recomputeRegions (s : Engine.t) (changed : list nat) : Engine.t :=
  fold_left recomputeRegion changed s.

Definition onRegionsChanged (s : Engine.t) (changed : list nat) (doSave : bool)
  : result Engine.t :=
  let s1 := recomputeRegions s changed in
  s2 ← drawAutopoints s1;
  if doSave then
    '(_, s3) ← saveState s2;
    mret s3
  else mret s2.

(** The first region, made by [addPoint] when there is none. *)
Definition ensureRegion (time : float) (s : Engine.t) : Engine.t :=
  match Engine.regions s with
  | [] =>
      let rid := S (Engine.nextRegionId s) in
      let r := TempoRegion.mk rid 0 [] [] (Some time) (Some duration) false (tapped None) in
      Engine.set_selectedRegionId
        (Engine.set_nextRegionId (Engine.set_regions s [r]) rid) (Some rid)
  | _ => s
  end.

(** [pointAfter !== null && pointAfter.time - time < MIN_BEAT_SPACING] and
    its mirror image for [pointBefore]. *)
Definition tooClose (h : gmap nat UserBeat.t) (point : ref) (gap : float -> float)
  : result bool :=
  match point with
  | null => mret false
  | undefined => Throw TypeError
  | obj a => mret (gap (timeAt h a) <? MIN_BEAT_SPACING)
  end.

Definition addPoint (time : float) (isTempoChange : bool) (s : Engine.t)
  : result (Returned * Engine.t) :=
  let s := ensureRegion time s in
  let regions := Engine.regions s in
  let h := Engine.beats s in
  match regions !! 0%nat with
  | None => Throw TypeError
  | Some region0 =>
  let containingRegionIndex :=
    if time <? toNumber (TempoRegion.startTime region0) then 0%Z
    else findIndex (fun r => (toNumber (TempoRegion.startTime r) <=? time)
                             && (time <? toNumber (TempoRegion.endTime r))) regions in
  if (containingRegionIndex <? 0)%Z then mret (returned_null, s) else
  let c := Z.to_nat containingRegionIndex in
  match regions !! c with
  | None => Throw TypeError
  | Some containingRegion =>
  let userBeats := TempoRegion.userBeats containingRegion in
  let firstIdxAfter := findIndex (fun p => time <? timeAt h p) userBeats in
  let insertAt :=
    if (0 <=? firstIdxAfter)%Z then Z.to_nat firstIdxAfter else length userBeats in
  pointAfter ←
    (if (insertAt <? length userBeats)%nat then mret (at_ userBeats insertAt)
     else if (TempoRegion.index containingRegion <? length regions - 1)%nat then
       match regions !! (TempoRegion.index containingRegion + 1)%nat with
       | Some next => mret (at_ (TempoRegion.userBeats next) 0)
       | None => Throw TypeError
       end
     else mret null);
  pointBefore ←
    (if (0 <? insertAt)%nat then mret (at_ userBeats (insertAt - 1))
     else if (0 <? TempoRegion.index containingRegion)%nat then
       match regions !! (TempoRegion.index containingRegion - 1)%nat with
       | Some prev => mret (at_ (TempoRegion.userBeats prev) 0)
       | None => Throw TypeError
       end
     else mret null);
  close ← tooClose h pointAfter (fun t => t - time);
  if close : bool then mret (returned_null, s) else
  if isTempoChange then
    let createNewRegion := negb ((c =? 0)%nat && (insertAt =? 0)%nat) in
    if createNewRegion then
      let newRegionIndex := (TempoRegion.index containingRegion + 1)%nat in
      let bid := S (Engine.nextUserBeatId s) in
      let newBeat := UserBeat.mk bid newRegionIndex true time None in
      let removedFromContaining := drop insertAt userBeats in
      let rid := S (Engine.nextRegionId s) in
      let newRegion :=
        TempoRegion.mk rid newRegionIndex (bid :: removedFromContaining) []
          (Some time) (TempoRegion.endTime containingRegion)
          (TempoRegion.offbeatsMarked containingRegion)
          (match TempoRegion.tempo containingRegion with
           | fixed bpm _ => fixed bpm 0
           | tapped _ => tapped None
           end) in
      let containingRegion :=
        TempoRegion.set_endTime
          (TempoRegion.set_userBeats containingRegion (take insertAt userBeats))
          (Some time) in
      let regions := <[c := containingRegion]> regions in
      let regions := take newRegionIndex regions ++ newRegion :: drop newRegionIndex regions in
      match regions !! newRegionIndex with
      | None => Throw TypeError
      | Some inserted =>
          let s := Engine.set_nextRegionId (Engine.set_nextUserBeatId s bid) rid in
          let s := Engine.set_beats (Engine.set_regions s regions) (<[bid := newBeat]> h) in
          let s := Engine.set_userBeatsById s
                     (<[bid := TempoRegion.userBeats inserted !! 0%nat]>
                        (Engine.userBeatsById s)) in
          let s := reassignRegionIndices s in
          let s := Engine.set_selectedRegionId s (Some rid) in
          s' ← onRegionsChanged s
                 [newRegionIndex; if (newRegionIndex <=? c)%nat then S c else c] true;
          mret (returned_undefined, s')
      end
    else
      let containingRegion := TempoRegion.set_startTime containingRegion (Some time) in
      (* the new beat object takes an id and is then dropped: the splice
         below is given no element to insert *)
      let bid := S (Engine.nextUserBeatId s) in
      let s := Engine.set_nextUserBeatId s bid in
      let s := Engine.set_regions s (<[c := containingRegion]> regions) in
      let s := Engine.set_userBeatsById s
                 (<[bid := userBeats !! insertAt]> (Engine.userBeatsById s)) in
      let s := Engine.set_selectedRegionId s (Some (TempoRegion.id containingRegion)) in
      s' ← onRegionsChanged s [c] true;
      mret (returned_undefined, s')
  else
    close ← tooClose h pointBefore (fun t => time - t);
    if close : bool then mret (returned_null, s) else
    let bid := S (Engine.nextUserBeatId s) in
    let newBeat := UserBeat.mk bid c false time (Some 0) in
    let userBeats := take insertAt userBeats ++ bid :: drop insertAt userBeats in
    let containingRegion :=
      TempoRegion.set_startTime
        (TempoRegion.set_userBeats containingRegion userBeats)
        (Some (Math_min time (toNumber (TempoRegion.startTime containingRegion)))) in
    let s := Engine.set_nextUserBeatId s bid in
    let s := Engine.set_beats (Engine.set_regions s (<[c := containingRegion]> regions))
               (<[bid := newBeat]> h) in
    let s := Engine.set_userBeatsById s
               (<[bid := userBeats !! insertAt]> (Engine.userBeatsById s)) in
    let s := Engine.set_selectedRegionId s (Some (TempoRegion.id containingRegion)) in
    s' ← onRegionsChanged s [c] true;
    mret (returned_undefined, s')
  end
  end.

(** [userBeatsById.get(id)] followed by [assertNotNull]. *)
Definition beatById (s : Engine.t) (id : nat) : result nat :=
  match Engine.userBeatsById s !! id with
  | Some (Some a) => mret a
  | _ => Throw (AssertNotNull "beat by id is null")
  end.

Definition deletePoint (id : nat) (s : Engine.t) : result Engine.t :=
  a ← beatById s id;
  let h := Engine.beats s in
  let beat := beatAt h a in
  let regions := Engine.regions s in
  let q := UserBeat.regionIndex beat in
  match regions !! q with
  | None => Throw TypeError
  | Some containingRegion =>
      let userBeats := TempoRegion.userBeats containingRegion in
      if UserBeat.isTempoChange beat then
        match userBeats with
        | [] => Throw TypeError
        | _ =>
            if (0 <? TempoRegion.index containingRegion)%nat then
              let p := (TempoRegion.index containingRegion - 1)%nat in
              match regions !! p with
              | None => Throw TypeError
              | Some previousRegion =>
                  let moved := drop (Nat.max 1 (length userBeats - 1)) userBeats in
                  let previousRegion :=
                    TempoRegion.set_endTime
                      (TempoRegion.set_userBeats previousRegion
                         (TempoRegion.userBeats previousRegion ++ moved))
                      (TempoRegion.endTime containingRegion) in
                  let regions :=
                    delete (TempoRegion.index containingRegion) (<[p := previousRegion]> regions) in
                  let s := reassignRegionIndices (Engine.set_regions s regions) in
                  let s :=
                    if decide (Engine.selectedRegionId s = Some (TempoRegion.id containingRegion))
                    then Engine.set_selectedRegionId s (Some (TempoRegion.id previousRegion))
                    else s in
                  onRegionsChanged s [p] true
              end
            else onRegionsChanged s [] true
        end
      else
        let idxInRegion := findIndex (fun b => (UserBeat.id (beatAt h b) =? id)%nat) userBeats in
        let userBeats := splice1 idxInRegion userBeats in
        match userBeats with
        | first :: _ =>
            let containingRegion :=
              TempoRegion.set_startTime
                (TempoRegion.set_userBeats containingRegion userBeats)
                (Some (timeAt h first)) in
            onRegionsChanged (Engine.set_regions s (<[q := containingRegion]> regions)) [q] true
        | [] =>
            let containingRegion := TempoRegion.set_userBeats containingRegion userBeats in
            let regions :=
              delete (TempoRegion.index containingRegion) (<[q := containingRegion]> regions) in
            let s := Engine.set_regions s regions in
            let s :=
              if decide (Engine.selectedRegionId s = Some (TempoRegion.id containingRegion))
              then Engine.set_selectedRegionId s None
              else s in
            onRegionsChanged (reassignRegionIndices s) [] true
        end
  end.

Definition tryMovePoint (id : nat) (toTime : float) (what : Phase) (s : Engine.t)
  : result (float * Engine.t) :=
  a ← beatById s id;
  let h := Engine.beats s in
  let beat := beatAt h a in
  let regions := Engine.regions s in
  let q := UserBeat.regionIndex beat in
  match regions !! q with
  | None => Throw TypeError
  | Some containingRegion =>
      let prevRegion := if (0 <? q)%nat then regions !! (q - 1)%nat else None in
      let userBeats := TempoRegion.userBeats containingRegion in
      let len := Z.of_nat (length userBeats) in
      let beatIdx :=
        findIndex (fun b => (UserBeat.id (beatAt h b) =? UserBeat.id beat)%nat) userBeats in
      let clamped := toTime in
      let clamped :=
        if (0 <? beatIdx)%Z then
          match userBeats !! Z.to_nat (beatIdx - 1) with
          | Some b => Math_max clamped (timeAt h b + MIN_BEAT_SPACING)
          | None => clamped
          end
        else
          match prevRegion with
          | Some prev =>
              match last (TempoRegion.userBeats prev) with
              | Some b => Math_max clamped (timeAt h b + MIN_BEAT_SPACING)
              | None => clamped
              end
          | None => clamped
          end in
      clamped ←
        (if (beatIdx <? len - 1)%Z then
           match userBeats !! Z.to_nat (beatIdx + 1) with
           | Some b => mret (Math_min clamped (timeAt h b - MIN_BEAT_SPACING))
           | None => Throw TypeError
           end
         else if (Z.of_nat (TempoRegion.index containingRegion)
                  <? Z.of_nat (length regions) - 1)%Z then
           match regions !! (TempoRegion.index containingRegion + 1)%nat with
           | Some nextRegion =>
               match TempoRegion.userBeats nextRegion with
               | b :: _ => mret (Math_min clamped (timeAt h b - MIN_BEAT_SPACING))
               | [] => Throw TypeError
               end
           | None => Throw TypeError
           end
         else mret clamped);
      let clamped :=
        if ((Z.of_nat (TempoRegion.index containingRegion) =? Z.of_nat (length regions) - 1)
            && (beatIdx =? len - 1))%Z
        then Math_min clamped duration
        else clamped in
      let h := alter (fun b => UserBeat.set_time b clamped) a h in
      let regions :=
        if (beatIdx =? 0)%Z then
          let regions :=
            <[q := TempoRegion.set_startTime containingRegion (Some clamped)]> regions in
          match prevRegion with
          | Some prev => <[(q - 1)%nat := TempoRegion.set_endTime prev (Some clamped)]> regions
          | None => regions
          end
        else regions in
      let s := Engine.set_beats (Engine.set_regions s regions) h in
      match what with
      | phase_end =>
          s' ← onRegionsChanged s [q] true;
          mret (clamped, s')
      | _ => mret (clamped, s)
      end
  end.

Definition setViewport (v : float * float) (s : Engine.t) : result Engine.t :=
  if (fst v =? fst (Engine.viewport s)) && (snd v =? snd (Engine.viewport s))
  then mret s
  else drawAutopoints (Engine.set_viewport s v).

(** [save] of the returned interface. *)
Definition save (s : Engine.t) : result (SaveObject * Engine.t) := saveState s.

(** ** Construction *)

Definition initial : Engine.t :=
  Engine.mk [] ∅ ∅ 0 0 0 (0, 0) None [].

(** The user beats of one loaded region: their addresses and the store that
    holds them, ids running on from [nextId]. *)
Fixpoint loadBeats (regionIdx beatIdx : nat) (markedBeats : list float) (nextId : nat)
         (h : gmap nat UserBeat.t) : list nat * nat * gmap nat UserBeat.t :=
  match markedBeats with
  | [] => ([], nextId, h)
  | beat :: rest =>
      let bid := S nextId in
      let b := UserBeat.mk bid regionIdx (beatIdx =? 0)%nat beat None in
      let '(l, n, h') := loadBeats regionIdx (S beatIdx) rest bid (<[bid := b]> h) in
      (bid :: l, n, h')
  end.

(** A bound in a message: [String] of a number, or of [undefined]. *)
Definition boundToString (x : option float) : string :=
  match x with
  | Some t => numberToString t
  | None => "undefined"
  end.

(** One round of the loader's second loop for every saved region: the
    region's bounds are [markedBeats[0]] and the [markedBeats[0]] of the
    next saved region, [duration] for the last. *)
Fixpoint loadRegions (regionIdx : nat) (saved : list SavedRegion.t) (s : Engine.t)
  : result (list TempoRegion.t * Engine.t) :=
  match saved with
  | [] => mret ([], s)
  | savedRegion :: rest =>
      let tempo := match SavedRegion.tempo savedRegion with
                   | saved_fixed bpm => fixed bpm 0
                   | saved_tapped => tapped None
                   end in
      let startTime := head (SavedRegion.markedBeats savedRegion) in
      let endTime := match rest with
                     | next :: _ => head (SavedRegion.markedBeats next)
                     | [] => Some duration
                     end in
      if toNumber endTime <=? toNumber startTime then
        Throw (LoadError ("invalid region start/end times: "
                          ++ boundToString startTime ++ ", " ++ boundToString endTime))
      else if negb (isSortedAscending (SavedRegion.markedBeats savedRegion)) then
        Throw (LoadError "invalid save file: beats not in ascending order")
      else
        let '(userBeats, n, h) :=
          loadBeats regionIdx 0 (SavedRegion.markedBeats savedRegion)
                    (Engine.nextUserBeatId s) (Engine.beats s) in
        let rid := S (Engine.nextRegionId s) in
        let region :=
          TempoRegion.mk rid regionIdx userBeats [] startTime endTime
                         (SavedRegion.offbeatsMarked savedRegion) tempo in
        let s := Engine.set_nextRegionId
                   (Engine.set_nextUserBeatId (Engine.set_beats s h) n) rid in
        '(loaded, s') ← loadRegions (S regionIdx) rest s;
        mret (region :: loaded, s')
  end.

(** [userBeatsById.set(ub.id, ub)] for every beat of every region. *)
Definition registerBeats (h : gmap nat UserBeat.t) (rs : list TempoRegion.t)
           (m : gmap nat (option nat)) : gmap nat (option nat) :=
  fold_left (fun m r => fold_left (fun m ub => <[UserBeat.id (beatAt h ub) := Some ub]> m)
                                  (TempoRegion.userBeats r) m) rs m.

(** The [loadSaved] block up to its last statement, the call of
    [onRegionsChanged]: no loop over time runs here. *)
Definition loadState (saved : SaveObject) : result Engine.t :=
  '(loadedRegions, s) ← loadRegions 0 saved initial;
  let s := Engine.set_regions s (Engine.regions s ++ loadedRegions) in
  let s := Engine.set_userBeatsById s
             (registerBeats (Engine.beats s) (Engine.regions s)
                            (Engine.userBeatsById s)) in
  mret (reassignRegionIndices s).

Definition Annotate (loadSaved : option SaveObject) : result Engine.t :=
  match loadSaved with
  | None => mret initial
  | Some saved =>
      s ← loadState saved;
      onRegionsChanged s (seq 0 (length (Engine.regions s))) false
  end.

(** ** The rest of the interface *)

(** [regions.find((r) => r.id === id)]: the first region of that id, with
    its position in the array. *)
Definition findRegion (s : Engine.t) (id : nat) : option (nat * TempoRegion.t) :=
  list_find (fun r => TempoRegion.id r = id) (Engine.regions s).

(** [regionById] *)
Definition regionById (id : nat) (s : Engine.t) : result TempoRegion.t :=
  match findRegion s id with
  | Some (_, r) => mret r
  | None => Throw (AssertNotNull "region by id is null")
  end.

(** [setRegionType] *)
Definition setRegionType (regionId : nat) (type : TempoType) (s : Engine.t)
  : result Engine.t :=
  match findRegion s regionId with
  | None => Throw (AssertNotNull "region by id is null")
  | Some (p, region) =>
      match type, TempoRegion.tempo region with
      | type_fixed, tapped value =>
          let bpm := match value with
                     | Some (meanPeriod, _) => Math_round (60 / meanPeriod * 100) / 100
                     | None => 60
                     end in
          let region := TempoRegion.set_tempo region (fixed bpm 0) in
          onRegionsChanged
            (Engine.set_regions s (<[p := region]> (Engine.regions s))) [p] true
      | type_tapped, fixed _ _ =>
          let region := TempoRegion.set_tempo region (tapped None) in
          onRegionsChanged
            (Engine.set_regions s (<[p := region]> (Engine.regions s))) [p] true
      | _, _ => mret s
      end
  end.

(** [setRegionFixedTempo] *)
Definition setRegionFixedTempo (regionId : nat) (bpm : float) (s : Engine.t)
  : result Engine.t :=
  match findRegion s regionId with
  | None => Throw (AssertNotNull "region by id is null")
  | Some (p, region) =>
      match TempoRegion.tempo region with
      | fixed _ phaseOffset =>
          let region := TempoRegion.set_tempo region (fixed bpm phaseOffset) in
          onRegionsChanged
            (Engine.set_regions s (<[p := region]> (Engine.regions s))) [p] true
      | tapped _ => mret s
      end
  end.

(** The getter [selectedRegion]. *)
Definition selectedRegion (s : Engine.t) : result (option TempoRegion.t) :=
  match Engine.selectedRegionId s with
  | Some id =>
      match findRegion s id with
      | Some (_, r) => mret (Some r)
      | None => Throw (AssertNotNull "region by id is null")
      end
  | None => mret None
  end.

(** The setter [selectedRegionId]. *)
Definition selectRegion (id : option nat) (s : Engine.t) : Engine.t :=
  match id with
  | Some i =>
      match findRegion s i with
      | None => s
      | Some _ => Engine.set_selectedRegionId s id
      end
  | None => Engine.set_selectedRegionId s id
  end.

(** One call on the returned interface, and a sequence of them. *)
Inductive Request : Type :=
| req_addPoint (time : float) (isTempoChange : bool)
| req_deletePoint (id : nat)
| req_tryMovePoint (id : nat) (toTime : float) (what : Phase)
| req_setRegionFixedTempo (regionId : nat) (bpm : float)
| req_setRegionType (regionId : nat) (type : TempoType)
| req_setViewport (v : float * float)
| req_save
| req_selectRegion (id : option nat).

Definition serve (r : Request) (s : Engine.t) : result Engine.t :=
  match r with
  | req_addPoint time isTempoChange =>
      '(_, s') ← addPoint time isTempoChange s; mret s'
  | req_deletePoint id => deletePoint id s
  | req_tryMovePoint id toTime what =>
      '(_, s') ← tryMovePoint id toTime what s; mret s'
  | req_setRegionFixedTempo regionId bpm => setRegionFixedTempo regionId bpm s
  | req_setRegionType regionId type => setRegionType regionId type s
  | req_setViewport v => setViewport v s
  | req_save => '(_, s') ← save s; mret s'
  | req_selectRegion id => mret (selectRegion id s)
  end.

Fixpoint serveAll (rs : list Request) (s : Engine.t) : result Engine.t :=
  match rs with
  | [] => mret s
  | r :: rs' => s1 ← serve r s; serveAll rs' s1
  end.

End Annotate.

(** ** Predicates of the statements *)

(** The [k]-th round of [for (t = t0; ...; t += step)]: [t0] with [step]
    added [k] times, each sum rounded. *)
Definition stepped (t0 step : float) (k : nat) : float :=
  Nat.iter k (fun t => t + step) t0.

(** The loop [for (t = t0; t < upTo; t += step)] ends: after some number
    of rounds the running time fails the test [t < upTo]. *)
Definition loopEnds (t0 upTo step : float) : Prop :=
  exists k, (stepped t0 step k <? upTo) = false.

(** The loops of [computeAutoBeats] on a region end: the one loop of a
    fixed region, the loop after every user beat of a tapped region with an
    estimate. *)
Fixpoint tappedLoopsEnd (period endTime : float) (times : list float) : Prop :=
  match times with
  | [] => True
  | x :: times' =>
      loopEnds (x + period)
               (match times' with
                | next :: _ => next
                | [] => endTime
                end) period
      /\ tappedLoopsEnd period endTime times'
  end.

Definition loopsEnd (h : gmap nat UserBeat.t) (r : TempoRegion.t) : Prop :=
  match TempoRegion.tempo r with
  | tapped (Some (meanPeriod, _)) =>
      tappedLoopsEnd meanPeriod (toNumber (TempoRegion.endTime r)) (timesOf h r)
  | tapped None => True
  | fixed bpm phaseOffset =>
      loopEnds (toNumber (TempoRegion.startTime r) + phaseOffset)
               (toNumber (TempoRegion.endTime r)) (60 / bpm)
  end.

(** The loops of [drawAutopoints] end: it runs [computeAutoBeats] on the
    regions in view.  The loops of [saveState] end: it runs it on every
    region. *)
Definition projectionEnds (duration : float) (s : Engine.t) : Prop :=
  Forall (fun r => inView duration (Engine.viewport s) r = true -> loopsEnd (Engine.beats s) r)
         (Engine.regions s).

Definition savingEnds (s : Engine.t) : Prop :=
  Forall (loopsEnd (Engine.beats s)) (Engine.regions s).

(** The loops of the pass [onRegionsChanged] end: those of the projection,
    and those of saving when it saves, on the state the estimators leave. *)
Definition passEnds (duration : float) (numberToString : float -> string)
           (s : Engine.t) (changed : list nat) (doSave : bool) : Prop :=
  let s1 := recomputeRegions numberToString s changed in
  projectionEnds duration s1 /\ (doSave = true -> savingEnds s1).

(** Where [computeAutoBeats] puts a time [x]: in a fixed region on the grid
    that starts at [startTime + phaseOffset], before [endTime]; in a tapped
    region on the grid that starts one period after a user beat, before the
    user beat after that one, or before [endTime] when it is the last. *)
Definition autoBeatPlace (h : gmap nat UserBeat.t) (r : TempoRegion.t) (x : float) : Prop :=
  match TempoRegion.tempo r with
  | fixed bpm phaseOffset =>
      (exists k, x = stepped (toNumber (TempoRegion.startTime r) + phaseOffset) (60 / bpm) k)
      /\ (x <? toNumber (TempoRegion.endTime r)) = true
  | tapped (Some (meanPeriod, _)) =>
      exists i u k,
        timesOf h r !! i = Some u
        /\ x = stepped (u + meanPeriod) meanPeriod k
        /\ (x <? default (toNumber (TempoRegion.endTime r)) (timesOf h r !! S i)) = true
  | tapped None => False
  end.

(** What [projectRegions] makes of one region. *)
Definition projected (duration : float) (fuel : nat) (vp : float * float)
           (h : gmap nat UserBeat.t) (r r' : TempoRegion.t) : Prop :=
  r' = TempoRegion.set_autoBeats r (TempoRegion.autoBeats r') /\
  if inView duration vp r then
    exists l, computeAutoBeats fuel h r = Ret l /\
              List.map AutoBeat.time (TempoRegion.autoBeats r')
              = List.filter (drawn duration vp) l
  else TempoRegion.autoBeats r' = TempoRegion.autoBeats r.

(** What [drawAutopoints] makes of one region. *)
Definition redrawn (duration : float) (fuel : nat) (vp : float * float)
           (h : gmap nat UserBeat.t) (r r' : TempoRegion.t) : Prop :=
  r' = TempoRegion.set_autoBeats r (TempoRegion.autoBeats r') /\
  if inView duration vp r then
    exists l, computeAutoBeats fuel h r = Ret l /\
              List.map AutoBeat.time (TempoRegion.autoBeats r')
              = List.filter (drawn duration vp) l
  else TempoRegion.autoBeats r' = [].

(** What the estimators, the projector and the save callback leave alone:
    of a tempo its kind and its bpm, of a beat all but [localBeatPeriod], of
    a region all but [tempo] and [autoBeats], of the engine all but the
    auto-beat counter and the trace. *)
Definition sameKind (t t' : Tempo) : Prop :=
  match t, t' with
  | tapped _, tapped _ => True
  | fixed bpm _, fixed bpm' _ => bpm' = bpm
  | _, _ => False
  end.

Definition sameBeat (b b' : UserBeat.t) : Prop :=
  b' = UserBeat.set_localBeatPeriod b (UserBeat.localBeatPeriod b').

Definition sameBeats (h h' : gmap nat UserBeat.t) : Prop :=
  forall a, option_Forall2 sameBeat (h !! a) (h' !! a).

Definition sameRegion (r r' : TempoRegion.t) : Prop :=
  r' = TempoRegion.set_tempo
         (TempoRegion.set_autoBeats r (TempoRegion.autoBeats r')) (TempoRegion.tempo r')
  /\ sameKind (TempoRegion.tempo r) (TempoRegion.tempo r').

Definition sameStructure (s s' : Engine.t) : Prop :=
  Forall2 sameRegion (Engine.regions s) (Engine.regions s')
  /\ sameBeats (Engine.beats s) (Engine.beats s')
  /\ Engine.userBeatsById s' = Engine.userBeatsById s
  /\ Engine.nextRegionId s' = Engine.nextRegionId s
  /\ Engine.nextUserBeatId s' = Engine.nextUserBeatId s
  /\ Engine.viewport s' = Engine.viewport s
  /\ Engine.selectedRegionId s' = Engine.selectedRegionId s.

(** What is saved of a tempo, and what a loaded region has of a saved one. *)
Definition savedTempo (t : Tempo) : SavedTempo :=
  match t with
  | fixed bpm _ => saved_fixed bpm
  | tapped _ => saved_tapped
  end.

Definition loadedFrom (h : gmap nat UserBeat.t) (saved : SavedRegion.t) (r : TempoRegion.t)
  : Prop :=
  timesOf h r = SavedRegion.markedBeats saved
  /\ savedTempo (TempoRegion.tempo r) = SavedRegion.tempo saved
  /\ TempoRegion.offbeatsMarked r = SavedRegion.offbeatsMarked saved.



(** The neighbours of the beat at position [i] of the region at position
    [q]: the beat before it (in its region, or the last one of the region
    before), the beat after it (in its region, or the first one of the
    region after), and whether it is the last beat of the last region. *)
Definition predecessor (s : Engine.t) (q i : nat) : option nat :=
  match Engine.regions s !! q with
  | None => None
  | Some r =>
      if (0 <? i)%nat then TempoRegion.userBeats r !! (i - 1)%nat
      else if (0 <? q)%nat then
        match Engine.regions s !! (q - 1)%nat with
        | Some prev => last (TempoRegion.userBeats prev)
        | None => None
        end
      else None
  end.

Definition successor (s : Engine.t) (q i : nat) : option nat :=
  match Engine.regions s !! q with
  | None => None
  | Some r =>
      if (S i <? length (TempoRegion.userBeats r))%nat then TempoRegion.userBeats r !! S i
      else
        match Engine.regions s !! S q with
        | Some next => head (TempoRegion.userBeats next)
        | None => None
        end
  end.

Definition isFinal (s : Engine.t) (q i : nat) : bool :=
  match Engine.regions s !! q with
  | None => false
  | Some r =>
      (S q =? length (Engine.regions s))%nat
      && (S i =? length (TempoRegion.userBeats r))%nat
  end.

(** The clamp of [tryMovePoint] in terms of the neighbours' times. *)
Definition clampTo (duration toTime : float) (before after : option float) (final : bool)
  : float :=
  let clamped := match before with
                 | Some p => Math_max toTime (p + MIN_BEAT_SPACING)
                 | None => toTime
                 end in
  let clamped := match after with
                 | Some n => Math_min clamped (n - MIN_BEAT_SPACING)
                 | None => clamped
                 end in
  if final then Math_min clamped duration else clamped.

End Double.

(** * Properties *)

(** ** Numbers *)

Lemma Qlt_bool_iff (x y : Q) : Qlt_bool x y = true <-> x < y.
Proof.
  unfold Qlt_bool. rewrite negb_true_iff. split.
  - intros H. apply Qnot_le_lt. intros Hle. apply Qle_bool_iff in Hle. congruence.
  - intros H. destruct (Qle_bool y x) eqn:E; [|reflexivity].
    apply Qle_bool_iff in E. exfalso. apply (Qlt_not_le _ _ H E).
Qed.

Lemma Qlt_bool_false (x y : Q) : Qlt_bool x y = false <-> y <= x.
Proof.
  unfold Qlt_bool. rewrite negb_false_iff. apply Qle_bool_iff.
Qed.

Lemma Qle_bool_false (x y : Q) : Qle_bool x y = false <-> y < x.
Proof.
  rewrite <- Qlt_bool_iff. unfold Qlt_bool. rewrite negb_true_iff. reflexivity.
Qed.

Lemma qdiv_Ret (a b : Q) : ~ b == 0 -> qdiv a b = Ret (a / b).
Proof.
  intros H. unfold qdiv. destruct (Qeq_bool b 0) eqn:E; [|reflexivity].
  apply Qeq_bool_iff in E. contradiction.
Qed.

(** ** The time loops end exactly when the step is positive *)

Lemma forTimes_nonpos (fuel : nat) (t upTo step : Q) :
  step <= 0 -> t < upTo -> forTimes fuel t upTo step = None.
Proof.
  intros Hs. revert t. induction fuel as [|n IH]; intros t Ht; simpl.
  - apply Qlt_bool_iff in Ht. rewrite Ht. reflexivity.
  - rewrite (proj2 (Qlt_bool_iff t upTo) Ht).
    rewrite IH; [reflexivity | lra].
Qed.

Lemma forTimes_In (fuel : nat) (t upTo step : Q) (l : list Q) :
  0 < step -> forTimes fuel t upTo step = Some l ->
  forall x, In x l -> t <= x /\ x < upTo.
Proof.
  intros Hs. revert t l. induction fuel as [|n IH]; intros t l; simpl.
  - destruct (Qlt_bool t upTo); [discriminate|].
    intros [= <-] x [].
  - destruct (Qlt_bool t upTo) eqn:E.
    + destruct (forTimes n (t + step) upTo step) as [l'|] eqn:E'; [|discriminate].
      simpl. intros [= <-] x [<- | Hx].
      * apply Qlt_bool_iff in E. split; [lra | exact E].
      * destruct (IH _ _ E' x Hx). split; lra.
    + intros [= <-] x [].
Qed.

Lemma forTimes_enough (fuel : nat) (t upTo step : Q) :
  0 < step -> upTo - t <= inject_Z (Z.of_nat fuel) * step ->
  exists l, forTimes fuel t upTo step = Some l.
Proof.
  intros Hs. revert t. induction fuel as [|n IH]; intros t Hb; simpl.
  - destruct (Qlt_bool t upTo) eqn:E; [|eauto].
    apply Qlt_bool_iff in E. change (inject_Z (Z.of_nat 0)) with 0 in Hb. lra.
  - destruct (Qlt_bool t upTo) eqn:E; [|eauto].
    destruct (IH (t + step)) as [l Hl].
    + rewrite Nat2Z.inj_succ in Hb. unfold Z.succ in Hb.
      rewrite inject_Z_plus in Hb. change (inject_Z 1) with 1 in Hb. lra.
    + rewrite Hl. simpl. eauto.
Qed.

Lemma loopBound_enough (t upTo step : Q) :
  0 < step -> t < upTo ->
  upTo - t <= inject_Z (Z.of_nat (loopBound t upTo step)) * step.
Proof.
  intros Hs Ht. unfold loopBound.
  assert (H0 : 0 <= (upTo - t) / step).
  { apply Qle_shift_div_l; [exact Hs | lra]. }
  assert (Hc : (0 <= Qceiling ((upTo - t) / step))%Z).
  { rewrite <- (Qceiling_Z 0). apply Qceiling_resp_le. exact H0. }
  rewrite Z2Nat.id by exact Hc.
  assert (He : upTo - t == (upTo - t) / step * step) by (field; lra).
  rewrite He at 1. apply Qmult_le_compat_r; [apply Qle_ceiling | lra].
Qed.

Lemma timesFrom_pos (t upTo step : Q) :
  0 < step -> exists l, timesFrom t upTo step = Ret l.
Proof.
  intros Hs. unfold timesFrom.
  destruct (Qlt_bool t upTo) eqn:E; [|eauto].
  rewrite (proj2 (Qlt_bool_iff 0 step) Hs).
  apply Qlt_bool_iff in E.
  destruct (forTimes_enough _ _ _ _ Hs (loopBound_enough _ _ _ Hs E)) as [l Hl].
  rewrite Hl. eauto.
Qed.

(** [timesFrom] answers [Ret l] exactly when some number of rounds ends the
    loop with [l], and [Diverge] exactly when no number of rounds does. *)
Lemma forTimes_mono (fuel fuel' : nat) (t upTo step : Q) (l : list Q) :
  forTimes fuel t upTo step = Some l -> (fuel <= fuel')%nat ->
  forTimes fuel' t upTo step = Some l.
Proof.
  revert fuel' t l. induction fuel as [|n IH]; intros fuel' t l; simpl.
  - destruct (Qlt_bool t upTo) eqn:E; [discriminate|].
    intros H _. destruct fuel'; simpl; rewrite E; exact H.
  - destruct (Qlt_bool t upTo) eqn:E.
    + destruct (forTimes n (t + step) upTo step) as [l'|] eqn:E'; [|discriminate].
      simpl. intros [= <-] Hle. destruct fuel' as [|m]; [lia|].
      simpl. rewrite E. rewrite (IH m _ _ E'); [reflexivity | lia].
    + intros H _. destruct fuel'; simpl; rewrite E; exact H.
Qed.

Lemma timesFrom_Ret (t upTo step : Q) (l : list Q) :
  timesFrom t upTo step = Ret l <-> exists fuel, forTimes fuel t upTo step = Some l.
Proof.
  unfold timesFrom. split.
  - destruct (Qlt_bool t upTo) eqn:E.
    + destruct (Qlt_bool 0 step); [|discriminate].
      destruct (forTimes (loopBound t upTo step) t upTo step) eqn:E'; [|discriminate].
      intros [= <-]. eauto.
    + intros [= <-]. exists 0%nat. simpl. rewrite E. reflexivity.
  - intros [fuel Hf]. destruct (Qlt_bool t upTo) eqn:E.
    + apply Qlt_bool_iff in E.
      destruct (Qlt_bool 0 step) eqn:Es.
      * apply Qlt_bool_iff in Es.
        destruct (forTimes_enough _ _ _ _ Es (loopBound_enough _ _ _ Es E)) as [l' Hl'].
        rewrite Hl'. f_equal.
        pose proof (forTimes_mono _ (Nat.max fuel (loopBound t upTo step)) _ _ _ _ Hf
                      (Nat.le_max_l _ _)) as H1.
        pose proof (forTimes_mono _ (Nat.max fuel (loopBound t upTo step)) _ _ _ _ Hl'
                      (Nat.le_max_r _ _)) as H2.
        congruence.
      * apply Qlt_bool_false in Es. rewrite forTimes_nonpos in Hf by assumption.
        discriminate.
    + destruct fuel; simpl in Hf; rewrite E in Hf; congruence.
Qed.

Lemma timesFrom_Diverge (t upTo step : Q) :
  timesFrom t upTo step = Diverge <-> forall fuel, forTimes fuel t upTo step = None.
Proof.
  split.
  - intros H fuel. destruct (forTimes fuel t upTo step) as [l|] eqn:E; [|reflexivity].
    assert (timesFrom t upTo step = Ret l) by (apply timesFrom_Ret; eauto).
    congruence.
  - intros H. unfold timesFrom.
    destruct (Qlt_bool t upTo) eqn:E.
    + destruct (Qlt_bool 0 step); [|reflexivity].
      rewrite H. reflexivity.
    + specialize (H 0%nat). simpl in H. rewrite E in H. discriminate.
Qed.

Lemma timesFrom_In (t upTo step : Q) (l : list Q) :
  timesFrom t upTo step = Ret l ->
  forall x, In x l -> 0 < step /\ t <= x /\ x < upTo.
Proof.
  unfold timesFrom. destruct (Qlt_bool t upTo); [|intros [= <-] x []].
  destruct (Qlt_bool 0 step) eqn:Es; [|discriminate].
  apply Qlt_bool_iff in Es.
  destruct (forTimes (loopBound t upTo step) t upTo step) as [l'|] eqn:E; [|discriminate].
  intros [= <-] x Hx. split; [exact Es|]. eapply forTimes_In; eauto.
Qed.

(** ** The auto-beat projector *)

Section Projector.

Variable duration : Q.

Lemma tappedAutoBeats_pos (period endTime : Q) (times : list Q) :
  0 < period -> exists l, tappedAutoBeats period endTime times = Ret l.
Proof.
  intros Hp. induction times as [|x times IH]; simpl; [eauto|].
  destruct (timesFrom_pos (x + period)
              (match times with [] => endTime | next :: _ => next end) period Hp)
    as [l1 H1].
  destruct IH as [l2 H2]. rewrite H1. simpl. rewrite H2. simpl. eauto.
Qed.

Lemma computeAutoBeats_steady (h : gmap nat UserBeat.t) (r : TempoRegion.t) :
  steady r = true -> exists l, computeAutoBeats h r = Ret l.
Proof.
  unfold steady, computeAutoBeats.
  destruct (TempoRegion.tempo r) as [[[mp sd]|]|bpm ph]; intros H.
  - apply Qlt_bool_iff in H. apply tappedAutoBeats_pos. exact H.
  - eauto.
  - apply Qlt_bool_iff in H. rewrite qdiv_Ret by lra. simpl.
    apply timesFrom_pos. apply Qlt_shift_div_l; lra.
Qed.

Lemma tappedAutoBeats_In (period endTime : Q) (times l : list Q) :
  tappedAutoBeats period endTime times = Ret l ->
  forall x, In x l ->
    exists u upTo, In u times /\ (upTo = endTime \/ In upTo times)
                   /\ u < x /\ x < upTo.
Proof.
  revert l. induction times as [|t0 times IH]; simpl; intros l.
  - intros [= <-] x [].
  - destruct (timesFrom (t0 + period) _ period) as [l1| | |] eqn:E1; try discriminate.
    simpl. destruct (tappedAutoBeats period endTime times) as [l2| | |] eqn:E2;
      try discriminate.
    simpl. intros [= <-] x Hx. apply in_app_or in Hx. destruct Hx as [Hx|Hx].
    + destruct (timesFrom_In _ _ _ _ E1 x Hx) as (Hp & Hlo & Hhi).
      exists t0, (match times with [] => endTime | next :: _ => next end).
      split; [left; reflexivity|]. split.
      * destruct times; [left; reflexivity | right; right; left; reflexivity].
      * split; [lra | exact Hhi].
    + destruct (IH _ eq_refl x Hx) as (u & upTo & Hu & Hup & Hlo & Hhi).
      exists u, upTo. split; [right; exact Hu|]. split; [|split; assumption].
      destruct Hup as [->|Hup]; [left; reflexivity | right; right; exact Hup].
Qed.

Lemma computeAutoBeats_In (h : gmap nat UserBeat.t) (r : TempoRegion.t) (l : list Q) :
  computeAutoBeats h r = Ret l -> forall x, In x l -> autoBeatPlace h r x.
Proof.
  unfold computeAutoBeats, autoBeatPlace.
  destruct (TempoRegion.tempo r) as [[[mp sd]|]|bpm ph].
  - intros H x Hx. eapply tappedAutoBeats_In; eauto.
  - intros [= <-] x [].
  - destruct (qdiv 60 bpm) as [period| | |]; try discriminate. simpl.
    intros H x Hx. destruct (timesFrom_In _ _ _ _ H x Hx) as (_ & H1 & H2). auto.
Qed.

Lemma place_times (i : nat) (old : list AutoBeat.t) (ts : list Q) (n : nat) :
  List.map AutoBeat.time (fst (place i old ts n)) = ts.
Proof.
  revert old n. induction ts as [|t ts IH]; intros old n; simpl; [reflexivity|].
  destruct old as [|b old].
  - specialize (IH [] (S n)). destruct (place i [] ts (S n)). simpl in *. congruence.
  - specialize (IH old n). destruct (place i old ts n). simpl in *. congruence.
Qed.

(** Recycling keeps the ids of the auto beats it reuses. *)
Lemma place_recycles (i : nat) (old : list AutoBeat.t) (ts : list Q) (n k : nat)
      (b : AutoBeat.t) :
  old !! k = Some b -> (k < length ts)%nat ->
  exists b', fst (place i old ts n) !! k = Some b' /\ AutoBeat.id b' = AutoBeat.id b.
Proof.
  revert old n k. induction ts as [|t ts IH]; intros old n k Hk Hlt; simpl in *; [lia|].
  destruct old as [|b0 old]; [discriminate|].
  destruct (place i old ts n) as [l m] eqn:E. simpl.
  destruct k as [|k]; simpl in *.
  - injection Hk as ->. eauto.
  - destruct (IH old n k Hk ltac:(lia)) as (b' & H1 & H2).
    rewrite E in H1. simpl in H1. eauto.
Qed.

Lemma set_autoBeats_same (r : TempoRegion.t) :
  TempoRegion.set_autoBeats r (TempoRegion.autoBeats r) = r.
Proof. destruct r; reflexivity. Qed.

Lemma projectRegions_spec (vp : Q * Q) (h : gmap nat UserBeat.t)
      (rs rs' : list TempoRegion.t) (n n' : nat) :
  projectRegions duration vp h rs n = Ret (rs', n') ->
  Forall2 (projected duration vp h) rs rs'.
Proof.
  revert rs' n n'. induction rs as [|r rs IH]; intros rs' n n'; simpl.
  - intros [= <- <-]. constructor.
  - destruct (inView duration vp r) eqn:Ev.
    + destruct (computeAutoBeats h r) as [l| | |] eqn:Ec; try discriminate. simpl.
      pose proof (place_times (TempoRegion.index r) (TempoRegion.autoBeats r)
                    (List.filter (drawn duration vp) l) n) as Hp.
      destruct (place _ _ _ n) as [placed m]. simpl in Hp.
      destruct (projectRegions duration vp h rs m) as [[rs2 n2]| | |] eqn:Er;
        try discriminate.
      simpl. intros [= <- <-]. constructor; [|eapply IH; eauto].
      split; [reflexivity|]. rewrite Ev. exists l. simpl. auto.
    + destruct (projectRegions duration vp h rs n) as [[rs2 n2]| | |] eqn:Er;
        try discriminate.
      simpl. intros [= <- <-]. constructor; [|eapply IH; eauto].
      split; [symmetry; apply set_autoBeats_same|]. rewrite Ev. reflexivity.
Qed.

Lemma projectRegions_steady (vp : Q * Q) (h : gmap nat UserBeat.t)
      (rs : list TempoRegion.t) (n : nat) :
  forallb steady rs = true -> exists out, projectRegions duration vp h rs n = Ret out.
Proof.
  revert n. induction rs as [|r rs IH]; intros n; simpl; [eauto|].
  intros H. apply andb_prop in H. destruct H as [Hr Hrs].
  destruct (inView duration vp r).
  - destruct (computeAutoBeats_steady h r Hr) as [l Hl]. rewrite Hl. simpl.
    destruct (place _ _ _ n) as [placed m].
    destruct (IH m Hrs) as [[rs2 n2] H2]. rewrite H2. simpl. eauto.
  - destruct (IH n Hrs) as [[rs2 n2] H2]. rewrite H2. simpl. eauto.
Qed.

End Projector.

Section Redraw.

Variable duration : Q.

Lemma inView_clear (vp : Q * Q) (r : TempoRegion.t) :
  inView duration vp (clearOutOfView duration vp r) = inView duration vp r.
Proof.
  unfold clearOutOfView. destruct (inView duration vp r) eqn:E; [exact E|].
  destruct r; exact E.
Qed.

Lemma computeAutoBeats_set_autoBeats (h : gmap nat UserBeat.t) (r : TempoRegion.t)
      (l : list AutoBeat.t) :
  computeAutoBeats h (TempoRegion.set_autoBeats r l) = computeAutoBeats h r.
Proof. destruct r; reflexivity. Qed.

Lemma redrawn_of_projected (vp : Q * Q) (h : gmap nat UserBeat.t)
      (rs rs' : list TempoRegion.t) :
  Forall2 (projected duration vp h) (List.map (clearOutOfView duration vp) rs) rs' ->
  Forall2 (redrawn duration vp h) rs rs'.
Proof.
  revert rs'. induction rs as [|r rs IH]; intros rs' H; simpl in H.
  - inversion H. constructor.
  - inversion H as [|x y l l' Hxy Hl]; subst. constructor; [|apply IH; exact Hl].
    destruct Hxy as [He Hv]. rewrite inView_clear in Hv.
    unfold redrawn, clearOutOfView in *.
    destruct (inView duration vp r) eqn:E.
    + split; assumption.
    + simpl in Hv. split.
      * rewrite He. destruct r; reflexivity.
      * exact Hv.
Qed.

Lemma drawAutopoints_spec (s s' : Engine.t) :
  drawAutopoints duration s = Ret s' ->
  Forall2 (redrawn duration (Engine.viewport s) (Engine.beats s))
          (Engine.regions s) (Engine.regions s')
  /\ Engine.beats s' = Engine.beats s
  /\ Engine.userBeatsById s' = Engine.userBeatsById s
  /\ Engine.nextRegionId s' = Engine.nextRegionId s
  /\ Engine.nextUserBeatId s' = Engine.nextUserBeatId s
  /\ Engine.viewport s' = Engine.viewport s
  /\ Engine.selectedRegionId s' = Engine.selectedRegionId s
  /\ Engine.trace s' = Engine.trace s ++ [EvProject].
Proof.
  unfold drawAutopoints. simpl.
  destruct (projectRegions duration (Engine.viewport s) (Engine.beats s) _ _)
    as [[rs n]| | |] eqn:E; try discriminate.
  simpl. intros [= <-]. simpl. repeat split.
  apply redrawn_of_projected. eapply projectRegions_spec. exact E.
Qed.

Lemma steady_clear (vp : Q * Q) (rs : list TempoRegion.t) :
  forallb steady (List.map (clearOutOfView duration vp) rs) = forallb steady rs.
Proof.
  induction rs as [|r rs IH]; simpl; [reflexivity|]. rewrite IH. f_equal.
  unfold clearOutOfView. destruct (inView duration vp r); [reflexivity|].
  destruct r; reflexivity.
Qed.

Lemma drawAutopoints_steady (s : Engine.t) :
  forallb steady (Engine.regions s) = true ->
  exists s', drawAutopoints duration s = Ret s'.
Proof.
  intros H. unfold drawAutopoints. simpl.
  destruct (projectRegions_steady duration (Engine.viewport s) (Engine.beats s)
              (List.map (clearOutOfView duration (Engine.viewport s)) (Engine.regions s))
              (Engine.nextAutoBeatId s)) as [[rs n] Hp].
  - rewrite steady_clear. exact H.
  - rewrite Hp. simpl. eauto.
Qed.

Lemma drawn_iff (vp : Q * Q) (t : Q) :
  drawn duration vp t = true <-> drawStart vp <= t /\ t < drawEnd duration vp.
Proof.
  unfold drawn. rewrite negb_true_iff, orb_false_iff, Qlt_bool_false, Qle_bool_false.
  reflexivity.
Qed.

Lemma drawStart_le (vp : Q * Q) : fst vp - drawBuffer <= drawStart vp.
Proof. unfold drawStart. apply Q.le_max_l. Qed.

Lemma drawEnd_le (vp : Q * Q) : drawEnd duration vp <= snd vp + drawBuffer.
Proof. unfold drawEnd. apply Q.le_min_l. Qed.

Lemma redrawn_bounds (vp : Q * Q) (h : gmap nat UserBeat.t) (r r' : TempoRegion.t)
      (b : AutoBeat.t) :
  redrawn duration vp h r r' -> In b (TempoRegion.autoBeats r') ->
  drawStart vp <= AutoBeat.time b /\ AutoBeat.time b < drawEnd duration vp
  /\ autoBeatPlace h r' (AutoBeat.time b).
Proof.
  intros [He Hv] Hb. destruct (inView duration vp r).
  - destruct Hv as (l & Hl & Ht).
    assert (Hin : In (AutoBeat.time b) (List.filter (drawn duration vp) l)).
    { rewrite <- Ht. apply in_map. exact Hb. }
    apply filter_In in Hin. destruct Hin as [Hin Hd]. apply drawn_iff in Hd.
    destruct Hd. repeat split; try assumption.
    pose proof (computeAutoBeats_In h r l Hl _ Hin) as Hp.
    rewrite He. destruct r; exact Hp.
  - rewrite Hv in Hb. destruct Hb.
Qed.

End Redraw.

Lemma Forall2_In_r {A B : Type} (R : A -> B -> Prop) (l : list A) (l' : list B) (y : B) :
  Forall2 R l l' -> In y l' -> exists x, In x l /\ R x y.
Proof.
  induction 1 as [|x y' l l' Hxy _ IH]; intros Hy; [destruct Hy|].
  destruct Hy as [<- | Hy].
  - exists x. split; [left; reflexivity | exact Hxy].
  - destruct (IH Hy) as (x0 & Hx0 & HR). exists x0. split; [right; exact Hx0 | exact HR].
Qed.

(** ** Saving *)

Lemma saveRegions_steady (h : gmap nat UserBeat.t) (rs : list TempoRegion.t) :
  forallb steady rs = true -> exists j, saveRegions h rs = Ret j.
Proof.
  induction rs as [|r rs IH]; simpl; [eauto|].
  intros H. apply andb_prop in H. destruct H as [Hr Hrs].
  unfold saveRegion. destruct (computeAutoBeats_steady h r Hr) as [l Hl].
  rewrite Hl. simpl. destruct (IH Hrs) as [j Hj]. rewrite Hj. simpl. eauto.
Qed.

Lemma saveState_steady (s : Engine.t) :
  forallb steady (Engine.regions s) = true -> exists j, saveState s = Ret (j, Engine.log s (EvSave j)).
Proof.
  intros H. unfold saveState.
  destruct (saveRegions_steady (Engine.beats s) _ H) as [j Hj]. rewrite Hj. simpl. eauto.
Qed.

Lemma saveState_spec (s s' : Engine.t) (j : SaveObject) :
  saveState s = Ret (j, s') -> s' = Engine.log s (EvSave j).
Proof.
  unfold saveState. destruct (saveRegions _ _) as [j'| | |]; try discriminate.
  simpl. intros [= <- <-]. reflexivity.
Qed.

Lemma redrawn_steady (duration : Q) (vp : Q * Q) (h : gmap nat UserBeat.t)
      (rs rs' : list TempoRegion.t) :
  Forall2 (redrawn duration vp h) rs rs' -> forallb steady rs' = forallb steady rs.
Proof.
  induction 1 as [|r r' rs rs' [He _] _ IH]; simpl; [reflexivity|].
  rewrite IH. f_equal. rewrite He. destruct r; reflexivity.
Qed.



(** ** Deleting the tempo-change beat of region 0 *)



(** ** The tapped-tempo estimator *)

Lemma fold_Qplus_acc (l : list Q) (a : Q) :
  fold_left Qplus l a == a + fold_left Qplus l 0.
Proof.
  revert a. induction l as [|x l IH]; intros a; simpl.
  - lra.
  - rewrite (IH (a + x)), (IH (0 + x)). lra.
Qed.

Lemma Qsum_cons (x : Q) (l : list Q) : Qsum (x :: l) == x + Qsum l.
Proof. unfold Qsum. simpl. rewrite fold_Qplus_acc. lra. Qed.

Lemma inject_nat_S (n : nat) :
  inject_Z (Z.of_nat (S n)) == inject_Z (Z.of_nat n) + 1.
Proof. rewrite Nat2Z.inj_succ. unfold Z.succ. rewrite inject_Z_plus. reflexivity. Qed.

Lemma inject_nat_pos (n : nat) : (0 < n)%nat -> 0 < inject_Z (Z.of_nat n).
Proof.
  intros H. change 0 with (inject_Z 0). rewrite <- Zlt_Qlt. lia.
Qed.

Lemma Qsum_bounds (lo hi : Q) (l : list Q) :
  Forall (fun x => lo <= x /\ x <= hi) l ->
  inject_Z (Z.of_nat (length l)) * lo <= Qsum l
  /\ Qsum l <= inject_Z (Z.of_nat (length l)) * hi.
Proof.
  induction 1 as [|x l [H1 H2] _ [IH1 IH2]].
  - unfold Qsum. simpl. change (inject_Z (Z.of_nat 0)) with 0. split; lra.
  - rewrite Qsum_cons. cbn [length]. rewrite inject_nat_S. split; lra.
Qed.

Lemma mean_bounds (lo hi : Q) (l : list Q) :
  l <> [] -> Forall (fun x => lo <= x /\ x <= hi) l ->
  exists est, qdiv (Qsum l) (inject_Z (Z.of_nat (length l))) = Ret est
              /\ lo <= est /\ est <= hi.
Proof.
  intros Hne HF.
  assert (Hpos : 0 < inject_Z (Z.of_nat (length l))).
  { apply inject_nat_pos. destruct l; [congruence | simpl; lia]. }
  rewrite qdiv_Ret by lra. eexists. split; [reflexivity|].
  destruct (Qsum_bounds lo hi l HF) as [H1 H2]. split.
  - apply Qle_shift_div_l; [exact Hpos | lra].
  - apply Qle_shift_div_r; [exact Hpos | lra].
Qed.

Section Sorting.

Variable numberToString : Q -> string.

Lemma sortInsert_perm (x : Q) (l : list Q) :
  Permutation (sortInsert numberToString x l) (x :: l).
Proof.
  induction l as [|y l IH]; simpl; [reflexivity|].
  destruct (String.ltb _ _); [reflexivity|].
  rewrite IH. apply perm_swap.
Qed.

Lemma jsSort_perm (l : list Q) : Permutation (jsSort numberToString l) l.
Proof.
  unfold jsSort.
  assert (H : forall acc, Permutation (fold_left (fun acc x => sortInsert numberToString x acc) l acc)
                                      (l ++ acc)).
  { induction l as [|x l IH]; intros acc; simpl; [reflexivity|].
    rewrite IH, sortInsert_perm. symmetry. apply Permutation_middle. }
  rewrite H, app_nil_r. reflexivity.
Qed.

End Sorting.

Lemma slice_Forall {A : Type} (P : A -> Prop) (a b : nat) (l : list A) :
  Forall P l -> Forall P (slice a b l).
Proof.
  intros H. unfold slice. apply Forall_take, Forall_drop, H.
Qed.

Lemma slice_length {A : Type} (a b : nat) (l : list A) :
  (b <= length l)%nat -> length (slice a b l) = (b - a)%nat.
Proof.
  intros H. unfold slice. rewrite length_take, length_drop. lia.
Qed.

(** A fifth of the candidates, rounded up, is cut from either end; for five
    candidates or more something is left. *)
Lemma discard_small (n : nat) :
  (5 <= n)%nat ->
  (2 * Z.to_nat (Math_ceil (inject_Z (Z.of_nat n) * (2 # 10))) < n)%nat.
Proof.
  intros Hn. unfold Math_ceil.
  set (x := inject_Z (Z.of_nat n) * (2 # 10)).
  pose proof (Qceiling_lt x) as H.
  assert (H0 : (0 <= Qceiling x)%Z).
  { rewrite <- (Qceiling_Z 0). apply Qceiling_resp_le. unfold x.
    pose proof (inject_nat_pos n ltac:(lia)). change (inject_Z 0) with 0. lra. }
  assert (H1 : inject_Z (5 * (Qceiling x - 1)) < inject_Z (Z.of_nat n)).
  { rewrite inject_Z_mult. change (inject_Z 5) with 5. unfold x in *.
    unfold Z.sub in *. rewrite inject_Z_plus in *.
    set (c := inject_Z (Qceiling _)) in *. set (m := inject_Z (Z.of_nat n)) in *.
    change (inject_Z (- (1))) with (- (1)) in *. lra. }
  rewrite <- Zlt_Qlt in H1. lia.
Qed.

Lemma minDist_acc (ds : list Q) (a : Q) :
  exists m,
    fold_left (fun m d => Some (match m with None => d | Some m' => Qmin m' d end))
              ds (Some a) = Some m
    /\ In m (a :: ds) /\ m <= a /\ Forall (fun d => m <= d) ds.
Proof.
  revert a. induction ds as [|d ds IH]; intros a; simpl.
  - exists a. split; [reflexivity|]. split; [left; reflexivity|]. split; [lra|constructor].
  - destruct (IH (Qmin a d)) as (m & Hm & Hin & Hle & HF).
    exists m. split; [exact Hm|].
    pose proof (Q.le_min_l a d). pose proof (Q.le_min_r a d).
    split; [|split; [lra|constructor; [lra|exact HF]]].
    destruct Hin as [<- | Hin]; [|right; right; exact Hin].
    unfold Qmin, GenericMinMax.gmin. destruct (a ?= d); [left|left|right; left]; reflexivity.
Qed.

Lemma minDist_spec (ds : list Q) :
  ds <> [] ->
  exists m, minDist ds = Some m /\ In m ds /\ Forall (fun d => m <= d) ds.
Proof.
  destruct ds as [|d ds]; [congruence|]. intros _. unfold minDist. simpl.
  destruct (minDist_acc ds d) as (m & Hm & Hin & Hle & HF).
  exists m. split; [exact Hm|]. split; [exact Hin|]. constructor; assumption.
Qed.

(** One step of a call that returned. *)
Ltac ret := unfold mbind, mret, result_bind, result_ret; cbv beta iota.

Section Estimate.

Variable numberToString : Q -> string.

Lemma initialEstimate_bounds (ds : list Q) (lo hi : Q) :
  (exists d, In d ds /\ isCandidate (minDist ds) d = true) ->
  (forall d, In d ds -> isCandidate (minDist ds) d = true -> lo <= d /\ d <= hi) ->
  exists est, initialEstimate numberToString ds = Ret est /\ lo <= est /\ est <= hi.
Proof.
  intros (d0 & Hd0 & Hc0) Hb. unfold initialEstimate.
  set (cands := List.filter (isCandidate (minDist ds)) ds).
  assert (HF : Forall (fun x => lo <= x /\ x <= hi) cands).
  { apply List.Forall_forall. intros x Hx. apply filter_In in Hx. destruct Hx. auto. }
  assert (Hne : (0 < length cands)%nat).
  { assert (In d0 cands) by (apply filter_In; auto).
    destruct cands; [contradiction | simpl; lia]. }
  pose proof (jsSort_perm numberToString cands) as Hp.
  set (sorted := jsSort numberToString cands) in *.
  assert (HF' : Forall (fun x => lo <= x /\ x <= hi) sorted).
  { eapply Permutation_Forall; [symmetry; exact Hp | exact HF]. }
  assert (Hne' : (0 < length sorted)%nat).
  { rewrite (Permutation_length Hp). exact Hne. }
  destruct (5 <=? length sorted)%nat eqn:E5.
  - apply Nat.leb_le in E5. pose proof (discard_small _ E5) as Hd.
    set (discard := Z.to_nat _) in *.
    apply mean_bounds.
    + intros Hnil. apply (f_equal (@length Q)) in Hnil.
      rewrite slice_length in Hnil by lia. simpl in Hnil. lia.
    + apply slice_Forall. exact HF'.
  - apply mean_bounds; [|exact HF']. destruct sorted; [simpl in Hne'; lia | congruence].
Qed.

(** The number of periods of every distance: at least one for a distance
    that is at least [5/6] of the estimate. *)
Lemma periodsOf_ge1 (est d : Q) :
  0 < est -> est * (5 # 6) <= d ->
  exists k, periodsOf est d = Ret k /\ (1 <= k)%Z.
Proof.
  intros He Hd. unfold periodsOf. rewrite qdiv_Ret by lra. simpl.
  eexists. split; [reflexivity|]. unfold Math_round.
  assert (5 # 6 <= d / est) by (apply Qle_shift_div_l; lra).
  change (Qfloor 1 <= Qfloor (d / est + (1 # 2)))%Z.
  apply Qfloor_resp_le. lra.
Qed.

Lemma countPeriods_spec (est : Q) (ds : list Q) (ks : list Z) :
  Forall2 (fun d k => periodsOf est d = Ret k) ds ks ->
  countPeriods est ds = Ret (Zsum ks).
Proof.
  induction 1 as [|d k ds ks Hk _ IH]; simpl; [reflexivity|].
  rewrite Hk. simpl. rewrite IH. reflexivity.
Qed.

Lemma Zsum_ge (ks : list Z) :
  Forall (fun k => (1 <= k)%Z) ks -> (Z.of_nat (length ks) <= Zsum ks)%Z.
Proof.
  induction 1 as [|k ks Hk _ IH]; simpl; [lia|]. lia.
Qed.

Lemma squaredErrors_spec (est meanBpm : Q) (ds : list Q) (ks : list Z) :
  Forall2 (fun d k => periodsOf est d = Ret k /\ (1 <= k)%Z /\ 0 < d) ds ks ->
  squaredErrors est meanBpm ds
  = Ret (zip_with (fun d k => (meanBpm - 60 / (d / inject_Z k)) ^ 2) ds ks).
Proof.
  induction 1 as [|d k ds ks (Hk & H1 & Hd) _ IH]; simpl; [reflexivity|].
  rewrite Hk. simpl.
  assert (Hkq : 0 < inject_Z k).
  { change 0 with (inject_Z 0). rewrite <- Zlt_Qlt. lia. }
  rewrite qdiv_Ret by lra. simpl.
  assert (0 < d / inject_Z k) by (apply Qlt_shift_div_l; lra).
  rewrite qdiv_Ret by lra. simpl. rewrite IH. reflexivity.
Qed.

Lemma Qsum_pos (ds : list Q) : ds <> [] -> Forall (fun d => 0 < d) ds -> 0 < Qsum ds.
Proof.
  intros Hne HF. induction HF as [|d ds Hd HF IH]; [congruence|].
  rewrite Qsum_cons. destruct ds as [|d' ds'].
  - unfold Qsum. simpl. lra.
  - assert (0 < Qsum (d' :: ds')) by (apply IH; congruence). lra.
Qed.

(** The estimate for given period counts. *)
Lemma recomputeTempo_counts (t0 t1 : Q) (times : list Q) (est : Q) (ks : list Z) :
  let ds := dists (t0 :: t1 :: times) in
  initialEstimate numberToString ds = Ret est ->
  Forall2 (fun d k => periodsOf est d = Ret k /\ (1 <= k)%Z /\ 0 < d) ds ks ->
  exists variance,
    recomputeTempo numberToString (t0 :: t1 :: times)
    = Ret (Some (Some (Qsum ds / inject_Z (Zsum ks), Math_sqrt variance)))
    /\ 0 < Qsum ds / inject_Z (Zsum ks)
    /\ variance
       == Qsum (zip_with (fun d k => (60 / (Qsum ds / inject_Z (Zsum ks))
                                      - 60 / (d / inject_Z k)) ^ 2) ds ks)
          / inject_Z (Z.of_nat (length ds)).
Proof.
  intros ds Hest HF.
  assert (Hlen : length ks = length ds) by (symmetry; eapply Forall2_length; exact HF).
  assert (Hne : ds <> []) by (unfold ds; simpl; congruence).
  assert (Hpos : Forall (fun d => 0 < d) ds).
  { eapply Forall2_Forall_l; [exact HF|]. apply List.Forall_forall. intros y _ d (_ & _ & H). exact H. }
  assert (Hks : Forall (fun k => (1 <= k)%Z) ks).
  { eapply Forall2_Forall_r; [exact HF|]. apply List.Forall_forall. intros y _ d (_ & H & _). exact H. }
  assert (Hc : (1 <= Zsum ks)%Z).
  { pose proof (Zsum_ge ks Hks). destruct ds; [congruence|]. simpl in Hlen.
    rewrite Hlen in H. lia. }
  assert (Hcq : 0 < inject_Z (Zsum ks)).
  { change 0 with (inject_Z 0). rewrite <- Zlt_Qlt. lia. }
  pose proof (Qsum_pos ds Hne Hpos) as Hs.
  assert (Hmp : 0 < Qsum ds / inject_Z (Zsum ks)) by (apply Qlt_shift_div_l; lra).
  unfold recomputeTempo. fold ds. rewrite Hest. ret.
  unfold meanPeriodOf. rewrite (countPeriods_spec est ds ks).
  2:{ eapply Forall2_impl; [exact HF|]. intros d k (H & _). exact H. }
  ret. rewrite qdiv_Ret by lra. ret. rewrite qdiv_Ret by lra. ret.
  unfold varianceOf. rewrite (squaredErrors_spec _ _ ds ks HF). ret.
  assert (Hn : 0 < inject_Z (Z.of_nat (length
            (zip_with (fun d k => (60 / (Qsum ds / inject_Z (Zsum ks))
                                   - 60 / (d / inject_Z k)) ^ 2) ds ks)))).
  { apply inject_nat_pos. rewrite length_zip_with, Hlen.
    destruct ds; [congruence | simpl; lia]. }
  rewrite qdiv_Ret by lra. ret. eexists. split; [reflexivity|].
  split; [exact Hmp|]. rewrite length_zip_with, Hlen, Nat.min_id. reflexivity.
Qed.

End Estimate.

Lemma Forall_exists_Forall2 {A B : Type} (R : A -> B -> Prop) (l : list A) :
  Forall (fun x => exists y, R x y) l -> exists l', Forall2 R l l'.
Proof.
  induction 1 as [|x l [y Hy] _ [l' IH]].
  - exists []. constructor.
  - exists (y :: l'). constructor; assumption.
Qed.

(** On beats that ascend strictly the estimator stays within the numbers
    and its period is positive. *)
Lemma recomputeTempo_ascending (numberToString : Q -> string) (t0 t1 : Q) (times : list Q) :
  Forall (fun d => 0 < d) (dists (t0 :: t1 :: times)) ->
  exists meanPeriod stddev,
    recomputeTempo numberToString (t0 :: t1 :: times)
    = Ret (Some (Some (meanPeriod, stddev)))
    /\ 0 < meanPeriod.
Proof.
  intros Hpos. set (ds := dists (t0 :: t1 :: times)) in *.
  assert (Hne : ds <> []) by (unfold ds; simpl; congruence).
  destruct (minDist_spec ds Hne) as (m & Hm & Hin & Hle).
  assert (Hm0 : 0 < m).
  { rewrite List.Forall_forall in Hpos. apply Hpos. exact Hin. }
  destruct (initialEstimate_bounds numberToString ds m (m * (12 # 10)))
    as (est & Hest & Hlo & Hhi).
  - exists m. split; [exact Hin|]. rewrite Hm. simpl. apply Qlt_bool_iff. lra.
  - intros d Hd Hc. rewrite Hm in Hc. simpl in Hc. apply Qlt_bool_iff in Hc.
    rewrite List.Forall_forall in Hle. specialize (Hle d Hd). split; lra.
  - assert (HF : Forall (fun d => exists k, periodsOf est d = Ret k /\ (1 <= k)%Z /\ 0 < d) ds).
    { apply List.Forall_forall. intros d Hd.
      rewrite List.Forall_forall in Hle, Hpos.
      specialize (Hle d Hd). specialize (Hpos d Hd).
      destruct (periodsOf_ge1 est d) as (k & Hk & Hk1); [lra | lra |].
      exists k. auto. }
    apply Forall_exists_Forall2 in HF. destruct HF as [ks HF].
    destruct (recomputeTempo_counts numberToString t0 t1 times est ks Hest HF)
      as (variance & Hr & Hmp & _).
    eexists. eexists. split; [exact Hr | exact Hmp].
Qed.

(** *** Beats on a grid *)







Lemma inject_Z_ge1 (k : Z) : (1 <= k)%Z -> 1 <= inject_Z k.
Proof. intros H. change 1 with (inject_Z 1). rewrite <- Zle_Qle. exact H. Qed.


(** ** What a recompute pass leaves alone *)

Lemma sameKind_refl (t : Tempo) : sameKind t t.
Proof. destruct t; simpl; auto. Qed.

Lemma sameKind_trans (t1 t2 t3 : Tempo) : sameKind t1 t2 -> sameKind t2 t3 -> sameKind t1 t3.
Proof. destruct t1, t2, t3; simpl; intros; try tauto; congruence. Qed.

Lemma sameBeat_refl (b : UserBeat.t) : sameBeat b b.
Proof. destruct b; reflexivity. Qed.

Lemma sameBeat_trans (b1 b2 b3 : UserBeat.t) : sameBeat b1 b2 -> sameBeat b2 b3 -> sameBeat b1 b3.
Proof. unfold sameBeat. intros -> ->. destruct b1; reflexivity. Qed.

Lemma sameBeats_refl (h : gmap nat UserBeat.t) : sameBeats h h.
Proof.
  intros a. destruct (h !! a); constructor. apply sameBeat_refl.
Qed.

Lemma sameBeats_trans (h1 h2 h3 : gmap nat UserBeat.t) :
  sameBeats h1 h2 -> sameBeats h2 h3 -> sameBeats h1 h3.
Proof.
  intros H12 H23 a. specialize (H12 a). specialize (H23 a).
  destruct H12 as [b1 b2 Hb|]; inversion H23; subst; constructor.
  eapply sameBeat_trans; eauto.
Qed.

Lemma sameBeats_alter (h : gmap nat UserBeat.t) (a : nat) (p : option Q) :
  sameBeats h (alter (fun b => UserBeat.set_localBeatPeriod b p) a h).
Proof.
  intros a'. destruct (decide (a = a')) as [<- | Hne].
  - rewrite lookup_alter_eq. destruct (h !! a) as [b|]; constructor.
    destruct b; reflexivity.
  - rewrite lookup_alter_ne by exact Hne. apply sameBeats_refl.
Qed.

Lemma sameBeats_write (h : gmap nat UserBeat.t) (addrs : list nat) (ps : list (option Q)) :
  sameBeats h (writeLocalBeatPeriods h addrs ps).
Proof.
  unfold writeLocalBeatPeriods. generalize (zip addrs ps). intros l. revert h.
  induction l as [|[a p] l IH]; intros h; simpl; [apply sameBeats_refl|].
  eapply sameBeats_trans; [apply sameBeats_alter | apply IH].
Qed.

Lemma sameBeats_timeAt (h h' : gmap nat UserBeat.t) (a : nat) :
  sameBeats h h' -> timeAt h' a = timeAt h a.
Proof.
  intros H. specialize (H a). unfold timeAt, beatAt.
  destruct H as [b b' Hb|]; simpl; [|reflexivity]. rewrite Hb. destruct b; reflexivity.
Qed.

Lemma sameBeats_timesOf (h h' : gmap nat UserBeat.t) (r : TempoRegion.t) :
  sameBeats h h' -> timesOf h' r = timesOf h r.
Proof.
  intros H. unfold timesOf. apply map_ext. intros a. apply sameBeats_timeAt. exact H.
Qed.

Lemma sameRegion_refl (r : TempoRegion.t) : sameRegion r r.
Proof. split; [destruct r; reflexivity | apply sameKind_refl]. Qed.

Lemma sameRegion_trans (r1 r2 r3 : TempoRegion.t) :
  sameRegion r1 r2 -> sameRegion r2 r3 -> sameRegion r1 r3.
Proof.
  intros [H1 K1] [H2 K2]. split; [|eapply sameKind_trans; eauto].
  rewrite H2. rewrite H1 at 1. destruct r1; reflexivity.
Qed.

Lemma sameRegions_refl (rs : list TempoRegion.t) : Forall2 sameRegion rs rs.
Proof. induction rs; constructor; [apply sameRegion_refl | assumption]. Qed.

Lemma sameRegions_trans (l1 l2 l3 : list TempoRegion.t) :
  Forall2 sameRegion l1 l2 -> Forall2 sameRegion l2 l3 -> Forall2 sameRegion l1 l3.
Proof.
  intros H. revert l3. induction H; intros l3 H'; inversion H'; subst; constructor.
  - eapply sameRegion_trans; eauto.
  - auto.
Qed.

Lemma sameStructure_refl (s : Engine.t) : sameStructure s s.
Proof.
  split; [apply sameRegions_refl|]. split; [apply sameBeats_refl|]. repeat split.
Qed.

Lemma sameStructure_trans (s1 s2 s3 : Engine.t) :
  sameStructure s1 s2 -> sameStructure s2 s3 -> sameStructure s1 s3.
Proof.
  intros (R1 & B1 & M1 & A1 & U1 & V1 & S1) (R2 & B2 & M2 & A2 & U2 & V2 & S2).
  split; [eapply sameRegions_trans; eauto|].
  split; [eapply sameBeats_trans; eauto|].
  repeat split; congruence.
Qed.

Lemma sameRegions_insert (rs : list TempoRegion.t) (p : nat) (r r' : TempoRegion.t) :
  rs !! p = Some r -> sameRegion r r' -> Forall2 sameRegion rs (<[p := r']> rs).
Proof.
  revert p. induction rs as [|x rs IH]; intros p Hp Hr; [discriminate|].
  destruct p as [|p]; simpl in *.
  - injection Hp as ->. constructor; [exact Hr | apply sameRegions_refl].
  - constructor; [apply sameRegion_refl | apply IH; assumption].
Qed.

Section Frame.

Variable duration : Q.
Variable numberToString : Q -> string.

Lemma recomputeRegion_frame (s s' : Engine.t) (p : nat) :
  recomputeRegion numberToString s p = Ret s' -> sameStructure s s'.
Proof.
  unfold recomputeRegion. destruct (Engine.regions s !! p) as [region|] eqn:Hp.
  2:{ intros [= <-]. apply sameStructure_refl. }
  destruct (TempoRegion.tempo region) as [value|bpm ph] eqn:Ht.
  - destruct (recomputeTempo _ _) as [v| | |]; try discriminate. ret.
    destruct (localBeatPeriods _ _) as [ps| | |]; try discriminate. ret.
    intros [= <-]. split; [|split; [|repeat split]]; simpl.
    + apply sameRegions_insert with (r := region); [exact Hp|].
      split; [destruct region; reflexivity|]. simpl. rewrite Ht. exact I.
    + apply sameBeats_write.
  - destruct (recomputePhaseOffset _ _ _) as [o| | |]; try discriminate. ret.
    intros [= <-]. split; [|split; [|repeat split]]; simpl.
    + apply sameRegions_insert with (r := region); [exact Hp|].
      split; [destruct region; reflexivity|]. simpl. rewrite Ht. reflexivity.
    + apply sameBeats_refl.
Qed.

Lemma recomputeRegions_frame (changed : list nat) (s s' : Engine.t) :
  recomputeRegions numberToString s changed = Ret s' -> sameStructure s s'.
Proof.
  revert s. induction changed as [|p changed IH]; intros s; simpl.
  - intros [= <-]. apply sameStructure_refl.
  - destruct (recomputeRegion numberToString s p) as [s1| | |] eqn:E; try discriminate.
    ret. intros H. eapply sameStructure_trans; [eapply recomputeRegion_frame; exact E|].
    apply IH. exact H.
Qed.

Lemma drawAutopoints_frame (s s' : Engine.t) :
  drawAutopoints duration s = Ret s' -> sameStructure s s'.
Proof.
  intros H. apply drawAutopoints_spec in H.
  destruct H as (HF & Hb & Hm & Hr & Hu & Hv & Hs & _).
  split; [|split; [rewrite Hb; apply sameBeats_refl | repeat split; assumption]].
  eapply Forall2_impl; [exact HF|]. intros r r' [He _].
  split; [rewrite He; destruct r; reflexivity|].
  rewrite He. destruct r; simpl. apply sameKind_refl.
Qed.

Lemma saveState_frame (s s' : Engine.t) (j : SaveObject) :
  saveState s = Ret (j, s') -> sameStructure s s'.
Proof.
  intros H. apply saveState_spec in H. subst s'.
  split; [apply sameRegions_refl|]. split; [apply sameBeats_refl|]. repeat split.
Qed.

Lemma onRegionsChanged_frame (s s' : Engine.t) (changed : list nat) (doSave : bool) :
  onRegionsChanged duration numberToString s changed doSave = Ret s' ->
  sameStructure s s'.
Proof.
  unfold onRegionsChanged.
  destruct (recomputeRegions numberToString s changed) as [s1| | |] eqn:E1; try discriminate.
  ret. destruct (drawAutopoints duration s1) as [s2| | |] eqn:E2; try discriminate.
  ret. apply recomputeRegions_frame in E1. apply drawAutopoints_frame in E2.
  destruct doSave.
  - destruct (saveState s2) as [[j s3]| | |] eqn:E3; try discriminate. ret.
    intros [= <-]. apply saveState_frame in E3.
    eapply sameStructure_trans; [exact E1|]. eapply sameStructure_trans; eauto.
  - intros [= <-]. eapply sameStructure_trans; eauto.
Qed.

End Frame.

(** ** Moving a beat *)

Lemma findIndex_first {A : Type} (p : A -> bool) (l : list A) (i : nat) (x : A) :
  l !! i = Some x -> p x = true ->
  (forall j y, (j < i)%nat -> l !! j = Some y -> p y = false) ->
  findIndex p l = Z.of_nat i.
Proof.
  revert i. induction l as [|y l IH]; intros i Hi Hx Hbefore; [discriminate|].
  destruct i as [|i]; simpl in *.
  - injection Hi as ->. rewrite Hx. reflexivity.
  - rewrite (Hbefore 0%nat y ltac:(lia) eq_refl).
    rewrite (IH i Hi Hx).
    + destruct (Z.of_nat i <? 0)%Z eqn:E; [apply Z.ltb_lt in E; lia | lia].
    + intros j z Hj Hz. apply (Hbefore (S j) z); [lia | exact Hz].
Qed.

Section Move.

Variable duration : Q.
Variable numberToString : Q -> string.

Lemma tryMovePoint_clampTo (s : Engine.t) (id a : nat) (beat : UserBeat.t) (q i : nat)
      (region : TempoRegion.t) (toTime : Q) :
  Engine.userBeatsById s !! id = Some (Some a) ->
  Engine.beats s !! a = Some beat ->
  UserBeat.regionIndex beat = q ->
  Engine.regions s !! q = Some region ->
  TempoRegion.index region = q ->
  TempoRegion.userBeats region !! i = Some a ->
  (forall j b, (j < i)%nat -> TempoRegion.userBeats region !! j = Some b ->
               UserBeat.id (beatAt (Engine.beats s) b) <> UserBeat.id beat) ->
  (forall next, Engine.regions s !! S q = Some next -> TempoRegion.userBeats next <> []) ->
  let clamped := clampTo duration toTime
                         (timeAt (Engine.beats s) <$> predecessor s q i)
                         (timeAt (Engine.beats s) <$> successor s q i)
                         (isFinal s q i) in
  exists s1,
    tryMovePoint duration numberToString id toTime phase_start s = Ret (clamped, s1)
    /\ tryMovePoint duration numberToString id toTime phase_move s = Ret (clamped, s1)
    /\ tryMovePoint duration numberToString id toTime phase_end s
       = (s2 ← onRegionsChanged duration numberToString s1 [q] true; mret (clamped, s2))
    /\ Engine.beats s1 = alter (fun b => UserBeat.set_time b clamped) a (Engine.beats s).
Proof.
  intros Hid Hbeat Hq Hr Hidx Hi Hfirst Hnext clamped.
  assert (Hb : beatAt (Engine.beats s) a = beat).
  { unfold beatAt. rewrite Hbeat. reflexivity. }
  assert (Hlen : (i < length (TempoRegion.userBeats region))%nat).
  { eapply lookup_lt_Some. exact Hi. }
  assert (Hqlen : (q < length (Engine.regions s))%nat).
  { eapply lookup_lt_Some. exact Hr. }
  assert (Hfind : findIndex (fun b => (UserBeat.id (beatAt (Engine.beats s) b)
                                       =? UserBeat.id beat)%nat)
                            (TempoRegion.userBeats region) = Z.of_nat i).
  { apply findIndex_first with (x := a); [exact Hi | |].
    - rewrite Hb. apply Nat.eqb_refl.
    - intros j y Hj Hy. apply Nat.eqb_neq. eapply Hfirst; eauto. }
  unfold tryMovePoint, beatById. rewrite Hid. ret. rewrite Hb, Hq, Hr, Hfind, Hidx.
  (* the clamp against the beat before *)
  set (c1 := if (0 <? Z.of_nat i)%Z then _ else _).
  assert (Hc1 : c1 = match timeAt (Engine.beats s) <$> predecessor s q i with
                     | Some p => Qmax toTime (p + MIN_BEAT_SPACING)
                     | None => toTime
                     end).
  { unfold c1, predecessor. rewrite Hr.
    destruct i as [|i'].
    - simpl. destruct (0 <? q)%nat; [|reflexivity].
      destruct (Engine.regions s !! (q - 1)%nat) as [prev|]; [|reflexivity].
      destruct (last (TempoRegion.userBeats prev)); reflexivity.
    - replace (0 <? Z.of_nat (S i'))%Z with true by (symmetry; apply Z.ltb_lt; lia).
      replace (Z.to_nat (Z.of_nat (S i') - 1)) with i' by lia.
      simpl. rewrite Nat.sub_0_r.
      destruct (TempoRegion.userBeats region !! i'); reflexivity. }
  (* the clamp against the beat after *)
  set (r2 := if (Z.of_nat i <? _ - 1)%Z then _ else _).
  assert (Hc2 : r2 = Ret (match timeAt (Engine.beats s) <$> successor s q i with
                          | Some n => Qmin c1 (n - MIN_BEAT_SPACING)
                          | None => c1
                          end)).
  { unfold r2, successor. rewrite Hr.
    destruct (S i <? length (TempoRegion.userBeats region))%nat eqn:E.
    - apply Nat.ltb_lt in E.
      replace (Z.of_nat i <? Z.of_nat (length (TempoRegion.userBeats region)) - 1)%Z
        with true by (symmetry; apply Z.ltb_lt; lia).
      replace (Z.to_nat (Z.of_nat i + 1)) with (S i) by lia.
      destruct (lookup_lt_is_Some_2 (TempoRegion.userBeats region) (S i) E) as [b Hb'].
      rewrite Hb'. reflexivity.
    - apply Nat.ltb_ge in E.
      replace (Z.of_nat i <? Z.of_nat (length (TempoRegion.userBeats region)) - 1)%Z
        with false by (symmetry; apply Z.ltb_ge; lia).
      replace (q + 1)%nat with (S q) by lia.
      destruct (Z.of_nat q <? Z.of_nat (length (Engine.regions s)) - 1)%Z eqn:E'.
      + apply Z.ltb_lt in E'.
        destruct (lookup_lt_is_Some_2 (Engine.regions s) (S q) ltac:(lia)) as [next Hn].
        rewrite Hn. specialize (Hnext next Hn).
        destruct (TempoRegion.userBeats next); [congruence | reflexivity].
      + apply Z.ltb_ge in E'.
        rewrite (lookup_ge_None_2 (Engine.regions s) (S q)) by lia. reflexivity. }
  rewrite Hc2. ret.
  set (c3 := if (_ && _)%bool then _ else _).
  assert (Hc3 : c3 = clamped).
  { unfold c3, clamped, clampTo, isFinal. rewrite Hr, <- Hc1.
    replace ((Z.of_nat q =? Z.of_nat (length (Engine.regions s)) - 1)%Z
             && (Z.of_nat i =? Z.of_nat (length (TempoRegion.userBeats region)) - 1)%Z)
      with ((S q =? length (Engine.regions s))%nat
            && (S i =? length (TempoRegion.userBeats region))%nat); [reflexivity|].
    f_equal.
    - destruct (S q =? length (Engine.regions s))%nat eqn:E1;
        [apply Nat.eqb_eq in E1; symmetry; apply Z.eqb_eq; lia
        |apply Nat.eqb_neq in E1; symmetry; apply Z.eqb_neq; lia].
    - destruct (S i =? length (TempoRegion.userBeats region))%nat eqn:E1;
        [apply Nat.eqb_eq in E1; symmetry; apply Z.eqb_eq; lia
        |apply Nat.eqb_neq in E1; symmetry; apply Z.eqb_neq; lia]. }
  rewrite Hc3. eexists. split; [reflexivity|]. split; [reflexivity|].
  split; reflexivity.
Qed.

End Move.

Lemma clampTo_after (duration toTime : Q) (before : option Q) (n : Q) (final : bool) :
  clampTo duration toTime before (Some n) final <= n - MIN_BEAT_SPACING.
Proof.
  unfold clampTo. set (c := match before with Some p => _ | None => _ end).
  pose proof (Q.le_min_r c (n - MIN_BEAT_SPACING)).
  destruct final; [|assumption].
  pose proof (Q.le_min_l (Qmin c (n - MIN_BEAT_SPACING)) duration). lra.
Qed.

Lemma clampTo_final (duration toTime : Q) (before after : option Q) :
  clampTo duration toTime before after true <= duration.
Proof. unfold clampTo. apply Q.le_min_r. Qed.

Lemma clampTo_before (duration toTime p : Q) (after : option Q) (final : bool) :
  (forall n, after = Some n -> p + MIN_BEAT_SPACING <= n - MIN_BEAT_SPACING) ->
  (final = true -> p + MIN_BEAT_SPACING <= duration) ->
  p + MIN_BEAT_SPACING <= clampTo duration toTime (Some p) after final.
Proof.
  intros Hn Hf. unfold clampTo.
  pose proof (Q.le_max_r toTime (p + MIN_BEAT_SPACING)) as H1.
  set (c := Qmax toTime (p + MIN_BEAT_SPACING)) in *.
  assert (H2 : p + MIN_BEAT_SPACING
               <= match after with Some n => Qmin c (n - MIN_BEAT_SPACING) | None => c end).
  { destruct after as [n|]; [|exact H1]. apply Q.min_glb; [exact H1 | apply Hn; reflexivity]. }
  destruct final; [|exact H2]. apply Q.min_glb; [exact H2 | apply Hf; reflexivity].
Qed.

(** ** Adding and deleting beats *)

(** C1: the sequence below ends with a [deletePoint] on the id of a beat
    that was deleted by the call before it.  The id is still in
    [userBeatsById], so the call goes on, finds the beat nowhere
    ([findIndex] gives -1), removes the last beat of region 1 instead, which
    is its tempo-change beat, and drops the emptied region: the one region
    left ends at 5 and not at the track duration 10. *)
Theorem C1_repeated_delete_breaks_last_endTime :
  exists s r,
    calls 10 decimalString
          [call_addPoint 1 false; call_addPoint 5 true; call_addPoint 6 false;
           call_deletePoint 3; call_deletePoint 3] initial = Ret s
    /\ Engine.regions s = [r]
    /\ TempoRegion.endTime r == 5
    /\ ~ TempoRegion.endTime r == 10.
Proof.
  eexists. eexists. split; [vm_compute; reflexivity|].
  split; [reflexivity|]. split; [reflexivity | discriminate].
Qed.

(** C2: region 1 holds its tempo-change beat (id 2, at 10) and the beats
    at 11 and 13 (ids 3 and 4).  Deleting the tempo-change beat merges the
    region into region 0, which held the beat at 1, but only the last beat
    is moved: region 0 then holds the beats at 1 and 13, and the beat at 11
    is in no region. *)
Theorem C2_merge_moves_only_last_beat :
  exists s s' r r',
    calls 20 decimalString
          [call_addPoint 1 false; call_addPoint 10 true; call_addPoint 11 false;
           call_addPoint 13 false] initial = Ret s
    /\ deletePoint 20 decimalString 2 s = Ret s'
    /\ List.map TempoRegion.userBeats (Engine.regions s) = [[1]; [2; 3; 4]]%nat
    /\ Engine.regions s !! 1%nat = Some r
    /\ timesOf (Engine.beats s) r = [10; 11; 13]
    /\ Engine.regions s' = [r']
    /\ TempoRegion.userBeats r' = [1; 4]%nat
    /\ timesOf (Engine.beats s') r' = [1; 13]
    /\ TempoRegion.endTime r' = TempoRegion.endTime r.
Proof.
  eexists. eexists. eexists. eexists. split; [vm_compute; reflexivity|].
  split; [vm_compute; reflexivity|].
  split; [reflexivity|]. split; [reflexivity|]. split; [reflexivity|].
  split; [reflexivity|]. split; [reflexivity|]. split; reflexivity.
Qed.

(** C3: region 0 holds one beat, at 5.  Adding a tempo change at 1, before
    it, sets the region's [startTime] to 1 and makes no new region, but the
    new beat is not put into [userBeats]: the splice is given no element.
    The region still holds one beat, and the new id 2 is mapped to the old
    beat. *)
Theorem C3_tempo_change_at_start_is_not_inserted :
  exists s s' r r',
    calls 10 decimalString [call_addPoint 5 false] initial = Ret s
    /\ addPoint 10 decimalString 1 true s = Ret (returned_undefined, s')
    /\ Engine.regions s = [r]
    /\ Engine.regions s' = [r']
    /\ TempoRegion.userBeats r = [1%nat]
    /\ TempoRegion.userBeats r' = [1%nat]
    /\ timesOf (Engine.beats s') r' = [5]
    /\ TempoRegion.startTime r' = 1
    /\ Engine.userBeatsById s' !! 2%nat = Some (Some 1%nat).
Proof.
  eexists. eexists. eexists. eexists. split; [vm_compute; reflexivity|].
  split; [vm_compute; reflexivity|].
  split; [reflexivity|]. split; [reflexivity|]. split; [reflexivity|].
  split; [reflexivity|]. split; [reflexivity|]. split; reflexivity.
Qed.

(** C5: on a new engine for a track of 10 seconds, [addPoint] at 20 is
    rejected (no region contains 20), and neither estimator, projector nor
    save callback runs; but the region made for the first beat stays, with
    no beat in it, and is selected. *)
Theorem C5_rejected_first_add_leaves_a_region :
  exists s' r,
    addPoint 10 decimalString 20 false initial = Ret (returned_null, s')
    /\ Engine.regions initial = []
    /\ Engine.selectedRegionId initial = None
    /\ Engine.regions s' = [r]
    /\ TempoRegion.userBeats r = []
    /\ Engine.selectedRegionId s' = Some (TempoRegion.id r)
    /\ Engine.trace s' = [].
Proof.
  eexists. eexists. split; [vm_compute; reflexivity|].
  split; [reflexivity|]. split; [reflexivity|]. split; [reflexivity|].
  split; [reflexivity|]. split; reflexivity.
Qed.

(** C6: after the beat with id 1 has been deleted, [deletePoint] with the
    id 1 does not throw: the id is still in [userBeatsById].  The call
    removes the other beat of the region (id 2) and the region with it. *)
Theorem C6_deleted_id_is_still_accepted :
  exists s s' r,
    calls 10 decimalString
          [call_addPoint 1 false; call_addPoint 2 false; call_deletePoint 1] initial = Ret s
    /\ Engine.regions s = [r]
    /\ TempoRegion.userBeats r = [2%nat]
    /\ Engine.userBeatsById s !! 1%nat = Some (Some 1%nat)
    /\ deletePoint 10 decimalString 1 s = Ret s'
    /\ Engine.regions s' = [].
Proof.
  eexists. eexists. eexists. split; [vm_compute; reflexivity|].
  split; [reflexivity|]. split; [reflexivity|]. split; [reflexivity|].
  split; [vm_compute; reflexivity | reflexivity].
Qed.

(** ** The recompute pass on regions with ascending beats *)

Lemma periodsBetween_pos (onePeriod prev : Q) (times : list Q) :
  0 < onePeriod -> exists ps, periodsBetween onePeriod prev times = Ret ps.
Proof.
  intros Hp. revert prev. induction times as [|x times IH]; intros prev; simpl; [eauto|].
  rewrite qdiv_Ret by lra. ret. destruct (IH x) as [ps Hps]. rewrite Hps. ret. eauto.
Qed.

Lemma phaseErrors_pos (period startTime : Q) (times : list Q) :
  0 < period -> exists errs, phaseErrors period startTime times = Ret errs.
Proof.
  intros Hp. induction times as [|x times IH]; simpl; [eauto|].
  rewrite qdiv_Ret by lra. ret. destruct IH as [errs He]. rewrite He. ret. eauto.
Qed.

Lemma recomputePhaseOffset_pos (bpm startTime : Q) (times : list Q) :
  0 < bpm -> exists o, recomputePhaseOffset bpm startTime times = Ret o.
Proof.
  intros Hb. unfold recomputePhaseOffset.
  destruct times as [|t0 [|t1 times]]; [eauto | eauto |].
  rewrite qdiv_Ret by lra. ret.
  assert (Hp : 0 < 60 / bpm) by (apply Qlt_shift_div_l; lra).
  destruct (phaseErrors_pos (60 / bpm) startTime (t1 :: times) Hp) as [errs He].
  rewrite He. ret.
  assert (Hn : 0 < inject_Z (Z.of_nat (length (t0 :: t1 :: times))) - 1).
  { cbn [length]. rewrite !inject_nat_S.
    pose proof (inject_nat_pos (S (length times)) ltac:(lia)) as H.
    rewrite inject_nat_S in H. lra. }
  rewrite qdiv_Ret by lra. ret. eauto.
Qed.

Section Recompute.

Variable duration : Q.
Variable numberToString : Q -> string.

Lemma estimable_same (h h' : gmap nat UserBeat.t) (r r' : TempoRegion.t) :
  sameBeats h h' -> sameRegion r r' ->
  (timesOf h r = [] -> TempoRegion.tempo r' = TempoRegion.tempo r) ->
  estimable h r -> estimable h' r'.
Proof.
  intros HB [He HK] Hnil. unfold estimable.
  assert (Ht : timesOf h' r' = timesOf h r).
  { rewrite (sameBeats_timesOf h h' r' HB). rewrite He. destruct r; reflexivity. }
  rewrite Ht.
  destruct (TempoRegion.tempo r) as [v|bpm ph] eqn:E1;
    destruct (TempoRegion.tempo r') as [v'|bpm' ph'] eqn:E2; simpl in HK; try contradiction.
  - intros [H1 H2]. split; [exact H1|]. intros H0. specialize (Hnil H0).
    specialize (H2 H0). congruence.
  - subst bpm'. auto.
Qed.

(** On an estimable region the estimators return and leave a positive
    period. *)
Lemma recomputeRegion_estimable (s : Engine.t) (p : nat) (region : TempoRegion.t) :
  Engine.regions s !! p = Some region ->
  estimable (Engine.beats s) region ->
  exists s' region',
    recomputeRegion numberToString s p = Ret s'
    /\ Engine.regions s' = <[p := region']> (Engine.regions s)
    /\ sameRegion region region'
    /\ (timesOf (Engine.beats s) region = [] ->
        TempoRegion.tempo region' = TempoRegion.tempo region)
    /\ steady region' = true.
Proof.
  intros Hp He. unfold recomputeRegion. rewrite Hp. unfold estimable in He.
  destruct (TempoRegion.tempo region) as [value|bpm ph] eqn:Ht.
  - destruct He as [Hd Hnil]. cbn [Engine.beats Engine.log].
    set (times := timesOf (Engine.beats s) region) in *.
    assert (Hrec : exists v, recomputeTempo numberToString times = Ret v
                             /\ let value' := match v with Some v' => v' | None => value end in
                                match value' with
                                | Some (mp, _) => 0 < mp
                                | None => True
                                end
                                /\ (times = [] -> value' = value)).
    { destruct times as [|t0 [|t1 times']].
      - exists None. split; [reflexivity|]. simpl. rewrite (Hnil eq_refl). auto.
      - exists (Some None). split; [reflexivity|]. simpl. split; [exact I | discriminate].
      - destruct (recomputeTempo_ascending numberToString t0 t1 times' Hd)
          as (mp & sd & Hr & Hmp).
        exists (Some (Some (mp, sd))). split; [exact Hr|]. simpl.
        split; [exact Hmp | discriminate]. }
    destruct Hrec as (v & Hv & Hpos & Hsame). rewrite Hv. ret.
    set (value' := match v with Some v' => v' | None => value end) in *.
    assert (Hl : exists ps, localBeatPeriods value' times = Ret ps).
    { unfold localBeatPeriods. destruct value' as [[mp sd]|]; [|eauto].
      destruct times as [|x times']; [eauto|].
      destruct (periodsBetween_pos mp x times' Hpos) as [ps Hps]. rewrite Hps. ret. eauto. }
    destruct Hl as [ps Hps]. rewrite Hps. ret.
    eexists. exists (TempoRegion.set_tempo region (tapped value')).
    split; [reflexivity|]. split; [reflexivity|]. split.
    { split; [destruct region; reflexivity|]. simpl. rewrite Ht. exact I. }
    split.
    { intros H0. simpl. rewrite (Hsame H0). reflexivity. }
    unfold steady. simpl. destruct value' as [[mp sd]|]; [|reflexivity].
    apply Qlt_bool_iff. exact Hpos.
  - cbn [Engine.beats Engine.log].
    destruct (recomputePhaseOffset_pos bpm (TempoRegion.startTime region)
                (timesOf (Engine.beats s) region) He) as [o Ho].
    rewrite Ho. ret.
    eexists. eexists. split; [reflexivity|]. split; [reflexivity|]. split.
    { split; [destruct region; reflexivity|]. simpl. rewrite Ht. reflexivity. }
    split.
    { intros H0. simpl. unfold recomputePhaseOffset in Ho. rewrite H0 in Ho.
      injection Ho as <-. reflexivity. }
    unfold steady. simpl. apply Qlt_bool_iff. exact He.
Qed.

End Recompute.

Section RecomputeAll.

Variable duration : Q.
Variable numberToString : Q -> string.

Lemma recomputeRegions_estimable (changed : list nat) (s : Engine.t) :
  allEstimable s ->
  exists s',
    recomputeRegions numberToString s changed = Ret s'
    /\ allEstimable s'
    /\ (forall p r', Engine.regions s' !! p = Some r' ->
          In p changed \/ (exists r, Engine.regions s !! p = Some r /\ steady r = true) ->
          steady r' = true).
Proof.
  revert s. induction changed as [|p changed IH]; intros s Hall; simpl.
  - exists s. split; [reflexivity|]. split; [exact Hall|].
    intros q r' Hr' [[] | (r & Hr & Hs)]. congruence.
  - destruct (Engine.regions s !! p) as [region|] eqn:Hp.
    + destruct (recomputeRegion_estimable numberToString s p region Hp (Hall p region Hp))
        as (s1 & region' & H1 & Hregs & Hsame & Hnil & Hsteady).
      pose proof (recomputeRegion_frame numberToString s s1 p H1) as (_ & HB & _).
      rewrite H1. ret.
      assert (Hall1 : allEstimable s1).
      { intros q r Hq. rewrite Hregs in Hq.
        destruct (decide (p = q)) as [<- | Hne].
        - rewrite list_lookup_insert_eq in Hq by (eapply lookup_lt_Some; exact Hp).
          injection Hq as <-.
          eapply estimable_same; [exact HB | exact Hsame | exact Hnil | exact (Hall p region Hp)].
        - rewrite list_lookup_insert_ne in Hq by exact Hne.
          eapply estimable_same; [exact HB | apply sameRegion_refl | reflexivity
                                 | exact (Hall q r Hq)]. }
      destruct (IH s1 Hall1) as (s' & H' & Hall' & Hst).
      exists s'. split; [exact H'|]. split; [exact Hall'|].
      intros q r' Hr' Hq. apply (Hst q r' Hr').
      destruct (decide (p = q)) as [<- | Hne].
      * destruct (in_dec Nat.eq_dec p changed) as [Hin|Hnin]; [left; exact Hin|].
        right. exists region'. split; [|exact Hsteady].
        rewrite Hregs. apply list_lookup_insert_eq. eapply lookup_lt_Some; exact Hp.
      * destruct Hq as [[Heq | Hin] | (r & Hr & Hs)]; [congruence | left; exact Hin |].
        right. exists r. split; [|exact Hs].
        rewrite Hregs, list_lookup_insert_ne by exact Hne. exact Hr.
    + assert (H1 : recomputeRegion numberToString s p = Ret s).
      { unfold recomputeRegion. rewrite Hp. reflexivity. }
      rewrite H1. ret. destruct (IH s Hall) as (s' & H' & Hall' & Hst).
      exists s'. split; [exact H'|]. split; [exact Hall'|].
      intros q r' Hr' Hq. apply (Hst q r' Hr').
      destruct Hq as [[<- | Hin] | Hq]; [| left; exact Hin | right; exact Hq].
      exfalso.
      pose proof (recomputeRegions_frame numberToString changed s s' H') as (HR & _).
      apply Forall2_length in HR.
      apply lookup_lt_Some in Hr'. apply lookup_ge_None in Hp. lia.
Qed.

(** The recompute pass over every region, as run by the constructor. *)
Lemma onRegionsChanged_all_estimable (s : Engine.t) (doSave : bool) :
  allEstimable s ->
  exists s',
    onRegionsChanged duration numberToString s (seq 0 (length (Engine.regions s))) doSave
    = Ret s'.
Proof.
  intros Hall. unfold onRegionsChanged.
  destruct (recomputeRegions_estimable (seq 0 (length (Engine.regions s))) s Hall)
    as (s1 & H1 & _ & Hst).
  rewrite H1. ret.
  assert (Hsteady : forallb steady (Engine.regions s1) = true).
  { apply forallb_forall. intros r Hr. apply list_elem_of_In in Hr.
    apply list_elem_of_lookup in Hr. destruct Hr as [p Hp].
    apply (Hst p r Hp). left. apply in_seq.
    pose proof (recomputeRegions_frame numberToString _ s s1 H1) as (HR & _).
    apply Forall2_length in HR. apply lookup_lt_Some in Hp. lia. }
  destruct (drawAutopoints_steady duration s1 Hsteady) as [s2 H2]. rewrite H2. ret.
  destruct doSave; [|eauto].
  apply drawAutopoints_spec in H2. destruct H2 as (HF & _).
  apply redrawn_steady in HF. rewrite <- HF in Hsteady.
  destruct (saveState_steady s2 Hsteady) as [j Hj]. rewrite Hj. ret. eauto.
Qed.

End RecomputeAll.

(** ** Loading *)

Lemma timeAt_insert_ne (h : gmap nat UserBeat.t) (a k : nat) (b : UserBeat.t) :
  a <> k -> timeAt (<[a := b]> h) k = timeAt h k.
Proof. intros H. unfold timeAt, beatAt. rewrite lookup_insert_ne by exact H. reflexivity. Qed.

Lemma loadBeats_spec (regionIdx : nat) (markedBeats : list Q) (beatIdx n : nat)
      (h : gmap nat UserBeat.t) (addrs : list nat) (n' : nat) (h' : gmap nat UserBeat.t) :
  loadBeats regionIdx beatIdx markedBeats n h = (addrs, n', h') ->
  (n <= n')%nat
  /\ List.map (timeAt h') addrs = markedBeats
  /\ Forall (fun a => (a <= n')%nat) addrs
  /\ (forall k, (k <= n)%nat -> h' !! k = h !! k).
Proof.
  revert beatIdx n h addrs n' h'.
  induction markedBeats as [|t ts IH]; intros beatIdx n h addrs n' h'; simpl.
  - intros [= <- <- <-]. repeat split; [lia | constructor].
  - destruct (loadBeats regionIdx (S beatIdx) ts (S n) _) as [[l m] h1] eqn:E.
    intros [= <- <- <-].
    destruct (IH _ _ _ _ _ _ E) as (Hle & Hmap & Hall & Hold).
    split; [lia|]. split; [|split].
    + simpl. f_equal; [|exact Hmap].
      unfold timeAt, beatAt. rewrite (Hold (S n)) by lia.
      rewrite lookup_insert_eq. reflexivity.
    + constructor; [lia | exact Hall].
    + intros k Hk. rewrite (Hold k) by lia. apply lookup_insert_ne. lia.
Qed.

Lemma strictlyAscending_sorted (l : list Q) :
  strictlyAscending l = true -> isSortedAscending l = true.
Proof.
  destruct l as [|x l]; [reflexivity|]. simpl. revert x.
  induction l as [|y l IH]; intros x; simpl; [reflexivity|].
  intros H. apply andb_prop in H. destruct H as [H1 H2].
  apply Qlt_bool_iff in H1.
  replace (Qlt_bool y x) with false by (symmetry; apply Qlt_bool_false; lra).
  apply IH. exact H2.
Qed.

Lemma strictlyAscending_dists (l : list Q) :
  strictlyAscending l = true -> Forall (fun d => 0 < d) (dists l).
Proof.
  destruct l as [|x l]; [constructor|]. simpl. revert x.
  induction l as [|y l IH]; intros x; simpl; [constructor|].
  intros H. apply andb_prop in H. destruct H as [H1 H2].
  apply Qlt_bool_iff in H1. constructor; [lra | apply IH; exact H2].
Qed.

Lemma timesOf_same_lookup (h h' : gmap nat UserBeat.t) (r : TempoRegion.t) (n : nat) :
  Forall (fun a => (a <= n)%nat) (TempoRegion.userBeats r) ->
  (forall k, (k <= n)%nat -> h' !! k = h !! k) ->
  timesOf h' r = timesOf h r.
Proof.
  intros Hall Hsame. unfold timesOf. apply map_ext_in. intros a Ha.
  rewrite List.Forall_forall in Hall. specialize (Hall a Ha).
  unfold timeAt, beatAt. rewrite (Hsame a Hall). reflexivity.
Qed.

Section Load.

Variable duration : Q.
Variable numberToString : Q -> string.

Lemma loadRegions_loadable (saved : SaveObject) (regionIdx : nat) (s : Engine.t) :
  loadable duration saved = true ->
  exists loaded s',
    loadRegions duration regionIdx saved s = Ret (loaded, s')
    /\ Forall2 (loadedFrom (Engine.beats s')) saved loaded
    /\ Forall (fun r => Forall (fun a => (a <= Engine.nextUserBeatId s')%nat)
                               (TempoRegion.userBeats r)) loaded
    /\ (Engine.nextUserBeatId s <= Engine.nextUserBeatId s')%nat
    /\ (forall k, (k <= Engine.nextUserBeatId s)%nat ->
                  Engine.beats s' !! k = Engine.beats s !! k)
    /\ Engine.regions s' = Engine.regions s
    /\ Engine.userBeatsById s' = Engine.userBeatsById s
    /\ Engine.viewport s' = Engine.viewport s.
Proof.
  revert regionIdx s. induction saved as [|sr rest IH]; intros regionIdx s; simpl.
  - intros _. exists [], s. repeat split; constructor.
  - intros H. apply andb_prop in H. destruct H as [Hreg Hrest].
    unfold loadableRegion in Hreg.
    destruct (SavedRegion.markedBeats sr) as [|t0 ts] eqn:Emb; [discriminate|].
    apply andb_prop in Hreg. destruct Hreg as [Hreg Hbpm].
    apply andb_prop in Hreg. destruct Hreg as [Hend Hasc].
    apply Qlt_bool_iff in Hend. cbn [firstTime]. ret.
    set (endTime := match rest with
                    | [] => duration
                    | next :: _ => match SavedRegion.markedBeats next with
                                   | [] => duration
                                   | t :: _ => t
                                   end
                    end) in *.
    assert (He : match rest with
                 | [] => Ret duration
                 | next :: _ => firstTime (SavedRegion.markedBeats next)
                 end = Ret endTime).
    { unfold endTime. destruct rest as [|next rest']; [reflexivity|].
      simpl in Hrest. apply andb_prop in Hrest. destruct Hrest as [Hn _].
      unfold loadableRegion in Hn.
      destruct (SavedRegion.markedBeats next); [discriminate | reflexivity]. }
    rewrite He. ret.
    replace (Qle_bool endTime t0) with false by (symmetry; apply Qle_bool_false; exact Hend).
    rewrite (strictlyAscending_sorted _ Hasc). cbn [negb].
    destruct (loadBeats regionIdx 0 (t0 :: ts) (Engine.nextUserBeatId s) (Engine.beats s))
      as [[userBeats n] h] eqn:Elb.
    destruct (loadBeats_spec _ _ _ _ _ _ _ _ Elb) as (Hle & Hmap & Hall & Hold).
    set (region := TempoRegion.mk _ _ _ _ _ _ _ _).
    set (s1 := Engine.set_nextRegionId _ _).
    destruct (IH (S regionIdx) s1 Hrest)
      as (loaded & s' & Hl & HF & Hbound & Hle' & Hold' & Hregs & Hmap' & Hvp).
    rewrite Hl. ret. exists (region :: loaded), s'.
    split; [reflexivity|].
    assert (Ht : timesOf (Engine.beats s') region = t0 :: ts).
    { rewrite (timesOf_same_lookup h (Engine.beats s') region n).
      - exact Hmap.
      - exact Hall.
      - intros k Hk. apply Hold'. exact Hk. }
    split.
    { constructor; [|exact HF]. split; [rewrite Emb; exact Ht|].
      split; [simpl; destruct (SavedRegion.tempo sr); reflexivity|].
      split; [reflexivity|].
      unfold estimable. rewrite Ht. simpl TempoRegion.tempo.
      destruct (SavedRegion.tempo sr) as [bpm|].
      - apply Qlt_bool_iff. exact Hbpm.
      - split; [apply strictlyAscending_dists; exact Hasc | discriminate]. }
    split.
    { constructor; [|exact Hbound]. simpl.
      eapply Forall_impl; [exact Hall|]. simpl. intros a Ha. simpl in Hle'. lia. }
    split; [simpl in Hle'; lia|].
    split.
    { intros k Hk. rewrite Hold' by (simpl; lia). simpl. apply Hold. exact Hk. }
    split; [rewrite Hregs; reflexivity|]. split; [rewrite Hmap'; reflexivity|].
    rewrite Hvp. reflexivity.
Qed.

End Load.

Lemma timeAt_alter_regionIndex (h : gmap nat UserBeat.t) (i a k : nat) :
  timeAt (alter (fun b => UserBeat.set_regionIndex b i) a h) k = timeAt h k.
Proof.
  unfold timeAt, beatAt. destruct (decide (a = k)) as [<- | Hne].
  - rewrite lookup_alter_eq. destruct (h !! a) as [b|]; reflexivity.
  - rewrite lookup_alter_ne by exact Hne. reflexivity.
Qed.

Lemma reassignFrom_spec (rs : list TempoRegion.t) (i : nat) (h : gmap nat UserBeat.t)
      (rs' : list TempoRegion.t) (h' : gmap nat UserBeat.t) :
  reassignFrom i rs h = (rs', h') ->
  Forall2 (fun r r' => r' = TempoRegion.set_index r (TempoRegion.index r')) rs rs'
  /\ (forall a, timeAt h' a = timeAt h a).
Proof.
  revert i h rs' h'. induction rs as [|r rs IH]; intros i h rs' h'; simpl.
  - intros [= <- <-]. split; [constructor | reflexivity].
  - set (h1 := fold_left _ (TempoRegion.userBeats r) h).
    destruct (reassignFrom (S i) rs h1) as [rs2 h2] eqn:E. intros [= <- <-].
    destruct (IH _ _ _ _ E) as [HF Ht]. split.
    + constructor; [reflexivity | exact HF].
    + intros a. rewrite Ht. unfold h1. clear. generalize (TempoRegion.userBeats r).
      intros l. revert h. induction l as [|x l IHl]; intros h; simpl; [reflexivity|].
      rewrite IHl. apply timeAt_alter_regionIndex.
Qed.

Lemma estimable_times (h h' : gmap nat UserBeat.t) (r r' : TempoRegion.t) :
  timesOf h' r' = timesOf h r -> TempoRegion.tempo r' = TempoRegion.tempo r ->
  estimable h r -> estimable h' r'.
Proof. unfold estimable. intros -> ->. auto. Qed.

Lemma saveRegions_spec (h : gmap nat UserBeat.t) (rs : list TempoRegion.t) (j : SaveObject) :
  saveRegions h rs = Ret j ->
  Forall2 (fun r saved =>
             SavedRegion.markedBeats saved = List.map roundTime (timesOf h r)
             /\ SavedRegion.tempo saved = savedTempo (TempoRegion.tempo r)
             /\ SavedRegion.offbeatsMarked saved = TempoRegion.offbeatsMarked r) rs j.
Proof.
  revert j. induction rs as [|r rs IH]; intros j; simpl.
  - intros [= <-]. constructor.
  - unfold saveRegion. destruct (computeAutoBeats h r) as [l| | |]; try discriminate. ret.
    destruct (saveRegions h rs) as [j'| | |]; try discriminate. ret.
    intros [= <-]. constructor; [|apply IH; reflexivity].
    simpl. repeat split.
Qed.

Section Construct.

Variable duration : Q.
Variable numberToString : Q -> string.

Lemma Annotate_loadable (saved : SaveObject) :
  loadable duration saved = true ->
  exists s,
    Annotate duration numberToString (Some saved) = Ret s
    /\ Forall2 (fun sr r =>
                  timesOf (Engine.beats s) r = SavedRegion.markedBeats sr
                  /\ savedTempo (TempoRegion.tempo r) = SavedRegion.tempo sr
                  /\ TempoRegion.offbeatsMarked r = SavedRegion.offbeatsMarked sr)
               saved (Engine.regions s).
Proof.
  intros Hl. unfold Annotate.
  destruct (loadRegions_loadable duration saved 0 initial Hl)
    as (loaded & s0 & H0 & HF & _ & _ & _ & Hregs & _ & _).
  rewrite H0. ret. rewrite Hregs. cbn [Engine.regions initial app].
  set (s1 := Engine.set_userBeatsById _ _).
  assert (Hregs1 : Engine.regions s1 = loaded) by reflexivity.
  assert (Hbeats1 : Engine.beats s1 = Engine.beats s0) by reflexivity.
  unfold reassignRegionIndices.
  destruct (reassignFrom 0 (Engine.regions s1) (Engine.beats s1)) as [rs h] eqn:Er.
  destruct (reassignFrom_spec _ _ _ _ _ Er) as [HFr Ht].
  rewrite Hregs1 in HFr. rewrite Hbeats1 in Ht.
  set (s2 := Engine.set_beats _ h).
  assert (Hregs2 : Engine.regions s2 = rs) by reflexivity.
  assert (Hbeats2 : Engine.beats s2 = h) by reflexivity.
  (* the regions as indexed have what the loaded ones have *)
  assert (HF2 : Forall2 (loadedFrom h) saved rs).
  { clear - HF HFr Ht. revert rs HFr. induction HF as [|sr r saved loaded Hr _ IH];
      intros rs HFr; inversion HFr as [|? r' ? rs' Hr' HFr']; subst; constructor.
    - destruct Hr as (H1 & H2 & H3 & H4).
      assert (Htimes : timesOf h r' = timesOf (Engine.beats s0) r).
      { unfold timesOf. rewrite Hr'. simpl. apply map_ext. exact Ht. }
      assert (Htempo : TempoRegion.tempo r' = TempoRegion.tempo r)
        by (rewrite Hr'; reflexivity).
      split; [rewrite Htimes; exact H1|]. split; [rewrite Htempo; exact H2|].
      split; [rewrite Hr'; exact H3|].
      eapply estimable_times; eauto.
    - apply IH. exact HFr'. }
  assert (Hall : allEstimable s2).
  { intros p r Hp. rewrite Hregs2 in Hp. rewrite Hbeats2.
    destruct (Forall2_lookup_r _ _ _ _ _ HF2 Hp) as (sr & _ & (_ & _ & _ & He)). exact He. }
  destruct (onRegionsChanged_all_estimable duration numberToString s2 false Hall)
    as [s3 H3].
  rewrite H3. exists s3. split; [reflexivity|].
  apply onRegionsChanged_frame in H3. destruct H3 as (HR & HB & _).
  rewrite Hregs2 in HR. rewrite Hbeats2 in HB.
  clear - HF2 HR HB. revert HR. generalize (Engine.regions s3). intros rs3.
  revert rs3. induction HF2 as [|sr r saved rs (H1 & H2 & H3 & _) _ IH];
    intros rs3 HR; inversion HR as [|? r3 ? rs3' [Hr3 Hk] HR']; subst; constructor.
  - split; [|split].
    + rewrite (sameBeats_timesOf h (Engine.beats s3) r3 HB), <- H1.
      rewrite Hr3. destruct r; reflexivity.
    + rewrite <- H2. destruct (TempoRegion.tempo r), (TempoRegion.tempo r3);
        simpl in *; try contradiction; congruence.
    + rewrite <- H3, Hr3. destruct r; reflexivity.
  - apply IH. exact HR'.
Qed.

End Construct.

Lemma roundTime_close (t : Q) : Qabs (roundTime t - t) <= 1 # 2000000.
Proof.
  unfold roundTime, Math_round. change (10 ^ 6) with 1000000.
  pose proof (Qfloor_le (t * 1000000 + (1 # 2))) as Hlo.
  pose proof (Qlt_floor (t * 1000000 + (1 # 2))) as Hhi.
  set (k := Qfloor (t * 1000000 + (1 # 2))) in *.
  rewrite inject_Z_plus in Hhi. change (inject_Z 1) with 1 in Hhi.
  apply Qabs_Qle_condition.
  assert (He : inject_Z k / 1000000 - t == (inject_Z k - t * 1000000) / 1000000)
    by (field; discriminate).
  rewrite He. split.
  - apply Qle_shift_div_l; [reflexivity|]. lra.
  - apply Qle_shift_div_r; [reflexivity|]. lra.
Qed.

(** ** What holds of rejected and unknown calls *)


(** An id that was never given to a beat makes [deletePoint] throw, and so
    does an id whose map entry is [undefined]. *)
Lemma deletePoint_unknown_id
      (duration : Q) (numberToString : Q -> string) (id : nat) (s : Engine.t) :
  (forall a, Engine.userBeatsById s !! id <> Some (Some a)) ->
  deletePoint duration numberToString id s = Throw (AssertNotNull "beat by id is null").
Proof.
  intros H. unfold deletePoint, beatById.
  destruct (Engine.userBeatsById s !! id) as [[a|]|]; [|reflexivity|reflexivity].
  exfalso. apply (H a). reflexivity.
Qed.

(** ** The invariant of the region list *)

Lemma heldBeats_app (l1 l2 : list TempoRegion.t) :
  heldBeats (l1 ++ l2) = heldBeats l1 ++ heldBeats l2.
Proof.
  induction l1 as [|r l1 IH]; simpl; [reflexivity|]. rewrite IH, app_assoc. reflexivity.
Qed.

Lemma heldBeats_lookup (rs : list TempoRegion.t) (p : nat) (r : TempoRegion.t) (a : nat) :
  rs !! p = Some r -> a ∈ TempoRegion.userBeats r -> a ∈ heldBeats rs.
Proof.
  revert p. induction rs as [|x rs IH]; intros p Hp Ha; [discriminate|].
  simpl. apply elem_of_app. destruct p as [|p]; simpl in Hp.
  - injection Hp as ->. left. exact Ha.
  - right. eapply IH; eauto.
Qed.

Lemma heldBeats_elem (rs : list TempoRegion.t) (a : nat) :
  a ∈ heldBeats rs -> exists p r, rs !! p = Some r /\ a ∈ TempoRegion.userBeats r.
Proof.
  induction rs as [|x rs IH]; simpl; intros Ha; [inversion Ha|].
  apply elem_of_app in Ha. destruct Ha as [Ha|Ha].
  - exists 0%nat, x. auto.
  - destruct (IH Ha) as (p & r & Hp & Hr). exists (S p), r. auto.
Qed.

Lemma heldBeats_core (rs rs' : list TempoRegion.t) :
  Forall2 coreRegion rs rs' -> heldBeats rs' = heldBeats rs.
Proof.
  induction 1 as [|r r' rs rs' (Hu & _) _ IH]; simpl; [reflexivity|]. rewrite Hu, IH. reflexivity.
Qed.

Lemma contiguousTo_core (final : Q) (rs rs' : list TempoRegion.t) :
  Forall2 coreRegion rs rs' -> contiguousTo final rs -> contiguousTo final rs'.
Proof.
  induction 1 as [|r r' rs rs' (_ & Hs & He) HF IH]; simpl; [auto|].
  intros [H1 H2]. split; [|apply IH; exact H2]. rewrite He.
  destruct HF as [|r2 r2' ? ? (_ & Hs2 & _) _]; [exact H1|]. rewrite Hs2. exact H1.
Qed.

Lemma beatAt_core (h h' : gmap nat UserBeat.t) (a : nat) :
  (forall a, option_Forall2 coreBeat (h !! a) (h' !! a)) ->
  coreBeat (beatAt h a) (beatAt h' a).
Proof.
  intros H. specialize (H a). unfold beatAt.
  destruct H as [b b' Hb|]; simpl; [exact Hb | repeat split].
Qed.

Lemma anchored_core (h h' : gmap nat UserBeat.t) (r r' : TempoRegion.t) :
  (forall a, option_Forall2 coreBeat (h !! a) (h' !! a)) ->
  coreRegion r r' -> anchored h r -> anchored h' r'.
Proof.
  intros Hh (Hu & Hs & _). unfold anchored. rewrite Hu, Hs.
  destruct (TempoRegion.userBeats r) as [|a rest]; [auto|].
  destruct (beatAt_core h h' a Hh) as (_ & Htc & Ht).
  unfold timeAt. rewrite Htc, Ht. auto.
Qed.

Lemma Pre_core (duration : Q) (s s' : Engine.t) :
  coreEq s s' -> Pre duration s -> Pre duration s'.
Proof.
  intros (HR & HB & HM & HN) [Halloc Hknown Hnodup Hchain Hanch].
  pose proof (heldBeats_core _ _ HR) as Hheld.
  constructor.
  - intros a Ha. rewrite Hheld in Ha. destruct (Halloc a Ha) as (b & Hb & Hid).
    specialize (HB a). rewrite Hb in HB. inversion HB as [? b' (Hid' & _) |]; subst.
    exists b'. split; [reflexivity | congruence].
  - intros a Ha. rewrite Hheld in Ha. rewrite HM, HN. apply Hknown. exact Ha.
  - rewrite Hheld. exact Hnodup.
  - eapply contiguousTo_core; eauto.
  - destruct HR as [|r r' rs rs' _ HR]; simpl in *; [constructor|].
    clear - HR HB Hanch. induction HR as [|x x' l l' Hx _ IH]; [constructor|].
    inversion Hanch; subst. constructor; [eapply anchored_core; eauto | apply IH; assumption].
Qed.

Lemma Inv_Pre (duration : Q) (s : Engine.t) : Inv duration s -> Pre duration s.
Proof. intros []. constructor; assumption. Qed.

Lemma coreEq_same (s s' : Engine.t) : sameStructure s s' -> coreEq s s'.
Proof.
  intros (HR & HB & HM & _ & HN & _). split; [|split; [|split; assumption]].
  - eapply Forall2_impl; [exact HR|]. intros r r' [He _]. rewrite He.
    destruct r; repeat split.
  - intros a. specialize (HB a). destruct HB as [b b' Hb|]; constructor.
    rewrite Hb. destruct b; repeat split.
Qed.

(** The estimators, the projector and the save callback keep the
    invariant. *)
Lemma Inv_same (duration : Q) (s s' : Engine.t) :
  sameStructure s s' -> Inv duration s -> Inv duration s'.
Proof.
  intros Hsame Hinv.
  destruct (Pre_core duration s s' (coreEq_same s s' Hsame) (Inv_Pre duration s Hinv))
    as [Halloc Hknown Hnodup Hchain Hanch].
  destruct Hsame as (HR & HB & _). destruct Hinv as [Hidx Hri _ _ _ _ _].
  constructor; try assumption.
  - intros p r' Hp. destruct (Forall2_lookup_r _ _ _ _ _ HR Hp) as (r & Hr & [He _]).
    rewrite He. destruct r; simpl. apply (Hidx p _ Hr).
  - intros p r' a Hp Ha. destruct (Forall2_lookup_r _ _ _ _ _ HR Hp) as (r & Hr & [He _]).
    assert (Ha' : a ∈ TempoRegion.userBeats r).
    { rewrite He in Ha. destruct r; exact Ha. }
    rewrite <- (Hri p r a Hr Ha'). specialize (HB a). unfold beatAt.
    destruct HB as [b b' Hb|]; simpl; [|reflexivity]. rewrite Hb. destruct b; reflexivity.
Qed.

(** *** Reassigning the indices *)

Lemma fold_alter_regionIndex (i : nat) (l : list nat) (h : gmap nat UserBeat.t) (a : nat) :
  fold_left (fun h a => alter (fun b => UserBeat.set_regionIndex b i) a h) l h !! a
  = if decide (a ∈ l) then (fun b => UserBeat.set_regionIndex b i) <$> h !! a else h !! a.
Proof.
  revert h. induction l as [|x l IH]; intros h; simpl.
  - destruct (decide (a ∈ [])) as [H|H]; [inversion H | reflexivity].
  - rewrite IH. destruct (decide (a = x)) as [-> | Hne].
    + rewrite lookup_alter_eq.
      destruct (decide (x ∈ l)), (decide (x ∈ x :: l)) as [|Hn];
        try reflexivity; try (exfalso; apply Hn; left).
      destruct (h !! x) as [b|]; reflexivity.
    + rewrite lookup_alter_ne by congruence.
      destruct (decide (a ∈ l)) as [Hl|Hl], (decide (a ∈ x :: l)) as [Hx|Hx];
        try reflexivity.
      * exfalso. apply Hx. right. exact Hl.
      * exfalso. apply elem_of_cons in Hx. destruct Hx; [congruence | contradiction].
Qed.

Lemma reassignFrom_indexed (rs : list TempoRegion.t) (i : nat) (h : gmap nat UserBeat.t)
      (rs' : list TempoRegion.t) (h' : gmap nat UserBeat.t) :
  reassignFrom i rs h = (rs', h') ->
  NoDup (heldBeats rs) ->
  (forall a, a ∈ heldBeats rs -> is_Some (h !! a)) ->
  Forall2 coreRegion rs rs'
  /\ (forall a, option_Forall2 coreBeat (h !! a) (h' !! a))
  /\ (forall a, a ∉ heldBeats rs -> h' !! a = h !! a)
  /\ (forall p r', rs' !! p = Some r' -> TempoRegion.index r' = (i + p)%nat)
  /\ (forall p r' a, rs' !! p = Some r' -> a ∈ TempoRegion.userBeats r' ->
                     UserBeat.regionIndex (beatAt h' a) = (i + p)%nat).
Proof.
  revert i h rs' h'. induction rs as [|r rs IH]; intros i h rs' h'; simpl.
  - intros [= <- <-] _ _. split; [constructor|]. split.
    + intros a. destruct (h !! a); constructor. repeat split.
    + split; [reflexivity|]. split; intros p r' Hp; discriminate.
  - set (h1 := fold_left _ (TempoRegion.userBeats r) h).
    destruct (reassignFrom (S i) rs h1) as [rs2 h2] eqn:E. intros [= <- <-] Hnd Hal.
    apply NoDup_app in Hnd. destruct Hnd as (Hnd1 & Hdisj & Hnd2).
    assert (Hh1 : forall a, h1 !! a
                            = if decide (a ∈ TempoRegion.userBeats r)
                              then (fun b => UserBeat.set_regionIndex b i) <$> h !! a
                              else h !! a).
    { intros a. apply fold_alter_regionIndex. }
    assert (Hal1 : forall a, a ∈ heldBeats rs -> is_Some (h1 !! a)).
    { intros a Ha. rewrite Hh1.
      assert (is_Some (h !! a)) as [b Hb] by (apply Hal, elem_of_app; right; exact Ha).
      rewrite Hb. destruct (decide _); simpl; eauto. }
    destruct (IH _ _ _ _ E Hnd2 Hal1) as (HF & HB & Hout & Hidx & Hri).
    split; [constructor; [repeat split | exact HF]|]. split.
    { intros a. specialize (HB a). rewrite Hh1 in HB.
      destruct (decide (a ∈ TempoRegion.userBeats r)); [|exact HB].
      destruct (h !! a) as [b|]; simpl in HB; inversion HB as [? b' (H1 & H2 & H3)|]; subst;
        constructor. destruct b; simpl in *. repeat split; assumption. }
    split.
    { intros a Ha. rewrite Hout by (intros H; apply Ha, elem_of_app; right; exact H).
      rewrite Hh1. destruct (decide (a ∈ TempoRegion.userBeats r)) as [Hin|]; [|reflexivity].
      exfalso. apply Ha, elem_of_app. left. exact Hin. }
    split.
    { intros [|p] r' Hp; simpl in Hp.
      - injection Hp as <-. simpl. lia.
      - rewrite (Hidx p r' Hp). lia. }
    intros [|p] r' a Hp Ha; simpl in Hp.
    + injection Hp as <-. simpl in Ha.
      unfold beatAt. rewrite Hout by (apply Hdisj; exact Ha). rewrite Hh1.
      destruct (decide (a ∈ TempoRegion.userBeats r)); [|contradiction].
      assert (is_Some (h !! a)) as [b Hb] by (apply Hal, elem_of_app; left; exact Ha).
      rewrite Hb. simpl. lia.
    + rewrite (Hri p r' a Hp Ha). lia.
Qed.

(** After [reassignRegionIndices] the invariant holds as soon as its
    index-free part does. *)
Lemma reassign_Inv (duration : Q) (s : Engine.t) :
  Pre duration s -> Inv duration (reassignRegionIndices s).
Proof.
  intros Hpre. unfold reassignRegionIndices.
  destruct (reassignFrom 0 (Engine.regions s) (Engine.beats s)) as [rs h] eqn:E.
  destruct (reassignFrom_indexed _ _ _ _ _ E (pre_nodup _ _ Hpre)) as (HF & HB & _ & Hidx & Hri).
  { intros a Ha. destruct (pre_alloc _ _ Hpre a Ha) as (b & Hb & _). eauto. }
  assert (Hcore : coreEq s (Engine.set_beats (Engine.set_regions s rs) h)).
  { split; [exact HF|]. split; [exact HB|]. split; reflexivity. }
  destruct (Pre_core duration _ _ Hcore Hpre) as [Halloc Hknown Hnodup Hchain Hanch].
  constructor; assumption.
Qed.

(** *** Lists of regions *)

Lemma contiguousTo_app (final : Q) (l1 l2 : list TempoRegion.t) :
  contiguousTo final (l1 ++ l2)
  <-> contiguousTo (startOf final l2) l1 /\ contiguousTo final l2.
Proof.
  induction l1 as [|r l1 IH]; simpl.
  - tauto.
  - rewrite IH. destruct l1 as [|r1 l1]; simpl; [|tauto].
    destruct l2; simpl; tauto.
Qed.

Lemma contiguousTo_final (f f' : Q) (rs : list TempoRegion.t) :
  f == f' -> contiguousTo f rs -> contiguousTo f' rs.
Proof.
  intros Hf. induction rs as [|r rs IH]; simpl; [auto|].
  intros [H1 H2]. split; [|apply IH; exact H2].
  destruct rs; [rewrite <- Hf|]; exact H1.
Qed.

Lemma findIndex_found {A : Type} (p : A -> bool) (l : list A) :
  (0 <= findIndex p l)%Z ->
  exists x, l !! Z.to_nat (findIndex p l) = Some x /\ p x = true.
Proof.
  induction l as [|y l IH]; simpl; [lia|].
  destruct (p y) eqn:E; [intros _; exists y; auto|].
  destruct (findIndex p l <? 0)%Z eqn:E'; [lia|].
  apply Z.ltb_ge in E'. intros _. destruct (IH E') as (x & Hx & Hp).
  exists x. split; [|exact Hp].
  replace (Z.to_nat (findIndex p l + 1)) with (S (Z.to_nat (findIndex p l))) by lia.
  exact Hx.
Qed.

Lemma findIndex_range {A : Type} (p : A -> bool) (l : list A) :
  (-1 <= findIndex p l < Z.of_nat (length l))%Z.
Proof.
  induction l as [|y l IH]; simpl; [lia|].
  destruct (p y); [lia|]. destruct (findIndex p l <? 0)%Z eqn:E; [lia|].
  apply Z.ltb_ge in E. lia.
Qed.

Lemma findIndex_zero {A : Type} (p : A -> bool) (x : A) (l : list A) :
  findIndex p (x :: l) = 0%Z -> p x = true.
Proof.
  simpl. destruct (p x); [reflexivity|].
  destruct (findIndex p l <? 0)%Z eqn:E; [lia|]. apply Z.ltb_ge in E. lia.
Qed.

Lemma findIndex_before {A : Type} (p : A -> bool) (l : list A) (j : nat) (y : A) :
  (0 <= findIndex p l)%Z -> (j < Z.to_nat (findIndex p l))%nat -> l !! j = Some y ->
  p y = false.
Proof.
  revert j. induction l as [|x l IH]; intros j; simpl; [lia|].
  destruct (p x) eqn:E; [simpl; lia|].
  destruct (findIndex p l <? 0)%Z eqn:E'; [lia|]. apply Z.ltb_ge in E'.
  intros _ Hj Hy. destruct j as [|j]; simpl in Hy.
  - injection Hy as <-. exact E.
  - apply (IH j E'); [lia | exact Hy].
Qed.

(** *** A beat at a new address *)

Lemma beatAt_insert_ne (h : gmap nat UserBeat.t) (a k : nat) (b : UserBeat.t) :
  a <> k -> beatAt (<[a := b]> h) k = beatAt h k.
Proof. intros H. unfold beatAt. rewrite lookup_insert_ne by exact H. reflexivity. Qed.

Lemma anchored_insert (h : gmap nat UserBeat.t) (bid : nat) (b : UserBeat.t)
      (r : TempoRegion.t) :
  bid ∉ TempoRegion.userBeats r -> anchored h r -> anchored (<[bid := b]> h) r.
Proof.
  unfold anchored. destruct (TempoRegion.userBeats r) as [|a rest]; [auto|].
  intros Hn. assert (bid <> a) by (intros ->; apply Hn; left).
  unfold timeAt. rewrite beatAt_insert_ne by assumption. auto.
Qed.

Lemma anchored_insert_all (h : gmap nat UserBeat.t) (bid : nat) (b : UserBeat.t)
      (rs : list TempoRegion.t) :
  bid ∉ heldBeats rs -> Forall (anchored h) rs -> Forall (anchored (<[bid := b]> h)) rs.
Proof.
  induction rs as [|r rs IH]; intros Hn HF; [constructor|]. simpl in Hn.
  inversion HF; subst. constructor.
  - apply anchored_insert; [|assumption]. intros H. apply Hn, elem_of_app. left. exact H.
  - apply IH; [|assumption]. intros H. apply Hn, elem_of_app. right. exact H.
Qed.

Lemma anchored_start (h : gmap nat UserBeat.t) (r r' : TempoRegion.t) :
  TempoRegion.userBeats r' = TempoRegion.userBeats r ->
  TempoRegion.startTime r' == TempoRegion.startTime r ->
  anchored h r -> anchored h r'.
Proof.
  unfold anchored. intros -> Hs. destruct (TempoRegion.userBeats r); [auto|].
  rewrite Hs. auto.
Qed.

(** The index-free facts about the beats after a beat was made at the next
    address. *)
Lemma fresh_beat_facts (duration : Q) (s : Engine.t) (rs : list TempoRegion.t)
      (nb : UserBeat.t) (v : option nat) :
  let bid := S (Engine.nextUserBeatId s) in
  Pre duration s ->
  UserBeat.id nb = bid ->
  (heldBeats rs ≡ₚ bid :: heldBeats (Engine.regions s) /\ v = Some bid
   \/ heldBeats rs = heldBeats (Engine.regions s)) ->
  (forall a, a ∈ heldBeats rs ->
             exists b, <[bid := nb]> (Engine.beats s) !! a = Some b /\ UserBeat.id b = a)
  /\ (forall a, a ∈ heldBeats rs ->
                (a <= bid)%nat /\ <[bid := v]> (Engine.userBeatsById s) !! a = Some (Some a))
  /\ NoDup (heldBeats rs)
  /\ bid ∉ heldBeats (Engine.regions s).
Proof.
  intros bid [Halloc Hknown Hnodup _ _] Hid Hheld.
  assert (Hfresh : bid ∉ heldBeats (Engine.regions s)).
  { intros H. destruct (Hknown bid H) as [Hle _]. unfold bid in Hle. lia. }
  assert (Hold : forall a, a ∈ heldBeats (Engine.regions s) -> a <> bid).
  { intros a Ha ->. contradiction. }
  destruct Hheld as [[Hperm Hv] | Heq].
  - split; [|split; [|split; [|exact Hfresh]]].
    + intros a Ha. rewrite Hperm in Ha. apply elem_of_cons in Ha. destruct Ha as [-> | Ha].
      * exists nb. rewrite lookup_insert_eq. auto.
      * rewrite lookup_insert_ne by (intros E; apply (Hold a Ha); congruence).
        apply Halloc. exact Ha.
    + intros a Ha. rewrite Hperm in Ha. apply elem_of_cons in Ha. destruct Ha as [-> | Ha].
      * rewrite lookup_insert_eq, Hv. auto.
      * rewrite lookup_insert_ne by (intros E; apply (Hold a Ha); congruence).
        destruct (Hknown a Ha). split; [unfold bid; lia | assumption].
    + rewrite Hperm. apply NoDup_cons. auto.
  - rewrite Heq. split; [|split; [|split; [exact Hnodup | exact Hfresh]]].
    + intros a Ha. rewrite lookup_insert_ne by (intros E; apply (Hold a Ha); congruence).
      apply Halloc. exact Ha.
    + intros a Ha. rewrite lookup_insert_ne by (intros E; apply (Hold a Ha); congruence).
      destruct (Hknown a Ha). split; [unfold bid; lia | assumption].
Qed.

Lemma Inv_selected (duration : Q) (s : Engine.t) (x : option nat) :
  Inv duration s -> Inv duration (Engine.set_selectedRegionId s x).
Proof. intros []. constructor; assumption. Qed.

Lemma ensureRegion_Inv (duration time : Q) (s : Engine.t) :
  Inv duration s -> Inv duration (ensureRegion duration time s).
Proof.
  intros Hinv. unfold ensureRegion. destruct (Engine.regions s) eqn:E; [|exact Hinv].
  destruct Hinv as [Hidx Hri Halloc Hknown Hnodup Hchain Hanch].
  rewrite E in *. constructor; simpl.
  - intros [|p] r Hp; simpl in Hp; [|discriminate]. injection Hp as <-. reflexivity.
  - intros [|p] r a Hp Ha; simpl in Hp; [|discriminate]. injection Hp as <-. inversion Ha.
  - intros a Ha. inversion Ha.
  - intros a Ha. inversion Ha.
  - constructor.
  - split; [reflexivity | exact I].
  - constructor.
Qed.

Lemma regions_middle (rs : list TempoRegion.t) (c : nat) (r : TempoRegion.t) :
  rs !! c = Some r ->
  rs = take c rs ++ r :: drop (S c) rs /\ length (take c rs) = c.
Proof.
  intros H. split; [symmetry; apply take_drop_middle; exact H|].
  rewrite length_take. apply lookup_lt_Some in H. lia.
Qed.

Lemma insert_middle {A : Type} (l1 l2 : list A) (x y : A) :
  <[length l1 := y]> (l1 ++ x :: l2) = l1 ++ y :: l2.
Proof.
  rewrite insert_app_r_alt by lia. rewrite Nat.sub_diag. reflexivity.
Qed.

Lemma take_middle_S {A : Type} (l1 l2 : list A) (x : A) :
  take (length l1 + 1) (l1 ++ x :: l2) = l1 ++ [x].
Proof.
  rewrite take_app. rewrite take_ge by lia.
  replace (length l1 + 1 - length l1)%nat with 1%nat by lia. reflexivity.
Qed.

Lemma drop_middle_S {A : Type} (l1 l2 : list A) (x : A) :
  drop (length l1 + 1) (l1 ++ x :: l2) = l2.
Proof.
  rewrite drop_app. rewrite drop_ge by lia.
  replace (length l1 + 1 - length l1)%nat with 1%nat by lia. reflexivity.
Qed.

Lemma held_insert_perm (l1 l2 : list TempoRegion.t) (ub : list nat) (k bid : nat)
      (r r' new : TempoRegion.t) :
  TempoRegion.userBeats r = ub ->
  TempoRegion.userBeats r' = take k ub ->
  TempoRegion.userBeats new = bid :: drop k ub ->
  heldBeats (l1 ++ r' :: new :: l2) ≡ₚ bid :: heldBeats (l1 ++ r :: l2).
Proof.
  intros Hr Hr' Hn. rewrite !heldBeats_app. simpl. rewrite Hr, Hr', Hn.
  rewrite <- (take_drop k ub) at 3.
  rewrite <- !app_assoc. rewrite (app_assoc (heldBeats l1) (take k ub)).
  simpl. rewrite <- Permutation_middle. rewrite <- !app_assoc. reflexivity.
Qed.

Lemma held_plain_perm (l1 l2 : list TempoRegion.t) (ub : list nat) (k bid : nat)
      (r r' : TempoRegion.t) :
  TempoRegion.userBeats r = ub ->
  TempoRegion.userBeats r' = take k ub ++ bid :: drop k ub ->
  heldBeats (l1 ++ r' :: l2) ≡ₚ bid :: heldBeats (l1 ++ r :: l2).
Proof.
  intros Hr Hr'. rewrite !heldBeats_app. simpl. rewrite Hr, Hr'.
  rewrite <- (take_drop k ub) at 3.
  rewrite <- !app_assoc. rewrite (app_assoc (heldBeats l1) (take k ub)).
  simpl. rewrite <- Permutation_middle. rewrite <- !app_assoc. reflexivity.
Qed.

(** *** Splitting a region *)

Lemma tail_middle {A : Type} (l1 l2 : list A) (x : A) :
  tail (l1 ++ x :: l2) = match l1 with
                         | [] => l2
                         | _ :: l1' => l1' ++ x :: l2
                         end.
Proof. destruct l1; reflexivity. Qed.

Lemma not_held_middle (l1 l2 : list TempoRegion.t) (r : TempoRegion.t) (bid : nat) :
  bid ∉ heldBeats (l1 ++ r :: l2) ->
  (bid ∉ heldBeats l1) /\ (bid ∉ TempoRegion.userBeats r) /\ (bid ∉ heldBeats l2).
Proof.
  rewrite heldBeats_app. simpl. rewrite !not_elem_of_app. tauto.
Qed.

Lemma not_held_tail (l : list TempoRegion.t) (bid : nat) :
  bid ∉ heldBeats l -> bid ∉ heldBeats (tail l).
Proof.
  destruct l as [|r l]; simpl; [auto|]. rewrite not_elem_of_app. tauto.
Qed.

Lemma split_Pre (duration : Q) (s0 t : Engine.t) (c k : nat) (time : Q)
      (cont cont' new : TempoRegion.t) (nb : UserBeat.t) :
  let bid := S (Engine.nextUserBeatId s0) in
  Inv duration s0 ->
  Engine.regions s0 !! c = Some cont ->
  ((0 < c)%nat -> (0 < k)%nat) ->
  TempoRegion.userBeats cont' = take k (TempoRegion.userBeats cont) ->
  TempoRegion.startTime cont' = TempoRegion.startTime cont ->
  TempoRegion.endTime cont' = time ->
  TempoRegion.userBeats new = bid :: drop k (TempoRegion.userBeats cont) ->
  TempoRegion.startTime new = time ->
  TempoRegion.endTime new = TempoRegion.endTime cont ->
  UserBeat.id nb = bid -> UserBeat.isTempoChange nb = true -> UserBeat.time nb = time ->
  Engine.regions t
  = take c (Engine.regions s0) ++ cont' :: new :: drop (S c) (Engine.regions s0) ->
  Engine.beats t = <[bid := nb]> (Engine.beats s0) ->
  Engine.userBeatsById t = <[bid := Some bid]> (Engine.userBeatsById s0) ->
  Engine.nextUserBeatId t = bid ->
  Pre duration t.
Proof.
  intros bid Hinv Hc Hk Hub' Hst' Hen' Hubn Hstn Henn Hid Htc Htime Hregs Hbeats Hmap Hnext.
  pose proof (Inv_Pre duration s0 Hinv) as Hpre.
  destruct (regions_middle _ _ _ Hc) as [Hdec Hlen].
  set (l1 := take c (Engine.regions s0)) in *.
  set (l2 := drop (S c) (Engine.regions s0)) in *.
  destruct (fresh_beat_facts duration s0 (Engine.regions t) nb (Some bid) Hpre Hid)
    as (Halloc & Hknown & Hnodup & Hfresh).
  { left. split; [|reflexivity]. rewrite Hregs, Hdec.
    apply (held_insert_perm l1 l2 (TempoRegion.userBeats cont) k); auto. }
  fold bid in Halloc, Hknown, Hfresh.
  destruct Hpre as [_ _ _ Hchain Hanch].
  rewrite Hdec in Hchain, Hanch, Hfresh.
  apply not_held_middle in Hfresh. destruct Hfresh as (Hf1 & Hfc & Hf2).
  constructor.
  - rewrite Hbeats. exact Halloc.
  - rewrite Hmap, Hnext. exact Hknown.
  - exact Hnodup.
  - rewrite Hregs. apply contiguousTo_app in Hchain. simpl in Hchain.
    destruct Hchain as (H1 & H2 & H3).
    apply contiguousTo_app. simpl. rewrite Hst', Hen', Hstn, Henn.
    split; [exact H1|]. split; [reflexivity|]. split; [exact H2 | exact H3].
  - rewrite Hregs, Hbeats. rewrite tail_middle in Hanch |- *.
    assert (Hnew : anchored (<[bid := nb]> (Engine.beats s0)) new).
    { unfold anchored. rewrite Hubn, Hstn. unfold timeAt, beatAt.
      rewrite lookup_insert_eq. simpl. rewrite Htc, Htime. split; reflexivity. }
    destruct l1 as [|r1 l1'].
    + constructor; [exact Hnew|]. apply anchored_insert_all; assumption.
    + apply Forall_app in Hanch. destruct Hanch as [Ha1 Ha2].
      inversion Ha2 as [|? ? Hcont Ha3]; subst.
      apply Forall_app. split.
      * apply anchored_insert_all; [|exact Ha1].
        simpl in Hf1. rewrite not_elem_of_app in Hf1. tauto.
      * constructor; [|constructor; [exact Hnew | apply anchored_insert_all; assumption]].
        assert (Hkpos : (0 < k)%nat) by (apply Hk; simpl; lia).
        unfold anchored in Hcont |- *. rewrite Hub', Hst'.
        destruct (TempoRegion.userBeats cont) as [|a rest]; [contradiction|].
        destruct k as [|k']; [lia|]. simpl.
        assert (bid <> a) by (intros ->; apply Hfc; left).
        unfold timeAt. rewrite beatAt_insert_ne by assumption. exact Hcont.
Qed.

(** *** Putting a beat into a region *)

Lemma insert_at_perm (ub : list nat) (k bid : nat) :
  take k ub ++ bid :: drop k ub ≡ₚ bid :: ub.
Proof. rewrite <- Permutation_middle, take_drop. reflexivity. Qed.

Lemma insert_at_lookup (ub : list nat) (k bid : nat) :
  (k <= length ub)%nat -> (take k ub ++ bid :: drop k ub) !! k = Some bid.
Proof.
  intros H. rewrite lookup_app_r by (rewrite length_take; lia).
  rewrite length_take. replace (k - k `min` length ub)%nat with 0%nat by lia. reflexivity.
Qed.

Lemma plain_Inv (duration : Q) (s0 t : Engine.t) (c k : nat)
      (cont cont' : TempoRegion.t) (nb : UserBeat.t) :
  let bid := S (Engine.nextUserBeatId s0) in
  Inv duration s0 ->
  Engine.regions s0 !! c = Some cont ->
  ((0 < c)%nat -> (0 < k)%nat) ->
  TempoRegion.userBeats cont'
  = take k (TempoRegion.userBeats cont) ++ bid :: drop k (TempoRegion.userBeats cont) ->
  TempoRegion.index cont' = TempoRegion.index cont ->
  ((0 < c)%nat -> TempoRegion.startTime cont' == TempoRegion.startTime cont) ->
  TempoRegion.endTime cont' = TempoRegion.endTime cont ->
  UserBeat.id nb = bid -> UserBeat.regionIndex nb = c ->
  Engine.regions t = <[c := cont']> (Engine.regions s0) ->
  Engine.beats t = <[bid := nb]> (Engine.beats s0) ->
  Engine.userBeatsById t = <[bid := Some bid]> (Engine.userBeatsById s0) ->
  Engine.nextUserBeatId t = bid ->
  Inv duration t.
Proof.
  intros bid Hinv Hc Hk Hub' Hidx' Hst' Hen' Hid Hri Hregs Hbeats Hmap Hnext.
  pose proof (Inv_Pre duration s0 Hinv) as Hpre.
  destruct (regions_middle _ _ _ Hc) as [Hdec Hlen].
  set (l1 := take c (Engine.regions s0)) in *.
  set (l2 := drop (S c) (Engine.regions s0)) in *.
  assert (Hregs' : Engine.regions t = l1 ++ cont' :: l2).
  { rewrite Hregs, Hdec, <- Hlen. apply insert_middle. }
  destruct (fresh_beat_facts duration s0 (Engine.regions t) nb (Some bid) Hpre Hid)
    as (Halloc & Hknown & Hnodup & Hfresh).
  { left. split; [|reflexivity]. rewrite Hregs', Hdec.
    apply (held_plain_perm l1 l2 (TempoRegion.userBeats cont) k); auto. }
  fold bid in Halloc, Hknown, Hfresh.
  assert (Hclt : (c < length (Engine.regions s0))%nat) by (eapply lookup_lt_Some; exact Hc).
  destruct Hinv as [Hindex Hrindex _ _ _ Hchain Hanch].
  constructor.
  - intros p r Hp. rewrite Hregs in Hp. destruct (decide (c = p)) as [<- | Hne].
    + rewrite list_lookup_insert_eq in Hp by exact Hclt. injection Hp as <-.
      rewrite Hidx'. apply Hindex. exact Hc.
    + rewrite list_lookup_insert_ne in Hp by exact Hne. apply Hindex. exact Hp.
  - intros p r a Hp Ha. rewrite Hregs in Hp. rewrite Hbeats.
    destruct (decide (c = p)) as [<- | Hne].
    + rewrite list_lookup_insert_eq in Hp by exact Hclt. injection Hp as <-.
      rewrite Hub', insert_at_perm in Ha. apply elem_of_cons in Ha.
      destruct Ha as [-> | Ha].
      * unfold beatAt. rewrite lookup_insert_eq. exact Hri.
      * rewrite beatAt_insert_ne.
        -- apply (Hrindex c cont a Hc Ha).
        -- intros <-. apply Hfresh. eapply heldBeats_lookup; eauto.
    + rewrite list_lookup_insert_ne in Hp by exact Hne. rewrite beatAt_insert_ne.
      * apply (Hrindex p r a Hp Ha).
      * intros <-. apply Hfresh. eapply heldBeats_lookup; eauto.
  - rewrite Hbeats. exact Halloc.
  - rewrite Hmap, Hnext. exact Hknown.
  - exact Hnodup.
  - rewrite Hregs'. rewrite Hdec in Hchain. apply contiguousTo_app in Hchain.
    simpl in Hchain. destruct Hchain as (H1 & H2 & H3).
    apply contiguousTo_app. simpl. rewrite Hen'. split; [|split; assumption].
    destruct l1 as [|r1 l1']; [exact I|].
    eapply contiguousTo_final; [|exact H1]. symmetry. apply Hst'. simpl in Hlen. lia.
  - rewrite Hregs', Hbeats. rewrite Hdec in Hanch, Hfresh.
    apply not_held_middle in Hfresh. destruct Hfresh as (Hf1 & Hfc & Hf2).
    rewrite tail_middle in Hanch |- *.
    destruct l1 as [|r1 l1'].
    + apply anchored_insert_all; assumption.
    + apply Forall_app in Hanch. destruct Hanch as [Ha1 Ha2].
      inversion Ha2 as [|? ? Hcont Ha3]. apply Forall_app. split.
      * apply anchored_insert_all; [|exact Ha1].
        simpl in Hf1. rewrite not_elem_of_app in Hf1. tauto.
      * constructor; [|apply anchored_insert_all; assumption].
        assert (Hcpos : (0 < c)%nat) by (simpl in Hlen; lia).
        specialize (Hk Hcpos). specialize (Hst' Hcpos).
        unfold anchored in Hcont |- *. rewrite Hub'.
        destruct (TempoRegion.userBeats cont) as [|a rest]; [contradiction|].
        destruct k as [|k']; [lia|]. simpl.
        assert (bid <> a) by (intros ->; apply Hfc; left).
        unfold timeAt. rewrite beatAt_insert_ne by assumption.
        destruct Hcont as [Hc1 Hc2]. split; [exact Hc1|]. rewrite Hst'. exact Hc2.
Qed.

(** *** Moving the start of region 0 *)

Lemma restart_Inv (duration : Q) (s0 t : Engine.t) (cont cont' : TempoRegion.t) (v : option nat) :
  let bid := S (Engine.nextUserBeatId s0) in
  Inv duration s0 ->
  Engine.regions s0 !! 0%nat = Some cont ->
  TempoRegion.userBeats cont' = TempoRegion.userBeats cont ->
  TempoRegion.index cont' = TempoRegion.index cont ->
  TempoRegion.endTime cont' = TempoRegion.endTime cont ->
  Engine.regions t = <[0%nat := cont']> (Engine.regions s0) ->
  Engine.beats t = Engine.beats s0 ->
  Engine.userBeatsById t = <[bid := v]> (Engine.userBeatsById s0) ->
  Engine.nextUserBeatId t = bid ->
  Inv duration t.
Proof.
  intros bid Hinv Hc Hub' Hidx' Hen' Hregs Hbeats Hmap Hnext.
  destruct (Engine.regions s0) as [|r0 rs] eqn:E; [discriminate|].
  simpl in Hc. injection Hc as ->. simpl in Hregs.
  destruct Hinv as [Hindex Hrindex Halloc Hknown Hnodup Hchain Hanch].
  rewrite E in *.
  assert (Hheld : heldBeats (Engine.regions t) = heldBeats (cont :: rs)).
  { rewrite Hregs. simpl. rewrite Hub'. reflexivity. }
  constructor.
  - intros [|p] r Hp; rewrite Hregs in Hp; simpl in Hp.
    + injection Hp as <-. rewrite Hidx'. apply (Hindex 0%nat). reflexivity.
    + apply (Hindex (S p)). exact Hp.
  - intros [|p] r a Hp Ha; rewrite Hregs in Hp; simpl in Hp; rewrite Hbeats.
    + injection Hp as <-. rewrite Hub' in Ha. apply (Hrindex 0%nat cont a); [reflexivity | exact Ha].
    + apply (Hrindex (S p) r a); assumption.
  - rewrite Hheld, Hbeats. exact Halloc.
  - rewrite Hheld, Hmap, Hnext. intros a Ha. destruct (Hknown a Ha) as [Hle Hm].
    split; [unfold bid; lia|]. rewrite lookup_insert_ne by (unfold bid; lia). exact Hm.
  - rewrite Hheld. exact Hnodup.
  - rewrite Hregs. simpl in *. rewrite Hen'. exact Hchain.
  - rewrite Hregs, Hbeats. exact Hanch.
Qed.

Lemma Forall_tail_lookup {A : Type} (P : A -> Prop) (l : list A) (p : nat) (x : A) :
  Forall P (tail l) -> (0 < p)%nat -> l !! p = Some x -> P x.
Proof.
  intros HF Hp Hx. destruct l as [|y l]; [discriminate|]. destruct p as [|p]; [lia|].
  simpl in *. rewrite List.Forall_forall in HF. apply HF.
  apply list_elem_of_In. eapply list_elem_of_lookup_2. exact Hx.
Qed.

Lemma insert_after_middle {A : Type} (rs : list A) (c : nat) (r r' new : A) :
  rs !! c = Some r ->
  take (c + 1) (<[c := r']> rs) ++ new :: drop (c + 1) (<[c := r']> rs)
  = take c rs ++ r' :: new :: drop (S c) rs.
Proof.
  intros H. pose proof (take_drop_middle rs c r H) as Hdec.
  assert (Hlen : length (take c rs) = c).
  { rewrite length_take. apply lookup_lt_Some in H. lia. }
  remember (take c rs) as l1 eqn:E1. remember (drop (S c) rs) as l2 eqn:E2.
  clear E1 E2 H. subst c. rewrite <- Hdec.
  rewrite insert_middle, take_middle_S, drop_middle_S, <- app_assoc. reflexivity.
Qed.

Section AddPoint.

Variable duration : Q.
Variable numberToString : Q -> string.

(** [addPoint], when it returns, keeps the invariant. *)
Lemma addPoint_Inv (time : Q) (isTempoChange : bool) (s s' : Engine.t) (ret : Returned) :
  Inv duration s ->
  addPoint duration numberToString time isTempoChange s = Ret (ret, s') ->
  Inv duration s'.
Proof.
  intros Hinv0. pose proof (ensureRegion_Inv duration time s Hinv0) as Hinv.
  unfold addPoint. set (s0 := ensureRegion duration time s) in *. clearbody s0. clear Hinv0 s.
  destruct (Engine.regions s0 !! 0%nat) as [region0|] eqn:H0; [|discriminate].
  set (cri := if Qlt_bool time (TempoRegion.startTime region0) then 0%Z else _).
  destruct (cri <? 0)%Z eqn:Ecri; [intros [= <- <-]; exact Hinv|].
  apply Z.ltb_ge in Ecri.
  destruct (Engine.regions s0 !! Z.to_nat cri) as [cont|] eqn:Hc; [|discriminate].
  set (c := Z.to_nat cri) in *.
  set (ub := TempoRegion.userBeats cont).
  set (fia := findIndex _ ub).
  set (insertAt := if (0 <=? fia)%Z then Z.to_nat fia else length ub).
  (* where the beat goes *)
  assert (Hstart : (0 < c)%nat -> TempoRegion.startTime cont <= time).
  { intros Hpos. unfold c, cri in Hpos, Hc.
    destruct (Qlt_bool time (TempoRegion.startTime region0)); [simpl in Hpos; lia|].
    match type of Hc with
    | _ !! Z.to_nat (findIndex ?p ?l) = _ =>
        destruct (findIndex_found p l ltac:(lia)) as (x & Hx & Hp)
    end.
    rewrite Hc in Hx. injection Hx as <-.
    apply andb_prop in Hp. destruct Hp as [Hp _]. apply Qle_bool_iff in Hp. exact Hp. }
  assert (Hle : (insertAt <= length ub)%nat).
  { unfold insertAt. pose proof (findIndex_range
      (fun p => Qlt_bool time (timeAt (Engine.beats s0) p)) ub) as Hr. fold fia in Hr.
    destruct (0 <=? fia)%Z; lia. }
  assert (Hpos : (0 < c)%nat -> (0 < insertAt)%nat).
  { intros Hcpos. specialize (Hstart Hcpos).
    pose proof (Forall_tail_lookup _ _ _ _ (inv_anchored _ _ Hinv) Hcpos Hc) as Hanch.
    unfold anchored in Hanch. fold ub in Hanch. unfold insertAt.
    destruct ub as [|a rest] eqn:Eub; [contradiction|]. destruct Hanch as [_ Ha].
    destruct (0 <=? fia)%Z eqn:E; [|simpl; lia]. apply Z.leb_le in E.
    destruct (Z.eq_dec fia 0%Z) as [E0|E0]; [|lia]. exfalso.
    apply findIndex_zero in E0. apply Qlt_bool_iff in E0. rewrite Ha in E0.
    apply (Qlt_not_le _ _ E0 Hstart). }
  assert (Hidx : TempoRegion.index cont = c) by (apply (inv_index _ _ Hinv); exact Hc).
  destruct (regions_middle _ _ _ Hc) as [Hdec Hlen].
  set (pa := if (insertAt <? length ub)%nat then _ else _). clearbody pa.
  destruct pa as [pointAfter| | |]; try discriminate. ret.
  set (pb := if (0 <? insertAt)%nat then _ else _). clearbody pb.
  destruct pb as [pointBefore| | |]; try discriminate. ret.
  destruct (tooClose (Engine.beats s0) pointAfter _) as [[|]| | |]; try discriminate; ret.
  { intros [= <- <-]. exact Hinv. }
  destruct isTempoChange.
  - destruct (negb ((c =? 0)%nat && (insertAt =? 0)%nat)) eqn:Ecreate.
    + (* a new region *)
      rewrite Hidx.
      set (cont' := TempoRegion.set_endTime _ time).
      set (new := TempoRegion.mk _ _ _ _ _ _ _ _).
      assert (Hnew : take (c + 1) (<[c := cont']> (Engine.regions s0))
                     ++ new :: drop (c + 1) (<[c := cont']> (Engine.regions s0))
                     = take c (Engine.regions s0) ++ cont' :: new
                            :: drop (S c) (Engine.regions s0)).
      { apply insert_after_middle with (r := cont). exact Hc. }
      rewrite Hnew.
      assert (Hlook : (take c (Engine.regions s0) ++ cont' :: new
                            :: drop (S c) (Engine.regions s0)) !! (c + 1)%nat = Some new).
      { rewrite lookup_app_r by lia. rewrite Hlen.
        replace (c + 1 - c)%nat with 1%nat by lia. reflexivity. }
      rewrite Hlook.
      match goal with
      | |- context [onRegionsChanged _ _ (Engine.set_selectedRegionId
                                           (reassignRegionIndices ?t) ?x) ?ch ?b] =>
          destruct (onRegionsChanged duration numberToString
                      (Engine.set_selectedRegionId (reassignRegionIndices t) x) ch b)
            as [s2| | |] eqn:Eo; try discriminate;
          assert (Hpre : Pre duration t)
      end.
      { eapply (split_Pre duration s0 _ c insertAt time cont cont' new
                          (UserBeat.mk (S (Engine.nextUserBeatId s0)) (c + 1) true time None));
          try reflexivity; try assumption. }
      ret. intros [= <- <-].
      eapply Inv_same; [eapply onRegionsChanged_frame; exact Eo|].
      apply Inv_selected, reassign_Inv. exact Hpre.
    + (* the start of region 0 *)
      apply negb_false_iff, andb_prop in Ecreate. destruct Ecreate as [Ec0 _].
      apply Nat.eqb_eq in Ec0. clearbody c. rewrite Ec0 in *.
      match goal with
      | |- context [onRegionsChanged _ _ ?t ?ch ?b] =>
          destruct (onRegionsChanged duration numberToString t ch b)
            as [s2| | |] eqn:Eo; try discriminate;
          assert (Hinv2 : Inv duration t)
      end.
      { apply Inv_selected.
        eapply (restart_Inv duration s0 _ cont (TempoRegion.set_startTime cont time));
          try reflexivity; assumption. }
      ret. intros [= <- <-].
      eapply Inv_same; [eapply onRegionsChanged_frame; exact Eo | exact Hinv2].
  - (* a plain beat *)
    destruct (tooClose (Engine.beats s0) pointBefore _) as [[|]| | |]; try discriminate; ret.
    { intros [= <- <-]. exact Hinv. }
    match goal with
    | |- context [onRegionsChanged _ _ ?t ?ch ?b] =>
        destruct (onRegionsChanged duration numberToString t ch b)
          as [s2| | |] eqn:Eo; try discriminate;
        assert (Hinv2 : Inv duration t)
    end.
    { apply Inv_selected.
      eapply (plain_Inv duration s0 _ c insertAt cont
                        (TempoRegion.set_startTime
                           (TempoRegion.set_userBeats cont
                              (take insertAt ub
                               ++ S (Engine.nextUserBeatId s0) :: drop insertAt ub))
                           (Qmin time (TempoRegion.startTime cont)))
                        (UserBeat.mk (S (Engine.nextUserBeatId s0)) c false time (Some 0)));
        try reflexivity; try assumption.
      - intros Hcpos. simpl. apply Q.min_r. apply Hstart. exact Hcpos.
      - simpl. fold ub. rewrite insert_at_lookup by exact Hle. reflexivity. }
    ret. intros [= <- <-].
    eapply Inv_same; [eapply onRegionsChanged_frame; exact Eo | exact Hinv2].
Qed.

End AddPoint.

(** *** Taking beats and regions away *)

Lemma Pre_selected (duration : Q) (s : Engine.t) (x : option nat) :
  Pre duration s -> Pre duration (Engine.set_selectedRegionId s x).
Proof. intros []. constructor; assumption. Qed.

Lemma findIndex_exists {A : Type} (p : A -> bool) (l : list A) (x : A) :
  x ∈ l -> p x = true -> (0 <= findIndex p l)%Z.
Proof.
  induction l as [|y l IH]; intros Hx Hp; [inversion Hx|]. simpl.
  destruct (p y) eqn:E; [lia|]. apply elem_of_cons in Hx.
  destruct Hx as [-> | Hx]; [congruence|]. specialize (IH Hx Hp).
  destruct (findIndex p l <? 0)%Z eqn:E'; [apply Z.ltb_lt in E'; lia | lia].
Qed.

(** Facts about the beats that carry over to a sublist of them. *)
Lemma fewer_beats_facts (duration : Q) (s t : Engine.t) :
  Pre duration s ->
  heldBeats (Engine.regions t) `sublist_of` heldBeats (Engine.regions s) ->
  Engine.beats t = Engine.beats s ->
  Engine.userBeatsById t = Engine.userBeatsById s ->
  Engine.nextUserBeatId t = Engine.nextUserBeatId s ->
  (forall a, a ∈ heldBeats (Engine.regions t) ->
             exists b, Engine.beats t !! a = Some b /\ UserBeat.id b = a)
  /\ (forall a, a ∈ heldBeats (Engine.regions t) ->
                (a <= Engine.nextUserBeatId t)%nat
                /\ Engine.userBeatsById t !! a = Some (Some a))
  /\ NoDup (heldBeats (Engine.regions t)).
Proof.
  intros [Halloc Hknown Hnodup _ _] Hsub -> -> ->.
  split; [|split].
  - intros a Ha. apply Halloc. eapply elem_of_sublist; eauto.
  - intros a Ha. apply Hknown. eapply elem_of_sublist; eauto.
  - eapply sublist_NoDup; eauto.
Qed.

Lemma merge_middle {A : Type} (l1 l2 : list A) (x y z : A) :
  delete (S (length l1)) (<[length l1 := y]> (l1 ++ x :: z :: l2)) = l1 ++ y :: l2.
Proof.
  rewrite insert_middle. induction l1 as [|a l1 IH]; simpl; [reflexivity|].
  f_equal. exact IH.
Qed.

Lemma merge_Pre (duration : Q) (s t : Engine.t) (p : nat) (prev r prev' : TempoRegion.t)
      (m : nat) :
  Inv duration s ->
  Engine.regions s !! p = Some prev ->
  Engine.regions s !! S p = Some r ->
  TempoRegion.userBeats prev'
  = TempoRegion.userBeats prev ++ drop m (TempoRegion.userBeats r) ->
  TempoRegion.startTime prev' = TempoRegion.startTime prev ->
  TempoRegion.endTime prev' = TempoRegion.endTime r ->
  Engine.regions t = delete (S p) (<[p := prev']> (Engine.regions s)) ->
  Engine.beats t = Engine.beats s ->
  Engine.userBeatsById t = Engine.userBeatsById s ->
  Engine.nextUserBeatId t = Engine.nextUserBeatId s ->
  Pre duration t.
Proof.
  intros Hinv Hp Hr Hub' Hst' Hen' Hregs Hbeats Hmap Hnext.
  pose proof (Inv_Pre duration s Hinv) as Hpre.
  destruct (regions_middle _ _ _ Hp) as [Hdec Hlen].
  set (l1 := take p (Engine.regions s)) in *.
  assert (Hdrop : drop (S p) (Engine.regions s) = r :: drop (S (S p)) (Engine.regions s)).
  { apply drop_S. exact Hr. }
  rewrite Hdrop in Hdec. set (l2 := drop (S (S p)) (Engine.regions s)) in *.
  assert (Hregs' : Engine.regions t = l1 ++ prev' :: l2).
  { rewrite Hregs, Hdec, <- Hlen. apply merge_middle. }
  destruct (fewer_beats_facts duration s t Hpre) as (Halloc & Hknown & Hnodup);
    try assumption.
  { rewrite Hregs', Hdec, !heldBeats_app. simpl. rewrite Hub'.
    apply sublist_app; [reflexivity|]. rewrite <- app_assoc.
    apply sublist_app; [reflexivity|]. apply sublist_app; [apply sublist_drop | reflexivity]. }
  destruct Hpre as [_ _ _ Hchain Hanch]. rewrite Hdec in Hchain, Hanch.
  constructor; try assumption.
  - rewrite Hregs'. apply contiguousTo_app in Hchain. simpl in Hchain.
    destruct Hchain as (H1 & H2 & H3 & H4).
    apply contiguousTo_app. simpl. rewrite Hst', Hen'. auto.
  - rewrite Hregs', Hbeats. rewrite tail_middle in Hanch |- *.
    destruct l1 as [|r1 l1'].
    + inversion Hanch; assumption.
    + apply Forall_app in Hanch. destruct Hanch as [Ha1 Ha2].
      inversion Ha2 as [|? ? Hprev Ha3]. inversion Ha3 as [|? ? _ Ha4].
      apply Forall_app. split; [exact Ha1|]. constructor; [|exact Ha4].
      unfold anchored in Hprev |- *. rewrite Hub', Hst'.
      destruct (TempoRegion.userBeats prev); [contradiction | exact Hprev].
Qed.

Lemma remove_Inv (duration : Q) (s t : Engine.t) (c j : nat) (cont cont' : TempoRegion.t)
      (first : nat) (rest : list nat) :
  Inv duration s ->
  Engine.regions s !! c = Some cont ->
  ((0 < c)%nat -> (0 < j)%nat) ->
  delete j (TempoRegion.userBeats cont) = first :: rest ->
  TempoRegion.userBeats cont' = first :: rest ->
  TempoRegion.index cont' = TempoRegion.index cont ->
  TempoRegion.startTime cont' = timeAt (Engine.beats s) first ->
  TempoRegion.endTime cont' = TempoRegion.endTime cont ->
  Engine.regions t = <[c := cont']> (Engine.regions s) ->
  Engine.beats t = Engine.beats s ->
  Engine.userBeatsById t = Engine.userBeatsById s ->
  Engine.nextUserBeatId t = Engine.nextUserBeatId s ->
  Inv duration t.
Proof.
  intros Hinv Hc Hj Hdel Hub' Hidx' Hst' Hen' Hregs Hbeats Hmap Hnext.
  pose proof (Inv_Pre duration s Hinv) as Hpre.
  destruct (regions_middle _ _ _ Hc) as [Hdec Hlen].
  set (l1 := take c (Engine.regions s)) in *.
  set (l2 := drop (S c) (Engine.regions s)) in *.
  assert (Hregs' : Engine.regions t = l1 ++ cont' :: l2).
  { rewrite Hregs, Hdec, <- Hlen. apply insert_middle. }
  assert (Hsubl : first :: rest `sublist_of` TempoRegion.userBeats cont).
  { rewrite <- Hdel. apply sublist_delete. }
  destruct (fewer_beats_facts duration s t Hpre) as (Halloc & Hknown & Hnodup);
    try assumption.
  { rewrite Hregs', Hdec, !heldBeats_app. simpl. rewrite Hub'.
    apply sublist_app; [reflexivity|]. apply sublist_app; [exact Hsubl | reflexivity]. }
  assert (Hclt : (c < length (Engine.regions s))%nat) by (eapply lookup_lt_Some; exact Hc).
  assert (Hfirst : (0 < c)%nat ->
                   exists more, TempoRegion.userBeats cont = first :: more).
  { intros Hcpos. specialize (Hj Hcpos).
    destruct (TempoRegion.userBeats cont) as [|a more]; [discriminate|].
    destruct j as [|j']; [lia|]. simpl in Hdel. injection Hdel as -> _. eauto. }
  destruct Hinv as [Hindex Hrindex _ _ _ Hchain Hanch].
  assert (Hcanch : (0 < c)%nat -> anchored (Engine.beats s) cont).
  { intros Hcpos. rewrite Forall_lookup in Hanch. apply (Hanch (c - 1)%nat).
    rewrite lookup_tail. replace (S (c - 1)) with c by lia. exact Hc. }
  constructor; try assumption.
  - intros p r Hp. rewrite Hregs in Hp. destruct (decide (c = p)) as [<- | Hne].
    + rewrite list_lookup_insert_eq in Hp by exact Hclt. injection Hp as <-.
      rewrite Hidx'. apply Hindex. exact Hc.
    + rewrite list_lookup_insert_ne in Hp by exact Hne. apply Hindex. exact Hp.
  - intros p r a Hp Ha. rewrite Hregs in Hp. rewrite Hbeats.
    destruct (decide (c = p)) as [<- | Hne].
    + rewrite list_lookup_insert_eq in Hp by exact Hclt. injection Hp as <-.
      rewrite Hub' in Ha. apply (Hrindex c cont a Hc).
      eapply elem_of_sublist; eauto.
    + rewrite list_lookup_insert_ne in Hp by exact Hne. apply (Hrindex p r a Hp Ha).
  - rewrite Hregs'. rewrite Hdec in Hchain. apply contiguousTo_app in Hchain.
    simpl in Hchain. destruct Hchain as (H1 & H2 & H3).
    apply contiguousTo_app. simpl. rewrite Hen'. split; [|split; assumption].
    destruct l1 as [|r1 l1']; [exact I|].
    assert (Hcpos : (0 < c)%nat) by (simpl in Hlen; lia).
    eapply contiguousTo_final; [|exact H1]. rewrite Hst'.
    destruct (Hfirst Hcpos) as (more & Hmore). specialize (Hcanch Hcpos).
    unfold anchored in Hcanch. rewrite Hmore in Hcanch. symmetry. apply Hcanch.
  - rewrite Hregs', Hbeats. rewrite Hdec in Hanch.
    rewrite tail_middle in Hanch |- *.
    destruct l1 as [|r1 l1'].
    + assumption.
    + apply Forall_app in Hanch. destruct Hanch as [Ha1 Ha2].
      inversion Ha2 as [|? ? Hcont Ha3]. apply Forall_app. split; [exact Ha1|].
      constructor; [|exact Ha3].
      assert (Hcpos : (0 < c)%nat) by (simpl in Hlen; lia).
      destruct (Hfirst Hcpos) as (more & Hmore).
      unfold anchored in Hcont |- *. rewrite Hub', Hst'. rewrite Hmore in Hcont.
      split; [apply Hcont | reflexivity].
Qed.

Lemma behead_Pre (duration : Q) (s t : Engine.t) :
  Pre duration s ->
  Engine.regions t = tail (Engine.regions s) ->
  Engine.beats t = Engine.beats s ->
  Engine.userBeatsById t = Engine.userBeatsById s ->
  Engine.nextUserBeatId t = Engine.nextUserBeatId s ->
  Pre duration t.
Proof.
  intros Hpre Hregs Hbeats Hmap Hnext.
  destruct (fewer_beats_facts duration s t Hpre) as (Halloc & Hknown & Hnodup);
    try assumption.
  { rewrite Hregs. destruct (Engine.regions s); simpl; [reflexivity|].
    apply sublist_inserts_l. reflexivity. }
  destruct Hpre as [_ _ _ Hchain Hanch].
  constructor; try assumption.
  - rewrite Hregs. destruct (Engine.regions s); simpl in *; tauto.
  - rewrite Hregs, Hbeats. destruct (Engine.regions s) as [|r rs]; [constructor|].
    simpl in *. destruct rs; [constructor|]. inversion Hanch; assumption.
Qed.

Section DeletePoint.

Variable duration : Q.
Variable numberToString : Q -> string.

(** [deletePoint] of the id of a beat that some region holds, when it returns,
    keeps the invariant. *)
Lemma deletePoint_Inv (id : nat) (s s' : Engine.t) :
  Inv duration s -> liveId s id ->
  deletePoint duration numberToString id s = Ret s' ->
  Inv duration s'.
Proof.
  intros Hinv Hlive.
  destruct (inv_known _ _ Hinv id Hlive) as [_ Hmap].
  destruct (inv_alloc _ _ Hinv id Hlive) as (b & Hb & Hbid).
  destruct (heldBeats_elem _ _ Hlive) as (q & cont & Hq & Hin).
  pose proof (inv_regionIndex _ _ Hinv q cont id Hq Hin) as Hri.
  pose proof (inv_index _ _ Hinv q cont Hq) as Hidx.
  unfold deletePoint, beatById. rewrite Hmap. ret.
  rewrite Hri, Hq. clear Hri.
  destruct (UserBeat.isTempoChange (beatAt (Engine.beats s) id)) eqn:Etc.
  - destruct (TempoRegion.userBeats cont) as [|u0 urest] eqn:Eub; [inversion Hin|].
    rewrite Hidx. destruct (0 <? q)%nat eqn:Eq0.
    + apply Nat.ltb_lt in Eq0.
      destruct (Engine.regions s !! (q - 1)%nat) as [prev|] eqn:Hp; [|discriminate].
      set (prev' := TempoRegion.set_endTime _ _).
      set (t := reassignRegionIndices _).
      assert (Ht : Inv duration t).
      { apply reassign_Inv.
        eapply (merge_Pre duration s _ (q - 1) prev cont prev'
                          (Nat.max 1 (length (u0 :: urest) - 1)));
          try reflexivity; try assumption.
        - replace (S (q - 1)) with q by lia. exact Hq.
        - simpl. rewrite Eub. reflexivity.
        - simpl. replace (S (q - 1)) with q by lia. reflexivity. }
      clearbody t. intros Ho.
      destruct (decide (Engine.selectedRegionId t = Some (TempoRegion.id cont)));
        apply onRegionsChanged_frame in Ho; eapply Inv_same; try exact Ho;
        [apply Inv_selected|]; exact Ht.
    + intros Ho. apply onRegionsChanged_frame in Ho. eapply Inv_same; eauto.
  - set (ub := TempoRegion.userBeats cont) in *.
    set (fi := findIndex _ ub).
    assert (Hfi : (0 <= fi)%Z).
    { apply (findIndex_exists _ ub id Hin). unfold beatAt. rewrite Hb. simpl.
      rewrite Hbid. apply Nat.eqb_refl. }
    destruct (findIndex_found _ ub Hfi) as (x & Hx & Hpx). fold fi in Hx.
    assert (x = id) as ->.
    { apply Nat.eqb_eq in Hpx. rewrite <- Hpx.
      destruct (inv_alloc _ _ Hinv x) as (bx & Hbx & Hbxid).
      - eapply heldBeats_lookup; [exact Hq|]. eapply list_elem_of_lookup_2. exact Hx.
      - unfold beatAt. rewrite Hbx. simpl. symmetry. exact Hbxid. }
    assert (Hsplice : splice1 fi ub = delete (Z.to_nat fi) ub).
    { unfold splice1. destruct (fi <? 0)%Z eqn:E; [apply Z.ltb_lt in E; lia | reflexivity]. }
    rewrite Hsplice. set (j := Z.to_nat fi) in *. clearbody j. clear Hsplice.
    assert (Hj : (0 < q)%nat -> (0 < j)%nat).
    { intros Hqpos. pose proof (inv_anchored _ _ Hinv) as Hanch.
      rewrite Forall_lookup in Hanch. specialize (Hanch (q - 1)%nat cont).
      rewrite lookup_tail in Hanch. replace (S (q - 1)) with q in Hanch by lia.
      specialize (Hanch Hq). unfold anchored in Hanch. fold ub in Hanch.
      destruct ub as [|a more]; [contradiction|].
      destruct j as [|j']; [|lia]. simpl in Hx. injection Hx as ->.
      destruct Hanch as [Ha _]. congruence. }
    destruct (delete j ub) as [|first rest] eqn:Edel.
    + assert (Hq0 : q = 0%nat).
      { destruct q as [|q']; [reflexivity|]. specialize (Hj ltac:(lia)).
        destruct ub as [|a more]; [discriminate|].
        destruct j as [|j']; [lia|]. discriminate. }
      rewrite Hq0 in *. simpl TempoRegion.index. rewrite Hidx.
      set (t0 := Engine.set_regions s _).
      assert (Hpre : Pre duration t0).
      { apply (behead_Pre duration s t0 (Inv_Pre _ _ Hinv)); try reflexivity.
        simpl. destruct (Engine.regions s); reflexivity. }
      clearbody t0. intros Ho. apply onRegionsChanged_frame in Ho.
      eapply Inv_same; [exact Ho|]. apply reassign_Inv.
      destruct (decide _); [apply Pre_selected|]; exact Hpre.
    + intros Ho. apply onRegionsChanged_frame in Ho.
      eapply Inv_same; [exact Ho|].
      eapply (remove_Inv duration s _ q j cont
                (TempoRegion.set_startTime
                   (TempoRegion.set_userBeats cont (first :: rest))
                   (timeAt (Engine.beats s) first))
                first rest Hinv Hq Hj Edel);
        reflexivity.
Qed.

(** Every state that calls with live ids reach satisfies the invariant. *)
Lemma reachable_Inv (s : Engine.t) :
  reachable duration numberToString s -> Inv duration s.
Proof.
  induction 1 as [|s s' time isTempoChange ret _ IH Hadd|s s' id _ IH Hlive Hdel].
  - constructor; simpl.
    + intros p r Hp. destruct p; discriminate.
    + intros p r a Hp. destruct p; discriminate.
    + intros a Ha. inversion Ha.
    + intros a Ha. inversion Ha.
    + constructor.
    + exact I.
    + constructor.
  - eapply addPoint_Inv; eauto.
  - eapply deletePoint_Inv; eauto.
Qed.

End DeletePoint.

Lemma contiguousTo_lookup (final : Q) (rs : list TempoRegion.t) (p : nat)
      (r r' : TempoRegion.t) :
  contiguousTo final rs -> rs !! p = Some r -> rs !! S p = Some r' ->
  TempoRegion.endTime r == TempoRegion.startTime r'.
Proof.
  revert p. induction rs as [|x rs IH]; intros p Hc Hp Hp'; [discriminate|].
  destruct Hc as [H1 H2]. destruct p as [|p]; simpl in Hp, Hp'.
  - injection Hp as <-. destruct rs; [discriminate|]. injection Hp' as <-. exact H1.
  - eapply IH; eauto.
Qed.

Lemma contiguousTo_last (final : Q) (rs : list TempoRegion.t) (r : TempoRegion.t) :
  contiguousTo final rs -> last rs = Some r -> TempoRegion.endTime r == final.
Proof.
  induction rs as [|x rs IH]; intros Hc Hl; [discriminate|].
  destruct Hc as [H1 H2]. destruct rs as [|y rs].
  - injection Hl as <-. exact H1.
  - apply IH; assumption.
Qed.

(** After any sequence of [addPoint] and [deletePoint] calls, each
    [deletePoint] on the id of a beat that a region holds at the time of the
    call: a region's [index] is its position, a beat's [regionIndex] is the
    [index] of the region that holds it, a region ends where the next one
    starts, and the last region ends at the track duration. *)
Lemma reachable_regions_consistent
      (duration : Q) (numberToString : Q -> string) (s : Engine.t) :
  reachable duration numberToString s ->
  (forall p r, Engine.regions s !! p = Some r -> TempoRegion.index r = p)
  /\ (forall p r a, Engine.regions s !! p = Some r -> a ∈ TempoRegion.userBeats r ->
                    UserBeat.regionIndex (beatAt (Engine.beats s) a) = TempoRegion.index r)
  /\ (forall p r r', Engine.regions s !! p = Some r -> Engine.regions s !! S p = Some r' ->
                     TempoRegion.endTime r == TempoRegion.startTime r')
  /\ (forall r, last (Engine.regions s) = Some r -> TempoRegion.endTime r == duration).
Proof.
  intros Hr. apply reachable_Inv in Hr.
  destruct Hr as [Hidx Hri _ _ _ Hc _].
  split; [exact Hidx|]. split; [|split].
  - intros p r a Hp Ha. rewrite (Hidx p r Hp). eapply Hri; eauto.
  - intros p r r'. apply (contiguousTo_lookup duration). exact Hc.
  - intros r. apply contiguousTo_last. exact Hc.
Qed.

(** * Further properties of the code *)

(** ** [isSortedAscending] *)



(** ** The grid of a fixed-tempo region *)

Lemma forTimes_grid (fuel : nat) (t upTo step : Q) (l : list Q) :
  forTimes fuel t upTo step = Some l ->
  (forall i x, l !! i = Some x -> x == t + inject_Z (Z.of_nat i) * step /\ x < upTo)
  /\ upTo <= t + inject_Z (Z.of_nat (length l)) * step.
Proof.
  revert t l. induction fuel as [|fuel IH]; intros t l; simpl.
  - destruct (Qlt_bool t upTo) eqn:E; [discriminate|]. intros [= <-].
    apply Qlt_bool_false in E. split; [intros i x Hi; destruct i; discriminate|].
    change (inject_Z (Z.of_nat (length (@nil Q)))) with 0. lra.
  - destruct (Qlt_bool t upTo) eqn:E.
    + destruct (forTimes fuel (t + step) upTo step) as [l'|] eqn:E'; [|discriminate].
      simpl. intros [= <-]. destruct (IH _ _ E') as [H1 H2]. apply Qlt_bool_iff in E.
      split.
      * intros i x Hi. destruct i as [|i]; simpl in Hi.
        -- injection Hi as <-. change (inject_Z (Z.of_nat 0)) with 0.
           split; [lra | exact E].
        -- destruct (H1 i x Hi) as [Hx Hlt]. split; [|exact Hlt].
           rewrite Hx, inject_nat_S. lra.
      * simpl length. rewrite inject_nat_S. lra.
    + intros [= <-]. apply Qlt_bool_false in E.
      split; [intros i x Hi; destruct i; discriminate|].
      change (inject_Z (Z.of_nat (length (@nil Q)))) with 0. lra.
Qed.

(** The auto beats that [computeAutoBeats] gives for a fixed-tempo region
    are the grid [startTime + phaseOffset + i * 60 / bpm], [i = 0, 1, ...],
    as far as it stays before [endTime]: every one is before [endTime] and
    the next grid position is not. *)
Theorem computeAutoBeats_fixed_grid
        (h : gmap nat UserBeat.t) (r : TempoRegion.t) (bpm phaseOffset : Q) (l : list Q) :
  TempoRegion.tempo r = fixed bpm phaseOffset ->
  computeAutoBeats h r = Ret l ->
  (forall i x, l !! i = Some x ->
     x == TempoRegion.startTime r + phaseOffset + inject_Z (Z.of_nat i) * (60 / bpm)
     /\ x < TempoRegion.endTime r)
  /\ TempoRegion.endTime r
     <= TempoRegion.startTime r + phaseOffset + inject_Z (Z.of_nat (length l)) * (60 / bpm).
Proof.
  intros Ht. unfold computeAutoBeats. rewrite Ht. unfold qdiv.
  destruct (Qeq_bool bpm 0); [discriminate|]. ret. intros Hl.
  apply timesFrom_Ret in Hl. destruct Hl as [fuel Hl].
  exact (forTimes_grid _ _ _ _ _ Hl).
Qed.

Lemma computeAutoBeats_fixed_grid_witness :
  exists l,
    computeAutoBeats ∅ (TempoRegion.mk 1 0 [] [] 1 4 false (fixed 120 (1 # 4))) = Ret l
    /\ length l = 6%nat
    /\ (forall i x, l !! i = Some x ->
          x == 1 + (1 # 4) + inject_Z (Z.of_nat i) * (60 / 120) /\ x < 4)
    /\ 4 <= 1 + (1 # 4) + inject_Z (Z.of_nat (length l)) * (60 / 120).
Proof.
  eexists. split; [vm_compute; reflexivity|]. split; [reflexivity|].
  apply (computeAutoBeats_fixed_grid
           ∅ (TempoRegion.mk 1 0 [] [] 1 4 false (fixed 120 (1 # 4))) 120 (1 # 4));
    reflexivity.
Defined.



(** ** The estimators of a region *)

Lemma Math_round_bounds (x : Q) :
  inject_Z (Math_round x) - (1 # 2) <= x /\ x < inject_Z (Math_round x) + (1 # 2).
Proof.
  unfold Math_round.
  pose proof (Qfloor_le (x + (1 # 2))) as Hlo.
  pose proof (Qlt_floor (x + (1 # 2))) as Hhi.
  rewrite inject_Z_plus in Hhi. change (inject_Z 1) with 1 in Hhi. lra.
Qed.

Lemma Math_round_near (x e : Q) (k : Z) :
  x == inject_Z k + e -> - (1 # 2) <= e -> e < 1 # 2 -> Math_round x = k.
Proof.
  intros Hx Hlo Hhi. destruct (Math_round_bounds x) as [H1 H2].
  assert (H3 : inject_Z (Math_round x) < inject_Z (k + 1)).
  { rewrite inject_Z_plus. change (inject_Z 1) with 1. lra. }
  assert (H4 : inject_Z (k - 1) < inject_Z (Math_round x)).
  { unfold Z.sub. rewrite inject_Z_plus. change (inject_Z (- (1))) with (- (1)). lra. }
  rewrite <- Zlt_Qlt in H3, H4. lia.
Qed.

Lemma Qsum_const (c : Q) (l : list Q) :
  Forall (fun e => e == c) l -> Qsum l == inject_Z (Z.of_nat (length l)) * c.
Proof.
  induction 1 as [|e l He _ IH].
  - change (Qsum []) with 0. change (inject_Z (Z.of_nat (length (@nil Q)))) with 0. ring.
  - rewrite Qsum_cons, IH, He. simpl length. rewrite inject_nat_S. ring.
Qed.

Lemma phaseErrors_shifted (period startTime delta : Q) (times : list Q) :
  0 < period ->
  - (period / 2) <= delta -> delta < period / 2 ->
  Forall (fun x => exists k : Z, x - startTime == inject_Z k * period + delta) times ->
  exists errs, phaseErrors period startTime times = Ret errs
               /\ length errs = length times
               /\ Forall (fun e => e == - delta) errs.
Proof.
  intros Hp Hlo Hhi.
  assert (Hh : period / 2 == period * (1 # 2)) by (field; discriminate).
  rewrite Hh in Hlo, Hhi. clear Hh.
  induction 1 as [|x times [k Hk] _ IH]; simpl.
  - exists []. split; [reflexivity|]. split; [reflexivity | constructor].
  - rewrite qdiv_Ret by lra. ret.
    destruct IH as (errs & He & Hlen & HF). rewrite He. ret.
    eexists. split; [reflexivity|]. split; [simpl; congruence|].
    constructor; [|exact HF].
    assert (Hr : Math_round ((x - startTime) / period) = k).
    { apply (Math_round_near _ (delta / period)).
      - rewrite Hk. field. lra.
      - apply Qle_shift_div_l; [exact Hp|]. lra.
      - apply Qlt_shift_div_r; [exact Hp|]. lra. }
    rewrite Hr. lra.
Qed.

(** [recomputePhaseOffset] on a region whose beats after the first all sit
    at the same offset [delta] from the grid of the region's bpm that
    starts at [startTime], the offset being less than half a period: the
    new [phaseOffset] is [delta]. *)
Theorem recomputePhaseOffset_shifted_grid
        (bpm startTime delta t0 t1 : Q) (times : list Q) :
  0 < bpm ->
  - (30 / bpm) <= delta -> delta < 30 / bpm ->
  Forall (fun x => exists k : Z, x - startTime == inject_Z k * (60 / bpm) + delta)
         (t1 :: times) ->
  exists o, recomputePhaseOffset bpm startTime (t0 :: t1 :: times) = Ret (Some o)
            /\ o == delta.
Proof.
  intros Hb Hlo Hhi HF. unfold recomputePhaseOffset.
  rewrite qdiv_Ret by lra. ret.
  assert (Hp : 0 < 60 / bpm) by (apply Qlt_shift_div_l; lra).
  assert (Hhalf : 60 / bpm / 2 == 30 / bpm) by (field; lra).
  destruct (phaseErrors_shifted (60 / bpm) startTime delta (t1 :: times) Hp)
    as (errs & He & Hlen & HFe); [lra | lra | exact HF |].
  rewrite He. ret.
  assert (Hn : inject_Z (Z.of_nat (length (t0 :: t1 :: times))) - 1
               == inject_Z (Z.of_nat (length errs))).
  { rewrite Hlen. simpl length. rewrite (inject_nat_S (S (length times))). ring. }
  assert (Hpos : 0 < inject_Z (Z.of_nat (length errs))).
  { apply inject_nat_pos. rewrite Hlen. simpl. lia. }
  rewrite qdiv_Ret by lra. ret. eexists. split; [reflexivity|].
  rewrite Hn, (Qsum_const (- delta) errs HFe). field. lra.
Qed.

Lemma recomputePhaseOffset_shifted_grid_witness :
  exists o, recomputePhaseOffset 120 10 [10; 43 # 4; 45 # 4; 47 # 4] = Ret (Some o)
            /\ o == - (1 # 4).
Proof.
  apply (recomputePhaseOffset_shifted_grid 120 10 (- (1 # 4)) 10 (43 # 4) [45 # 4; 47 # 4]).
  - reflexivity.
  - vm_compute. discriminate.
  - reflexivity.
  - repeat constructor.
    + exists 2%Z. vm_compute. reflexivity.
    + exists 3%Z. vm_compute. reflexivity.
    + exists 4%Z. vm_compute. reflexivity.
Defined.

Lemma periodsBetween_spec (onePeriod prev : Q) (times : list Q) :
  0 < onePeriod ->
  exists ps,
    periodsBetween onePeriod prev times = Ret ps
    /\ Forall2 (fun d p =>
                  (d < onePeriod / 2 -> p = None)
                  /\ (onePeriod / 2 <= d ->
                      exists n : Z, (1 <= n)%Z /\ p = Some (d / inject_Z n)
                                    /\ inject_Z n - (1 # 2) <= d / onePeriod
                                    /\ d / onePeriod < inject_Z n + (1 # 2)))
               (distsFrom prev times) ps.
Proof.
  intros Hp.
  assert (Hh : onePeriod / 2 == onePeriod * (1 # 2)) by (field; discriminate).
  revert prev. induction times as [|x times IH]; intros prev; simpl.
  - exists []. split; [reflexivity | constructor].
  - rewrite qdiv_Ret by lra. ret. destruct (IH x) as (ps & Hps & HF). rewrite Hps. ret.
    eexists. split; [reflexivity|]. constructor; [|exact HF].
    destruct (Math_round_bounds ((x - prev) / onePeriod)) as [Hlo Hhi].
    set (n := Math_round ((x - prev) / onePeriod)) in *.
    destruct (0 <? n)%Z eqn:En.
    + apply Z.ltb_lt in En. split.
      * intros Hd. exfalso. rewrite Hh in Hd.
        assert (H1 : (x - prev) / onePeriod < 1 # 2).
        { apply Qlt_shift_div_r; [exact Hp|]. lra. }
        assert (H2 : 1 <= inject_Z n) by (apply inject_Z_ge1; lia). lra.
      * intros _. exists n. split; [lia|]. split; [reflexivity|]. split; assumption.
    + apply Z.ltb_ge in En. split; [reflexivity|].
      intros Hd. exfalso. rewrite Hh in Hd.
      assert (H1 : 1 # 2 <= (x - prev) / onePeriod).
      { apply Qle_shift_div_l; [exact Hp|]. lra. }
      assert (H2 : inject_Z n <= 0).
      { change 0 with (inject_Z 0). rewrite <- Zle_Qle. exact En. }
      lra.
Qed.

(** [setTimesBetweenBeats] on a region with an estimated period [onePeriod]:
    the first beat gets no [localBeatPeriod]; a beat less than half a
    period after the beat before it gets none either; any other beat, at a
    distance [d], gets [d / n], where [n >= 1] is [d / onePeriod] rounded. *)
Theorem setTimesBetweenBeats_spec (onePeriod stddev t0 : Q) (times : list Q) :
  0 < onePeriod ->
  exists ps,
    localBeatPeriods (Some (onePeriod, stddev)) (t0 :: times) = Ret (None :: ps)
    /\ Forall2 (fun d p =>
                  (d < onePeriod / 2 -> p = None)
                  /\ (onePeriod / 2 <= d ->
                      exists n : Z, (1 <= n)%Z /\ p = Some (d / inject_Z n)
                                    /\ inject_Z n - (1 # 2) <= d / onePeriod
                                    /\ d / onePeriod < inject_Z n + (1 # 2)))
               (dists (t0 :: times)) ps.
Proof.
  intros Hp. destruct (periodsBetween_spec onePeriod t0 times Hp) as (ps & Hps & HF).
  exists ps. split; [|exact HF]. simpl. rewrite Hps. reflexivity.
Qed.

Lemma setTimesBetweenBeats_spec_witness :
  exists ps,
    localBeatPeriods (Some (1 # 2, 0)) [0; 1 # 10; 1; 3] = Ret (None :: ps)
    /\ Forall2 (fun d p =>
                  (d < (1 # 2) / 2 -> p = None)
                  /\ ((1 # 2) / 2 <= d ->
                      exists n : Z, (1 <= n)%Z /\ p = Some (d / inject_Z n)
                                    /\ inject_Z n - (1 # 2) <= d / (1 # 2)
                                    /\ d / (1 # 2) < inject_Z n + (1 # 2)))
               (dists [0; 1 # 10; 1; 3]) ps.
Proof.
  apply (setTimesBetweenBeats_spec (1 # 2) 0 0 [1 # 10; 1; 3]). reflexivity.
Defined.

Lemma Zsum_scaled (c : Q) (ds : list Q) (ks : list Z) :
  Forall2 (fun d k => inject_Z k * c <= d) ds ks -> inject_Z (Zsum ks) * c <= Qsum ds.
Proof.
  induction 1 as [|d k ds ks Hk _ IH].
  - change (Qsum []) with 0. change (inject_Z (Zsum [])) with 0. lra.
  - rewrite Qsum_cons. simpl Zsum. rewrite inject_Z_plus. lra.
Qed.

(** [recomputeTempo] on two or more beats whose times ascend strictly
    returns an estimate, and the estimated period is at least two thirds of
    the smallest distance between consecutive beats and at most the mean of
    these distances. *)
Theorem recomputeTempo_period_bounds
        (numberToString : Q -> string) (t0 t1 : Q) (times : list Q) :
  let ds := dists (t0 :: t1 :: times) in
  Forall (fun d => 0 < d) ds ->
  exists meanPeriod stddev m,
    recomputeTempo numberToString (t0 :: t1 :: times)
    = Ret (Some (Some (meanPeriod, stddev)))
    /\ minDist ds = Some m /\ Forall (fun d => m <= d) ds
    /\ m * (2 # 3) <= meanPeriod
    /\ meanPeriod <= Qsum ds / inject_Z (Z.of_nat (length ds)).
Proof.
  intros ds Hpos.
  assert (Hne : ds <> []) by (unfold ds; simpl; congruence).
  destruct (minDist_spec ds Hne) as (m & Hm & Hin & Hle).
  assert (Hm0 : 0 < m).
  { rewrite List.Forall_forall in Hpos. apply Hpos. exact Hin. }
  destruct (initialEstimate_bounds numberToString ds m (m * (12 # 10)))
    as (est & Hest & Hlo & Hhi).
  - exists m. split; [exact Hin|]. rewrite Hm. simpl. apply Qlt_bool_iff. lra.
  - intros d Hd Hc. rewrite Hm in Hc. simpl in Hc. apply Qlt_bool_iff in Hc.
    rewrite List.Forall_forall in Hle. specialize (Hle d Hd). split; lra.
  - assert (HF : Forall (fun d => exists k, (periodsOf est d = Ret k /\ (1 <= k)%Z /\ 0 < d)
                                            /\ inject_Z k * (m * (2 # 3)) <= d) ds).
    { apply List.Forall_forall. intros d Hd.
      rewrite List.Forall_forall in Hle, Hpos.
      specialize (Hle d Hd). specialize (Hpos d Hd).
      destruct (periodsOf_ge1 est d) as (k & Hk & Hk1); [lra | lra |].
      exists k. split; [auto|].
      unfold periodsOf in Hk. rewrite qdiv_Ret in Hk by lra.
      injection Hk as Hk. destruct (Math_round_bounds (d / est)) as [Hb _].
      rewrite Hk in Hb.
      assert (Hde : d / est <= d / m).
      { apply Qle_shift_div_l; [lra|].
        assert (Hq : 0 < d / est) by (apply Qlt_shift_div_l; lra).
        assert (Hc : d / est * est == d) by (field; lra).
        assert (Hmul : d / est * m <= d / est * est).
        { apply Qmult_le_l; [exact Hq | exact Hlo]. }
        lra. }
      assert (Hdm : 1 <= d / m) by (apply Qle_shift_div_l; lra).
      assert (Hk2 : inject_Z k <= d / m * (3 # 2)) by lra.
      assert (Hmul : inject_Z k * m <= d / m * (3 # 2) * m).
      { apply Qmult_le_compat_r; lra. }
      assert (Hcancel : d / m * (3 # 2) * m == d * (3 # 2)) by (field; lra).
      lra. }
    apply Forall_exists_Forall2 in HF. destruct HF as [ks HF].
    assert (HF1 : Forall2 (fun d k => periodsOf est d = Ret k /\ (1 <= k)%Z /\ 0 < d) ds ks).
    { eapply Forall2_impl; [exact HF|]. intros d k [H _]. exact H. }
    assert (HF2 : Forall2 (fun d k => inject_Z k * (m * (2 # 3)) <= d) ds ks).
    { eapply Forall2_impl; [exact HF|]. intros d k [_ H]. exact H. }
    destruct (recomputeTempo_counts numberToString t0 t1 times est ks Hest HF1)
      as (variance & Hr & Hmp & _).
    fold ds in Hr, Hmp.
    assert (Hks : Forall (fun k => (1 <= k)%Z) ks).
    { eapply Forall2_Forall_r; [exact HF1|]. apply List.Forall_forall.
      intros y _ d (_ & H & _). exact H. }
    assert (Hlen : length ks = length ds) by (symmetry; eapply Forall2_length; exact HF1).
    pose proof (Zsum_ge ks Hks) as Hge. rewrite Hlen in Hge.
    assert (Hn : 0 < inject_Z (Z.of_nat (length ds))).
    { apply inject_nat_pos. destruct ds; [congruence | simpl; lia]. }
    assert (Hgeq : inject_Z (Z.of_nat (length ds)) <= inject_Z (Zsum ks)).
    { rewrite <- Zle_Qle. exact Hge. }
    pose proof (Zsum_scaled _ _ _ HF2) as Hsc.
    pose proof (Qsum_pos ds Hne Hpos) as Hs.
    exists (Qsum ds / inject_Z (Zsum ks)), (Math_sqrt variance), m.
    split; [exact Hr|]. split; [exact Hm|]. split; [exact Hle|]. split.
    + apply Qle_shift_div_l; [lra|]. lra.
    + apply Qle_shift_div_l; [exact Hn|].
      assert (Hc : Qsum ds / inject_Z (Zsum ks) * inject_Z (Zsum ks) == Qsum ds)
        by (field; lra).
      assert (Hmul : Qsum ds / inject_Z (Zsum ks) * inject_Z (Z.of_nat (length ds))
                     <= Qsum ds / inject_Z (Zsum ks) * inject_Z (Zsum ks)).
      { apply Qmult_le_l; [exact Hmp | exact Hgeq]. }
      lra.
Qed.

Lemma recomputeTempo_period_bounds_witness :
  exists meanPeriod stddev m,
    recomputeTempo decimalString [0; 1 # 2; 11 # 10; 21 # 10]
    = Ret (Some (Some (meanPeriod, stddev)))
    /\ minDist (dists [0; 1 # 2; 11 # 10; 21 # 10]) = Some m
    /\ Forall (fun d => m <= d) (dists [0; 1 # 2; 11 # 10; 21 # 10])
    /\ m * (2 # 3) <= meanPeriod
    /\ meanPeriod <= Qsum (dists [0; 1 # 2; 11 # 10; 21 # 10])
                     / inject_Z (Z.of_nat (length (dists [0; 1 # 2; 11 # 10; 21 # 10]))).
Proof.
  apply (recomputeTempo_period_bounds decimalString 0 (1 # 2) [11 # 10; 21 # 10]).
  repeat constructor.
Defined.

(** ** The constructor *)

Lemma loadBeats_full (regionIdx : nat) (markedBeats : list Q) (beatIdx n : nat)
      (h : gmap nat UserBeat.t) (addrs : list nat) (n' : nat) (h' : gmap nat UserBeat.t) :
  loadBeats regionIdx beatIdx markedBeats n h = (addrs, n', h') ->
  addrs = seq (S n) (length markedBeats)
  /\ n' = (n + length markedBeats)%nat
  /\ (forall k, (k <= n)%nat \/ (n' < k)%nat -> h' !! k = h !! k)
  /\ (forall p t, markedBeats !! p = Some t ->
        h' !! (S n + p)%nat
        = Some (UserBeat.mk (S n + p) regionIdx (beatIdx + p =? 0)%nat t None)).
Proof.
  revert beatIdx n h addrs n' h'.
  induction markedBeats as [|t ts IH]; intros beatIdx n h addrs n' h'; simpl.
  - intros [= <- <- <-]. split; [reflexivity|]. split; [lia|].
    split; [reflexivity|]. intros p t Hp. destruct p; discriminate.
  - destruct (loadBeats regionIdx (S beatIdx) ts (S n) _) as [[l m] h1] eqn:E.
    intros [= <- <- <-].
    destruct (IH _ _ _ _ _ _ E) as (Hl & Hm & Hold & Hnew).
    split; [rewrite Hl; reflexivity|]. split; [lia|]. split.
    + intros k Hk. rewrite Hold by lia. apply lookup_insert_ne. lia.
    + intros p x Hp. destruct p as [|p]; simpl in Hp.
      * injection Hp as <-. rewrite !Nat.add_0_r. rewrite Hold by lia.
        apply lookup_insert_eq.
      * specialize (Hnew p x Hp).
        replace (S (S n) + p)%nat with (S n + S p)%nat in Hnew by lia.
        replace (S beatIdx + p)%nat with (beatIdx + S p)%nat in Hnew by lia.
        exact Hnew.
Qed.

Section Loader.

Variable duration : Q.
Variable numberToString : Q -> string.

(** What [loadRegions] has made when it returns. *)
Lemma loadRegions_Ret (saved : SaveObject) (regionIdx : nat) (s : Engine.t)
      (loaded : list TempoRegion.t) (s' : Engine.t) :
  loadRegions duration regionIdx saved s = Ret (loaded, s') ->
  checkedByLoader duration saved = true
  /\ (Engine.nextUserBeatId s <= Engine.nextUserBeatId s')%nat
  /\ heldBeats loaded
     = seq (S (Engine.nextUserBeatId s)) (Engine.nextUserBeatId s' - Engine.nextUserBeatId s)
  /\ (forall k, (k <= Engine.nextUserBeatId s)%nat \/ (Engine.nextUserBeatId s' < k)%nat ->
                Engine.beats s' !! k = Engine.beats s !! k)
  /\ Forall2 (fun sr r =>
                TempoRegion.tempo r = loadedTempo (SavedRegion.tempo sr)
                /\ TempoRegion.offbeatsMarked r = SavedRegion.offbeatsMarked sr
                /\ length (TempoRegion.userBeats r) = length (SavedRegion.markedBeats sr)
                /\ (forall p a, TempoRegion.userBeats r !! p = Some a ->
                      exists t, SavedRegion.markedBeats sr !! p = Some t
                                /\ Engine.beats s' !! a
                                   = Some (UserBeat.mk a (TempoRegion.index r) (p =? 0)%nat t None))
                /\ head (SavedRegion.markedBeats sr) = Some (TempoRegion.startTime r))
             saved loaded
  /\ contiguousTo duration loaded
  /\ (forall p r, loaded !! p = Some r -> TempoRegion.index r = (regionIdx + p)%nat)
  /\ Engine.regions s' = Engine.regions s
  /\ Engine.userBeatsById s' = Engine.userBeatsById s
  /\ Engine.selectedRegionId s' = Engine.selectedRegionId s.
Proof.
  revert regionIdx s loaded s'.
  induction saved as [|sr rest IH]; intros regionIdx s loaded s'; simpl.
  - ret. intros [= <- <-]. rewrite Nat.sub_diag. simpl.
    repeat split; try constructor; try lia. intros p r Hp. destruct p; discriminate.
  - destruct (SavedRegion.markedBeats sr) as [|t0 ts] eqn:Emb; [discriminate|].
    cbn [firstTime]. ret.
    destruct (match rest with
              | [] => Ret duration
              | next :: _ => firstTime (SavedRegion.markedBeats next)
              end) as [endTime| | |] eqn:Eend; try discriminate.
    ret. destruct (Qle_bool endTime t0) eqn:Ele; [discriminate|].
    destruct (isSortedAscending (t0 :: ts)) eqn:Esorted; cbn [negb]; [|discriminate].
    destruct (loadBeats regionIdx 0 (t0 :: ts) (Engine.nextUserBeatId s) (Engine.beats s))
      as [[userBeats n] h] eqn:Elb.
    destruct (loadBeats_full _ _ _ _ _ _ _ _ Elb) as (Haddrs & Hn & Hold & Hnew).
    set (region := TempoRegion.mk _ _ _ _ _ _ _ _).
    set (s1 := Engine.set_nextRegionId _ _).
    destruct (loadRegions duration (S regionIdx) rest s1) as [[loaded' s2]| | |] eqn:El;
      try discriminate.
    ret. intros [= <- <-].
    destruct (IH _ _ _ _ El)
      as (Hchk & Hle & Hheld & Hold' & HF & Hcont & Hidx & Hregs & Hmap & Hsel).
    change (Engine.nextUserBeatId s1) with n in Hle, Hheld, Hold'.
    change (Engine.beats s1) with h in Hold'.
    apply Qle_bool_false in Ele.
    split; [|split; [|split; [|split; [|split; [|split; [|split]]]]]].
    + rewrite Hchk, andb_true_r, andb_true_r.
      destruct rest as [|next rest']; [injection Eend as <-; apply Qlt_bool_iff; exact Ele|].
      destruct (SavedRegion.markedBeats next) as [|t1 ?]; [discriminate|].
      simpl in Eend. injection Eend as <-. apply Qlt_bool_iff. exact Ele.
    + lia.
    + simpl heldBeats. rewrite Hheld, Haddrs.
      replace (Engine.nextUserBeatId s2 - Engine.nextUserBeatId s)%nat
        with (length (t0 :: ts) + (Engine.nextUserBeatId s2 - n))%nat by lia.
      rewrite seq_app. f_equal. f_equal. lia.
    + intros k Hk. rewrite Hold' by lia. apply Hold. lia.
    + constructor; [|exact HF]. rewrite Emb. simpl TempoRegion.tempo.
      split; [destruct (SavedRegion.tempo sr); reflexivity|]. split; [reflexivity|].
      simpl TempoRegion.userBeats. split; [rewrite Haddrs; apply length_seq|].
      split; [|reflexivity].
      intros p a Hp. rewrite Haddrs in Hp. apply lookup_seq in Hp. destruct Hp as [-> Hp].
      destruct (lookup_lt_is_Some_2 (t0 :: ts) p Hp) as [t Ht].
      exists t. split; [exact Ht|]. rewrite Hold' by lia.
      apply (Hnew p t Ht).
    + simpl. split; [|exact Hcont].
      destruct loaded' as [|r1 loaded'']; inversion HF as [|sr1 ? rest1 ? Hr1 HF1]; subst.
      * simpl in Eend. injection Eend as <-. reflexivity.
      * destruct Hr1 as (_ & _ & _ & _ & Hhead). simpl in Eend.
        destruct (SavedRegion.markedBeats sr1); [discriminate|].
        simpl in Eend, Hhead. injection Eend as <-. injection Hhead as <-. reflexivity.
    + intros p r Hp. destruct p as [|p]; simpl in Hp.
      * injection Hp as <-. simpl. lia.
      * rewrite (Hidx p r Hp). lia.
    + rewrite Hregs, Hmap, Hsel. repeat split.
Qed.

End Loader.

Lemma registerBeats_held (h : gmap nat UserBeat.t) (rs : list TempoRegion.t)
      (m : gmap nat (option nat)) :
  registerBeats h rs m
  = fold_left (fun m ub => <[UserBeat.id (beatAt h ub) := Some ub]> m) (heldBeats rs) m.
Proof.
  unfold registerBeats. revert m. induction rs as [|r rs IH]; intros m; simpl; [reflexivity|].
  rewrite fold_left_app. apply IH.
Qed.

Lemma register_lookup (h : gmap nat UserBeat.t) (l : list nat) (m : gmap nat (option nat))
      (a : nat) :
  (forall b, b ∈ l -> UserBeat.id (beatAt h b) = b) ->
  fold_left (fun m ub => <[UserBeat.id (beatAt h ub) := Some ub]> m) l m !! a
  = if decide (a ∈ l) then Some (Some a) else m !! a.
Proof.
  revert m. induction l as [|x l IH]; intros m Hid; simpl.
  - destruct (decide (a ∈ [])) as [H|H]; [inversion H | reflexivity].
  - rewrite IH by (intros b Hb; apply Hid; right; exact Hb).
    rewrite (Hid x) by left.
    destruct (decide (a ∈ l)) as [Hl|Hl].
    + destruct (decide (a ∈ x :: l)) as [|Hn]; [reflexivity|]. exfalso. apply Hn. right. exact Hl.
    + destruct (decide (a = x)) as [-> | Hne].
      * rewrite lookup_insert_eq.
        destruct (decide (x ∈ x :: l)) as [|Hn]; [reflexivity|]. exfalso. apply Hn. left.
      * rewrite lookup_insert_ne by congruence.
        destruct (decide (a ∈ x :: l)) as [Hin|]; [|reflexivity].
        apply elem_of_cons in Hin. destruct Hin; [congruence | contradiction].
Qed.

Section Constructed.

Variable duration : Q.
Variable numberToString : Q -> string.

(** The steps of the constructor on a [SaveObject], when it returns. *)
Lemma Annotate_steps (saved : SaveObject) (s : Engine.t) :
  Annotate duration numberToString (Some saved) = Ret s ->
  exists loaded s0,
    loadRegions duration 0 saved initial = Ret (loaded, s0)
    /\ let s1 := Engine.set_userBeatsById
                   (Engine.set_regions s0 loaded)
                   (registerBeats (Engine.beats s0) loaded (Engine.userBeatsById s0)) in
       onRegionsChanged duration numberToString (reassignRegionIndices s1)
                        (seq 0 (length (Engine.regions (reassignRegionIndices s1)))) false
       = Ret s.
Proof.
  unfold Annotate.
  destruct (loadRegions duration 0 saved initial) as [[loaded s0]| | |] eqn:El;
    try discriminate.
  ret. intros H. exists loaded, s0. split; [reflexivity|].
  destruct (loadRegions_Ret _ _ _ _ _ _ El) as (_ & _ & _ & _ & _ & _ & _ & Hregs & _).
  rewrite Hregs in H. exact H.
Qed.

(** The state that the constructor has built before it assigns the indices. *)
Lemma loaded_Pre (saved : SaveObject) (loaded : list TempoRegion.t) (s0 : Engine.t) :
  loadRegions duration 0 saved initial = Ret (loaded, s0) ->
  Pre duration
      (Engine.set_userBeatsById
         (Engine.set_regions s0 loaded)
         (registerBeats (Engine.beats s0) loaded (Engine.userBeatsById s0))).
Proof.
  intros El.
  destruct (loadRegions_Ret _ _ _ _ _ _ El)
    as (_ & _ & Hheld & _ & HF & Hcont & _ & _ & _ & _).
  simpl in Hheld.
  assert (Hbeat : forall p r i a, loaded !! p = Some r -> TempoRegion.userBeats r !! i = Some a ->
            exists t, Engine.beats s0 !! a
                      = Some (UserBeat.mk a (TempoRegion.index r) (i =? 0)%nat t None)
                      /\ (i = 0%nat -> t = TempoRegion.startTime r)).
  { intros p r i a Hp Hi.
    destruct (Forall2_lookup_r _ _ _ _ _ HF Hp) as (sr & _ & (_ & _ & _ & Hb & Hhd)).
    destruct (Hb i a Hi) as (t & Ht & Hbt). exists t. split; [exact Hbt|].
    intros ->. destruct (SavedRegion.markedBeats sr); [discriminate|].
    simpl in Ht, Hhd. congruence. }
  assert (Halloc : forall a, a ∈ heldBeats loaded ->
                     exists b, Engine.beats s0 !! a = Some b /\ UserBeat.id b = a).
  { intros a Ha. destruct (heldBeats_elem _ _ Ha) as (p & r & Hp & Hr).
    apply list_elem_of_lookup_1 in Hr. destruct Hr as [i Hi].
    destruct (Hbeat p r i a Hp Hi) as (t & Hb & _). eexists. split; [exact Hb | reflexivity]. }
  constructor; simpl.
  - exact Halloc.
  - intros a Ha. split.
    + rewrite Hheld in Ha. apply elem_of_seq in Ha. lia.
    + rewrite registerBeats_held, register_lookup.
      * destruct (decide (a ∈ heldBeats loaded)); [reflexivity | contradiction].
      * intros b Hb. destruct (Halloc b Hb) as (x & Hx & Hid).
        unfold beatAt. rewrite Hx. exact Hid.
  - rewrite Hheld. apply NoDup_seq.
  - exact Hcont.
  - apply Forall_tail. apply Forall_lookup. intros p r Hp.
    destruct (Forall2_lookup_r _ _ _ _ _ HF Hp) as (sr & _ & (_ & _ & Hlen & _ & Hhd)).
    unfold anchored. destruct (TempoRegion.userBeats r) as [|a rest] eqn:Eub.
    + destruct (SavedRegion.markedBeats sr); [discriminate | simpl in Hlen; lia].
    + destruct (Hbeat p r 0%nat a Hp) as (t & Hb & Ht); [rewrite Eub; reflexivity|].
      unfold timeAt, beatAt. rewrite Hb. simpl. split; [reflexivity|].
      rewrite (Ht eq_refl). reflexivity.
Qed.

(** A constructed engine satisfies the invariant. *)
Lemma Annotate_Inv (loadSaved : option SaveObject) (s : Engine.t) :
  Annotate duration numberToString loadSaved = Ret s -> Inv duration s.
Proof.
  destruct loadSaved as [saved|].
  - intros H. destruct (Annotate_steps _ _ H) as (loaded & s0 & El & Ho).
    cbv zeta in Ho. apply onRegionsChanged_frame in Ho.
    eapply Inv_same; [exact Ho|]. apply reassign_Inv. apply loaded_Pre with saved. exact El.
  - simpl. ret. intros [= <-]. apply (reachable_Inv duration numberToString). constructor.
Qed.

End Constructed.

Section Accepted.

Variable duration : Q.
Variable numberToString : Q -> string.

Lemma Annotate_regions (saved : SaveObject) (s : Engine.t) :
  Annotate duration numberToString (Some saved) = Ret s ->
  checkedByLoader duration saved = true
  /\ Forall2 (fun sr r =>
                timesOf (Engine.beats s) r = SavedRegion.markedBeats sr
                /\ savedTempo (TempoRegion.tempo r) = SavedRegion.tempo sr
                /\ TempoRegion.offbeatsMarked r = SavedRegion.offbeatsMarked sr)
             saved (Engine.regions s).
Proof.
  intros H. destruct (Annotate_steps _ _ _ _ H) as (loaded & s0 & El & Ho).
  cbv zeta in Ho.
  destruct (loadRegions_Ret _ _ _ _ _ _ El) as (Hchk & _ & _ & _ & HF & _).
  split; [exact Hchk|].
  apply onRegionsChanged_frame in Ho. destruct Ho as (HR & HB & _).
  unfold reassignRegionIndices in HR, HB.
  set (s1 := Engine.set_userBeatsById _ _) in *.
  destruct (reassignFrom 0 (Engine.regions s1) (Engine.beats s1)) as [rs h] eqn:Er.
  destruct (reassignFrom_spec _ _ _ _ _ Er) as [HFr Ht].
  change (Engine.regions s1) with loaded in HFr.
  change (Engine.beats s1) with (Engine.beats s0) in Ht.
  simpl in HR, HB.
  assert (HF1 : Forall2 (fun sr r =>
                  timesOf (Engine.beats s0) r = SavedRegion.markedBeats sr
                  /\ savedTempo (TempoRegion.tempo r) = SavedRegion.tempo sr
                  /\ TempoRegion.offbeatsMarked r = SavedRegion.offbeatsMarked sr)
               saved loaded).
  { eapply Forall2_impl; [exact HF|]. intros sr r (Htempo & Hoff & Hlen & Hb & _).
    split; [|split; [|exact Hoff]].
    - unfold timesOf. apply list_eq. intros i. rewrite list_lookup_fmap.
      destruct (TempoRegion.userBeats r !! i) as [a|] eqn:Ea; simpl.
      + destruct (Hb i a Ea) as (t & Hti & Hbt). rewrite Hti.
        unfold timeAt, beatAt. rewrite Hbt. reflexivity.
      + symmetry. apply lookup_ge_None. apply lookup_ge_None in Ea. lia.
    - rewrite Htempo. destruct (SavedRegion.tempo sr); reflexivity. }
  clear - HF1 HFr HR HB Ht. revert HR. generalize (Engine.regions s). intros rs3 HR.
  revert rs rs3 HFr HR.
  induction HF1 as [|sr r saved' loaded' (H1 & H2 & H3) _ IH]; intros rs rs3 HFr HR.
  - inversion HFr; subst. inversion HR; subst. constructor.
  - inversion HFr as [|? r' ? rs' Hr' HFr']; subst.
    inversion HR as [|? r3 ? rs3' [Hr3 Hk] HR']; subst.
    constructor; [|eapply IH; eauto].
    split; [|split].
    + rewrite (sameBeats_timesOf h (Engine.beats s) r3 HB), <- H1.
      unfold timesOf. rewrite Hr3, Hr'. simpl. apply map_ext. exact Ht.
    + rewrite <- H2. rewrite Hr' in Hk. simpl in Hk.
      destruct (TempoRegion.tempo r), (TempoRegion.tempo r3);
        simpl in *; try contradiction; congruence.
    + rewrite <- H3, Hr3, Hr'. reflexivity.
Qed.

(** The constructor returns an engine only for a [SaveObject] in which
    every region has a beat, starts before the region after it starts
    (before the track duration for the last region) and has beat times
    that do not descend; the engine then has one region for every saved
    one, with the saved beat times, tempo type, bpm and [offbeatsMarked]. *)
Theorem Annotate_returns_only_checked (saved : SaveObject) :
  forall s, Annotate duration numberToString (Some saved) = Ret s ->
    checkedByLoader duration saved = true
    /\ Forall2 (fun sr r =>
                  timesOf (Engine.beats s) r = SavedRegion.markedBeats sr
                  /\ savedTempo (TempoRegion.tempo r) = SavedRegion.tempo sr
                  /\ TempoRegion.offbeatsMarked r = SavedRegion.offbeatsMarked sr)
               saved (Engine.regions s).
Proof. intros s. apply Annotate_regions. Qed.

(** Loading a [SaveObject] and saving the engine at once gives the object
    back, region by region, with every beat time rounded to six places:
    same tempo type and bpm, same [offbeatsMarked]. *)
Theorem load_then_save (saved j : SaveObject) (s s1 : Engine.t) :
  Annotate duration numberToString (Some saved) = Ret s ->
  save s = Ret (j, s1) ->
  Forall2 (fun sr jr =>
             SavedRegion.markedBeats jr = List.map roundTime (SavedRegion.markedBeats sr)
             /\ SavedRegion.tempo jr = SavedRegion.tempo sr
             /\ SavedRegion.offbeatsMarked jr = SavedRegion.offbeatsMarked sr)
          saved j.
Proof.
  intros Ha Hs. destruct (Annotate_regions _ _ Ha) as [_ HF].
  unfold save, saveState in Hs.
  destruct (saveRegions (Engine.beats s) (Engine.regions s)) as [j'| | |] eqn:Ej;
    try discriminate.
  revert Hs. ret. intros [= <- <-].
  apply saveRegions_spec in Ej. revert Ej. generalize (Engine.regions s) HF. clear.
  intros rs HF. revert j'. induction HF as [|sr r saved rs (H1 & H2 & H3) _ IH]; intros j' Ej.
  - inversion Ej. constructor.
  - inversion Ej as [|? jr ? j'' (J1 & J2 & J3) Ej']; subst. constructor; [|apply IH; exact Ej'].
    split; [rewrite J1, H1; reflexivity|]. split; congruence.
Qed.

End Accepted.

Lemma Annotate_returns_only_checked_witness :
  exists s,
    Annotate 10 decimalString
             (Some [SavedRegion.mk false saved_tapped [1; 2; 3] [];
                    SavedRegion.mk true (saved_fixed 90) [5; 6] []]) = Ret s
    /\ checkedByLoader 10 [SavedRegion.mk false saved_tapped [1; 2; 3] [];
                           SavedRegion.mk true (saved_fixed 90) [5; 6] []] = true
    /\ Forall2 (fun sr r =>
                  timesOf (Engine.beats s) r = SavedRegion.markedBeats sr
                  /\ savedTempo (TempoRegion.tempo r) = SavedRegion.tempo sr
                  /\ TempoRegion.offbeatsMarked r = SavedRegion.offbeatsMarked sr)
               [SavedRegion.mk false saved_tapped [1; 2; 3] [];
                SavedRegion.mk true (saved_fixed 90) [5; 6] []] (Engine.regions s).
Proof.
  eexists. split; [vm_compute; reflexivity|].
  apply (Annotate_returns_only_checked 10 decimalString). vm_compute. reflexivity.
Defined.

Lemma load_then_save_witness :
  exists s j s1,
    Annotate 10 decimalString
             (Some [SavedRegion.mk false saved_tapped [1; 2; 3] [];
                    SavedRegion.mk true (saved_fixed 90) [5; 6] []]) = Ret s
    /\ save s = Ret (j, s1)
    /\ Forall2 (fun sr jr =>
                  SavedRegion.markedBeats jr = List.map roundTime (SavedRegion.markedBeats sr)
                  /\ SavedRegion.tempo jr = SavedRegion.tempo sr
                  /\ SavedRegion.offbeatsMarked jr = SavedRegion.offbeatsMarked sr)
               [SavedRegion.mk false saved_tapped [1; 2; 3] [];
                SavedRegion.mk true (saved_fixed 90) [5; 6] []] j.
Proof.
  eexists. eexists. eexists.
  split; [vm_compute; reflexivity|]. split; [vm_compute; reflexivity|].
  eapply (load_then_save 10 decimalString); vm_compute; reflexivity.
Defined.

(** ** The invariant under the other calls *)

Lemma contiguousTo_intro (final : Q) (rs : list TempoRegion.t) :
  (forall p r r', rs !! p = Some r -> rs !! S p = Some r' ->
                  TempoRegion.endTime r == TempoRegion.startTime r') ->
  (forall r, last rs = Some r -> TempoRegion.endTime r == final) ->
  contiguousTo final rs.
Proof.
  induction rs as [|x rs IH]; intros Hn Hl; simpl; [exact I|]. split.
  - destruct rs as [|y rs]; [apply Hl; reflexivity|]. apply (Hn 0%nat x y); reflexivity.
  - apply IH.
    + intros p r r' Hp Hp'. apply (Hn (S p) r r'); assumption.
    + intros r Hr. apply Hl. destruct rs; [discriminate | exact Hr].
Qed.

Lemma anchored_tail_lookup (h : gmap nat UserBeat.t) (rs : list TempoRegion.t) :
  Forall (anchored h) (tail rs)
  <-> forall p r, (0 < p)%nat -> rs !! p = Some r -> anchored h r.
Proof.
  rewrite Forall_lookup. split.
  - intros H p r Hp Hr. destruct p as [|p]; [lia|]. apply (H p). rewrite lookup_tail. exact Hr.
  - intros H p r Hr. rewrite lookup_tail in Hr. apply (H (S p)); [lia | exact Hr].
Qed.

Lemma heldBeats_same (rs rs' : list TempoRegion.t) :
  Forall2 (fun r r' => TempoRegion.userBeats r' = TempoRegion.userBeats r) rs rs' ->
  heldBeats rs' = heldBeats rs.
Proof. induction 1 as [|r r' rs rs' Hr _ IH]; simpl; [reflexivity|]. rewrite Hr, IH. reflexivity. Qed.

Lemma NoDup_app_disjoint {A : Type} (l1 l2 : list A) (x : A) :
  NoDup (l1 ++ l2) -> x ∈ l1 -> x ∈ l2 -> False.
Proof. intros H H1 H2. apply NoDup_app in H. destruct H as (_ & H & _). exact (H x H1 H2). Qed.

(** A beat that is held is held once. *)
Lemma held_unique (rs : list TempoRegion.t) (p q i j a : nat) (r r' : TempoRegion.t) :
  NoDup (heldBeats rs) ->
  rs !! p = Some r -> TempoRegion.userBeats r !! i = Some a ->
  rs !! q = Some r' -> TempoRegion.userBeats r' !! j = Some a ->
  p = q /\ i = j.
Proof.
  revert p q. induction rs as [|x rs IH]; intros p q Hnd Hp Hi Hq Hj; [discriminate|].
  simpl in Hnd. pose proof Hnd as Hnd'. apply NoDup_app in Hnd'.
  destruct Hnd' as (Hx & _ & Hrs).
  destruct p as [|p], q as [|q]; simpl in Hp, Hq.
  - injection Hp as <-. injection Hq as <-. split; [reflexivity|].
    exact (NoDup_lookup _ _ _ _ Hx Hi Hj).
  - injection Hp as <-. exfalso. eapply (NoDup_app_disjoint _ _ a Hnd).
    + eapply list_elem_of_lookup_2; eauto.
    + eapply heldBeats_lookup; [exact Hq|]. eapply list_elem_of_lookup_2; eauto.
  - injection Hq as <-. exfalso. eapply (NoDup_app_disjoint _ _ a Hnd).
    + eapply list_elem_of_lookup_2; eauto.
    + eapply heldBeats_lookup; [exact Hp|]. eapply list_elem_of_lookup_2; eauto.
  - destruct (IH p q Hrs Hp Hi Hq Hj) as [-> ->]. split; reflexivity.
Qed.

Lemma beatAt_alter_time (h : gmap nat UserBeat.t) (a b : nat) (c : Q) :
  beatAt (alter (fun x => UserBeat.set_time x c) a h) b
  = if decide (a = b) then
      match h !! a with
      | Some x => UserBeat.set_time x c
      | None => beatAt h b
      end
    else beatAt h b.
Proof.
  unfold beatAt. destruct (decide (a = b)) as [<- | Hne].
  - rewrite lookup_alter_eq. destruct (h !! a); reflexivity.
  - rewrite lookup_alter_ne by exact Hne. reflexivity.
Qed.

(** Moving the beat at position [j] of the region at position [q] to the
    time [c]; when it is the region's first beat the region starts at [c]
    and the region before it ends there. *)
Lemma move_Inv (duration : Q) (s t : Engine.t) (q j a : nat) (c : Q) (cont : TempoRegion.t) :
  Inv duration s ->
  Engine.regions s !! q = Some cont ->
  TempoRegion.userBeats cont !! j = Some a ->
  length (Engine.regions t) = length (Engine.regions s) ->
  (forall p r', Engine.regions t !! p = Some r' ->
     exists r, Engine.regions s !! p = Some r
               /\ TempoRegion.index r' = TempoRegion.index r
               /\ TempoRegion.userBeats r' = TempoRegion.userBeats r
               /\ TempoRegion.startTime r'
                  = (if decide (p = q /\ j = 0%nat) then c else TempoRegion.startTime r)
               /\ TempoRegion.endTime r'
                  = (if decide (S p = q /\ j = 0%nat) then c else TempoRegion.endTime r)) ->
  Engine.beats t = alter (fun b => UserBeat.set_time b c) a (Engine.beats s) ->
  Engine.userBeatsById t = Engine.userBeatsById s ->
  Engine.nextUserBeatId t = Engine.nextUserBeatId s ->
  Inv duration t.
Proof.
  intros Hinv Hq Hj Hlen Hrel Hbeats Hmap Hnext.
  destruct Hinv as [Hindex Hrindex Halloc Hknown Hnodup Hchain Hanch].
  assert (Hheld : heldBeats (Engine.regions t) = heldBeats (Engine.regions s)).
  { apply heldBeats_same. apply Forall2_same_length_lookup_2; [symmetry; exact Hlen|].
    intros p r r' Hr Hr'. destruct (Hrel p r' Hr') as (r0 & Hr0 & _ & Hub & _). congruence. }
  assert (Hqlt : (q < length (Engine.regions s))%nat) by (eapply lookup_lt_Some; exact Hq).
  constructor.
  - intros p r' Hp. destruct (Hrel p r' Hp) as (r & Hr & Hi & _). rewrite Hi. eauto.
  - intros p r' b Hp Hb. destruct (Hrel p r' Hp) as (r & Hr & _ & Hub & _).
    rewrite Hub in Hb. rewrite Hbeats, beatAt_alter_time.
    destruct (decide (a = b)) as [<- | Hne]; [|eauto].
    specialize (Hrindex p r a Hr Hb). unfold beatAt in Hrindex.
    destruct (Engine.beats s !! a) as [x|] eqn:Ex; [exact Hrindex|].
    unfold beatAt. rewrite Ex. exact Hrindex.
  - rewrite Hheld, Hbeats. intros b Hb. destruct (Halloc b Hb) as (x & Hx & Hid).
    destruct (decide (a = b)) as [<- | Hne].
    + rewrite lookup_alter_eq, Hx. simpl. eexists. split; [reflexivity | exact Hid].
    + rewrite lookup_alter_ne by exact Hne. eauto.
  - rewrite Hheld, Hmap, Hnext. exact Hknown.
  - rewrite Hheld. exact Hnodup.
  - apply contiguousTo_intro.
    + intros p r1' r2' H1 H2.
      destruct (Hrel p r1' H1) as (r1 & Hr1 & _ & _ & _ & He).
      destruct (Hrel (S p) r2' H2) as (r2 & Hr2 & _ & _ & Hs & _).
      rewrite He, Hs.
      destruct (decide (S p = q /\ j = 0%nat)) as [Hd|Hd]; [reflexivity|].
      eapply contiguousTo_lookup; eauto.
    + intros r' Hl. rewrite last_lookup in Hl.
      destruct (Hrel _ r' Hl) as (r & Hr & _ & _ & _ & He). rewrite He.
      destruct (decide _) as [[Hd _]|_]; [rewrite Hlen in Hd; lia|].
      apply (contiguousTo_last duration (Engine.regions s)); [exact Hchain|].
      rewrite last_lookup, <- Hlen. exact Hr.
  - apply anchored_tail_lookup. intros p r' Hp Hr'.
    destruct (Hrel p r' Hr') as (r & Hr & _ & Hub & Hs & _).
    rewrite anchored_tail_lookup in Hanch. specialize (Hanch p r Hp Hr).
    unfold anchored in Hanch |- *. rewrite Hub, Hs.
    destruct (TempoRegion.userBeats r) as [|f rest] eqn:Ef; [contradiction|].
    destruct Hanch as [Ht Hst]. unfold timeAt in *. rewrite Hbeats, beatAt_alter_time.
    destruct (decide (a = f)) as [<- | Hne].
    + destruct (held_unique (Engine.regions s) p q 0 j a r cont Hnodup Hr) as [-> <-];
        [rewrite Ef; reflexivity | exact Hq | exact Hj |].
      destruct (decide _) as [_|Hn]; [|exfalso; apply Hn; split; reflexivity].
      destruct (Halloc a) as (x & Hx & _).
      { eapply heldBeats_lookup; [exact Hr|]. rewrite Ef. left. }
      rewrite Hx. unfold beatAt in Ht. rewrite Hx in Ht. simpl in Ht. simpl.
      split; [exact Ht | reflexivity].
    + destruct (decide _) as [[-> ->]|_]; [|split; assumption].
      exfalso. apply Hne. rewrite Hq in Hr. injection Hr as <-. rewrite Ef in Hj.
      simpl in Hj. congruence.
Qed.

Lemma moved_regions_rel (rs : list TempoRegion.t) (q : nat) (cont : TempoRegion.t) (c : Q) :
  rs !! q = Some cont ->
  let rs1 := <[q := TempoRegion.set_startTime cont c]> rs in
  let rs' := match (if (0 <? q)%nat then rs !! (q - 1)%nat else None) with
             | Some prev => <[(q - 1)%nat := TempoRegion.set_endTime prev c]> rs1
             | None => rs1
             end in
  length rs' = length rs
  /\ forall p r', rs' !! p = Some r' ->
       exists r, rs !! p = Some r
                 /\ TempoRegion.index r' = TempoRegion.index r
                 /\ TempoRegion.userBeats r' = TempoRegion.userBeats r
                 /\ TempoRegion.startTime r'
                    = (if decide (p = q) then c else TempoRegion.startTime r)
                 /\ TempoRegion.endTime r'
                    = (if decide (S p = q) then c else TempoRegion.endTime r).
Proof.
  intros Hq rs1 rs'.
  assert (Hqlt : (q < length rs)%nat) by (eapply lookup_lt_Some; exact Hq).
  assert (H1 : forall p r', rs1 !! p = Some r' ->
             exists r, rs !! p = Some r
                       /\ TempoRegion.index r' = TempoRegion.index r
                       /\ TempoRegion.userBeats r' = TempoRegion.userBeats r
                       /\ TempoRegion.startTime r'
                          = (if decide (p = q) then c else TempoRegion.startTime r)
                       /\ TempoRegion.endTime r' = TempoRegion.endTime r).
  { intros p r' Hp. unfold rs1 in Hp. destruct (decide (p = q)) as [-> | Hne].
    - rewrite list_lookup_insert_eq in Hp by exact Hqlt. injection Hp as <-.
      exists cont. repeat split. exact Hq.
    - rewrite list_lookup_insert_ne in Hp by congruence. exists r'. repeat split. exact Hp. }
  assert (Hlen1 : length rs1 = length rs) by (unfold rs1; apply length_insert).
  unfold rs'. destruct (0 <? q)%nat eqn:E0.
  - apply Nat.ltb_lt in E0. destruct (rs !! (q - 1)%nat) as [prev|] eqn:Hprev.
    + split; [rewrite length_insert; exact Hlen1|].
      intros p r' Hp. destruct (decide (p = (q - 1)%nat)) as [-> | Hne].
      * rewrite list_lookup_insert_eq in Hp by lia. injection Hp as <-.
        exists prev. split; [exact Hprev|]. simpl.
        destruct (decide ((q - 1)%nat = q)); [lia|].
        destruct (decide (S (q - 1) = q)); [|lia]. repeat split.
      * rewrite list_lookup_insert_ne in Hp by congruence.
        destruct (H1 p r' Hp) as (r & Hr & Hi & Hub & Hs & He).
        exists r. destruct (decide (S p = q)); [lia|]. repeat split; assumption.
    + apply lookup_ge_None in Hprev. lia.
  - apply Nat.ltb_ge in E0. split; [exact Hlen1|].
    intros p r' Hp. destruct (H1 p r' Hp) as (r & Hr & Hi & Hub & Hs & He).
    exists r. destruct (decide (S p = q)); [lia|]. repeat split; assumption.
Qed.

Section MovePoint.

Variable duration : Q.
Variable numberToString : Q -> string.

(** [tryMovePoint] of the id of a beat that some region holds, when it
    returns, keeps the invariant. *)
Lemma tryMovePoint_Inv (id : nat) (toTime : Q) (what : Phase) (s s' : Engine.t) (c : Q) :
  Inv duration s -> liveId s id ->
  tryMovePoint duration numberToString id toTime what s = Ret (c, s') ->
  Inv duration s'.
Proof.
  intros Hinv Hlive.
  destruct (inv_known _ _ Hinv id Hlive) as [_ Hmap].
  destruct (inv_alloc _ _ Hinv id Hlive) as (b & Hb & Hbid).
  destruct (heldBeats_elem _ _ Hlive) as (q & cont & Hq & Hin).
  pose proof (inv_regionIndex _ _ Hinv q cont id Hq Hin) as Hri.
  unfold tryMovePoint, beatById. rewrite Hmap. ret.
  rewrite Hri, Hq. clear Hri.
  set (ub := TempoRegion.userBeats cont) in *.
  set (fi := findIndex _ ub).
  assert (Hfi : (0 <= fi)%Z).
  { apply (findIndex_exists _ ub id Hin). unfold beatAt. rewrite Hb. simpl.
    rewrite Hbid. apply Nat.eqb_refl. }
  destruct (findIndex_found _ ub Hfi) as (x & Hx & Hpx). fold fi in Hx.
  assert (x = id) as ->.
  { apply Nat.eqb_eq in Hpx. revert Hpx. unfold beatAt at 2. rewrite Hb. simpl.
    rewrite Hbid. intros <-.
    destruct (inv_alloc _ _ Hinv x) as (bx & Hbx & Hbxid).
    - eapply heldBeats_lookup; [exact Hq|]. eapply list_elem_of_lookup_2. exact Hx.
    - unfold beatAt. rewrite Hbx. simpl. symmetry. exact Hbxid. }
  match goal with
  | |- match ?m with _ => _ end = _ -> _ => destruct m as [c1| | |]; try discriminate
  end.
  set (cl := if (_ && _)%bool then Qmin c1 duration else c1).
  set (t := Engine.set_beats _ _).
  assert (Ht : Inv duration t).
  { assert (Hrel : length (Engine.regions t) = length (Engine.regions s)
                   /\ forall p r', Engine.regions t !! p = Some r' ->
                        exists r, Engine.regions s !! p = Some r
                          /\ TempoRegion.index r' = TempoRegion.index r
                          /\ TempoRegion.userBeats r' = TempoRegion.userBeats r
                          /\ TempoRegion.startTime r'
                             = (if decide (p = q /\ Z.to_nat fi = 0%nat) then cl
                                else TempoRegion.startTime r)
                          /\ TempoRegion.endTime r'
                             = (if decide (S p = q /\ Z.to_nat fi = 0%nat) then cl
                                else TempoRegion.endTime r)).
    { unfold t. simpl Engine.regions. destruct (fi =? 0)%Z eqn:E0.
      - apply Z.eqb_eq in E0. rewrite E0. simpl Z.to_nat.
        destruct (moved_regions_rel (Engine.regions s) q cont cl Hq) as [Hl Hr].
        cbv zeta in Hl, Hr. split; [exact Hl|].
        intros p r' Hp. destruct (Hr p r' Hp) as (r & H1 & H2 & H3 & H4 & H5).
        exists r. split; [exact H1|]. split; [exact H2|]. split; [exact H3|].
        rewrite H4, H5. split.
        + destruct (decide (p = q)), (decide (p = q /\ _));
            try reflexivity; exfalso; simpl in *; intuition congruence.
        + destruct (decide (S p = q)), (decide (S p = q /\ _));
            try reflexivity; exfalso; simpl in *; intuition congruence.
      - apply Z.eqb_neq in E0. split; [reflexivity|].
        intros p r' Hp. exists r'.
        destruct (decide (p = q /\ Z.to_nat fi = 0%nat)); [lia|].
        destruct (decide (S p = q /\ Z.to_nat fi = 0%nat)); [lia|].
        repeat split. exact Hp. }
    destruct Hrel as [Hlen Hrel].
    eapply (move_Inv duration s t q (Z.to_nat fi) id cl cont Hinv Hq Hx Hlen Hrel);
      reflexivity. }
  clearbody t. destruct what.
  - intros [= <- <-]. exact Ht.
  - intros [= <- <-]. exact Ht.
  - destruct (onRegionsChanged duration numberToString t [q] true) as [s2| | |] eqn:Eo;
      try discriminate.
    intros [= <- <-]. eapply Inv_same; [eapply onRegionsChanged_frame; exact Eo | exact Ht].
Qed.

End MovePoint.

Lemma retempo_Inv (duration : Q) (s : Engine.t) (p : nat) (r : TempoRegion.t) (x : Tempo) :
  Inv duration s ->
  Engine.regions s !! p = Some r ->
  Inv duration (Engine.set_regions s (<[p := TempoRegion.set_tempo r x]> (Engine.regions s))).
Proof.
  intros Hinv Hp.
  assert (Hplt : (p < length (Engine.regions s))%nat) by (eapply lookup_lt_Some; exact Hp).
  assert (Hlk : forall k r', (<[p := TempoRegion.set_tempo r x]> (Engine.regions s)) !! k = Some r' ->
            exists r0, Engine.regions s !! k = Some r0
                       /\ TempoRegion.index r' = TempoRegion.index r0
                       /\ coreRegion r0 r').
  { intros k r' Hk. destruct (decide (p = k)) as [<- | Hne].
    - rewrite list_lookup_insert_eq in Hk by exact Hplt. injection Hk as <-.
      exists r. repeat split. exact Hp.
    - rewrite list_lookup_insert_ne in Hk by exact Hne. exists r'. repeat split. exact Hk. }
  assert (Hcore : coreEq s (Engine.set_regions s
                              (<[p := TempoRegion.set_tempo r x]> (Engine.regions s)))).
  { split; [|split; [|split; reflexivity]].
    - apply Forall2_same_length_lookup_2; [simpl; rewrite length_insert; reflexivity|].
      intros k r0 r' H0 Hk. destruct (Hlk k r' Hk) as (r1 & H1 & _ & Hc). congruence.
    - intros a. simpl. destruct (Engine.beats s !! a); constructor. repeat split. }
  destruct (Pre_core duration _ _ Hcore (Inv_Pre duration s Hinv))
    as [Halloc Hknown Hnodup Hchain Hanch].
  destruct Hinv as [Hidx Hri _ _ _ _ _].
  constructor; try assumption.
  - intros k r' Hk. destruct (Hlk k r' Hk) as (r0 & H0 & Hi & _). rewrite Hi. eauto.
  - intros k r' a Hk Ha. destruct (Hlk k r' Hk) as (r0 & H0 & _ & (Hub & _)).
    rewrite Hub in Ha. simpl. eauto.
Qed.

Section Serve.

Variable duration : Q.
Variable numberToString : Q -> string.

Lemma findRegion_Some (s : Engine.t) (id p : nat) (r : TempoRegion.t) :
  findRegion s id = Some (p, r) ->
  Engine.regions s !! p = Some r /\ TempoRegion.id r = id.
Proof.
  unfold findRegion. intros H. apply list_find_Some in H.
  destruct H as (H1 & H2 & _). split; assumption.
Qed.

Lemma setRegionType_Inv (regionId : nat) (type : TempoType) (s s' : Engine.t) :
  Inv duration s ->
  setRegionType duration numberToString regionId type s = Ret s' ->
  Inv duration s'.
Proof.
  intros Hinv. unfold setRegionType.
  destruct (findRegion s regionId) as [[p region]|] eqn:Ef; [|discriminate].
  apply findRegion_Some in Ef. destruct Ef as [Hp _].
  destruct type, (TempoRegion.tempo region) as [value|bpm0 ph0].
  - match goal with |- mbind _ ?m = _ -> _ => destruct m as [bpm| | |] end;
      try discriminate.
    ret. intros Ho. apply onRegionsChanged_frame in Ho.
    eapply Inv_same; [exact Ho|]. apply retempo_Inv; assumption.
  - ret. intros [= <-]. exact Hinv.
  - ret. intros [= <-]. exact Hinv.
  - intros Ho. apply onRegionsChanged_frame in Ho.
    eapply Inv_same; [exact Ho|]. apply retempo_Inv; assumption.
Qed.

Lemma setRegionFixedTempo_Inv (regionId : nat) (bpm : Q) (s s' : Engine.t) :
  Inv duration s ->
  setRegionFixedTempo duration numberToString regionId bpm s = Ret s' ->
  Inv duration s'.
Proof.
  intros Hinv. unfold setRegionFixedTempo.
  destruct (findRegion s regionId) as [[p region]|] eqn:Ef; [|discriminate].
  apply findRegion_Some in Ef. destruct Ef as [Hp _].
  destruct (TempoRegion.tempo region) as [value|bpm0 ph0].
  - ret. intros [= <-]. exact Hinv.
  - intros Ho. apply onRegionsChanged_frame in Ho.
    eapply Inv_same; [exact Ho|]. apply retempo_Inv; assumption.
Qed.

Lemma selectRegion_Inv (id : option nat) (s : Engine.t) :
  Inv duration s -> Inv duration (selectRegion id s).
Proof.
  intros Hinv. unfold selectRegion. destruct id as [i|]; [|apply Inv_selected; exact Hinv].
  destruct (findRegion s i); [apply Inv_selected|]; exact Hinv.
Qed.

Lemma serve_Inv (r : Request) (s s' : Engine.t) :
  Inv duration s -> admissible s r ->
  serve duration numberToString r s = Ret s' ->
  Inv duration s'.
Proof.
  intros Hinv Hadm. destruct r as [time tc|id|id toTime what|rid bpm|rid type|v| |id]; simpl.
  - destruct (addPoint duration numberToString time tc s) as [[ret s1]| | |] eqn:E;
      try discriminate.
    ret. intros [= <-]. eapply addPoint_Inv; eauto.
  - intros H. eapply deletePoint_Inv; eauto.
  - destruct (tryMovePoint duration numberToString id toTime what s) as [[c s1]| | |] eqn:E;
      try discriminate.
    ret. intros [= <-]. eapply tryMovePoint_Inv; eauto.
  - apply setRegionFixedTempo_Inv. exact Hinv.
  - apply setRegionType_Inv. exact Hinv.
  - unfold setViewport. destruct (_ && _)%bool.
    + ret. intros [= <-]. exact Hinv.
    + intros H. apply drawAutopoints_frame in H. eapply Inv_same; [exact H|].
      destruct Hinv. constructor; assumption.
  - unfold save. destruct (saveState s) as [[j s1]| | |] eqn:E; try discriminate.
    ret. intros [= <-]. apply saveState_frame in E. eapply Inv_same; eauto.
  - ret. intros [= <-]. apply selectRegion_Inv. exact Hinv.
Qed.

Lemma session_Inv (loadSaved : option SaveObject) (s : Engine.t) :
  session duration numberToString loadSaved s -> Inv duration s.
Proof.
  induction 1 as [s H|s s' r _ IH Hadm Hs].
  - eapply Annotate_Inv; eauto.
  - eapply serve_Inv; eauto.
Qed.

End Serve.


(** One request of a concrete session; [before] builds the session so far. *)
Ltac serve_step req before :=
  eapply session_serve with (r := req);
  [ before | try exact I; vm_compute; repeat constructor | vm_compute; reflexivity ].

Ltac serve_new := apply session_new; vm_compute; reflexivity.


(** ** The region list and the selection under any requests *)













Section ShapeKept.

Variable duration : Q.
Variable numberToString : Q -> string.


End ShapeKept.




Section ShapeKept2.

Variable duration : Q.
Variable numberToString : Q -> string.



End ShapeKept2.

Section ShapeKept3.

Variable duration : Q.
Variable numberToString : Q -> string.








End ShapeKept3.





(** ** What throws *)

Lemma noThrow_ret {A : Type} (a : A) : noThrow (Ret a).
Proof. intros e. discriminate. Qed.

Lemma noThrow_bind {A B : Type} (m : result A) (k : A -> result B) :
  noThrow m -> (forall a, noThrow (k a)) -> noThrow (m ≫= k).
Proof.
  intros Hm Hk e. destruct m as [a| e' | |]; ret; try discriminate.
  - apply Hk.
  - exfalso. apply (Hm e'). reflexivity.
Qed.

Lemma noThrow_qdiv (a b : Q) : noThrow (qdiv a b).
Proof. intros e. unfold qdiv. destruct (Qeq_bool b 0); discriminate. Qed.

Lemma noThrow_timesFrom (t upTo step : Q) : noThrow (timesFrom t upTo step).
Proof.
  intros e. unfold timesFrom. destruct (Qlt_bool t upTo); [|discriminate].
  destruct (Qlt_bool 0 step); [|discriminate].
  destruct (forTimes _ _ _ _); discriminate.
Qed.

Ltac nothrow :=
  repeat first
    [ apply noThrow_ret | apply noThrow_qdiv | apply noThrow_timesFrom
    | apply noThrow_bind; [|intros ?] ].

Section NoThrow.

Variable duration : Q.
Variable numberToString : Q -> string.

Lemma noThrow_countPeriods (est : Q) (ds : list Q) : noThrow (countPeriods est ds).
Proof.
  induction ds as [|d ds IH]; simpl; [apply noThrow_ret|].
  unfold periodsOf. nothrow. exact IH.
Qed.

Lemma noThrow_squaredErrors (est meanBpm : Q) (ds : list Q) :
  noThrow (squaredErrors est meanBpm ds).
Proof.
  induction ds as [|d ds IH]; simpl; [apply noThrow_ret|].
  unfold periodsOf. nothrow. exact IH.
Qed.

Lemma noThrow_recomputeTempo (times : list Q) : noThrow (recomputeTempo numberToString times).
Proof.
  unfold recomputeTempo. destruct times as [|t0 [|t1 times]]; try apply noThrow_ret.
  unfold initialEstimate, meanPeriodOf, varianceOf. nothrow.
  - apply noThrow_countPeriods.
  - apply noThrow_squaredErrors.
Qed.

Lemma noThrow_periodsBetween (onePeriod prev : Q) (times : list Q) :
  noThrow (periodsBetween onePeriod prev times).
Proof.
  revert prev. induction times as [|x times IH]; intros prev; simpl; [apply noThrow_ret|].
  nothrow. apply IH.
Qed.

Lemma noThrow_localBeatPeriods (value : option (Q * Q)) (times : list Q) :
  noThrow (localBeatPeriods value times).
Proof.
  unfold localBeatPeriods. destruct value as [[p sd]|]; [|apply noThrow_ret].
  destruct times; nothrow. apply noThrow_periodsBetween.
Qed.

Lemma noThrow_phaseErrors (period startTime : Q) (times : list Q) :
  noThrow (phaseErrors period startTime times).
Proof.
  induction times as [|x times IH]; simpl; [apply noThrow_ret|]. nothrow. exact IH.
Qed.

Lemma noThrow_recomputePhaseOffset (bpm startTime : Q) (times : list Q) :
  noThrow (recomputePhaseOffset bpm startTime times).
Proof.
  unfold recomputePhaseOffset. destruct times as [|t0 [|t1 times]]; try apply noThrow_ret.
  nothrow. apply noThrow_phaseErrors.
Qed.

Lemma noThrow_recomputeRegion (s : Engine.t) (p : nat) :
  noThrow (recomputeRegion numberToString s p).
Proof.
  unfold recomputeRegion. destruct (Engine.regions s !! p) as [region|]; [|apply noThrow_ret].
  destruct (TempoRegion.tempo region).
  - nothrow; [apply noThrow_recomputeTempo | apply noThrow_localBeatPeriods].
  - nothrow. apply noThrow_recomputePhaseOffset.
Qed.

Lemma noThrow_recomputeRegions (changed : list nat) (s : Engine.t) :
  noThrow (recomputeRegions numberToString s changed).
Proof.
  revert s. induction changed as [|p changed IH]; intros s; simpl; [apply noThrow_ret|].
  apply noThrow_bind; [apply noThrow_recomputeRegion | intros; apply IH].
Qed.

Lemma noThrow_tappedAutoBeats (period endTime : Q) (times : list Q) :
  noThrow (tappedAutoBeats period endTime times).
Proof.
  induction times as [|x times IH]; simpl; [apply noThrow_ret|]. nothrow. exact IH.
Qed.

Lemma noThrow_computeAutoBeats (h : gmap nat UserBeat.t) (r : TempoRegion.t) :
  noThrow (computeAutoBeats h r).
Proof.
  unfold computeAutoBeats. destruct (TempoRegion.tempo r) as [[[p sd]|]|bpm ph].
  - apply noThrow_tappedAutoBeats.
  - apply noThrow_ret.
  - nothrow.
Qed.

Lemma noThrow_projectRegions (vp : Q * Q) (h : gmap nat UserBeat.t)
      (rs : list TempoRegion.t) (n : nat) :
  noThrow (projectRegions duration vp h rs n).
Proof.
  revert n. induction rs as [|r rs IH]; intros n; simpl; [apply noThrow_ret|].
  destruct (inView duration vp r).
  - apply noThrow_bind; [apply noThrow_computeAutoBeats|]. intros l.
    destruct (place _ _ _ _) as [placed n1].
    apply noThrow_bind; [apply IH|]. intros [rs2 n2]. apply noThrow_ret.
  - apply noThrow_bind; [apply IH|]. intros [rs2 n2]. apply noThrow_ret.
Qed.

Lemma noThrow_drawAutopoints (s : Engine.t) : noThrow (drawAutopoints duration s).
Proof.
  unfold drawAutopoints. apply noThrow_bind; [apply noThrow_projectRegions|].
  intros [rs n]. apply noThrow_ret.
Qed.

Lemma noThrow_saveRegions (h : gmap nat UserBeat.t) (rs : list TempoRegion.t) :
  noThrow (saveRegions h rs).
Proof.
  induction rs as [|r rs IH]; simpl; [apply noThrow_ret|].
  unfold saveRegion. nothrow; [apply noThrow_computeAutoBeats | exact IH].
Qed.

Lemma noThrow_saveState (s : Engine.t) : noThrow (saveState s).
Proof. unfold saveState. nothrow. apply noThrow_saveRegions. Qed.

Lemma noThrow_onRegionsChanged (s : Engine.t) (changed : list nat) (doSave : bool) :
  noThrow (onRegionsChanged duration numberToString s changed doSave).
Proof.
  unfold onRegionsChanged. apply noThrow_bind; [apply noThrow_recomputeRegions|]. intros s1.
  apply noThrow_bind; [apply noThrow_drawAutopoints|]. intros s2.
  destruct doSave; [|apply noThrow_ret].
  apply noThrow_bind; [apply noThrow_saveState|]. intros [j s3]. apply noThrow_ret.
Qed.

End NoThrow.

Lemma noThrow_not {A : Type} (m : result A) (e : Error) : noThrow m -> m = Throw e -> False.
Proof. intros H He. exact (H e He). Qed.

Section Throws.

Variable duration : Q.
Variable numberToString : Q -> string.

Lemma deletePoint_throws (id a : nat) (s : Engine.t) (e : Error) :
  Engine.userBeatsById s !! id = Some (Some a) ->
  deletePoint duration numberToString id s = Throw e -> e = TypeError.
Proof.
  intros Hm. unfold deletePoint, beatById. rewrite Hm. ret.
  destruct (Engine.regions s !! _) as [cont|]; [|intros [= <-]; reflexivity].
  destruct (UserBeat.isTempoChange _).
  - destruct (TempoRegion.userBeats cont); [intros [= <-]; reflexivity|].
    destruct (0 <? _)%nat.
    + destruct (Engine.regions s !! _) as [prev|]; [|intros [= <-]; reflexivity].
      intros H. exfalso. eapply noThrow_not; [apply noThrow_onRegionsChanged | exact H].
    + intros H. exfalso. eapply noThrow_not; [apply noThrow_onRegionsChanged | exact H].
  - destruct (splice1 _ _);
      intros H; exfalso; (eapply noThrow_not; [apply noThrow_onRegionsChanged | exact H]).
Qed.

Lemma tryMovePoint_throws (id a : nat) (toTime : Q) (what : Phase) (s : Engine.t) (e : Error) :
  Engine.userBeatsById s !! id = Some (Some a) ->
  tryMovePoint duration numberToString id toTime what s = Throw e -> e = TypeError.
Proof.
  intros Hm. unfold tryMovePoint, beatById. rewrite Hm. ret.
  destruct (Engine.regions s !! _) as [cont|] eqn:Hq; [|intros [= <-]; reflexivity].
  match goal with
  | |- match ?m with _ => _ end = _ -> _ =>
      assert (Hc : forall e', m = Throw e' -> e' = TypeError);
      [|destruct m as [c1|e1| |]; try discriminate]
  end.
  { intros e'.
    match goal with |- (if ?c then _ else _) = _ -> _ => destruct c end.
    - match goal with |- match ?x with _ => _ end = _ -> _ => destruct x end;
        [discriminate | intros [= <-]; reflexivity].
    - match goal with |- (if ?c then _ else _) = _ -> _ => destruct c end; [|discriminate].
      match goal with |- match ?x with _ => _ end = _ -> _ => destruct x as [next|] end;
        [|intros [= <-]; reflexivity].
      destruct (TempoRegion.userBeats next); [intros [= <-]; reflexivity | discriminate]. }
  - destruct what; try discriminate.
    match goal with
    | |- match ?m with _ => _ end = _ -> _ =>
        pose proof (noThrow_onRegionsChanged duration numberToString) as Hn;
        destruct m as [s2|e2| |] eqn:Eo; try discriminate
    end.
    exfalso. eapply noThrow_not; [apply Hn | exact Eo].
  - intros [= <-]. apply Hc. reflexivity.
Qed.

(** [deletePoint] and [tryMovePoint] throw the error of [assertNotNull]
    exactly for an id under which [userBeatsById] holds no beat.  Ids are
    never taken out of that map, so this is the case of an id that was
    never given out. *)
Theorem beat_by_id_is_null_iff (id : nat) (s : Engine.t) :
  let unknown := forall a, Engine.userBeatsById s !! id <> Some (Some a) in
  (deletePoint duration numberToString id s = Throw (AssertNotNull "beat by id is null")
   <-> unknown)
  /\ forall toTime what,
       tryMovePoint duration numberToString id toTime what s
       = Throw (AssertNotNull "beat by id is null")
       <-> unknown.
Proof.
  intros unknown. split; [|intros toTime what]; split.
  - intros H a Ha. apply (deletePoint_throws id a s _ Ha) in H. discriminate.
  - apply deletePoint_unknown_id.
  - intros H a Ha. apply (tryMovePoint_throws id a toTime what s _ Ha) in H. discriminate.
  - intros H. unfold tryMovePoint, beatById.
    destruct (Engine.userBeatsById s !! id) as [[a|]|]; [|reflexivity|reflexivity].
    exfalso. apply (H a). reflexivity.
Qed.

(** [regionById], [setRegionType] and [setRegionFixedTempo] throw exactly
    when no region of the list has the given id, and they throw the error
    of [assertNotNull] then. *)
Theorem region_by_id_is_null_iff (regionId : nat) (s : Engine.t) :
  let unknown := forall r, r ∈ Engine.regions s -> TempoRegion.id r <> regionId in
  ((exists e, regionById regionId s = Throw e) <-> unknown)
  /\ (forall type, (exists e, setRegionType duration numberToString regionId type s = Throw e)
                   <-> unknown)
  /\ (forall bpm, (exists e, setRegionFixedTempo duration numberToString regionId bpm s
                             = Throw e) <-> unknown)
  /\ (unknown ->
      regionById regionId s = Throw (AssertNotNull "region by id is null")
      /\ (forall type, setRegionType duration numberToString regionId type s
                       = Throw (AssertNotNull "region by id is null"))
      /\ (forall bpm, setRegionFixedTempo duration numberToString regionId bpm s
                      = Throw (AssertNotNull "region by id is null"))).
Proof.
  intros unknown.
  assert (Hnone : findRegion s regionId = None <-> unknown).
  { unfold findRegion. rewrite list_find_None, Forall_forall. reflexivity. }
  assert (Hsome : forall p r, findRegion s regionId = Some (p, r) -> ~ unknown).
  { intros p r Hf Hu. apply Hnone in Hu. congruence. }
  split; [|split; [|split]].
  - unfold regionById. destruct (findRegion s regionId) as [[p r]|] eqn:Ef.
    + split; [intros [e He]; discriminate | intros Hu; exfalso; eapply Hsome; eauto].
    + split; [intros _; apply Hnone; reflexivity | eauto].
  - intros type. unfold setRegionType.
    destruct (findRegion s regionId) as [[p r]|] eqn:Ef.
    + split; [|intros Hu; exfalso; eapply Hsome; eauto]. intros [e He]. exfalso.
      revert He. destruct type, (TempoRegion.tempo r) as [v|b ph]; try discriminate.
      * apply noThrow_bind; [|intros; apply noThrow_onRegionsChanged].
        destruct v as [[mp sd]|]; nothrow.
      * apply noThrow_onRegionsChanged.
    + split; [intros _; apply Hnone; reflexivity | eauto].
  - intros bpm. unfold setRegionFixedTempo.
    destruct (findRegion s regionId) as [[p r]|] eqn:Ef.
    + split; [|intros Hu; exfalso; eapply Hsome; eauto]. intros [e He]. exfalso.
      revert He. destruct (TempoRegion.tempo r) as [v|b ph]; try discriminate.
      apply noThrow_onRegionsChanged.
    + split; [intros _; apply Hnone; reflexivity | eauto].
  - intros Hu. apply Hnone in Hu. unfold regionById, setRegionType, setRegionFixedTempo.
    rewrite Hu. repeat split.
Qed.

End Throws.

Section NoCrash.

Variable duration : Q.
Variable numberToString : Q -> string.

Lemma tooClose_obj (h : gmap nat UserBeat.t) (a : nat) (gap : Q -> Q) :
  noThrow (tooClose h (obj a) gap).
Proof. apply noThrow_ret. Qed.

Lemma addPoint_noThrow (time : Q) (isTempoChange : bool) (s : Engine.t) :
  Inv duration s -> noThrow (addPoint duration numberToString time isTempoChange s).
Proof.
  intros Hinv0 e. pose proof (ensureRegion_Inv duration time s Hinv0) as Hinv.
  assert (Hne : Engine.regions (ensureRegion duration time s) <> []).
  { unfold ensureRegion. destruct (Engine.regions s) eqn:E; simpl; [|rewrite E]; discriminate. }
  unfold addPoint. set (s0 := ensureRegion duration time s) in *. clearbody s0. clear Hinv0 s.
  destruct (Engine.regions s0 !! 0%nat) as [region0|] eqn:H0.
  2:{ destruct (Engine.regions s0); [congruence | discriminate]. }
  set (cri := if Qlt_bool time (TempoRegion.startTime region0) then 0%Z else _).
  destruct (cri <? 0)%Z eqn:Ecri; [discriminate|].
  apply Z.ltb_ge in Ecri.
  assert (Hcex : exists cont, Engine.regions s0 !! Z.to_nat cri = Some cont).
  { unfold cri in *. destruct (Qlt_bool time (TempoRegion.startTime region0)); [eauto|].
    match goal with
    | |- exists _, _ !! Z.to_nat (findIndex ?p ?l) = _ =>
        destruct (findIndex_found p l Ecri) as (x & Hx & _)
    end.
    eauto. }
  destruct Hcex as [cont Hc]. rewrite Hc.
  set (c := Z.to_nat cri) in *.
  set (ub := TempoRegion.userBeats cont).
  set (fia := findIndex _ ub).
  set (insertAt := if (0 <=? fia)%Z then Z.to_nat fia else length ub).
  assert (Hstart : (0 < c)%nat -> TempoRegion.startTime cont <= time).
  { intros Hpos. unfold c, cri in Hpos, Hc.
    destruct (Qlt_bool time (TempoRegion.startTime region0)); [simpl in Hpos; lia|].
    match type of Hc with
    | _ !! Z.to_nat (findIndex ?p ?l) = _ =>
        destruct (findIndex_found p l ltac:(lia)) as (x & Hx & Hp)
    end.
    rewrite Hc in Hx. injection Hx as <-.
    apply andb_prop in Hp. destruct Hp as [Hp _]. apply Qle_bool_iff in Hp. exact Hp. }
  assert (Hle : (insertAt <= length ub)%nat).
  { unfold insertAt. pose proof (findIndex_range
      (fun p => Qlt_bool time (timeAt (Engine.beats s0) p)) ub) as Hr. fold fia in Hr.
    destruct (0 <=? fia)%Z; lia. }
  assert (Hpos : (0 < c)%nat -> (0 < insertAt)%nat).
  { intros Hcpos. specialize (Hstart Hcpos).
    pose proof (Forall_tail_lookup _ _ _ _ (inv_anchored _ _ Hinv) Hcpos Hc) as Hanch.
    unfold anchored in Hanch. fold ub in Hanch. unfold insertAt.
    destruct ub as [|a rest] eqn:Eub; [contradiction|]. destruct Hanch as [_ Ha].
    destruct (0 <=? fia)%Z eqn:E; [|simpl; lia]. apply Z.leb_le in E.
    destruct (Z.eq_dec fia 0%Z) as [E0|E0]; [|lia]. exfalso.
    apply findIndex_zero in E0. apply Qlt_bool_iff in E0. rewrite Ha in E0.
    apply (Qlt_not_le _ _ E0 Hstart). }
  assert (Hidx : TempoRegion.index cont = c) by (apply (inv_index _ _ Hinv); exact Hc).
  assert (Hclt : (c < length (Engine.regions s0))%nat) by (eapply lookup_lt_Some; exact Hc).
  rewrite Hidx.
  (* the point after is a beat or null *)
  set (pa := if (insertAt <? length ub)%nat then _ else _).
  assert (Hpa : exists pointAfter, pa = Ret pointAfter /\ pointAfter <> undefined).
  { unfold pa. destruct (insertAt <? length ub)%nat eqn:E1.
    - apply Nat.ltb_lt in E1. destruct (lookup_lt_is_Some_2 ub insertAt E1) as [x Hx].
      exists (obj x). unfold at_. rewrite Hx. split; [reflexivity | discriminate].
    - destruct (c <? length (Engine.regions s0) - 1)%nat eqn:E2.
      + apply Nat.ltb_lt in E2.
        destruct (lookup_lt_is_Some_2 (Engine.regions s0) (c + 1)%nat ltac:(lia)) as [next Hn].
        rewrite Hn.
        pose proof (Forall_tail_lookup _ _ (c + 1)%nat _ (inv_anchored _ _ Hinv) ltac:(lia) Hn)
          as Ha.
        unfold anchored in Ha. destruct (TempoRegion.userBeats next) as [|x rest] eqn:En;
          [contradiction|].
        exists (obj x). unfold at_. simpl. split; [reflexivity | discriminate].
      + exists null. split; [reflexivity | discriminate]. }
  destruct Hpa as (pointAfter & -> & Hpa). ret.
  set (pb := if (0 <? insertAt)%nat then _ else _).
  assert (Hpb : exists pointBefore, pb = Ret pointBefore /\ pointBefore <> undefined).
  { unfold pb. destruct (0 <? insertAt)%nat eqn:E1.
    - apply Nat.ltb_lt in E1.
      destruct (lookup_lt_is_Some_2 ub (insertAt - 1)%nat ltac:(lia)) as [x Hx].
      exists (obj x). unfold at_. rewrite Hx. split; [reflexivity | discriminate].
    - apply Nat.ltb_ge in E1. destruct (0 <? c)%nat eqn:E2.
      + apply Nat.ltb_lt in E2. specialize (Hpos E2). lia.
      + exists null. split; [reflexivity | discriminate]. }
  destruct Hpb as (pointBefore & -> & Hpb). ret.
  assert (Hfin : forall (t : Engine.t) (ch : list nat) (A : Type)
                        (k : Engine.t -> result A),
             (forall x, k x <> Throw e) ->
             match onRegionsChanged duration numberToString t ch true with
             | Ret a => k a
             | Throw e0 => Throw e0
             | Diverge => Diverge
             | NonFinite => NonFinite
             end <> Throw e).
  { intros t ch A k Hk He.
    destruct (onRegionsChanged duration numberToString t ch true) as [x1|e1| |] eqn:Em;
      try discriminate.
    - exact (Hk x1 He).
    - eapply noThrow_not; [apply noThrow_onRegionsChanged | exact Em]. }
  destruct pointAfter as [| |x]; [|congruence|]; cbn [tooClose]; ret.
  - destruct isTempoChange.
    + destruct (negb ((c =? 0)%nat && (insertAt =? 0)%nat)).
      * match goal with
        | |- match ?l !! (c + 1)%nat with _ => _ end <> _ =>
            assert (Hlk : is_Some (l !! (c + 1)%nat));
            [apply lookup_lt_is_Some_2; rewrite length_app; simpl;
             rewrite length_take, length_drop, !length_insert; lia
            | destruct Hlk as [ins Hlk]; rewrite Hlk]
        end.
        apply Hfin. intros; discriminate.
      * apply Hfin. intros; discriminate.
    + destruct pointBefore as [| |y]; [|congruence|]; cbn [tooClose]; ret.
      * apply Hfin. intros; discriminate.
      * match goal with |- (if ?b then _ else _) <> _ => destruct b end; [discriminate|]. apply Hfin. intros; discriminate.
  - match goal with |- (if ?b then _ else _) <> _ => destruct b end; [discriminate|]. destruct isTempoChange.
    + destruct (negb ((c =? 0)%nat && (insertAt =? 0)%nat)).
      * match goal with
        | |- match ?l !! (c + 1)%nat with _ => _ end <> _ =>
            assert (Hlk : is_Some (l !! (c + 1)%nat));
            [apply lookup_lt_is_Some_2; rewrite length_app; simpl;
             rewrite length_take, length_drop, !length_insert; lia
            | destruct Hlk as [ins Hlk]; rewrite Hlk]
        end.
        apply Hfin. intros; discriminate.
      * apply Hfin. intros; discriminate.
    + destruct pointBefore as [| |y]; [|congruence|]; cbn [tooClose]; ret.
      * apply Hfin. intros; discriminate.
      * match goal with |- (if ?b then _ else _) <> _ => destruct b end; [discriminate|]. apply Hfin. intros; discriminate.
Qed.

End NoCrash.

Section NoCrash2.

Variable duration : Q.
Variable numberToString : Q -> string.

Lemma deletePoint_noThrow (id : nat) (s : Engine.t) :
  Inv duration s -> liveId s id -> noThrow (deletePoint duration numberToString id s).
Proof.
  intros Hinv Hlive e He.
  destruct (inv_known _ _ Hinv id Hlive) as [_ Hmap].
  pose proof (deletePoint_throws duration numberToString id id s e Hmap He) as ->.
  destruct (heldBeats_elem _ _ Hlive) as (q & cont & Hq & Hin).
  pose proof (inv_regionIndex _ _ Hinv q cont id Hq Hin) as Hri.
  pose proof (inv_index _ _ Hinv q cont Hq) as Hidx.
  revert He. unfold deletePoint, beatById. rewrite Hmap. ret.
  rewrite Hri, Hq.
  destruct (UserBeat.isTempoChange _).
  - destruct (TempoRegion.userBeats cont) as [|u0 urest] eqn:Eub; [inversion Hin|].
    rewrite Hidx. destruct (0 <? q)%nat eqn:Eq0.
    + apply Nat.ltb_lt in Eq0.
      destruct (lookup_lt_is_Some_2 (Engine.regions s) (q - 1)%nat) as [prev Hp].
      { apply lookup_lt_Some in Hq. lia. }
      rewrite Hp. apply noThrow_onRegionsChanged.
    + apply noThrow_onRegionsChanged.
  - destruct (splice1 _ _); apply noThrow_onRegionsChanged.
Qed.

Lemma tryMovePoint_noThrow (id : nat) (toTime : Q) (what : Phase) (s : Engine.t) :
  Inv duration s -> liveId s id ->
  noThrow (tryMovePoint duration numberToString id toTime what s).
Proof.
  intros Hinv Hlive e He.
  destruct (inv_known _ _ Hinv id Hlive) as [_ Hmap].
  pose proof (tryMovePoint_throws duration numberToString id id toTime what s e Hmap He) as ->.
  destruct (heldBeats_elem _ _ Hlive) as (q & cont & Hq & Hin).
  pose proof (inv_regionIndex _ _ Hinv q cont id Hq Hin) as Hri.
  pose proof (inv_index _ _ Hinv q cont Hq) as Hidx.
  revert He. unfold tryMovePoint, beatById. rewrite Hmap. ret.
  rewrite Hri, Hq, Hidx.
  set (ub := TempoRegion.userBeats cont) in *.
  set (fi := findIndex _ ub).
  pose proof (findIndex_range
                (fun b => (UserBeat.id (beatAt (Engine.beats s) b)
                           =? UserBeat.id (beatAt (Engine.beats s) id))%nat) ub) as Hr.
  fold fi in Hr.
  match goal with
  | |- match ?m with _ => _ end = _ -> _ =>
      assert (Hc : exists c1, m = Ret c1)
  end.
  { destruct (fi <? Z.of_nat (length ub) - 1)%Z eqn:E1.
    - apply Z.ltb_lt in E1.
      destruct (lookup_lt_is_Some_2 ub (Z.to_nat (fi + 1))) as [x Hx]; [lia|].
      rewrite Hx. eauto.
    - destruct (Z.of_nat q <? Z.of_nat (length (Engine.regions s)) - 1)%Z eqn:E2; [|eauto].
      apply Z.ltb_lt in E2.
      destruct (lookup_lt_is_Some_2 (Engine.regions s) (q + 1)%nat) as [next Hn]; [lia|].
      rewrite Hn.
      pose proof (Forall_tail_lookup _ _ (q + 1)%nat _ (inv_anchored _ _ Hinv) ltac:(lia) Hn)
        as Ha.
      unfold anchored in Ha. destruct (TempoRegion.userBeats next); [contradiction | eauto]. }
  destruct Hc as [c1 ->]. destruct what; try discriminate.
  match goal with
  | |- match ?m with _ => _ end = _ -> _ => destruct m as [s2|e2| |] eqn:Eo; try discriminate
  end.
  intros _. eapply noThrow_not; [apply noThrow_onRegionsChanged | exact Eo].
Qed.

End NoCrash2.

(** In a session, a call that names no id at all or the id of a held beat
    does not throw: [addPoint] with any arguments, [deletePoint] and
    [tryMovePoint] with the id of a beat that a region holds,
    [setViewport] and [save]. *)
Theorem session_calls_do_not_throw
        (duration : Q) (numberToString : Q -> string) (loadSaved : option SaveObject)
        (s : Engine.t) :
  session duration numberToString loadSaved s ->
  (forall time isTempoChange,
     noThrow (addPoint duration numberToString time isTempoChange s))
  /\ (forall id, liveId s id ->
        noThrow (deletePoint duration numberToString id s)
        /\ forall toTime what, noThrow (tryMovePoint duration numberToString id toTime what s))
  /\ (forall v, noThrow (setViewport duration v s))
  /\ noThrow (save s).
Proof.
  intros H. apply session_Inv in H. split; [|split; [|split]].
  - intros time tc. apply addPoint_noThrow. exact H.
  - intros id Hl. split; [apply deletePoint_noThrow; assumption|].
    intros toTime what. apply tryMovePoint_noThrow; assumption.
  - intros v. unfold setViewport. destruct (_ && _)%bool; [apply noThrow_ret|].
    apply noThrow_drawAutopoints.
  - apply noThrow_saveState.
Qed.

Lemma session_calls_do_not_throw_witness :
  exists s,
    serveAll 10 decimalString
             [req_addPoint 1 false; req_addPoint 5 true; req_addPoint 6 false;
              req_deletePoint 2] initial = Ret s
    /\ (forall time isTempoChange,
          noThrow (addPoint 10 decimalString time isTempoChange s))
    /\ (forall id, liveId s id ->
          noThrow (deletePoint 10 decimalString id s)
          /\ forall toTime what, noThrow (tryMovePoint 10 decimalString id toTime what s))
    /\ (forall v, noThrow (setViewport 10 v s))
    /\ noThrow (save s).
Proof.
  eexists. split; [vm_compute; reflexivity|].
  apply (session_calls_do_not_throw 10 decimalString None).
  serve_step (req_deletePoint 2)
    ltac:(serve_step (req_addPoint 6 false)
      ltac:(serve_step (req_addPoint 5 true)
        ltac:(serve_step (req_addPoint 1 false) ltac:(serve_new)))).
Defined.



(** ** The callbacks of an edit *)

Section Callbacks.

Variable duration : Q.
Variable numberToString : Q -> string.

Lemma recomputeRegion_trace (s s' : Engine.t) (p : nat) :
  recomputeRegion numberToString s p = Ret s' ->
  exists pre, Engine.trace s' = Engine.trace s ++ pre
              /\ Forall (fun e => exists regionId, e = EvRecompute regionId) pre.
Proof.
  unfold recomputeRegion. destruct (Engine.regions s !! p) as [region|] eqn:Hp.
  2:{ ret. intros [= <-]. exists []. rewrite app_nil_r. split; [reflexivity | constructor]. }
  destruct (TempoRegion.tempo region) as [value|bpm ph] eqn:Ht.
  - destruct (recomputeTempo _ _) as [v| | |]; try discriminate. ret.
    destruct (localBeatPeriods _ _) as [ps| | |]; try discriminate. ret.
    intros [= <-]. simpl. eexists. split; [reflexivity|]. repeat constructor. eauto.
  - destruct (recomputePhaseOffset _ _ _) as [o| | |]; try discriminate. ret.
    intros [= <-]. simpl. eexists. split; [reflexivity|]. repeat constructor. eauto.
Qed.

Lemma recomputeRegions_trace (changed : list nat) (s s' : Engine.t) :
  recomputeRegions numberToString s changed = Ret s' ->
  exists pre, Engine.trace s' = Engine.trace s ++ pre
              /\ Forall (fun e => exists regionId, e = EvRecompute regionId) pre.
Proof.
  revert s. induction changed as [|p changed IH]; intros s; simpl.
  - ret. intros [= <-]. exists []. rewrite app_nil_r. split; [reflexivity | constructor].
  - destruct (recomputeRegion numberToString s p) as [s1| | |] eqn:E; try discriminate.
    ret. intros H. destruct (recomputeRegion_trace _ _ _ E) as (pre1 & H1 & F1).
    destruct (IH _ H) as (pre2 & H2 & F2). exists (pre1 ++ pre2).
    rewrite H2, H1, app_assoc. split; [reflexivity|]. apply Forall_app. split; assumption.
Qed.

Lemma onRegionsChanged_completed (s s' : Engine.t) (changed : list nat) :
  onRegionsChanged duration numberToString s changed true = Ret s' ->
  editCompleted s s'.
Proof.
  unfold onRegionsChanged.
  destruct (recomputeRegions numberToString s changed) as [s1| | |] eqn:E1; try discriminate.
  ret. destruct (drawAutopoints duration s1) as [s2| | |] eqn:E2; try discriminate.
  ret. destruct (saveState s2) as [[j s3]| | |] eqn:E3; try discriminate.
  ret. intros [= <-].
  destruct (recomputeRegions_trace _ _ _ E1) as (pre & H1 & F1).
  apply drawAutopoints_spec in E2. destruct E2 as (_ & _ & _ & _ & _ & _ & _ & H2).
  pose proof (saveState_spec _ _ _ E3) as H3. subst s3.
  exists pre, j. split; [|split; [exact F1|]].
  - simpl. rewrite H2, H1, <- !app_assoc. reflexivity.
  - unfold save, saveState in *. simpl.
    destruct (saveRegions (Engine.beats s2) (Engine.regions s2)) as [j'| | |];
      try discriminate.
    revert E3. ret. intros [= ->]. reflexivity.
Qed.

Lemma editCompleted_from (s0 s s' : Engine.t) :
  Engine.trace s = Engine.trace s0 -> editCompleted s s' -> editCompleted s0 s'.
Proof. intros Ht (pre & j & H1 & H2 & H3). exists pre, j. rewrite <- Ht. auto. Qed.


End Callbacks.

(** ** What an accepted beat does to the sequence of beats *)

Lemma insert_in_middle {A : Type} (a ub b : list A) (i : nat) (x : A) :
  (i <= length ub)%nat ->
  a ++ (take i ub ++ x :: drop i ub) ++ b
  = take (length a + i) (a ++ ub ++ b) ++ x :: drop (length a + i) (a ++ ub ++ b).
Proof.
  intros Hi. rewrite take_app_add', drop_app_add' by reflexivity.
  rewrite take_app_le, drop_app_le by exact Hi.
  rewrite <- !app_assoc. reflexivity.
Qed.

Lemma heldBeats_sameStructure (s s' : Engine.t) :
  sameStructure s s' -> heldBeats (Engine.regions s') = heldBeats (Engine.regions s).
Proof.
  intros H. apply coreEq_same in H. destruct H as [H _]. apply heldBeats_core. exact H.
Qed.

Lemma heldBeats_ensureRegion (duration time : Q) (s : Engine.t) :
  heldBeats (Engine.regions (ensureRegion duration time s)) = heldBeats (Engine.regions s)
  /\ Engine.beats (ensureRegion duration time s) = Engine.beats s
  /\ Engine.nextUserBeatId (ensureRegion duration time s) = Engine.nextUserBeatId s.
Proof.
  unfold ensureRegion. destruct (Engine.regions s) eqn:E; simpl; rewrite ?E; auto.
Qed.

Section Accepted2.

Variable duration : Q.
Variable numberToString : Q -> string.

(** The plain path of [addPoint], from a state that satisfies the
    invariant. *)
Lemma addPoint_plain_Inv (time : Q) (s s' : Engine.t) :
  Inv duration s ->
  addPoint duration numberToString time false s = Ret (returned_undefined, s') ->
  let bid := S (Engine.nextUserBeatId s) in
  let held := heldBeats (Engine.regions s) in
  exists k,
    (k <= length held)%nat
    /\ heldBeats (Engine.regions s') = take k held ++ bid :: drop k held
    /\ (forall a, held !! k = Some a -> time + MIN_BEAT_SPACING <= timeAt (Engine.beats s) a)
    /\ (forall a, (0 < k)%nat -> held !! (k - 1)%nat = Some a ->
                  timeAt (Engine.beats s) a + MIN_BEAT_SPACING <= time)
    /\ (exists b, Engine.beats s' !! bid = Some b
                  /\ UserBeat.id b = bid /\ UserBeat.time b = time
                  /\ UserBeat.isTempoChange b = false)
    /\ (forall a, a <> bid -> timeAt (Engine.beats s') a = timeAt (Engine.beats s) a)
    /\ Engine.userBeatsById s' !! bid = Some (Some bid)
    /\ Engine.nextUserBeatId s' = bid.
Proof.
  intros Hinv0. pose proof (ensureRegion_Inv duration time s Hinv0) as Hinv.
  destruct (heldBeats_ensureRegion duration time s) as (Hh0 & Hb0 & Hn0).
  intros Hadd bid held. unfold bid, held. rewrite <- Hh0, <- Hb0, <- Hn0. clear bid held.
  revert Hadd. unfold addPoint.
  set (s0 := ensureRegion duration time s) in *. clearbody s0. clear Hinv0 Hh0 Hb0 Hn0 s.
  destruct (Engine.regions s0 !! 0%nat) as [region0|] eqn:H0; [|discriminate].
  set (cri := if Qlt_bool time (TempoRegion.startTime region0) then 0%Z else _).
  destruct (cri <? 0)%Z eqn:Ecri; [discriminate|].
  apply Z.ltb_ge in Ecri.
  destruct (Engine.regions s0 !! Z.to_nat cri) as [cont|] eqn:Hc; [|discriminate].
  set (c := Z.to_nat cri) in *.
  set (ub := TempoRegion.userBeats cont).
  set (fia := findIndex _ ub).
  set (insertAt := if (0 <=? fia)%Z then Z.to_nat fia else length ub).
  assert (Hstart : (0 < c)%nat -> TempoRegion.startTime cont <= time).
  { intros Hpos. unfold c, cri in Hpos, Hc.
    destruct (Qlt_bool time (TempoRegion.startTime region0)); [simpl in Hpos; lia|].
    match type of Hc with
    | _ !! Z.to_nat (findIndex ?p ?l) = _ =>
        destruct (findIndex_found p l ltac:(lia)) as (x & Hx & Hp)
    end.
    rewrite Hc in Hx. injection Hx as <-.
    apply andb_prop in Hp. destruct Hp as [Hp _]. apply Qle_bool_iff in Hp. exact Hp. }
  assert (Hle : (insertAt <= length ub)%nat).
  { unfold insertAt. pose proof (findIndex_range
      (fun p => Qlt_bool time (timeAt (Engine.beats s0) p)) ub) as Hr. fold fia in Hr.
    destruct (0 <=? fia)%Z; lia. }
  assert (Hpos : (0 < c)%nat -> (0 < insertAt)%nat).
  { intros Hcpos. specialize (Hstart Hcpos).
    pose proof (Forall_tail_lookup _ _ _ _ (inv_anchored _ _ Hinv) Hcpos Hc) as Hanch.
    unfold anchored in Hanch. fold ub in Hanch. unfold insertAt.
    destruct ub as [|a rest] eqn:Eub; [contradiction|]. destruct Hanch as [_ Ha].
    destruct (0 <=? fia)%Z eqn:E; [|simpl; lia]. apply Z.leb_le in E.
    destruct (Z.eq_dec fia 0%Z) as [E0|E0]; [|lia]. exfalso.
    apply findIndex_zero in E0. apply Qlt_bool_iff in E0. rewrite Ha in E0.
    apply (Qlt_not_le _ _ E0 Hstart). }
  assert (Hidx : TempoRegion.index cont = c) by (apply (inv_index _ _ Hinv); exact Hc).
  destruct (regions_middle _ _ _ Hc) as [Hdec Hlen].
  set (l1 := take c (Engine.regions s0)) in *.
  set (l2 := drop (S c) (Engine.regions s0)) in *.
  assert (Hheld : heldBeats (Engine.regions s0) = heldBeats l1 ++ ub ++ heldBeats l2).
  { rewrite Hdec at 1. rewrite heldBeats_app. reflexivity. }
  rewrite Hidx.
  set (pa := if (insertAt <? length ub)%nat then _ else _).
  set (pb := if (0 <? insertAt)%nat then _ else _).
  destruct pa as [pointAfter| | |] eqn:Epa; try discriminate. ret.
  destruct pb as [pointBefore| | |] eqn:Epb; try discriminate. ret.
  destruct (tooClose (Engine.beats s0) pointAfter _) as [[|]| | |] eqn:Eca;
    try discriminate; ret.
  destruct (tooClose (Engine.beats s0) pointBefore _) as [[|]| | |] eqn:Ecb;
    try discriminate; ret.
  match goal with
  | |- context [onRegionsChanged _ _ ?t ?ch ?b] =>
      destruct (onRegionsChanged duration numberToString t ch b)
        as [s2| | |] eqn:Eo; try discriminate; set (t0 := t) in *
  end.
  ret. intros [= <-]. apply onRegionsChanged_frame in Eo.
  exists (length (heldBeats l1) + insertAt)%nat.
  split; [|split; [|split; [|split; [|split; [|split; [|split]]]]]].
  - rewrite Hheld, !length_app. lia.
  - rewrite (heldBeats_sameStructure _ _ Eo). unfold t0. simpl Engine.regions.
    rewrite Hheld. rewrite <- insert_in_middle by exact Hle.
    rewrite Hdec at 1. rewrite <- Hlen at 1. rewrite insert_middle, heldBeats_app. reflexivity.
  - intros a Ha. rewrite Hheld in Ha. rewrite lookup_app_r in Ha by lia.
    replace (length (heldBeats l1) + insertAt - length (heldBeats l1))%nat
      with insertAt in Ha by lia.
    assert (Hpa : pointAfter = obj a).
    { revert Epa. unfold pa. destruct (insertAt <? length ub)%nat eqn:E1.
      - apply Nat.ltb_lt in E1. rewrite lookup_app_l in Ha by exact E1.
        unfold at_. rewrite Ha. ret. congruence.
      - apply Nat.ltb_ge in E1. rewrite lookup_app_r in Ha by exact E1.
        replace (insertAt - length ub)%nat with 0%nat in Ha by lia.
        destruct l2 as [|next l2'] eqn:El2; [discriminate|].
        assert (Hn : Engine.regions s0 !! (c + 1)%nat = Some next).
        { rewrite Hdec. rewrite lookup_app_r by lia. rewrite Hlen.
          replace (c + 1 - c)%nat with 1%nat by lia. reflexivity. }
        assert (Hlt : (c <? length (Engine.regions s0) - 1)%nat = true).
        { apply Nat.ltb_lt. apply lookup_lt_Some in Hn. lia. }
        rewrite Hlt, Hn.
        pose proof (Forall_tail_lookup _ _ (c + 1)%nat _ (inv_anchored _ _ Hinv)
                                       ltac:(lia) Hn) as Han.
        unfold anchored in Han. simpl in Ha.
        destruct (TempoRegion.userBeats next) as [|x rest]; [contradiction|].
        simpl in Ha. injection Ha as ->. unfold at_. simpl. ret. congruence. }
    rewrite Hpa in Eca. simpl in Eca. revert Eca. ret. intros [= Eca].
    apply Qlt_bool_false in Eca. lra.
  - intros a Hk Ha. rewrite Hheld in Ha.
    destruct (decide (insertAt = 0%nat)) as [Hi0|Hi0].
    + exfalso. destruct (decide (c = 0%nat)) as [Hc0|Hc0]; [|specialize (Hpos ltac:(lia)); lia].
      assert (Hl1 : l1 = []).
      { apply length_zero_iff_nil. rewrite Hlen. exact Hc0. }
      rewrite Hl1 in Hk. simpl in Hk. lia.
    + rewrite lookup_app_r in Ha by lia.
      replace (length (heldBeats l1) + insertAt - 1 - length (heldBeats l1))%nat
        with (insertAt - 1)%nat in Ha by lia.
      rewrite lookup_app_l in Ha by lia.
      assert (Hpb : pointBefore = obj a).
      { revert Epb. unfold pb. replace (0 <? insertAt)%nat with true
          by (symmetry; apply Nat.ltb_lt; lia).
        unfold at_. rewrite Ha. ret. congruence. }
      rewrite Hpb in Ecb. simpl in Ecb. revert Ecb. ret. intros [= Ecb].
      apply Qlt_bool_false in Ecb. lra.
  - destruct Eo as (_ & HB & _). specialize (HB (S (Engine.nextUserBeatId s0))).
    unfold t0 in HB. simpl in HB. rewrite lookup_insert_eq in HB.
    inversion HB as [b b' Hbb E1 E2|]. exists b'. split; [reflexivity|].
    rewrite Hbb. repeat split.
  - intros a Hne. destruct Eo as (_ & HB & _).
    rewrite (sameBeats_timeAt _ _ a HB). unfold t0. simpl.
    apply timeAt_insert_ne. congruence.
  - destruct Eo as (_ & _ & -> & _). unfold t0. simpl. rewrite lookup_insert_eq.
    fold ub. rewrite insert_at_lookup by exact Hle. reflexivity.
  - destruct Eo as (_ & _ & _ & _ & -> & _). reflexivity.
Qed.

End Accepted2.




Section Removed.

Variable duration : Q.
Variable numberToString : Q -> string.


End Removed.

(** In a session, an [addPoint] of a plain beat that is not rejected puts
    one new beat, of the next id and at the given time, into the sequence
    of the held beats, without moving another beat in the sequence or in
    time; the beat after it in the sequence and the beat before it are at
    least [MIN_BEAT_SPACING] away from it; [userBeatsById] has the new beat
    under its id. *)
Theorem session_accepted_beat
        (duration : Q) (numberToString : Q -> string) (loadSaved : option SaveObject)
        (time : Q) (s s' : Engine.t) :
  session duration numberToString loadSaved s ->
  addPoint duration numberToString time false s = Ret (returned_undefined, s') ->
  let bid := S (Engine.nextUserBeatId s) in
  let held := heldBeats (Engine.regions s) in
  exists k,
    (k <= length held)%nat
    /\ heldBeats (Engine.regions s') = take k held ++ bid :: drop k held
    /\ (forall a, held !! k = Some a -> time + MIN_BEAT_SPACING <= timeAt (Engine.beats s) a)
    /\ (forall a, (0 < k)%nat -> held !! (k - 1)%nat = Some a ->
                  timeAt (Engine.beats s) a + MIN_BEAT_SPACING <= time)
    /\ (exists b, Engine.beats s' !! bid = Some b
                  /\ UserBeat.id b = bid /\ UserBeat.time b = time
                  /\ UserBeat.isTempoChange b = false)
    /\ (forall a, a <> bid -> timeAt (Engine.beats s') a = timeAt (Engine.beats s) a)
    /\ Engine.userBeatsById s' !! bid = Some (Some bid)
    /\ Engine.nextUserBeatId s' = bid.
Proof.
  intros H. apply session_Inv in H. apply addPoint_plain_Inv. exact H.
Qed.


Lemma session_accepted_beat_witness :
  exists s s',
    serveAll 10 decimalString [req_addPoint 1 false; req_addPoint 3 false] initial = Ret s
    /\ addPoint 10 decimalString 2 false s = Ret (returned_undefined, s')
    /\ exists k,
        (k <= length (heldBeats (Engine.regions s)))%nat
        /\ heldBeats (Engine.regions s')
           = take k (heldBeats (Engine.regions s))
               ++ S (Engine.nextUserBeatId s) :: drop k (heldBeats (Engine.regions s))
        /\ (forall a, heldBeats (Engine.regions s) !! k = Some a ->
                      2 + MIN_BEAT_SPACING <= timeAt (Engine.beats s) a)
        /\ (forall a, (0 < k)%nat -> heldBeats (Engine.regions s) !! (k - 1)%nat = Some a ->
                      timeAt (Engine.beats s) a + MIN_BEAT_SPACING <= 2)
        /\ (exists b, Engine.beats s' !! S (Engine.nextUserBeatId s) = Some b
                      /\ UserBeat.id b = S (Engine.nextUserBeatId s) /\ UserBeat.time b = 2
                      /\ UserBeat.isTempoChange b = false)
        /\ (forall a, a <> S (Engine.nextUserBeatId s) ->
                      timeAt (Engine.beats s') a = timeAt (Engine.beats s) a)
        /\ Engine.userBeatsById s' !! S (Engine.nextUserBeatId s)
           = Some (Some (S (Engine.nextUserBeatId s)))
        /\ Engine.nextUserBeatId s' = S (Engine.nextUserBeatId s).
Proof.
  eexists. eexists. split; [vm_compute; reflexivity|]. split; [vm_compute; reflexivity|].
  apply (session_accepted_beat 10 decimalString None); [|vm_compute; reflexivity].
  serve_step (req_addPoint 3 false)
    ltac:(serve_step (req_addPoint 1 false) ltac:(serve_new)).
Defined.


(** ** Changing the tempo of a region *)

Section Retempo.

Variable duration : Q.
Variable numberToString : Q -> string.

Lemma onRegionsChanged_steps (s s' : Engine.t) (changed : list nat) (doSave : bool) :
  onRegionsChanged duration numberToString s changed doSave = Ret s' ->
  exists s1 s2,
    recomputeRegions numberToString s changed = Ret s1
    /\ drawAutopoints duration s1 = Ret s2
    /\ if doSave then exists j, saveState s2 = Ret (j, s') else s' = s2.
Proof.
  unfold onRegionsChanged.
  destruct (recomputeRegions numberToString s changed) as [s1| | |] eqn:E1;
    try discriminate.
  ret. destruct (drawAutopoints duration s1) as [s2| | |] eqn:E2; try discriminate.
  ret. destruct doSave.
  - destruct (saveState s2) as [[j s3]| | |] eqn:E3; try discriminate.
    ret. intros [= <-]. exists s1, s2. split; [reflexivity|]. split; [exact E2|].
    exists j. exact E3.
  - intros [= <-]. exists s1, s2. split; [reflexivity|]. split; [exact E2 | reflexivity].
Qed.

(** The regions after the projector and the save differ from those before
    in their auto beats only. *)
Lemma after_recompute (s1 s2 s' : Engine.t) (doSave : bool) :
  drawAutopoints duration s1 = Ret s2 ->
  (if doSave then exists j, saveState s2 = Ret (j, s') else s' = s2) ->
  Forall2 (fun r r' => r' = TempoRegion.set_autoBeats r (TempoRegion.autoBeats r'))
          (Engine.regions s1) (Engine.regions s')
  /\ Engine.beats s' = Engine.beats s1.
Proof.
  intros Hd Hs. apply drawAutopoints_spec in Hd. destruct Hd as (HF & Hb & _).
  assert (Hs' : Engine.regions s' = Engine.regions s2 /\ Engine.beats s' = Engine.beats s2).
  { destruct doSave; [|subst; split; reflexivity].
    destruct Hs as [j Hs]. apply saveState_spec in Hs. subst. split; reflexivity. }
  destruct Hs' as [-> ->]. split; [|exact Hb].
  eapply Forall2_impl; [exact HF|]. intros r r' [He _]. exact He.
Qed.

(** What [onRegionsChanged] makes of the one changed region at position
    [p]: the estimator of its tempo type on the times of its beats. *)
Lemma onRegionsChanged_one (s s' : Engine.t) (p : nat) (r : TempoRegion.t) (doSave : bool) :
  onRegionsChanged duration numberToString s [p] doSave = Ret s' ->
  Engine.regions s !! p = Some r ->
  exists r',
    Engine.regions s' !! p = Some r'
    /\ TempoRegion.userBeats r' = TempoRegion.userBeats r
    /\ TempoRegion.startTime r' = TempoRegion.startTime r
    /\ TempoRegion.endTime r' = TempoRegion.endTime r
    /\ TempoRegion.id r' = TempoRegion.id r
    /\ match TempoRegion.tempo r with
       | tapped value =>
           exists v, recomputeTempo numberToString (timesOf (Engine.beats s) r) = Ret v
                     /\ TempoRegion.tempo r'
                        = tapped (match v with Some v' => v' | None => value end)
       | fixed bpm phaseOffset =>
           exists o, recomputePhaseOffset bpm (TempoRegion.startTime r)
                                          (timesOf (Engine.beats s) r) = Ret o
                     /\ TempoRegion.tempo r'
                        = fixed bpm (match o with Some o' => o' | None => phaseOffset end)
       end.
Proof.
  intros Ho Hp. destruct (onRegionsChanged_steps _ _ _ _ Ho) as (s1 & s2 & H1 & H2 & H3).
  destruct (after_recompute _ _ _ _ H2 H3) as [HF _].
  assert (Hplt : (p < length (Engine.regions s))%nat) by (eapply lookup_lt_Some; exact Hp).
  assert (H1' : recomputeRegion numberToString s p = Ret s1).
  { revert H1. simpl. destruct (recomputeRegion numberToString s p); ret; congruence. }
  clear H1. unfold recomputeRegion in H1'. rewrite Hp in H1'.
  assert (Hget : forall r1, Engine.regions s1 = <[p := r1]> (Engine.regions s) ->
            exists r', Engine.regions s' !! p = Some r'
                       /\ r' = TempoRegion.set_autoBeats r1 (TempoRegion.autoBeats r')).
  { intros r1 Hr1. rewrite Hr1 in HF.
    assert (Hl : (<[p := r1]> (Engine.regions s)) !! p = Some r1)
      by (apply list_lookup_insert_eq; exact Hplt).
    destruct (Forall2_lookup_l _ _ _ _ _ HF Hl) as (r' & Hr' & He). eauto. }
  destruct (TempoRegion.tempo r) as [value|bpm ph] eqn:Et.
  - destruct (recomputeTempo numberToString _) as [v| | |] eqn:Ev; try discriminate.
    revert H1'. ret.
    destruct (localBeatPeriods _ _) as [ps| | |]; try discriminate. ret.
    intros [= <-].
    destruct (Hget _ eq_refl) as (r' & Hr' & He). exists r'.
    split; [exact Hr'|]. rewrite He. simpl. do 4 (split; [reflexivity|]).
    exists v. split; reflexivity.
  - destruct (recomputePhaseOffset bpm _ _) as [o| | |] eqn:Eo; try discriminate.
    revert H1'. ret. intros [= <-].
    destruct (Hget _ eq_refl) as (r' & Hr' & He). exists r'.
    split; [exact Hr'|]. rewrite He. simpl. do 4 (split; [reflexivity|]).
    exists o. split; reflexivity.
Qed.

End Retempo.

(** ** The tempo setters and the viewport *)

Section Setters.

Variable duration : Q.
Variable numberToString : Q -> string.

Lemma set_tempo_fields (r : TempoRegion.t) (t : Tempo) :
  TempoRegion.userBeats (TempoRegion.set_tempo r t) = TempoRegion.userBeats r
  /\ TempoRegion.startTime (TempoRegion.set_tempo r t) = TempoRegion.startTime r
  /\ TempoRegion.endTime (TempoRegion.set_tempo r t) = TempoRegion.endTime r
  /\ TempoRegion.id (TempoRegion.set_tempo r t) = TempoRegion.id r
  /\ TempoRegion.tempo (TempoRegion.set_tempo r t) = t.
Proof. destruct r; repeat split. Qed.

Lemma timesOf_set_tempo (h : gmap nat UserBeat.t) (r : TempoRegion.t) (t : Tempo) :
  timesOf h (TempoRegion.set_tempo r t) = timesOf h r.
Proof. destruct r; reflexivity. Qed.

(** What a setter that replaces the tempo of the region at [p] by [t] and
    then calls [onRegionsChanged] leaves of that region. *)
Lemma retempo_one (s s' : Engine.t) (p : nat) (r : TempoRegion.t) (t : Tempo) :
  Engine.regions s !! p = Some r ->
  onRegionsChanged duration numberToString
    (Engine.set_regions s (<[p := TempoRegion.set_tempo r t]> (Engine.regions s))) [p] true
  = Ret s' ->
  exists r',
    Engine.regions s' !! p = Some r'
    /\ TempoRegion.userBeats r' = TempoRegion.userBeats r
    /\ TempoRegion.startTime r' = TempoRegion.startTime r
    /\ TempoRegion.endTime r' = TempoRegion.endTime r
    /\ TempoRegion.id r' = TempoRegion.id r
    /\ match t with
       | tapped value =>
           exists v, recomputeTempo numberToString (timesOf (Engine.beats s) r) = Ret v
                     /\ TempoRegion.tempo r'
                        = tapped (match v with Some v' => v' | None => value end)
       | fixed bpm phaseOffset =>
           exists o, recomputePhaseOffset bpm (TempoRegion.startTime r)
                                          (timesOf (Engine.beats s) r) = Ret o
                     /\ TempoRegion.tempo r'
                        = fixed bpm (match o with Some o' => o' | None => phaseOffset end)
       end.
Proof.
  intros Hp Ho.
  assert (Hl : Engine.regions
                 (Engine.set_regions s (<[p := TempoRegion.set_tempo r t]> (Engine.regions s)))
               !! p = Some (TempoRegion.set_tempo r t)).
  { simpl. apply list_lookup_insert_eq. eapply lookup_lt_Some. exact Hp. }
  destruct (onRegionsChanged_one duration numberToString _ _ _ _ _ Ho Hl)
    as (r' & Hr' & Hu & Hs & He & Hi & Ht).
  destruct (set_tempo_fields r t) as (Fu & Fs & Fe & Fi & Ft).
  exists r'. split; [exact Hr'|].
  rewrite Fu in Hu. rewrite Fs in Hs. rewrite Fe in He. rewrite Fi in Hi.
  do 4 (split; [assumption|]).
  rewrite Ft in Ht. destruct t; rewrite ?timesOf_set_tempo, ?Fs in Ht; exact Ht.
Qed.

Lemma retempo_completed (s s' : Engine.t) (p : nat) (rs : list TempoRegion.t) :
  onRegionsChanged duration numberToString (Engine.set_regions s rs) [p] true = Ret s' ->
  editCompleted s s'.
Proof.
  intros Ho. apply editCompleted_from with (s := Engine.set_regions s rs); [reflexivity|].
  eapply onRegionsChanged_completed. exact Ho.
Qed.

(** [setRegionFixedTempo] on a fixed-tempo region gives it exactly the bpm
    asked for, re-estimates its phase offset from its beats with that bpm,
    keeps its beats, bounds and id, and ends with one save; on a tapped
    region it changes nothing. *)
Theorem setRegionFixedTempo_effect
        (s s' : Engine.t) (regionId p : nat) (r : TempoRegion.t) (bpm : Q) :
  findRegion s regionId = Some (p, r) ->
  setRegionFixedTempo duration numberToString regionId bpm s = Ret s' ->
  match TempoRegion.tempo r with
  | tapped _ => s' = s
  | fixed _ phaseOffset =>
      exists r' o,
        Engine.regions s' !! p = Some r'
        /\ recomputePhaseOffset bpm (TempoRegion.startTime r)
                                (timesOf (Engine.beats s) r) = Ret o
        /\ TempoRegion.tempo r'
           = fixed bpm (match o with Some o' => o' | None => phaseOffset end)
        /\ TempoRegion.userBeats r' = TempoRegion.userBeats r
        /\ TempoRegion.startTime r' = TempoRegion.startTime r
        /\ TempoRegion.endTime r' = TempoRegion.endTime r
        /\ TempoRegion.id r' = regionId
        /\ editCompleted s s'
  end.
Proof.
  intros Hf. unfold setRegionFixedTempo. rewrite Hf.
  apply findRegion_Some in Hf. destruct Hf as [Hp Hid].
  destruct (TempoRegion.tempo r) as [value|b ph] eqn:Et.
  - ret. congruence.
  - intros Ho.
    destruct (retempo_one _ _ _ _ _ Hp Ho) as (r' & Hr' & Hu & Hs & He & Hi & o & Ho1 & Ho2).
    exists r', o. repeat (split; [first [assumption | congruence]|]).
    eapply retempo_completed. exact Ho.
Qed.

(** [setRegionType] to [fixed] on a tapped region sets the bpm to
    [60 / meanPeriod] rounded to a hundredth, so at most 1/200 away from it,
    or to 60 when the region has no estimate; the beats, bounds and id are
    kept and the edit ends with one save. On a fixed region it changes
    nothing. *)
Theorem setRegionType_fixed_effect
        (s s' : Engine.t) (regionId p : nat) (r : TempoRegion.t) :
  findRegion s regionId = Some (p, r) ->
  setRegionType duration numberToString regionId type_fixed s = Ret s' ->
  match TempoRegion.tempo r with
  | fixed _ _ => s' = s
  | tapped value =>
      exists r' bpm phaseOffset,
        Engine.regions s' !! p = Some r'
        /\ TempoRegion.tempo r' = fixed bpm phaseOffset
        /\ match value with
           | Some (meanPeriod, _) =>
               ~ meanPeriod == 0
               /\ bpm = inject_Z (Math_round (60 / meanPeriod * 100)) / 100
               /\ Qabs (bpm - 60 / meanPeriod) <= 1 # 200
           | None => bpm = 60
           end
        /\ TempoRegion.userBeats r' = TempoRegion.userBeats r
        /\ TempoRegion.startTime r' = TempoRegion.startTime r
        /\ TempoRegion.endTime r' = TempoRegion.endTime r
        /\ TempoRegion.id r' = regionId
        /\ editCompleted s s'
  end.
Proof.
  intros Hf. unfold setRegionType. rewrite Hf.
  apply findRegion_Some in Hf. destruct Hf as [Hp Hid].
  destruct (TempoRegion.tempo r) as [value|b ph] eqn:Et.
  2:{ ret. congruence. }
  assert (Hgen : forall bpm,
            onRegionsChanged duration numberToString
              (Engine.set_regions s
                 (<[p := TempoRegion.set_tempo r (fixed bpm 0)]> (Engine.regions s)))
              [p] true = Ret s' ->
            exists r' phaseOffset,
              Engine.regions s' !! p = Some r'
              /\ TempoRegion.tempo r' = fixed bpm phaseOffset
              /\ TempoRegion.userBeats r' = TempoRegion.userBeats r
              /\ TempoRegion.startTime r' = TempoRegion.startTime r
              /\ TempoRegion.endTime r' = TempoRegion.endTime r
              /\ TempoRegion.id r' = regionId
              /\ editCompleted s s').
  { intros bpm Ho.
    destruct (retempo_one _ _ _ _ _ Hp Ho) as (r' & Hr' & Hu & Hs & He & Hi & o & Ho1 & Ho2).
    exists r'. eexists. split; [exact Hr'|]. split; [exact Ho2|].
    repeat (split; [first [assumption | congruence]|]).
    eapply retempo_completed. exact Ho. }
  destruct value as [[meanPeriod sd]|].
  - unfold qdiv. destruct (Qeq_bool meanPeriod 0) eqn:Ez; [discriminate|].
    ret. intros Ho. destruct (Hgen _ Ho) as (r' & ph & H1 & H2 & H3).
    exists r', (inject_Z (Math_round (60 / meanPeriod * 100)) / 100), ph.
    split; [exact H1|]. split; [exact H2|]. split; [|exact H3].
    split; [intros Hz; apply Qeq_bool_iff in Hz; congruence|].
    split; [reflexivity|].
    destruct (Math_round_bounds (60 / meanPeriod * 100)) as [Hlo Hhi].
    set (k := inject_Z (Math_round (60 / meanPeriod * 100))) in *. clearbody k.
    set (x := 60 / meanPeriod) in *. clearbody x.
    apply Qabs_Qle_condition.
    assert (Hk : k / 100 == k * (1 # 100)) by (field).
    rewrite Hk. split; lra.
  - ret. intros Ho. destruct (Hgen _ Ho) as (r' & ph & H1 & H2 & H3).
    exists r', 60, ph. split; [exact H1|]. split; [exact H2|]. split; [reflexivity|exact H3].
Qed.

(** [setRegionType] to [tapped] on a fixed region drops the bpm and
    estimates the tempo anew from the beats of the region (no estimate
    when it holds at most one beat); the beats, bounds and id are kept and
    the edit ends with one save. On a tapped region it changes nothing. *)
Theorem setRegionType_tapped_effect
        (s s' : Engine.t) (regionId p : nat) (r : TempoRegion.t) :
  findRegion s regionId = Some (p, r) ->
  setRegionType duration numberToString regionId type_tapped s = Ret s' ->
  match TempoRegion.tempo r with
  | tapped _ => s' = s
  | fixed _ _ =>
      exists r' v,
        Engine.regions s' !! p = Some r'
        /\ recomputeTempo numberToString (timesOf (Engine.beats s) r) = Ret v
        /\ TempoRegion.tempo r' = tapped (match v with Some v' => v' | None => None end)
        /\ ((length (TempoRegion.userBeats r) <= 1)%nat -> TempoRegion.tempo r' = tapped None)
        /\ TempoRegion.userBeats r' = TempoRegion.userBeats r
        /\ TempoRegion.startTime r' = TempoRegion.startTime r
        /\ TempoRegion.endTime r' = TempoRegion.endTime r
        /\ TempoRegion.id r' = regionId
        /\ editCompleted s s'
  end.
Proof.
  intros Hf. unfold setRegionType. rewrite Hf.
  apply findRegion_Some in Hf. destruct Hf as [Hp Hid].
  destruct (TempoRegion.tempo r) as [value|b ph] eqn:Et.
  { ret. congruence. }
  intros Ho.
  destruct (retempo_one _ _ _ _ _ Hp Ho) as (r' & Hr' & Hu & Hs & He & Hi & v & Hv1 & Hv2).
  exists r', v. split; [exact Hr'|]. split; [exact Hv1|]. split; [exact Hv2|].
  split.
  { intros Hlen. rewrite Hv2. revert Hv1. unfold timesOf.
    destruct (TempoRegion.userBeats r) as [|a [|a' l]]; simpl in *; [| |lia].
    - ret. intros [= <-]. reflexivity.
    - ret. intros [= <-]. reflexivity. }
  repeat (split; [first [assumption | congruence]|]).
  eapply retempo_completed. exact Ho.
Qed.





End Setters.

(** ** The setters on a short session *)

Lemma setRegionFixedTempo_effect_witness :
  exists s s' r,
    serveAll 10 decimalString
             [req_addPoint 1 false; req_addPoint 2 false; req_setRegionType 1 type_fixed]
             initial = Ret s
    /\ findRegion s 1 = Some (0%nat, r)
    /\ setRegionFixedTempo 10 decimalString 1 120 s = Ret s'
    /\ match TempoRegion.tempo r with
       | tapped _ => s' = s
       | fixed _ phaseOffset =>
           exists r' o,
             Engine.regions s' !! 0%nat = Some r'
             /\ recomputePhaseOffset 120 (TempoRegion.startTime r)
                                     (timesOf (Engine.beats s) r) = Ret o
             /\ TempoRegion.tempo r'
                = fixed 120 (match o with Some o' => o' | None => phaseOffset end)
             /\ TempoRegion.userBeats r' = TempoRegion.userBeats r
             /\ TempoRegion.startTime r' = TempoRegion.startTime r
             /\ TempoRegion.endTime r' = TempoRegion.endTime r
             /\ TempoRegion.id r' = 1%nat
             /\ editCompleted s s'
       end.
Proof.
  eexists. eexists. eexists.
  split; [vm_compute; reflexivity|]. split; [vm_compute; reflexivity|].
  split; [vm_compute; reflexivity|].
  apply (setRegionFixedTempo_effect 10 decimalString _ _ 1 0 _ 120); vm_compute; reflexivity.
Defined.

Lemma setRegionType_fixed_effect_witness :
  exists s s' r,
    serveAll 10 decimalString [req_addPoint 1 false; req_addPoint (3 # 2) false] initial = Ret s
    /\ findRegion s 1 = Some (0%nat, r)
    /\ setRegionType 10 decimalString 1 type_fixed s = Ret s'
    /\ match TempoRegion.tempo r with
       | fixed _ _ => s' = s
       | tapped value =>
           exists r' bpm phaseOffset,
             Engine.regions s' !! 0%nat = Some r'
             /\ TempoRegion.tempo r' = fixed bpm phaseOffset
             /\ match value with
                | Some (meanPeriod, _) =>
                    ~ meanPeriod == 0
                    /\ bpm = inject_Z (Math_round (60 / meanPeriod * 100)) / 100
                    /\ Qabs (bpm - 60 / meanPeriod) <= 1 # 200
                | None => bpm = 60
                end
             /\ TempoRegion.userBeats r' = TempoRegion.userBeats r
             /\ TempoRegion.startTime r' = TempoRegion.startTime r
             /\ TempoRegion.endTime r' = TempoRegion.endTime r
             /\ TempoRegion.id r' = 1%nat
             /\ editCompleted s s'
       end.
Proof.
  eexists. eexists. eexists.
  split; [vm_compute; reflexivity|]. split; [vm_compute; reflexivity|].
  split; [vm_compute; reflexivity|].
  apply (setRegionType_fixed_effect 10 decimalString _ _ 1 0); vm_compute; reflexivity.
Defined.

Lemma setRegionType_tapped_effect_witness :
  exists s s' r,
    serveAll 10 decimalString
             [req_addPoint 1 false; req_addPoint 2 false; req_addPoint 3 false;
              req_setRegionType 1 type_fixed] initial = Ret s
    /\ findRegion s 1 = Some (0%nat, r)
    /\ setRegionType 10 decimalString 1 type_tapped s = Ret s'
    /\ match TempoRegion.tempo r with
       | tapped _ => s' = s
       | fixed _ _ =>
           exists r' v,
             Engine.regions s' !! 0%nat = Some r'
             /\ recomputeTempo decimalString (timesOf (Engine.beats s) r) = Ret v
             /\ TempoRegion.tempo r' = tapped (match v with Some v' => v' | None => None end)
             /\ ((length (TempoRegion.userBeats r) <= 1)%nat
                 -> TempoRegion.tempo r' = tapped None)
             /\ TempoRegion.userBeats r' = TempoRegion.userBeats r
             /\ TempoRegion.startTime r' = TempoRegion.startTime r
             /\ TempoRegion.endTime r' = TempoRegion.endTime r
             /\ TempoRegion.id r' = 1%nat
             /\ editCompleted s s'
       end.
Proof.
  eexists. eexists. eexists.
  split; [vm_compute; reflexivity|]. split; [vm_compute; reflexivity|].
  split; [vm_compute; reflexivity|].
  apply (setRegionType_tapped_effect 10 decimalString _ _ 1 0); vm_compute; reflexivity.
Defined.



(** * Facts of the engine over binary64 numbers *)

(** ** The order of numbers

    [<] on numbers is irreflexive and asymmetric, and false when a side is
    [NaN]; from the specification of the primitive comparison. *)

Lemma SFcompare_Lt_swap (x y : spec_float) :
  SFcompare x y = Some Lt -> SFcompare y x = Some Gt.
Proof.
  destruct x as [sx|sx| |sx mx ex], y as [sy|sy| |sy my ey]; simpl;
    try discriminate; try (destruct sx; discriminate); try (destruct sy; discriminate);
    try (destruct sx, sy; (discriminate || reflexivity)).
  destruct sx, sy; try discriminate; try reflexivity.
  - rewrite (Z.compare_antisym ex ey). destruct (ex ?= ey)%Z; simpl; try discriminate;
      try reflexivity.
    pose proof (Pos.compare_cont_antisym mx my Eq) as HA. simpl in HA. rewrite <- HA.
    destruct (Pos.compare_cont Eq mx my); simpl; (discriminate || reflexivity).
  - rewrite (Z.compare_antisym ex ey). destruct (ex ?= ey)%Z; simpl; try discriminate;
      try reflexivity.
    pose proof (Pos.compare_cont_antisym mx my Eq) as HA. simpl in HA. rewrite <- HA.
    destruct (Pos.compare_cont Eq mx my); simpl; (discriminate || reflexivity).
Qed.

Lemma SFcompare_refl (x : spec_float) :
  SFcompare x x = Some Eq \/ x = S754_nan.
Proof.
  destruct x as [s|s| |s m e]; simpl; auto.
  - left. destruct s; reflexivity.
  - left. rewrite Z.compare_refl, Pos.compare_cont_refl. destruct s; reflexivity.
Qed.

Lemma ltb_irrefl (x : float) : (x <? x)%float = false.
Proof.
  rewrite FloatAxioms.ltb_spec. unfold SFltb.
  destruct (SFcompare_refl (Prim2SF x)) as [-> | ->]; reflexivity.
Qed.

Lemma ltb_asym (x y : float) : (x <? y)%float = true -> (y <? x)%float = false.
Proof.
  rewrite !FloatAxioms.ltb_spec. unfold SFltb.
  destruct (SFcompare (Prim2SF x) (Prim2SF y)) as [[| |]|] eqn:E; try discriminate.
  intros _. rewrite (SFcompare_Lt_swap _ _ E). reflexivity.
Qed.

Lemma isNaN_spec (x : float) : Double.isNaN x = true -> Prim2SF x = S754_nan.
Proof.
  unfold Double.isNaN. rewrite FloatAxioms.eqb_spec. unfold SFeqb.
  destruct (SFcompare_refl (Prim2SF x)) as [-> | ->]; [discriminate | reflexivity].
Qed.

Lemma ltb_NaN_l (x y : float) : Double.isNaN x = true -> (x <? y)%float = false.
Proof. intros H. rewrite FloatAxioms.ltb_spec, (isNaN_spec x H). reflexivity. Qed.

Lemma ltb_NaN_r (x y : float) : Double.isNaN y = true -> (x <? y)%float = false.
Proof.
  intros H. rewrite FloatAxioms.ltb_spec, (isNaN_spec y H). unfold SFltb.
  destruct (Prim2SF x); reflexivity.
Qed.

Lemma leb_NaN_l (x y : float) : Double.isNaN x = true -> (x <=? y)%float = false.
Proof. intros H. rewrite FloatAxioms.leb_spec, (isNaN_spec x H). reflexivity. Qed.

Lemma leb_NaN_r (x y : float) : Double.isNaN y = true -> (x <=? y)%float = false.
Proof.
  intros H. rewrite FloatAxioms.leb_spec, (isNaN_spec y H). unfold SFleb.
  destruct (Prim2SF x); reflexivity.
Qed.

Lemma isNaN_nan : Double.isNaN nan = true.
Proof. reflexivity. Qed.

(** [Math.min] and [Math.max] give [NaN] or one of their arguments. *)
Lemma Math_min_cases (a b : float) :
  Double.isNaN (Double.Math_min a b) = true
  \/ (Double.Math_min a b = a /\ (b <? a)%float = false)
  \/ (Double.Math_min a b = b /\ (a <? b)%float = false).
Proof.
  unfold Double.Math_min.
  destruct (Double.isNaN a || Double.isNaN b); [left; reflexivity|].
  destruct (a <? b)%float eqn:E1.
  { right. left. split; [reflexivity | apply ltb_asym; exact E1]. }
  destruct (b <? a)%float eqn:E2.
  { right. right. split; reflexivity. }
  destruct (Double.isNegZero a); right; [left | right]; split; reflexivity.
Qed.

Lemma Math_max_cases (a b : float) :
  Double.isNaN (Double.Math_max a b) = true
  \/ (Double.Math_max a b = a /\ (a <? b)%float = false)
  \/ (Double.Math_max a b = b /\ (b <? a)%float = false).
Proof.
  unfold Double.Math_max.
  destruct (Double.isNaN a || Double.isNaN b); [left; reflexivity|].
  destruct (a <? b)%float eqn:E1.
  { right. right. split; [reflexivity | apply ltb_asym; exact E1]. }
  destruct (b <? a)%float eqn:E2.
  { right. left. split; reflexivity. }
  destruct (Double.isNegZero a); right; [right | left]; split; reflexivity.
Qed.

(** [Math.min(a, b)] is above neither argument, and not below what both
    are not below. *)
Lemma Math_min_not_above_l (a b : float) : (a <? Double.Math_min a b)%float = false.
Proof.
  destruct (Math_min_cases a b) as [H | [[-> H] | [-> H]]].
  - apply ltb_NaN_r. exact H.
  - apply ltb_irrefl.
  - exact H.
Qed.

Lemma Math_min_not_above_r (a b : float) : (b <? Double.Math_min a b)%float = false.
Proof.
  destruct (Math_min_cases a b) as [H | [[-> H] | [-> H]]].
  - apply ltb_NaN_r. exact H.
  - exact H.
  - apply ltb_irrefl.
Qed.

Lemma Math_min_not_below (a b lo : float) :
  (a <? lo)%float = false -> (b <? lo)%float = false ->
  (Double.Math_min a b <? lo)%float = false.
Proof.
  intros Ha Hb. destruct (Math_min_cases a b) as [H | [[-> H] | [-> H]]].
  - apply ltb_NaN_l. exact H.
  - exact Ha.
  - exact Hb.
Qed.

Lemma Math_max_not_below_l (a b : float) : (Double.Math_max a b <? a)%float = false.
Proof.
  destruct (Math_max_cases a b) as [H | [[-> H] | [-> H]]].
  - apply ltb_NaN_l. exact H.
  - apply ltb_irrefl.
  - exact H.
Qed.

Lemma Math_max_not_below_r (a b : float) : (Double.Math_max a b <? b)%float = false.
Proof.
  destruct (Math_max_cases a b) as [H | [[-> H] | [-> H]]].
  - apply ltb_NaN_l. exact H.
  - exact H.
  - apply ltb_irrefl.
Qed.

(** ** The tempo estimate on beats of a grid *)




(** ** The order of numbers that are not [NaN]

    The comparison of two numbers is the comparison of their places. *)

Lemma SFcompare_rank (x y : spec_float) :
  x <> S754_nan -> y <> S754_nan ->
  exists c, SFcompare x y = Some c
            /\ (c = Lt <-> Double.rankBelow (Double.rank x) (Double.rank y))
            /\ (c = Gt <-> Double.rankBelow (Double.rank y) (Double.rank x)).
Proof.
  intros Hx Hy. unfold Double.rankBelow.
  destruct x as [sx|sx| |sx mx ex], y as [sy|sy| |sy my ey]; try congruence;
    try (destruct sx); try (destruct sy); simpl;
    try (eexists; split; [reflexivity|]; split; split; intros H;
         solve [discriminate | lia | reflexivity]).
  - change (Pos.compare_cont Eq mx my) with (Pos.compare mx my).
    destruct (Z.compare_spec ex ey) as [He|He|He]; simpl;
      [destruct (Pos.compare_spec mx my) as [Hm|Hm|Hm]; simpl|..];
      (eexists; split; [reflexivity|]; split; split; intros H;
       solve [discriminate | lia | reflexivity]).
  - change (Pos.compare_cont Eq mx my) with (Pos.compare mx my).
    destruct (Z.compare_spec ex ey) as [He|He|He]; simpl;
      [destruct (Pos.compare_spec mx my) as [Hm|Hm|Hm]; simpl|..];
      (eexists; split; [reflexivity|]; split; split; intros H;
       solve [discriminate | lia | reflexivity]).
Qed.

Lemma isNaN_false (x : float) : Double.isNaN x = false -> Prim2SF x <> S754_nan.
Proof.
  unfold Double.isNaN. rewrite FloatAxioms.eqb_spec. intros H E. rewrite E in H.
  discriminate.
Qed.

Lemma ltb_isNaN (x y : float) :
  (x <? y)%float = true -> Double.isNaN x = false /\ Double.isNaN y = false.
Proof.
  intros H. split.
  - destruct (Double.isNaN x) eqn:E; [|reflexivity].
    rewrite (ltb_NaN_l x y E) in H. discriminate.
  - destruct (Double.isNaN y) eqn:E; [|reflexivity].
    rewrite (ltb_NaN_r x y E) in H. discriminate.
Qed.

Lemma leb_isNaN (x y : float) :
  (x <=? y)%float = true -> Double.isNaN x = false /\ Double.isNaN y = false.
Proof.
  intros H. split.
  - destruct (Double.isNaN x) eqn:E; [|reflexivity].
    rewrite (leb_NaN_l x y E) in H. discriminate.
  - destruct (Double.isNaN y) eqn:E; [|reflexivity].
    rewrite (leb_NaN_r x y E) in H. discriminate.
Qed.

Lemma ltb_rank (x y : float) :
  Double.isNaN x = false -> Double.isNaN y = false ->
  ((x <? y)%float = true
   <-> Double.rankBelow (Double.rank (Prim2SF x)) (Double.rank (Prim2SF y))).
Proof.
  intros Hx Hy. rewrite FloatAxioms.ltb_spec. unfold SFltb.
  destruct (SFcompare_rank _ _ (isNaN_false x Hx) (isNaN_false y Hy))
    as (c & -> & H1 & _).
  rewrite <- H1. destruct c; split; (discriminate || reflexivity).
Qed.

Lemma leb_rank (x y : float) :
  Double.isNaN x = false -> Double.isNaN y = false ->
  ((x <=? y)%float = true
   <-> ~ Double.rankBelow (Double.rank (Prim2SF y)) (Double.rank (Prim2SF x))).
Proof.
  intros Hx Hy. rewrite FloatAxioms.leb_spec. unfold SFleb.
  destruct (SFcompare_rank _ _ (isNaN_false x Hx) (isNaN_false y Hy))
    as (c & -> & _ & H2).
  rewrite <- H2. destruct c.
  - split; [intros _ H; discriminate | reflexivity].
  - split; [intros _ H; discriminate | reflexivity].
  - split; [discriminate | intros H; exfalso; apply H; reflexivity].
Qed.

(** Among numbers that are not [NaN]: what is below a number is below
    whatever is not below that number, and what is not above a number is
    not above whatever that number is not below. *)
Lemma ltb_not_ltb (x y z : float) :
  Double.isNaN z = false ->
  (x <? y)%float = true -> (z <? y)%float = false -> (x <? z)%float = true.
Proof.
  intros Hz Hxy Hzy. destruct (ltb_isNaN _ _ Hxy) as [Hx Hy].
  apply (ltb_rank x y Hx Hy) in Hxy. apply (ltb_rank x z Hx Hz).
  assert (H : ~ Double.rankBelow (Double.rank (Prim2SF z)) (Double.rank (Prim2SF y))).
  { intros H. apply (ltb_rank z y Hz Hy) in H. congruence. }
  unfold Double.rankBelow in *. lia.
Qed.

Lemma leb_not_ltb (x y z : float) :
  Double.isNaN z = false ->
  (y <=? x)%float = true -> (y <? z)%float = false -> (z <=? x)%float = true.
Proof.
  intros Hz Hyx Hyz. destruct (leb_isNaN _ _ Hyx) as [Hy Hx].
  apply (leb_rank y x Hy Hx) in Hyx. apply (leb_rank z x Hz Hx).
  assert (H : ~ Double.rankBelow (Double.rank (Prim2SF y)) (Double.rank (Prim2SF z))).
  { intros H. apply (ltb_rank y z Hy Hz) in H. congruence. }
  unfold Double.rankBelow in *. lia.
Qed.

Lemma Math_max_isNaN (a b : float) :
  Double.isNaN (Double.Math_max a b) = false ->
  Double.isNaN a = false /\ Double.isNaN b = false.
Proof.
  unfold Double.Math_max. destruct (Double.isNaN a), (Double.isNaN b); simpl;
    (discriminate || auto).
Qed.

Lemma Math_min_isNaN (a b : float) :
  Double.isNaN (Double.Math_min a b) = false ->
  Double.isNaN a = false /\ Double.isNaN b = false.
Proof.
  unfold Double.Math_min. destruct (Double.isNaN a), (Double.isNaN b); simpl;
    (discriminate || auto).
Qed.

(** What is not below [Math.max(a, b)] is below neither [a] nor [b], and
    what [Math.min(a, b)] is not at or below is above both. *)
Lemma not_below_Math_max (t a b : float) :
  Double.isNaN (Double.Math_max a b) = false ->
  (t <? Double.Math_max a b)%float = false ->
  (t <? a)%float = false /\ (t <? b)%float = false.
Proof.
  intros HM Ht. split.
  - destruct (t <? a)%float eqn:E; [|reflexivity].
    rewrite (ltb_not_ltb t a (Double.Math_max a b) HM E (Math_max_not_below_l a b)) in Ht.
    discriminate.
  - destruct (t <? b)%float eqn:E; [|reflexivity].
    rewrite (ltb_not_ltb t b (Double.Math_max a b) HM E (Math_max_not_below_r a b)) in Ht.
    discriminate.
Qed.

Lemma not_at_Math_min (t a b : float) :
  Double.isNaN (Double.Math_min a b) = false ->
  (Double.Math_min a b <=? t)%float = false ->
  (a <=? t)%float = false /\ (b <=? t)%float = false.
Proof.
  intros HM Ht. split.
  - destruct (a <=? t)%float eqn:E; [|reflexivity].
    rewrite (leb_not_ltb t a (Double.Math_min a b) HM E (Math_min_not_above_l a b)) in Ht.
    discriminate.
  - destruct (b <=? t)%float eqn:E; [|reflexivity].
    rewrite (leb_not_ltb t b (Double.Math_min a b) HM E (Math_min_not_above_r a b)) in Ht.
    discriminate.
Qed.

(** * The engine over binary64 numbers: facts *)

Module DoubleFacts.

Import Double.
Local Open Scope float_scope.

(** ** What a recompute pass leaves alone *)

Ltac ret := unfold mbind, mret, result_bind, result_ret; cbv beta iota.

Lemma d_sameKind_refl (t : Tempo) : sameKind t t.
Proof. destruct t; simpl; auto. Qed.

Lemma d_sameKind_trans (t1 t2 t3 : Tempo) : sameKind t1 t2 -> sameKind t2 t3 -> sameKind t1 t3.
Proof. destruct t1, t2, t3; simpl; intros; try tauto; congruence. Qed.

Lemma d_sameBeat_refl (b : UserBeat.t) : sameBeat b b.
Proof. destruct b; reflexivity. Qed.

Lemma d_sameBeat_trans (b1 b2 b3 : UserBeat.t) :
  sameBeat b1 b2 -> sameBeat b2 b3 -> sameBeat b1 b3.
Proof. unfold sameBeat. intros -> ->. destruct b1; reflexivity. Qed.

Lemma d_sameBeats_refl (h : gmap nat UserBeat.t) : sameBeats h h.
Proof.
  intros a. destruct (h !! a); constructor. apply d_sameBeat_refl.
Qed.

Lemma d_sameBeats_trans (h1 h2 h3 : gmap nat UserBeat.t) :
  sameBeats h1 h2 -> sameBeats h2 h3 -> sameBeats h1 h3.
Proof.
  intros H12 H23 a. specialize (H12 a). specialize (H23 a).
  destruct H12 as [b1 b2 Hb|]; inversion H23; subst; constructor.
  eapply d_sameBeat_trans; eauto.
Qed.

Lemma d_sameBeats_alter (h : gmap nat UserBeat.t) (a : nat) (p : option float) :
  sameBeats h (alter (fun b => UserBeat.set_localBeatPeriod b p) a h).
Proof.
  intros a'. destruct (decide (a = a')) as [<- | Hne].
  - rewrite lookup_alter_eq. destruct (h !! a) as [b|]; constructor.
    destruct b; reflexivity.
  - rewrite lookup_alter_ne by exact Hne. apply d_sameBeats_refl.
Qed.

Lemma d_sameBeats_write (h : gmap nat UserBeat.t) (addrs : list nat)
      (ps : list (option float)) :
  sameBeats h (writeLocalBeatPeriods h addrs ps).
Proof.
  unfold writeLocalBeatPeriods. generalize (zip addrs ps). intros l. revert h.
  induction l as [|[a p] l IH]; intros h; simpl; [apply d_sameBeats_refl|].
  eapply d_sameBeats_trans; [apply d_sameBeats_alter | apply IH].
Qed.

Lemma d_sameBeats_timeAt (h h' : gmap nat UserBeat.t) (a : nat) :
  sameBeats h h' -> timeAt h' a = timeAt h a.
Proof.
  intros H. specialize (H a). unfold timeAt, beatAt.
  destruct H as [b b' Hb|]; simpl; [|reflexivity]. rewrite Hb. destruct b; reflexivity.
Qed.


Lemma d_sameRegion_refl (r : TempoRegion.t) : sameRegion r r.
Proof. split; [destruct r; reflexivity | apply d_sameKind_refl]. Qed.

Lemma d_sameRegion_trans (r1 r2 r3 : TempoRegion.t) :
  sameRegion r1 r2 -> sameRegion r2 r3 -> sameRegion r1 r3.
Proof.
  intros [H1 K1] [H2 K2]. split; [|eapply d_sameKind_trans; eauto].
  rewrite H2. rewrite H1 at 1. destruct r1; reflexivity.
Qed.

Lemma d_sameRegions_refl (rs : list TempoRegion.t) : Forall2 sameRegion rs rs.
Proof. induction rs; constructor; [apply d_sameRegion_refl | assumption]. Qed.

Lemma d_sameRegions_trans (l1 l2 l3 : list TempoRegion.t) :
  Forall2 sameRegion l1 l2 -> Forall2 sameRegion l2 l3 -> Forall2 sameRegion l1 l3.
Proof.
  intros H. revert l3. induction H; intros l3 H'; inversion H'; subst; constructor.
  - eapply d_sameRegion_trans; eauto.
  - auto.
Qed.

Lemma d_sameStructure_refl (s : Engine.t) : sameStructure s s.
Proof.
  split; [apply d_sameRegions_refl|]. split; [apply d_sameBeats_refl|]. repeat split.
Qed.

Lemma d_sameStructure_trans (s1 s2 s3 : Engine.t) :
  sameStructure s1 s2 -> sameStructure s2 s3 -> sameStructure s1 s3.
Proof.
  intros (R1 & B1 & M1 & A1 & U1 & V1 & S1) (R2 & B2 & M2 & A2 & U2 & V2 & S2).
  split; [eapply d_sameRegions_trans; eauto|].
  split; [eapply d_sameBeats_trans; eauto|].
  repeat split; congruence.
Qed.

Lemma d_sameRegions_insert (rs : list TempoRegion.t) (p : nat) (r r' : TempoRegion.t) :
  rs !! p = Some r -> sameRegion r r' -> Forall2 sameRegion rs (<[p := r']> rs).
Proof.
  revert p. induction rs as [|x rs IH]; intros p Hp Hr; [discriminate|].
  destruct p as [|p]; simpl in *.
  - injection Hp as ->. constructor; [exact Hr | apply d_sameRegions_refl].
  - constructor; [apply d_sameRegion_refl | apply IH; assumption].
Qed.

Lemma d_recomputeRegion_frame (numberToString : float -> string) (s : Engine.t) (p : nat) :
  sameStructure s (recomputeRegion numberToString s p).
Proof.
  unfold recomputeRegion. destruct (Engine.regions s !! p) as [region|] eqn:Hp.
  2:{ apply d_sameStructure_refl. }
  destruct (TempoRegion.tempo region) as [value|bpm ph] eqn:Ht.
  - split; [|split; [|repeat split]]; simpl.
    + apply d_sameRegions_insert with (r := region); [exact Hp|].
      split; [destruct region; reflexivity|]. simpl. rewrite Ht. exact I.
    + apply d_sameBeats_write.
  - split; [|split; [|repeat split]]; simpl.
    + apply d_sameRegions_insert with (r := region); [exact Hp|].
      split; [destruct region; reflexivity|]. simpl. rewrite Ht. reflexivity.
    + apply d_sameBeats_refl.
Qed.

Lemma d_recomputeRegions_frame (numberToString : float -> string) (changed : list nat)
      (s : Engine.t) :
  sameStructure s (recomputeRegions numberToString s changed).
Proof.
  unfold recomputeRegions. revert s.
  induction changed as [|p changed IH]; intros s; simpl.
  - apply d_sameStructure_refl.
  - eapply d_sameStructure_trans; [apply d_recomputeRegion_frame | apply IH].
Qed.

(** ** The auto-beat projector *)

Lemma d_stepped_next (t step : float) (k : nat) :
  stepped (t + step) step k = stepped t step (S k).
Proof.
  unfold stepped. induction k as [|k IH]; simpl; [reflexivity|].
  simpl in IH. rewrite IH. reflexivity.
Qed.

Lemma d_forTimes_In (fuel : nat) (t upTo step : float) (l : list float) :
  forTimes fuel t upTo step = Some l ->
  forall x, In x l -> (exists k, x = stepped t step k) /\ (x <? upTo) = true.
Proof.
  revert t l. induction fuel as [|n IH]; intros t l; simpl.
  - destruct (t <? upTo); [discriminate|]. intros [= <-] x [].
  - destruct (t <? upTo) eqn:E.
    + destruct (forTimes n (t + step) upTo step) as [l'|] eqn:E'; [|discriminate].
      simpl. intros [= <-] x [<- | Hx].
      * split; [exists 0%nat; reflexivity | exact E].
      * destruct (IH _ _ E' x Hx) as [[k Hk] Hlt]. split; [|exact Hlt].
        exists (S k). rewrite Hk. apply d_stepped_next.
    + intros [= <-] x [].
Qed.

(** The list that the loop gives is the grid, as far as it is before
    [upTo]: the place after the last one is not. *)
Lemma d_forTimes_grid (fuel : nat) (t upTo step : float) (l : list float) :
  forTimes fuel t upTo step = Some l ->
  (forall i x, l !! i = Some x -> x = stepped t step i /\ (x <? upTo) = true)
  /\ (stepped t step (length l) <? upTo) = false.
Proof.
  revert t l. induction fuel as [|n IH]; intros t l; simpl.
  - destruct (t <? upTo) eqn:E; [discriminate|]. intros [= <-]. split; [|exact E].
    intros i x Hx. discriminate.
  - destruct (t <? upTo) eqn:E.
    + destruct (forTimes n (t + step) upTo step) as [l'|] eqn:E'; [|discriminate].
      simpl. intros [= <-]. destruct (IH _ _ E') as [H1 H2]. split.
      * intros [|i] x Hx; simpl in Hx.
        -- injection Hx as <-. split; [reflexivity | exact E].
        -- destruct (H1 i x Hx) as [Hk Hlt]. split; [|exact Hlt].
           rewrite Hk. apply d_stepped_next.
      * simpl length. rewrite <- d_stepped_next. exact H2.
    + intros [= <-]. split; [|exact E]. intros i x Hx. discriminate.
Qed.

Lemma d_timesFrom_In (fuel : nat) (t upTo step : float) (l : list float) :
  timesFrom fuel t upTo step = Ret l ->
  forall x, In x l -> (exists k, x = stepped t step k) /\ (x <? upTo) = true.
Proof.
  unfold timesFrom. destruct (forTimes fuel t upTo step) as [l'|] eqn:E; [|discriminate].
  intros [= <-]. eapply d_forTimes_In. exact E.
Qed.

Lemma d_timesFrom_noThrow (fuel : nat) (t upTo step : float) (e : Error) :
  timesFrom fuel t upTo step <> Throw e.
Proof. unfold timesFrom. destruct (forTimes fuel t upTo step); discriminate. Qed.

Lemma d_tappedAutoBeats_In (fuel : nat) (period endTime : float) (times l : list float) :
  tappedAutoBeats fuel period endTime times = Ret l ->
  forall x, In x l ->
    exists i u k, times !! i = Some u
                  /\ x = stepped (u + period) period k
                  /\ (x <? default endTime (times !! S i)) = true.
Proof.
  revert l. induction times as [|t0 times IH]; simpl; intros l.
  - intros [= <-] x [].
  - destruct (timesFrom fuel (t0 + period) _ period) as [l1| |] eqn:E1; try discriminate.
    ret. destruct (tappedAutoBeats fuel period endTime times) as [l2| |] eqn:E2;
      try discriminate.
    ret. intros [= <-] x Hx. apply in_app_or in Hx. destruct Hx as [Hx|Hx].
    + destruct (d_timesFrom_In _ _ _ _ _ E1 x Hx) as ([k Hk] & Hhi).
      exists 0%nat, t0, k. split; [reflexivity|]. split; [exact Hk|].
      simpl. destruct times; exact Hhi.
    + destruct (IH _ eq_refl x Hx) as (i & u & k & Hu & Hk & Hhi).
      exists (S i), u, k. split; [exact Hu|]. split; [exact Hk | exact Hhi].
Qed.

Lemma d_tappedAutoBeats_noThrow (fuel : nat) (period endTime : float) (times : list float)
      (e : Error) :
  tappedAutoBeats fuel period endTime times <> Throw e.
Proof.
  induction times as [|t0 times IH]; simpl; [discriminate|].
  pose proof (d_timesFrom_noThrow fuel (t0 + period)
                (match times with [] => endTime | next :: _ => next end) period e) as H1.
  destruct (timesFrom fuel (t0 + period) _ period) as [l1| |]; ret; try congruence.
  destruct (tappedAutoBeats fuel period endTime times) as [l2| |]; ret; congruence.
Qed.

Lemma d_computeAutoBeats_In (fuel : nat) (h : gmap nat UserBeat.t) (r : TempoRegion.t)
      (l : list float) :
  computeAutoBeats fuel h r = Ret l -> forall x, In x l -> autoBeatPlace h r x.
Proof.
  unfold computeAutoBeats, autoBeatPlace.
  destruct (TempoRegion.tempo r) as [[[mp sd]|]|bpm ph].
  - intros H x Hx. eapply d_tappedAutoBeats_In; eauto.
  - intros [= <-] x [].
  - intros H x Hx. eapply d_timesFrom_In; eauto.
Qed.

Lemma d_computeAutoBeats_noThrow (fuel : nat) (h : gmap nat UserBeat.t) (r : TempoRegion.t)
      (e : Error) :
  computeAutoBeats fuel h r <> Throw e.
Proof.
  unfold computeAutoBeats.
  destruct (TempoRegion.tempo r) as [[[mp sd]|]|bpm ph].
  - apply d_tappedAutoBeats_noThrow.
  - discriminate.
  - apply d_timesFrom_noThrow.
Qed.

Lemma d_place_times (i : nat) (old : list AutoBeat.t) (ts : list float) (n : nat) :
  List.map AutoBeat.time (fst (place i old ts n)) = ts.
Proof.
  revert old n. induction ts as [|t ts IH]; intros old n; simpl; [reflexivity|].
  destruct old as [|b old].
  - specialize (IH [] (S n)). destruct (place i [] ts (S n)). simpl in *. congruence.
  - specialize (IH old n). destruct (place i old ts n). simpl in *. congruence.
Qed.

Lemma d_set_autoBeats_same (r : TempoRegion.t) :
  TempoRegion.set_autoBeats r (TempoRegion.autoBeats r) = r.
Proof. destruct r; reflexivity. Qed.

Section Projector.

Variable duration : float.
Variable fuel : nat.

Lemma d_projectRegions_spec (vp : float * float) (h : gmap nat UserBeat.t)
      (rs rs' : list TempoRegion.t) (n n' : nat) :
  projectRegions duration fuel vp h rs n = Ret (rs', n') ->
  Forall2 (projected duration fuel vp h) rs rs'.
Proof.
  revert rs' n n'. induction rs as [|r rs IH]; intros rs' n n'; simpl.
  - intros [= <- <-]. constructor.
  - destruct (inView duration vp r) eqn:Ev.
    + destruct (computeAutoBeats fuel h r) as [l| |] eqn:Ec; try discriminate. ret.
      pose proof (d_place_times (TempoRegion.index r) (TempoRegion.autoBeats r)
                    (List.filter (drawn duration vp) l) n) as Hp.
      destruct (place _ _ _ n) as [placed m]. simpl in Hp.
      destruct (projectRegions duration fuel vp h rs m) as [[rs2 n2]| |] eqn:Er;
        try discriminate.
      ret. intros [= <- <-]. constructor; [|eapply IH; eauto].
      split; [reflexivity|]. rewrite Ev. exists l. simpl. auto.
    + destruct (projectRegions duration fuel vp h rs n) as [[rs2 n2]| |] eqn:Er;
        try discriminate.
      ret. intros [= <- <-]. constructor; [|eapply IH; eauto].
      split; [symmetry; apply d_set_autoBeats_same|]. rewrite Ev. reflexivity.
Qed.

Lemma d_projectRegions_noThrow (vp : float * float) (h : gmap nat UserBeat.t)
      (rs : list TempoRegion.t) (n : nat) (e : Error) :
  projectRegions duration fuel vp h rs n <> Throw e.
Proof.
  revert n. induction rs as [|r rs IH]; intros n; simpl; [discriminate|].
  destruct (inView duration vp r).
  - pose proof (d_computeAutoBeats_noThrow fuel h r e) as Hc.
    destruct (computeAutoBeats fuel h r) as [l| |]; ret; try congruence.
    destruct (place _ _ _ n) as [placed m].
    specialize (IH m).
    destruct (projectRegions duration fuel vp h rs m) as [[rs2 n2]| |]; ret; congruence.
  - specialize (IH n).
    destruct (projectRegions duration fuel vp h rs n) as [[rs2 n2]| |]; ret; congruence.
Qed.

Lemma d_inView_clear (vp : float * float) (r : TempoRegion.t) :
  inView duration vp (clearOutOfView duration vp r) = inView duration vp r.
Proof.
  unfold clearOutOfView. destruct (inView duration vp r) eqn:E; [exact E|].
  destruct r; exact E.
Qed.

Lemma d_redrawn_of_projected (vp : float * float) (h : gmap nat UserBeat.t)
      (rs rs' : list TempoRegion.t) :
  Forall2 (projected duration fuel vp h) (List.map (clearOutOfView duration vp) rs) rs' ->
  Forall2 (redrawn duration fuel vp h) rs rs'.
Proof.
  revert rs'. induction rs as [|r rs IH]; intros rs' H; simpl in H.
  - inversion H. constructor.
  - inversion H as [|x y l l' Hxy Hl]; subst. constructor; [|apply IH; exact Hl].
    destruct Hxy as [He Hv]. rewrite d_inView_clear in Hv.
    unfold redrawn, clearOutOfView in *.
    destruct (inView duration vp r) eqn:E.
    + split; assumption.
    + simpl in Hv. split.
      * rewrite He. destruct r; reflexivity.
      * exact Hv.
Qed.

Lemma d_drawAutopoints_spec (s s' : Engine.t) :
  drawAutopoints duration fuel s = Ret s' ->
  Forall2 (redrawn duration fuel (Engine.viewport s) (Engine.beats s))
          (Engine.regions s) (Engine.regions s')
  /\ Engine.beats s' = Engine.beats s
  /\ Engine.userBeatsById s' = Engine.userBeatsById s
  /\ Engine.nextRegionId s' = Engine.nextRegionId s
  /\ Engine.nextUserBeatId s' = Engine.nextUserBeatId s
  /\ Engine.viewport s' = Engine.viewport s
  /\ Engine.selectedRegionId s' = Engine.selectedRegionId s
  /\ Engine.trace s' = Engine.trace s ++ [EvProject].
Proof.
  unfold drawAutopoints. simpl.
  destruct (projectRegions duration fuel (Engine.viewport s) (Engine.beats s) _ _)
    as [[rs n]| |] eqn:E; try discriminate.
  ret. intros [= <-]. simpl. repeat split.
  apply d_redrawn_of_projected. eapply d_projectRegions_spec. exact E.
Qed.

Lemma d_drawAutopoints_noThrow (s : Engine.t) (e : Error) :
  drawAutopoints duration fuel s <> Throw e.
Proof.
  unfold drawAutopoints. simpl.
  pose proof (d_projectRegions_noThrow (Engine.viewport s) (Engine.beats s)
                (List.map (clearOutOfView duration (Engine.viewport s)) (Engine.regions s))
                (Engine.nextAutoBeatId s) e) as H.
  destruct (projectRegions duration fuel (Engine.viewport s) (Engine.beats s) _ _)
    as [[rs n]| |]; ret; congruence.
Qed.

Lemma d_drawAutopoints_frame (s s' : Engine.t) :
  drawAutopoints duration fuel s = Ret s' -> sameStructure s s'.
Proof.
  intros H. apply d_drawAutopoints_spec in H.
  destruct H as (HF & Hb & Hm & Hr & Hu & Hv & Hs & _).
  split; [|split; [rewrite Hb; apply d_sameBeats_refl | repeat split; assumption]].
  eapply Forall2_impl; [exact HF|]. intros r r' [He _].
  split; [rewrite He; destruct r; reflexivity|].
  rewrite He. destruct r; simpl. apply d_sameKind_refl.
Qed.

End Projector.

(** ** Saving *)

Lemma d_saveRegions_noThrow (fuel : nat) (h : gmap nat UserBeat.t)
      (rs : list TempoRegion.t) (e : Error) :
  saveRegions fuel h rs <> Throw e.
Proof.
  induction rs as [|r rs IH]; simpl; [discriminate|].
  unfold saveRegion.
  pose proof (d_computeAutoBeats_noThrow fuel h r e) as Hc.
  destruct (computeAutoBeats fuel h r) as [l| |]; ret; try congruence.
  destruct (saveRegions fuel h rs) as [j| |]; ret; congruence.
Qed.

Lemma d_saveState_spec (fuel : nat) (s s' : Engine.t) (j : SaveObject) :
  saveState fuel s = Ret (j, s') ->
  saveRegions fuel (Engine.beats s) (Engine.regions s) = Ret j
  /\ s' = Engine.log s (EvSave j).
Proof.
  unfold saveState. destruct (saveRegions _ _ _) as [j'| |]; try discriminate.
  ret. intros [= <- <-]. split; reflexivity.
Qed.

Lemma d_saveState_noThrow (fuel : nat) (s : Engine.t) (e : Error) :
  saveState fuel s <> Throw e.
Proof.
  unfold saveState.
  pose proof (d_saveRegions_noThrow fuel (Engine.beats s) (Engine.regions s) e) as H.
  destruct (saveRegions _ _ _) as [j'| |]; ret; congruence.
Qed.

Lemma d_saveState_frame (fuel : nat) (s s' : Engine.t) (j : SaveObject) :
  saveState fuel s = Ret (j, s') -> sameStructure s s'.
Proof.
  intros H. apply d_saveState_spec in H. destruct H as [_ ->].
  split; [apply d_sameRegions_refl|]. split; [apply d_sameBeats_refl|]. repeat split.
Qed.

(** ** The pass after an edit *)

Section Pass.

Variable duration : float.
Variable numberToString : float -> string.
Variable fuel : nat.

Lemma d_onRegionsChanged_frame (s s' : Engine.t) (changed : list nat) (doSave : bool) :
  onRegionsChanged duration numberToString fuel s changed doSave = Ret s' ->
  sameStructure s s'.
Proof.
  unfold onRegionsChanged.
  pose proof (d_recomputeRegions_frame numberToString changed s) as E1.
  set (s1 := recomputeRegions numberToString s changed) in *. clearbody s1.
  destruct (drawAutopoints duration fuel s1) as [s2| |] eqn:E2; try discriminate.
  ret. apply d_drawAutopoints_frame in E2.
  destruct doSave.
  - destruct (saveState fuel s2) as [[j s3]| |] eqn:E3; try discriminate. ret.
    intros [= <-]. apply d_saveState_frame in E3.
    eapply d_sameStructure_trans; [exact E1|]. eapply d_sameStructure_trans; eauto.
  - intros [= <-]. eapply d_sameStructure_trans; eauto.
Qed.

(** The pass throws nothing: it returns, or a loop of it has not ended. *)
Lemma d_onRegionsChanged_noThrow (s : Engine.t) (changed : list nat) (doSave : bool)
      (e : Error) :
  onRegionsChanged duration numberToString fuel s changed doSave <> Throw e.
Proof.
  unfold onRegionsChanged.
  set (s1 := recomputeRegions numberToString s changed). clearbody s1.
  pose proof (d_drawAutopoints_noThrow duration fuel s1 e) as H2.
  destruct (drawAutopoints duration fuel s1) as [s2| |]; ret; try congruence.
  destruct doSave; [|discriminate].
  pose proof (d_saveState_noThrow fuel s2 e) as H3.
  destruct (saveState fuel s2) as [[j s3]| |]; ret; congruence.
Qed.

End Pass.

(** ** Moving a beat *)

Section Move.

Variable duration : float.
Variable numberToString : float -> string.
Variable fuel : nat.

Lemma d_tryMovePoint_clampTo (s : Engine.t) (id a : nat) (beat : UserBeat.t) (q i : nat)
      (region : TempoRegion.t) (toTime : float) :
  Engine.userBeatsById s !! id = Some (Some a) ->
  Engine.beats s !! a = Some beat ->
  UserBeat.regionIndex beat = q ->
  Engine.regions s !! q = Some region ->
  TempoRegion.index region = q ->
  TempoRegion.userBeats region !! i = Some a ->
  (forall j b, (j < i)%nat -> TempoRegion.userBeats region !! j = Some b ->
               UserBeat.id (beatAt (Engine.beats s) b) <> UserBeat.id beat) ->
  (forall next, S i = length (TempoRegion.userBeats region) ->
                Engine.regions s !! S q = Some next -> TempoRegion.userBeats next <> []) ->
  let clamped := clampTo duration toTime
                         (timeAt (Engine.beats s) <$> predecessor s q i)
                         (timeAt (Engine.beats s) <$> successor s q i)
                         (isFinal s q i) in
  exists s1,
    tryMovePoint duration numberToString fuel id toTime phase_start s = Ret (clamped, s1)
    /\ tryMovePoint duration numberToString fuel id toTime phase_move s = Ret (clamped, s1)
    /\ tryMovePoint duration numberToString fuel id toTime phase_end s
       = (s2 ← onRegionsChanged duration numberToString fuel s1 [q] true; mret (clamped, s2))
    /\ Engine.beats s1 = alter (fun b => UserBeat.set_time b clamped) a (Engine.beats s).
Proof.
  intros Hid Hbeat Hq Hr Hidx Hi Hfirst Hnext clamped.
  assert (Hb : beatAt (Engine.beats s) a = beat).
  { unfold beatAt. rewrite Hbeat. reflexivity. }
  assert (Hlen : (i < length (TempoRegion.userBeats region))%nat).
  { eapply lookup_lt_Some. exact Hi. }
  assert (Hqlen : (q < length (Engine.regions s))%nat).
  { eapply lookup_lt_Some. exact Hr. }
  assert (Hfind : findIndex (fun b => (UserBeat.id (beatAt (Engine.beats s) b)
                                       =? UserBeat.id beat)%nat)
                            (TempoRegion.userBeats region) = Z.of_nat i).
  { apply findIndex_first with (x := a); [exact Hi | |].
    - rewrite Hb. apply Nat.eqb_refl.
    - intros j y Hj Hy. apply Nat.eqb_neq. eapply Hfirst; eauto. }
  unfold tryMovePoint, beatById. rewrite Hid. ret. rewrite Hb, Hq, Hr, Hfind, Hidx.
  (* the clamp against the beat before *)
  set (c1 := if (0 <? Z.of_nat i)%Z then _ else _).
  assert (Hc1 : c1 = match timeAt (Engine.beats s) <$> predecessor s q i with
                     | Some p => Math_max toTime (p + MIN_BEAT_SPACING)
                     | None => toTime
                     end).
  { unfold c1, predecessor. rewrite Hr.
    destruct i as [|i'].
    - simpl. destruct (0 <? q)%nat; [|reflexivity].
      destruct (Engine.regions s !! (q - 1)%nat) as [prev|]; [|reflexivity].
      destruct (last (TempoRegion.userBeats prev)); reflexivity.
    - replace (0 <? Z.of_nat (S i'))%Z with true by (symmetry; apply Z.ltb_lt; lia).
      replace (Z.to_nat (Z.of_nat (S i') - 1)) with i' by lia.
      simpl. rewrite Nat.sub_0_r.
      destruct (TempoRegion.userBeats region !! i'); reflexivity. }
  (* the clamp against the beat after *)
  set (r2 := if (Z.of_nat i <? _ - 1)%Z then _ else _).
  assert (Hc2 : r2 = Ret (match timeAt (Engine.beats s) <$> successor s q i with
                          | Some n => Math_min c1 (n - MIN_BEAT_SPACING)
                          | None => c1
                          end)).
  { unfold r2, successor. rewrite Hr.
    destruct (S i <? length (TempoRegion.userBeats region))%nat eqn:E.
    - apply Nat.ltb_lt in E.
      replace (Z.of_nat i <? Z.of_nat (length (TempoRegion.userBeats region)) - 1)%Z
        with true by (symmetry; apply Z.ltb_lt; lia).
      replace (Z.to_nat (Z.of_nat i + 1)) with (S i) by lia.
      destruct (lookup_lt_is_Some_2 (TempoRegion.userBeats region) (S i) E) as [b Hb'].
      rewrite Hb'. reflexivity.
    - apply Nat.ltb_ge in E.
      replace (Z.of_nat i <? Z.of_nat (length (TempoRegion.userBeats region)) - 1)%Z
        with false by (symmetry; apply Z.ltb_ge; lia).
      replace (q + 1)%nat with (S q) by lia.
      destruct (Z.of_nat q <? Z.of_nat (length (Engine.regions s)) - 1)%Z eqn:E'.
      + apply Z.ltb_lt in E'.
        destruct (lookup_lt_is_Some_2 (Engine.regions s) (S q) ltac:(lia)) as [next Hn].
        rewrite Hn. specialize (Hnext next ltac:(lia) Hn).
        destruct (TempoRegion.userBeats next); [congruence | reflexivity].
      + apply Z.ltb_ge in E'.
        rewrite (lookup_ge_None_2 (Engine.regions s) (S q)) by lia. reflexivity. }
  rewrite Hc2. ret.
  set (c3 := if (_ && _)%bool then _ else _).
  assert (Hc3 : c3 = clamped).
  { unfold c3, clamped, clampTo, isFinal. rewrite Hr, <- Hc1.
    replace ((Z.of_nat q =? Z.of_nat (length (Engine.regions s)) - 1)%Z
             && (Z.of_nat i =? Z.of_nat (length (TempoRegion.userBeats region)) - 1)%Z)
      with ((S q =? length (Engine.regions s))%nat
            && (S i =? length (TempoRegion.userBeats region))%nat); [reflexivity|].
    f_equal.
    - destruct (S q =? length (Engine.regions s))%nat eqn:E1;
        [apply Nat.eqb_eq in E1; symmetry; apply Z.eqb_eq; lia
        |apply Nat.eqb_neq in E1; symmetry; apply Z.eqb_neq; lia].
    - destruct (S i =? length (TempoRegion.userBeats region))%nat eqn:E1;
        [apply Nat.eqb_eq in E1; symmetry; apply Z.eqb_eq; lia
        |apply Nat.eqb_neq in E1; symmetry; apply Z.eqb_neq; lia]. }
  rewrite Hc3. eexists. split; [reflexivity|]. split; [reflexivity|].
  split; reflexivity.
Qed.

End Move.

(** The last beat of the last region has no beat after it. *)
Lemma d_final_no_successor (s : Engine.t) (q i : nat) :
  isFinal s q i = true -> successor s q i = None.
Proof.
  unfold isFinal, successor. destruct (Engine.regions s !! q) as [r|]; [|reflexivity].
  intros H. apply andb_prop in H. destruct H as [H1 H2].
  apply Nat.eqb_eq in H1. apply Nat.eqb_eq in H2.
  replace (S i <? length (TempoRegion.userBeats r))%nat with false
    by (symmetry; apply Nat.ltb_ge; lia).
  rewrite (lookup_ge_None_2 (Engine.regions s) (S q)) by lia. reflexivity.
Qed.

(** The clamp is not above the floor before the beat after, not above the
    duration for the last beat of all, and not below the floor after the
    beat before where the neighbours leave room for that. *)
Lemma d_clampTo_after (duration toTime n : float) (before : option float) :
  (n - MIN_BEAT_SPACING <? clampTo duration toTime before (Some n) false) = false.
Proof. unfold clampTo. apply Math_min_not_above_r. Qed.

Lemma d_clampTo_final (duration toTime : float) (before after : option float) :
  (duration <? clampTo duration toTime before after true) = false.
Proof. unfold clampTo. apply Math_min_not_above_r. Qed.

Lemma d_clampTo_before (duration toTime p : float) (after : option float) (final : bool) :
  (forall n, after = Some n -> (n - MIN_BEAT_SPACING <? p + MIN_BEAT_SPACING) = false) ->
  (final = true -> (duration <? p + MIN_BEAT_SPACING) = false) ->
  (clampTo duration toTime (Some p) after final <? p + MIN_BEAT_SPACING) = false.
Proof.
  intros Hn Hf. unfold clampTo.
  pose proof (Math_max_not_below_r toTime (p + MIN_BEAT_SPACING)) as H1.
  set (c := Math_max toTime (p + MIN_BEAT_SPACING)) in *. clearbody c.
  assert (H2 : (match after with
                | Some n => Math_min c (n - MIN_BEAT_SPACING)
                | None => c
                end <? p + MIN_BEAT_SPACING) = false).
  { destruct after as [n|]; [|exact H1].
    apply Math_min_not_below; [exact H1 | apply Hn; reflexivity]. }
  destruct final; [|exact H2].
  apply Math_min_not_below; [exact H2 | apply Hf; reflexivity].
Qed.


(** ** When the loops end *)

Lemma d_forTimes_mono (fuel fuel' : nat) (t upTo step : float) (l : list float) :
  forTimes fuel t upTo step = Some l -> (fuel <= fuel')%nat ->
  forTimes fuel' t upTo step = Some l.
Proof.
  revert fuel' t l. induction fuel as [|n IH]; intros fuel' t l; simpl.
  - destruct (t <? upTo) eqn:E; [discriminate|]. intros [= <-] _.
    destruct fuel'; simpl; rewrite E; reflexivity.
  - destruct (t <? upTo) eqn:E.
    + destruct (forTimes n (t + step) upTo step) as [l'|] eqn:E'; [|discriminate].
      simpl. intros [= <-] Hle. destruct fuel' as [|m]; [lia|]. simpl. rewrite E.
      rewrite (IH m _ _ E') by lia. reflexivity.
    + intros [= <-] _. destruct fuel'; simpl; rewrite E; reflexivity.
Qed.

Lemma d_forTimes_rounds (k : nat) (t upTo step : float) :
  (stepped t step k <? upTo) = false -> exists l, forTimes k t upTo step = Some l.
Proof.
  revert t. induction k as [|k IH]; intros t H; simpl.
  - unfold stepped in H. simpl in H. rewrite H. eauto.
  - destruct (t <? upTo); [|eauto].
    rewrite <- d_stepped_next in H. destruct (IH _ H) as [l ->]. simpl. eauto.
Qed.

(** A loop that ends gives its list with every fuel that is enough, and a
    loop that gave a list has ended. *)
Lemma d_timesFrom_ends (t upTo step : float) :
  loopEnds t upTo step ->
  exists N l, forall fuel, (N <= fuel)%nat -> timesFrom fuel t upTo step = Ret l.
Proof.
  intros [k Hk]. destruct (d_forTimes_rounds k t upTo step Hk) as [l Hl].
  exists k, l. intros fuel Hle. unfold timesFrom.
  rewrite (d_forTimes_mono k fuel _ _ _ _ Hl Hle). reflexivity.
Qed.

Lemma d_timesFrom_ended (fuel : nat) (t upTo step : float) (l : list float) :
  timesFrom fuel t upTo step = Ret l -> loopEnds t upTo step.
Proof.
  unfold timesFrom. destruct (forTimes fuel t upTo step) as [l'|] eqn:E; [|discriminate].
  intros _. exists (length l'). apply (d_forTimes_grid _ _ _ _ _ E).
Qed.

Lemma d_tappedAutoBeats_ends (period endTime : float) (times : list float) :
  tappedLoopsEnd period endTime times ->
  exists N l, forall fuel, (N <= fuel)%nat ->
                           tappedAutoBeats fuel period endTime times = Ret l.
Proof.
  induction times as [|x times IH]; simpl.
  - intros _. exists 0%nat, []. reflexivity.
  - intros [H1 H2]. destruct (d_timesFrom_ends _ _ _ H1) as (N1 & l1 & E1).
    destruct (IH H2) as (N2 & l2 & E2).
    exists (Nat.max N1 N2), (l1 ++ l2). intros fuel Hle.
    rewrite E1 by lia. ret. rewrite E2 by lia. reflexivity.
Qed.

Lemma d_tappedAutoBeats_ended (fuel : nat) (period endTime : float) (times l : list float) :
  tappedAutoBeats fuel period endTime times = Ret l -> tappedLoopsEnd period endTime times.
Proof.
  revert l. induction times as [|x times IH]; simpl; intros l; [auto|].
  destruct (timesFrom fuel (x + period) _ period) as [l1| |] eqn:E1; try discriminate.
  ret. destruct (tappedAutoBeats fuel period endTime times) as [l2| |] eqn:E2;
    try discriminate.
  intros _. split; [eapply d_timesFrom_ended; exact E1 | eapply IH; reflexivity].
Qed.

Lemma d_computeAutoBeats_ends (h : gmap nat UserBeat.t) (r : TempoRegion.t) :
  loopsEnd h r ->
  exists N l, forall fuel, (N <= fuel)%nat -> computeAutoBeats fuel h r = Ret l.
Proof.
  unfold loopsEnd, computeAutoBeats. destruct (TempoRegion.tempo r) as [[[mp sd]|]|bpm ph].
  - apply d_tappedAutoBeats_ends.
  - intros _. exists 0%nat, []. reflexivity.
  - apply d_timesFrom_ends.
Qed.

Lemma d_computeAutoBeats_ended (fuel : nat) (h : gmap nat UserBeat.t) (r : TempoRegion.t)
      (l : list float) :
  computeAutoBeats fuel h r = Ret l -> loopsEnd h r.
Proof.
  unfold loopsEnd, computeAutoBeats. destruct (TempoRegion.tempo r) as [[[mp sd]|]|bpm ph].
  - apply d_tappedAutoBeats_ended.
  - auto.
  - apply d_timesFrom_ended.
Qed.

Lemma d_loopsEnd_set_autoBeats (h : gmap nat UserBeat.t) (r : TempoRegion.t)
      (l : list AutoBeat.t) :
  loopsEnd h (TempoRegion.set_autoBeats r l) <-> loopsEnd h r.
Proof. destruct r. reflexivity. Qed.

Lemma d_inView_set_autoBeats (duration : float) (vp : float * float) (r : TempoRegion.t)
      (l : list AutoBeat.t) :
  inView duration vp (TempoRegion.set_autoBeats r l) = inView duration vp r.
Proof. destruct r. reflexivity. Qed.

Lemma d_projectRegions_ends (duration : float) (vp : float * float)
      (h : gmap nat UserBeat.t) (rs : list TempoRegion.t) :
  Forall (fun r => inView duration vp r = true -> loopsEnd h r) rs ->
  exists N, forall n, exists out, forall fuel, (N <= fuel)%nat ->
    projectRegions duration fuel vp h rs n = Ret out.
Proof.
  induction rs as [|r rs IH]; intros H.
  - exists 0%nat. intros n. exists ([], n). reflexivity.
  - inversion H as [|x l Hr Hrs]; subst. destruct (IH Hrs) as [N2 E2].
    destruct (inView duration vp r) eqn:Ev.
    + destruct (d_computeAutoBeats_ends h r (Hr eq_refl)) as (N1 & l & E1).
      exists (Nat.max N1 N2). intros n.
      destruct (place (TempoRegion.index r) (TempoRegion.autoBeats r)
                      (List.filter (drawn duration vp) l) n) as [placed m] eqn:Ep.
      destruct (E2 m) as [[rs2 n2] E3].
      exists (TempoRegion.set_autoBeats r placed :: rs2, n2). intros fuel Hle.
      simpl. rewrite Ev, E1 by lia. ret. rewrite Ep, E3 by lia. reflexivity.
    + exists N2. intros n. destruct (E2 n) as [[rs2 n2] E3].
      exists (r :: rs2, n2). intros fuel Hle. simpl. rewrite Ev, E3 by lia. reflexivity.
Qed.

Lemma d_drawAutopoints_ends (duration : float) (s : Engine.t) :
  projectionEnds duration s ->
  exists N s', forall fuel, (N <= fuel)%nat -> drawAutopoints duration fuel s = Ret s'.
Proof.
  intros H. unfold drawAutopoints. simpl.
  destruct (d_projectRegions_ends duration (Engine.viewport s) (Engine.beats s)
              (List.map (clearOutOfView duration (Engine.viewport s)) (Engine.regions s)))
    as [N E].
  { apply Forall_map. eapply Forall_impl; [exact H|]. intros r Hr. simpl.
    rewrite d_inView_clear. intros Hv. unfold clearOutOfView. rewrite Hv.
    apply Hr. exact Hv. }
  destruct (E (Engine.nextAutoBeatId s)) as [[rs n] E'].
  eexists N, _. intros fuel Hle. rewrite E' by exact Hle. reflexivity.
Qed.

Lemma d_drawAutopoints_ended (duration : float) (fuel : nat) (s s' : Engine.t) :
  drawAutopoints duration fuel s = Ret s' -> projectionEnds duration s.
Proof.
  intros H. apply d_drawAutopoints_spec in H. destruct H as [HF _].
  unfold projectionEnds. revert HF. generalize (Engine.regions s'). 
  induction (Engine.regions s) as [|r rs IH]; intros rs' HF; [constructor|].
  inversion HF as [|x y l l' Hxy Hl]; subst. constructor; [|eapply IH; exact Hl].
  intros Hv. destruct Hxy as [_ Hxy]. rewrite Hv in Hxy. destruct Hxy as (l0 & Hc & _).
  eapply d_computeAutoBeats_ended. exact Hc.
Qed.

Lemma d_saveRegions_ends (h : gmap nat UserBeat.t) (rs : list TempoRegion.t) :
  Forall (loopsEnd h) rs ->
  exists N j, forall fuel, (N <= fuel)%nat -> saveRegions fuel h rs = Ret j.
Proof.
  induction rs as [|r rs IH]; intros H.
  - exists 0%nat, []. reflexivity.
  - inversion H as [|x l Hr Hrs]; subst.
    destruct (d_computeAutoBeats_ends h r Hr) as (N1 & l & E1).
    destruct (IH Hrs) as (N2 & j & E2).
    eexists (Nat.max N1 N2), _. intros fuel Hle. simpl. unfold saveRegion.
    rewrite E1 by lia. ret. rewrite E2 by lia. reflexivity.
Qed.

Lemma d_saveRegions_ended (fuel : nat) (h : gmap nat UserBeat.t) (rs : list TempoRegion.t)
      (j : SaveObject) :
  saveRegions fuel h rs = Ret j -> Forall (loopsEnd h) rs.
Proof.
  revert j. induction rs as [|r rs IH]; intros j; simpl; [constructor|].
  unfold saveRegion.
  destruct (computeAutoBeats fuel h r) as [l| |] eqn:Ec; try discriminate. ret.
  destruct (saveRegions fuel h rs) as [j'| |] eqn:Es; try discriminate.
  intros _. constructor; [eapply d_computeAutoBeats_ended; exact Ec | eapply IH; reflexivity].
Qed.

Lemma d_saveState_ends (s : Engine.t) :
  savingEnds s ->
  exists N out, forall fuel, (N <= fuel)%nat -> saveState fuel s = Ret out.
Proof.
  intros H. destruct (d_saveRegions_ends _ _ H) as (N & j & E).
  eexists N, _. intros fuel Hle. unfold saveState. rewrite E by exact Hle. reflexivity.
Qed.

Lemma d_savingEnds_redrawn (duration : float) (fuel : nat) (s s' : Engine.t) :
  drawAutopoints duration fuel s = Ret s' -> savingEnds s <-> savingEnds s'.
Proof.
  intros H. apply d_drawAutopoints_spec in H. destruct H as (HF & Hb & _).
  unfold savingEnds. rewrite Hb. revert HF. generalize (Engine.regions s').
  induction (Engine.regions s) as [|r rs IH]; intros rs' HF.
  - inversion HF. split; constructor.
  - inversion HF as [|x y l l' Hxy Hl]; subst. destruct Hxy as [He _].
    specialize (IH _ Hl).
    split; intros HH; inversion HH as [|x' l0 Hx Hl0]; subst; constructor.
    + rewrite He. apply d_loopsEnd_set_autoBeats. exact Hx.
    + apply IH. exact Hl0.
    + rewrite He in Hx. apply d_loopsEnd_set_autoBeats in Hx. exact Hx.
    + apply IH. exact Hl0.
Qed.

(** The pass returns with every fuel that is enough exactly when its loops
    end. *)
Lemma d_onRegionsChanged_ends (duration : float) (numberToString : float -> string)
      (s : Engine.t) (changed : list nat) (doSave : bool) :
  passEnds duration numberToString s changed doSave ->
  exists N s', forall fuel, (N <= fuel)%nat ->
    onRegionsChanged duration numberToString fuel s changed doSave = Ret s'.
Proof.
  unfold passEnds, onRegionsChanged. intros [Hp Hs].
  set (s1 := recomputeRegions numberToString s changed) in *. clearbody s1.
  destruct (d_drawAutopoints_ends duration s1 Hp) as (N1 & s2 & E1).
  destruct doSave.
  - assert (Hs2 : savingEnds s2).
    { apply (d_savingEnds_redrawn duration N1 s1 s2 (E1 N1 (Nat.le_refl _))).
      apply Hs. reflexivity. }
    destruct (d_saveState_ends s2 Hs2) as (N2 & [j s3] & E2).
    exists (Nat.max N1 N2), s3. intros fuel Hle.
    rewrite E1 by lia. ret. rewrite E2 by lia. reflexivity.
  - exists N1, s2. intros fuel Hle. rewrite E1 by lia. reflexivity.
Qed.

Lemma d_onRegionsChanged_ended (duration : float) (numberToString : float -> string)
      (fuel : nat) (s s' : Engine.t) (changed : list nat) (doSave : bool) :
  onRegionsChanged duration numberToString fuel s changed doSave = Ret s' ->
  passEnds duration numberToString s changed doSave.
Proof.
  unfold passEnds, onRegionsChanged.
  set (s1 := recomputeRegions numberToString s changed). clearbody s1.
  destruct (drawAutopoints duration fuel s1) as [s2| |] eqn:E1; try discriminate. ret.
  intros H. split; [eapply d_drawAutopoints_ended; exact E1|].
  intros ->. destruct (saveState fuel s2) as [[j s3]| |] eqn:E2; try discriminate.
  apply d_saveState_spec in E2. destruct E2 as [E2 _].
  apply (d_savingEnds_redrawn duration fuel s1 s2 E1).
  eapply d_saveRegions_ended. exact E2.
Qed.

(** Only the phase [end] runs a loop. *)
Lemma d_tryMovePoint_fuel (duration : float) (numberToString : float -> string)
      (fuel fuel' : nat) (id : nat) (toTime : float) (s : Engine.t) :
  tryMovePoint duration numberToString fuel id toTime phase_start s
  = tryMovePoint duration numberToString fuel' id toTime phase_start s
  /\ tryMovePoint duration numberToString fuel id toTime phase_move s
     = tryMovePoint duration numberToString fuel' id toTime phase_move s.
Proof. split; reflexivity. Qed.

(** A loop whose running time no longer changes below the bound does not
    end, and a loop ends only if it ends from its next round on. *)
Lemma d_stepped_stuck (t step : float) (k : nat) : t + step = t -> stepped t step k = t.
Proof.
  intros H. induction k as [|k IH]; [reflexivity|].
  rewrite <- d_stepped_next, H. exact IH.
Qed.

Lemma d_loopEnds_stuck (t upTo step : float) :
  t + step = t -> (t <? upTo) = true -> ~ loopEnds t upTo step.
Proof.
  intros Hs Ht [k Hk]. rewrite (d_stepped_stuck _ _ k Hs) in Hk. congruence.
Qed.


(** C4, as amended.  For the id of a user beat that sits in its region
    and, where that beat is the last of its region and a region follows,
    with a beat in the region that follows: [tryMovePoint] with the phase
    [start] or [move] returns the clamp of the target time and stores it in
    the beat.  The returned time is not above the difference
    [successor - floor] that the code computes in binary64, and not above
    the track duration for the last beat of the last region; it is not below
    the sum [predecessor + floor] that the code computes, provided this sum
    is not above [successor - floor] (nor above the duration for the last
    beat of the last region).  With the phase [end] the call throws nothing
    and whatever it returns is the same time, still stored in the beat; it
    returns when every loop of the recompute, projection and save pass that
    follows ends, and does not return otherwise. *)
Theorem C4_tryMovePoint_clamps
        (duration : float) (numberToString : float -> string)
        (s : Engine.t) (id a : nat) (beat : UserBeat.t) (q i : nat)
        (region : TempoRegion.t) (toTime : float) :
  Engine.userBeatsById s !! id = Some (Some a) ->
  Engine.beats s !! a = Some beat ->
  UserBeat.regionIndex beat = q ->
  Engine.regions s !! q = Some region ->
  TempoRegion.index region = q ->
  TempoRegion.userBeats region !! i = Some a ->
  (forall j b, (j < i)%nat -> TempoRegion.userBeats region !! j = Some b ->
               UserBeat.id (beatAt (Engine.beats s) b) <> UserBeat.id beat) ->
  (forall next, S i = length (TempoRegion.userBeats region) ->
                Engine.regions s !! S q = Some next -> TempoRegion.userBeats next <> []) ->
  let before := timeAt (Engine.beats s) <$> predecessor s q i in
  let after := timeAt (Engine.beats s) <$> successor s q i in
  exists clamped s1,
    clamped = clampTo duration toTime before after (isFinal s q i)
    /\ (forall fuel,
          tryMovePoint duration numberToString fuel id toTime phase_start s = Ret (clamped, s1)
          /\ tryMovePoint duration numberToString fuel id toTime phase_move s
             = Ret (clamped, s1))
    /\ timeAt (Engine.beats s1) a = clamped
    /\ (forall fuel,
          tryMovePoint duration numberToString fuel id toTime phase_end s = OutOfFuel
          \/ exists s2,
               tryMovePoint duration numberToString fuel id toTime phase_end s
               = Ret (clamped, s2)
               /\ timeAt (Engine.beats s2) a = clamped)
    /\ (passEnds duration numberToString s1 [q] true ->
        exists N s2, forall fuel, (N <= fuel)%nat ->
          tryMovePoint duration numberToString fuel id toTime phase_end s
          = Ret (clamped, s2))
    /\ (~ passEnds duration numberToString s1 [q] true ->
        forall fuel,
          tryMovePoint duration numberToString fuel id toTime phase_end s = OutOfFuel)
    /\ (forall n, after = Some n -> (n - MIN_BEAT_SPACING <? clamped) = false)
    /\ (isFinal s q i = true -> (duration <? clamped) = false)
    /\ (forall p, before = Some p ->
          (forall n, after = Some n ->
                     (n - MIN_BEAT_SPACING <? p + MIN_BEAT_SPACING) = false) ->
          (isFinal s q i = true -> (duration <? p + MIN_BEAT_SPACING) = false) ->
          (clamped <? p + MIN_BEAT_SPACING) = false).
Proof.
  intros Hid Hbeat Hq Hr Hidx Hi Hfirst Hnext before after.
  destruct (d_tryMovePoint_clampTo duration numberToString 0 s id a beat q i region toTime
              Hid Hbeat Hq Hr Hidx Hi Hfirst Hnext)
    as (s1 & Hstart & Hmove & _ & Hheap).
  fold before after in Hstart, Hmove, Hheap.
  set (clamped := clampTo duration toTime before after (isFinal s q i)) in *.
  assert (Ht : timeAt (Engine.beats s1) a = clamped).
  { unfold timeAt, beatAt. rewrite Hheap, lookup_alter_eq, Hbeat. reflexivity. }
  assert (Hend : forall fuel,
             tryMovePoint duration numberToString fuel id toTime phase_end s
             = (s2 ← onRegionsChanged duration numberToString fuel s1 [q] true;
                mret (clamped, s2))).
  { intros fuel.
    destruct (d_tryMovePoint_clampTo duration numberToString fuel s id a beat q i region
                toTime Hid Hbeat Hq Hr Hidx Hi Hfirst Hnext)
      as (s1' & _ & Hmove' & Hend' & _).
    fold before after in Hmove', Hend'. fold clamped in Hmove', Hend'.
    destruct (d_tryMovePoint_fuel duration numberToString 0 fuel id toTime s) as [_ Hf].
    rewrite Hf, Hmove' in Hmove. injection Hmove as <-. exact Hend'. }
  assert (Hcases : forall fuel,
             tryMovePoint duration numberToString fuel id toTime phase_end s = OutOfFuel
             \/ exists s2,
                  tryMovePoint duration numberToString fuel id toTime phase_end s
                  = Ret (clamped, s2)
                  /\ timeAt (Engine.beats s2) a = clamped
                  /\ passEnds duration numberToString s1 [q] true).
  { intros fuel. rewrite Hend.
    destruct (onRegionsChanged duration numberToString fuel s1 [q] true) as [s2|e|] eqn:E.
    - right. exists s2. split; [reflexivity|]. split.
      + apply d_onRegionsChanged_frame in E. destruct E as (_ & HB & _).
        rewrite (d_sameBeats_timeAt _ _ a HB). exact Ht.
      + eapply d_onRegionsChanged_ended. exact E.
    - exfalso. exact (d_onRegionsChanged_noThrow _ _ _ _ _ _ _ E).
    - left. reflexivity. }
  exists clamped, s1.
  split; [reflexivity|]. split.
  { intros fuel.
    destruct (d_tryMovePoint_fuel duration numberToString 0 fuel id toTime s) as [Hf1 Hf2].
    rewrite <- Hf1, <- Hf2. split; assumption. }
  split; [exact Ht|]. split.
  { intros fuel. destruct (Hcases fuel) as [H|(s2 & H1 & H2 & _)]; [left; exact H|].
    right. exists s2. split; assumption. }
  split.
  { intros Hp. destruct (d_onRegionsChanged_ends _ _ _ _ _ Hp) as (N & s2 & E).
    exists N, s2. intros fuel Hle. rewrite Hend, E by exact Hle. reflexivity. }
  split.
  { intros Hn fuel. destruct (Hcases fuel) as [H|(s2 & _ & _ & Hp)]; [exact H|].
    contradiction. }
  split.
  { intros n Hn. unfold clamped. rewrite Hn.
    destruct (isFinal s q i) eqn:Ef.
    - apply d_final_no_successor in Ef. unfold after in Hn. rewrite Ef in Hn. discriminate.
    - apply d_clampTo_after. }
  split.
  { intros Hf. unfold clamped. rewrite Hf. apply d_clampTo_final. }
  intros p Hp Hroom Hdur. unfold clamped. rewrite Hp.
  apply d_clampTo_before; assumption.
Qed.

Lemma C4_witness :
  exists s,
    serveAll 10 Number_toString 100
             [req_addPoint 1 false; req_addPoint 2 false; req_addPoint 3 false] initial
    = Ret s
    /\ (exists s2, tryMovePoint 10 Number_toString 100 2 0.5 phase_end s = Ret (1.2, s2))
    /\ let before := timeAt (Engine.beats s) <$> predecessor s 0 1 in
       let after := timeAt (Engine.beats s) <$> successor s 0 1 in
       exists clamped s1,
         clamped = clampTo 10 0.5 before after (isFinal s 0 1)
         /\ (forall fuel,
               tryMovePoint 10 Number_toString fuel 2 0.5 phase_start s = Ret (clamped, s1)
               /\ tryMovePoint 10 Number_toString fuel 2 0.5 phase_move s
                  = Ret (clamped, s1))
         /\ timeAt (Engine.beats s1) 2 = clamped
         /\ (forall fuel,
               tryMovePoint 10 Number_toString fuel 2 0.5 phase_end s = OutOfFuel
               \/ exists s2,
                    tryMovePoint 10 Number_toString fuel 2 0.5 phase_end s
                    = Ret (clamped, s2)
                    /\ timeAt (Engine.beats s2) 2 = clamped)
         /\ (passEnds 10 Number_toString s1 [0%nat] true ->
             exists N s2, forall fuel, (N <= fuel)%nat ->
               tryMovePoint 10 Number_toString fuel 2 0.5 phase_end s = Ret (clamped, s2))
         /\ (~ passEnds 10 Number_toString s1 [0%nat] true ->
             forall fuel,
               tryMovePoint 10 Number_toString fuel 2 0.5 phase_end s = OutOfFuel)
         /\ (forall n, after = Some n -> (n - MIN_BEAT_SPACING <? clamped) = false)
         /\ (isFinal s 0 1 = true -> (10 <? clamped) = false)
         /\ (forall p, before = Some p ->
               (forall n, after = Some n ->
                          (n - MIN_BEAT_SPACING <? p + MIN_BEAT_SPACING) = false) ->
               (isFinal s 0 1 = true -> (10 <? p + MIN_BEAT_SPACING) = false) ->
               (clamped <? p + MIN_BEAT_SPACING) = false).
Proof.
  eexists. split; [vm_compute; reflexivity|].
  split; [eexists; vm_compute; reflexivity|].
  eapply (C4_tryMovePoint_clamps 10 Number_toString _ 2%nat 2%nat _ 0%nat 1%nat).
  - reflexivity.
  - reflexivity.
  - reflexivity.
  - reflexivity.
  - reflexivity.
  - reflexivity.
  - intros j b Hj Hb. assert (j = 0%nat) by lia. subst j.
    vm_compute in Hb. injection Hb as <-. vm_compute. discriminate.
  - intros next Hn. vm_compute in Hn. discriminate.
Defined.

(** C4, as stated, fails in four ways.  (1) A tempo-change beat may be put
    closer than the floor after the beat before it, and the clamp then
    takes the minimum against the beat after it last: with beats at 1 and
    1.375 and a tempo change added at 1.125, moving the tempo-change beat
    towards 5 returns 1.175, less than a floor after 1.  (2) The bounds are
    sums and differences in binary64: with beats at 1 and 5, moving the
    second to 0 returns 1.2, the sum of 1 and the floor, and the distance
    of 1.2 from 1 is below the floor.  (3) The call does not always
    succeed: in the engine loaded from a first region with the beat 1 and a
    second region without beats, moving that beat throws a TypeError.
    (4) It does not always return: in the engine loaded from one fixed
    region of 1e30 bpm with a beat at 40, of a track of 100 s, moving the
    beat to 50 with the phase [end] runs the save pass, whose loop adds a
    period of 6e-29 s to 50 and stays at 50. *)
Lemma C4_move_fails :
  (exists s clamped s1,
      serveAll 10 Number_toString 100
               [req_addPoint 1 false; req_addPoint 1.375 false; req_addPoint 1.125 true]
               initial = Ret s
      /\ Engine.userBeatsById s !! 3%nat = Some (Some 3%nat)
      /\ tryMovePoint 10 Number_toString 100 3 5 phase_move s = Ret (clamped, s1)
      /\ timeAt (Engine.beats s) <$> predecessor s 1 0 = Some 1
      /\ clamped = 1.175
      /\ (clamped <? 1 + MIN_BEAT_SPACING) = true)
  /\ (exists s clamped s1,
         serveAll 10 Number_toString 100 [req_addPoint 1 false; req_addPoint 5 false] initial
         = Ret s
         /\ Engine.userBeatsById s !! 2%nat = Some (Some 2%nat)
         /\ tryMovePoint 10 Number_toString 100 2 0 phase_move s = Ret (clamped, s1)
         /\ timeAt (Engine.beats s) <$> predecessor s 0 1 = Some 1
         /\ clamped = 1.2
         /\ (clamped - 1 <? MIN_BEAT_SPACING) = true)
  /\ (exists s,
         Annotate 10 Number_toString 100
                  (Some [SavedRegion.mk false saved_tapped [1] [];
                         SavedRegion.mk false saved_tapped [] []]) = Ret s
         /\ Engine.userBeatsById s !! 1%nat = Some (Some 1%nat)
         /\ tryMovePoint 10 Number_toString 100 1 3 phase_move s = Throw TypeError)
  /\ (exists s,
         (forall fuel,
             Annotate 100 Number_toString fuel
                      (Some [SavedRegion.mk false (saved_fixed 1e30) [40] []]) = Ret s)
         /\ Engine.userBeatsById s !! 1%nat = Some (Some 1%nat)
         /\ forall fuel, tryMovePoint 100 Number_toString fuel 1 50 phase_end s = OutOfFuel).
Proof.
  split; [|split; [|split]].
  - eexists. eexists. eexists.
    split; [vm_compute; reflexivity|]. split; [reflexivity|].
    split; [vm_compute; reflexivity|]. split; [reflexivity|]. split; reflexivity.
  - eexists. eexists. eexists.
    split; [vm_compute; reflexivity|]. split; [reflexivity|].
    split; [vm_compute; reflexivity|]. split; [reflexivity|]. split; reflexivity.
  - eexists. split; [vm_compute; reflexivity|]. split; [reflexivity|].
    vm_compute. reflexivity.
  - eexists. split; [intros fuel; vm_compute; reflexivity|]. split; [reflexivity|].
    intros fuel.
    match goal with
    | |- tryMovePoint _ _ _ _ _ _ ?s = _ =>
        destruct (d_tryMovePoint_clampTo 100 Number_toString fuel s 1%nat 1%nat
                    (beatAt (Engine.beats s) 1) 0%nat 0%nat
                    (default (TempoRegion.mk 0 0 [] [] None None false (tapped None))
                             (Engine.regions s !! 0%nat)) 50)
          as (s1 & _ & Hm & Hend & _)
    end.
    + reflexivity.
    + reflexivity.
    + reflexivity.
    + reflexivity.
    + reflexivity.
    + reflexivity.
    + intros j b Hj. lia.
    + intros next _ Hn. vm_compute in Hn. discriminate.
    + rewrite Hend.
      destruct (onRegionsChanged 100 Number_toString fuel s1 [0%nat] true) as [s2|e|] eqn:E;
        [exfalso | exfalso; exact (d_onRegionsChanged_noThrow _ _ _ _ _ _ _ E) | reflexivity].
      apply d_onRegionsChanged_ended in E. destruct E as [_ Hs]. specialize (Hs eq_refl).
      vm_compute in Hm. injection Hm as Hs1. subst s1. unfold savingEnds in Hs.
      match type of Hs with
      | Forall _ ?rs => let v := eval vm_compute in rs in change rs with v in Hs
      end.
      inversion Hs as [|r rs Hr _]; subst. unfold loopsEnd in Hr. simpl in Hr.
      revert Hr. apply d_loopEnds_stuck; vm_compute; reflexivity.
Qed.

(** ** Saving and loading *)

Lemma d_timeAt_insert_ne (h : gmap nat UserBeat.t) (a k : nat) (b : UserBeat.t) :
  a <> k -> timeAt (<[a := b]> h) k = timeAt h k.
Proof. intros H. unfold timeAt, beatAt. rewrite lookup_insert_ne by exact H. reflexivity. Qed.



Section Load.

Variable duration : float.
Variable numberToString : float -> string.



End Load.




Section Construct.

Variable duration : float.
Variable numberToString : float -> string.




End Construct.





(** ** The projection window *)

Lemma d_autoBeatPlace_set_autoBeats (h : gmap nat UserBeat.t) (r : TempoRegion.t)
      (l : list AutoBeat.t) (x : float) :
  autoBeatPlace h (TempoRegion.set_autoBeats r l) x <-> autoBeatPlace h r x.
Proof. destruct r. reflexivity. Qed.

Lemma d_autoBeatPlace_isNaN (h : gmap nat UserBeat.t) (r : TempoRegion.t) (x : float) :
  autoBeatPlace h r x -> isNaN x = false.
Proof.
  unfold autoBeatPlace. destruct (TempoRegion.tempo r) as [[[mp sd]|]|bpm ph].
  - intros (i & u & k & _ & _ & H). apply (ltb_isNaN _ _ H).
  - intros [].
  - intros [_ H]. apply (ltb_isNaN _ _ H).
Qed.

(** A time that passes the filter of the projection for a region in view
    is in the window around the viewport and in the track. *)
Lemma d_drawn_window (duration : float) (vp : float * float) (r : TempoRegion.t)
      (t : float) :
  inView duration vp r = true -> drawn duration vp t = true ->
  ((t <? fst vp - drawBuffer) = false /\ (snd vp + drawBuffer <=? t) = false)
  /\ ((t <? 0) = false /\ (duration <=? t) = false).
Proof.
  unfold inView, drawn. intros Hv Hd.
  apply andb_prop in Hv. destruct Hv as [Hs He].
  apply negb_true_iff in Hd. apply orb_false_iff in Hd. destruct Hd as [Hlo Hhi].
  destruct (leb_isNaN _ _ Hs) as [Hns _]. destruct (ltb_isNaN _ _ He) as [_ Hne].
  unfold drawStart in Hlo, Hns. unfold drawEnd in Hhi, Hne.
  destruct (not_below_Math_max _ _ _ Hns Hlo) as [H1 H2].
  destruct (not_at_Math_min _ _ _ Hne Hhi) as [H3 H4].
  repeat split; assumption.
Qed.

Section Window.

Variable duration : float.
Variable fuel : nat.

(** What one region holds after the projection. *)
Lemma d_redrawn_window (vp : float * float) (h : gmap nat UserBeat.t)
      (r r' : TempoRegion.t) :
  redrawn duration fuel vp h r r' ->
  (inView duration vp r' = false -> TempoRegion.autoBeats r' = [])
  /\ forall b, In b (TempoRegion.autoBeats r') ->
       let t := AutoBeat.time b in
       inView duration vp r' = true
       /\ drawn duration vp t = true
       /\ ((t <? fst vp - drawBuffer) = false /\ (snd vp + drawBuffer <=? t) = false)
       /\ ((t <? 0) = false /\ (duration <=? t) = false)
       /\ autoBeatPlace h r' t.
Proof.
  intros [He Hv].
  assert (Hview : inView duration vp r' = inView duration vp r).
  { rewrite He. apply d_inView_set_autoBeats. }
  rewrite Hview. destruct (inView duration vp r) eqn:Ev.
  - destruct Hv as (l & Hc & Hm). split; [discriminate|].
    intros b Hb t.
    assert (Ht : In t (List.filter (drawn duration vp) l)).
    { rewrite <- Hm. apply in_map. exact Hb. }
    apply List.filter_In in Ht. destruct Ht as [Hl Hd].
    split; [reflexivity|]. split; [exact Hd|].
    destruct (d_drawn_window duration vp r t Ev Hd) as [Hw Ht].
    split; [exact Hw|]. split; [exact Ht|].
    rewrite He. apply d_autoBeatPlace_set_autoBeats.
    eapply d_computeAutoBeats_In; eauto.
  - split; [intros _; exact Hv|]. rewrite Hv. intros b [].
Qed.

End Window.

(** C9, as amended.  The projection [drawAutopoints] throws nothing; it
    returns when the loops of the regions in view end, and does not return
    otherwise.  After it has returned for the viewport [(vs, ve)], a region
    out of view holds no auto beat, and every auto beat [t] a region holds
    passes the filter of the code, is not before [vs - 30] and not before
    0, and neither [ve + 30] nor the duration is at or before it.  In a
    fixed region [t] is a time of the loop that starts at
    [startTime + phaseOffset] and adds the period, and it is before
    [endTime]; in a tapped region it is a time of the loop that starts one
    period after a user beat of the region and adds the period, and it is
    before the user beat after that one, or before [endTime] after the last
    user beat.  [setViewport] with a viewport whose two times are equal
    ([===]) to the current ones returns the engine as it is, so no auto
    beat changes its id; with another viewport it is the projection for
    that viewport. *)
Theorem C9_projection_window (duration : float) (fuel : nat) (s : Engine.t) :
  (forall e, drawAutopoints duration fuel s <> Throw e)
  /\ (projectionEnds duration s ->
      exists N s', forall fuel', (N <= fuel')%nat ->
                                 drawAutopoints duration fuel' s = Ret s')
  /\ (~ projectionEnds duration s ->
      forall fuel', drawAutopoints duration fuel' s = OutOfFuel)
  /\ (forall s', drawAutopoints duration fuel s = Ret s' ->
        Engine.viewport s' = Engine.viewport s
        /\ Forall (fun r' =>
             (inView duration (Engine.viewport s) r' = false ->
              TempoRegion.autoBeats r' = [])
             /\ forall b, In b (TempoRegion.autoBeats r') ->
                  let t := AutoBeat.time b in
                  inView duration (Engine.viewport s) r' = true
                  /\ drawn duration (Engine.viewport s) t = true
                  /\ ((t <? fst (Engine.viewport s) - drawBuffer) = false
                      /\ (snd (Engine.viewport s) + drawBuffer <=? t) = false)
                  /\ ((t <? 0) = false /\ (duration <=? t) = false)
                  /\ autoBeatPlace (Engine.beats s') r' t)
           (Engine.regions s'))
  /\ (forall v,
        (fst v =? fst (Engine.viewport s)) && (snd v =? snd (Engine.viewport s)) = true ->
        setViewport duration fuel v s = Ret s)
  /\ (forall v,
        (fst v =? fst (Engine.viewport s)) && (snd v =? snd (Engine.viewport s)) = false ->
        setViewport duration fuel v s
        = drawAutopoints duration fuel (Engine.set_viewport s v)).
Proof.
  split; [intros e; apply d_drawAutopoints_noThrow|].
  split; [apply d_drawAutopoints_ends|].
  split.
  { intros Hn fuel'.
    destruct (drawAutopoints duration fuel' s) as [s'|e|] eqn:E; [| |reflexivity].
    - exfalso. apply Hn. eapply d_drawAutopoints_ended. exact E.
    - exfalso. exact (d_drawAutopoints_noThrow _ _ _ _ E). }
  split.
  { intros s' H. apply d_drawAutopoints_spec in H.
    destruct H as (HF & Hb & _ & _ & _ & Hv & _). split; [exact Hv|]. rewrite Hb.
    revert HF. generalize (Engine.regions s'). generalize (Engine.regions s).
    intros rs rs' HF. induction HF as [|r r' rs rs' Hr _ IH]; constructor; [|exact IH].
    apply (d_redrawn_window duration fuel _ _ _ _ Hr). }
  split.
  - intros v H. unfold setViewport. rewrite H. reflexivity.
  - intros v H. unfold setViewport. rewrite H. reflexivity.
Qed.

Lemma C9_witness :
  exists s s',
    serveAll 10 Number_toString 100
             [req_addPoint 1 false; req_addPoint 1.5 false; req_addPoint 2 false] initial
    = Ret s
    /\ setViewport 10 100 (1, 2) s = Ret s'
    /\ List.map (fun r => List.map AutoBeat.time (TempoRegion.autoBeats r)) (Engine.regions s')
       = [[2.5; 3; 3.5; 4; 4.5; 5; 5.5; 6; 6.5; 7; 7.5; 8; 8.5; 9; 9.5]]
    /\ (forall e, drawAutopoints 10 100 s' <> Throw e)
    /\ (projectionEnds 10 s' ->
        exists N s2, forall fuel', (N <= fuel')%nat -> drawAutopoints 10 fuel' s' = Ret s2)
    /\ (~ projectionEnds 10 s' -> forall fuel', drawAutopoints 10 fuel' s' = OutOfFuel)
    /\ (forall s2, drawAutopoints 10 100 s' = Ret s2 ->
          Engine.viewport s2 = Engine.viewport s'
          /\ Forall (fun r' =>
               (inView 10 (Engine.viewport s') r' = false -> TempoRegion.autoBeats r' = [])
               /\ forall b, In b (TempoRegion.autoBeats r') ->
                    let t := AutoBeat.time b in
                    inView 10 (Engine.viewport s') r' = true
                    /\ drawn 10 (Engine.viewport s') t = true
                    /\ ((t <? fst (Engine.viewport s') - drawBuffer) = false
                        /\ (snd (Engine.viewport s') + drawBuffer <=? t) = false)
                    /\ ((t <? 0) = false /\ (10 <=? t) = false)
                    /\ autoBeatPlace (Engine.beats s2) r' t)
             (Engine.regions s2))
    /\ (forall v,
          (fst v =? fst (Engine.viewport s')) && (snd v =? snd (Engine.viewport s')) = true ->
          setViewport 10 100 v s' = Ret s')
    /\ (forall v,
          (fst v =? fst (Engine.viewport s')) && (snd v =? snd (Engine.viewport s')) = false ->
          setViewport 10 100 v s' = drawAutopoints 10 100 (Engine.set_viewport s' v)).
Proof.
  eexists. eexists.
  split; [vm_compute; reflexivity|].
  split; [vm_compute; reflexivity|].
  split; [vm_compute; reflexivity|].
  apply (C9_projection_window 10 100).
Defined.

(** C9, as stated, fails on both bounds of a region.  (1) A fixed region
    loaded with beats at 10 and 10.75 and 60 bpm gets the phase offset
    -0.25, and the projection for the viewport (5, 6) gives it an auto beat
    at 9.75, before its [startTime] 10.  (2) With beats at 0, 0.25, 1.0625
    and 1.5 and tempo changes added at 1.125 and 1.1875, moving the first
    tempo-change beat towards 0 puts it at 0.9875, a floor before the
    second one and before the beat 1.0625 of the region before it; that
    tapped region then ends at 0.9875, and the projection gives it the auto
    beat 1.046875, which the loop after the user beat 0.25 places before
    the user beat 1.0625. *)
Lemma C9_auto_beat_outside_region :
  (exists s s' r b,
      Annotate 20 Number_toString 100
               (Some [SavedRegion.mk false (saved_fixed 60) [10; 10.75] []]) = Ret s
      /\ setViewport 20 100 (5, 6) s = Ret s'
      /\ Engine.regions s' = [r]
      /\ TempoRegion.tempo r = fixed 60 (-0.25)
      /\ TempoRegion.startTime r = Some 10
      /\ TempoRegion.autoBeats r !! 0%nat = Some b
      /\ AutoBeat.time b = 9.75
      /\ (AutoBeat.time b <? toNumber (TempoRegion.startTime r)) = true)
  /\ (exists s clamped s1 s' r b,
         serveAll 10 Number_toString 100
                  [req_addPoint 0 false; req_addPoint 0.25 false; req_addPoint 1.0625 false;
                   req_addPoint 1.5 false; req_addPoint 1.125 true; req_addPoint 1.1875 true]
                  initial = Ret s
         /\ Engine.userBeatsById s !! 5%nat = Some (Some 5%nat)
         /\ tryMovePoint 10 Number_toString 100 5 0 phase_end s = Ret (clamped, s1)
         /\ setViewport 10 100 (0, 1) s1 = Ret s'
         /\ Engine.regions s' !! 0%nat = Some r
         /\ timesOf (Engine.beats s') r = [0; 0.25; 1.0625]
         /\ TempoRegion.startTime r = Some 0
         /\ TempoRegion.endTime r = Some clamped
         /\ TempoRegion.autoBeats r !! 2%nat = Some b
         /\ AutoBeat.time b = 1.046875
         /\ (toNumber (TempoRegion.endTime r) <? AutoBeat.time b) = true).
Proof.
  split.
  - eexists. eexists. eexists. eexists.
    split; [vm_compute; reflexivity|]. split; [vm_compute; reflexivity|].
    split; [reflexivity|]. split; [reflexivity|]. split; [reflexivity|].
    split; [reflexivity|]. split; reflexivity.
  - eexists. eexists. eexists. eexists. eexists. eexists.
    split; [vm_compute; reflexivity|]. split; [reflexivity|].
    split; [vm_compute; reflexivity|]. split; [vm_compute; reflexivity|].
    split; [reflexivity|]. split; [vm_compute; reflexivity|].
    split; [reflexivity|]. split; [reflexivity|]. split; [reflexivity|].
    split; reflexivity.
Qed.

End DoubleFacts.
